(** * Simulated warehouse: a shallow embedding of [code_simulation.py]

    The Python program keeps one mutable [Warehouse] object that owns the
    grid, the box stacks and the list of [Agent] objects; every agent holds a
    reference back to the warehouse.  Here the warehouse is a record that is
    threaded through a state-and-error monad, an agent is addressed by its
    slot in [agents], and a Python exception ([IndexError], [KeyError],
    [ValueError]) is the failure of the monad. *)

From stdpp Require Import gmap list sets sorting.
From Stdlib Require Import ZArith Lia.

Local Open Scope Z_scope.

(** ** Python lists *)

Module Py.

(** [l[i]]: a negative index counts from the end, anything outside
    [-len, len) raises [IndexError]. *)
Definition norm_index {A} (l : list A) (i : Z) : option nat :=
  if bool_decide (0 ≤ i < Z.of_nat (length l)) then Some (Z.to_nat i)
  else if bool_decide (- Z.of_nat (length l) ≤ i < 0)
       then Some (Z.to_nat (Z.of_nat (length l) + i))
       else None.

Definition index {A} (l : list A) (i : Z) : option A :=
  match norm_index l i with
  | Some n => l !! n
  | None => None
  end.

(** [l[i] = v] *)
Definition assign {A} (l : list A) (i : Z) (v : A) : option (list A) :=
  match norm_index l i with
  | Some n => Some (<[n := v]> l)
  | None => None
  end.

(** [l.remove(v)]: drops the first occurrence (the callers test
    membership first, so the [ValueError] case is not modelled). *)
Fixpoint remove `{EqDecision A} (v : A) (l : list A) : list A :=
  match l with
  | [] => []
  | a :: l' => if decide (a = v) then l' else a :: remove v l'
  end.

(** [range(lo, hi)] *)
Definition range (lo hi : Z) : list Z := seqZ lo (hi - lo).

(** [v in l] *)
Definition contains `{EqDecision A} (v : A) (l : list A) : bool :=
  bool_decide (v ∈ l).

End Py.

(** ** Data model *)

Inductive AgentState := SEARCHING | DELIVERING | PICKING_UP.

Inductive MsgType := BOX_DISCOVERED | TARGET_CLAIMED | TARGET_RELEASED | BOX_PICKED.

Inductive CellType := CEmpty | CWall | CBox | CRobot | CUnknown.

#[global] Instance AgentState_eq_dec : EqDecision AgentState.
Proof. solve_decision. Defined.
#[global] Instance MsgType_eq_dec : EqDecision MsgType.
Proof. solve_decision. Defined.
#[global] Instance CellType_eq_dec : EqDecision CellType.
Proof. solve_decision. Defined.

Abbreviation Pos := (Z * Z)%type (only parsing).

Record Message := mkMessage {
  msg_type : MsgType;
  msg_position : Pos;
  msg_from_agent : Z
}.

#[global] Instance Message_eq_dec : EqDecision Message.
Proof. solve_decision. Defined.

Record Box := mkBox {
  bx_id : Z;
  bx_x : Z;
  bx_y : Z;
  in_stack : bool;
  stack_size : Z
}.

Record Agent := mkAgent {
  ag_id : Z;
  ag_x : Z;
  ag_y : Z;
  carrying_box : bool;
  carried_box_id : option Z;
  movements : Z;
  state : AgentState;
  target : option Pos;
  path : list Pos;
  known_unassigned_boxes : list Pos;
  sensor_range : Z;
  communication_range : Z;
  messages : list Message;
  claimed_targets : gmap Pos Z
}.

(** Grid values: 0 = empty, 1 = wall, 2 = box, 3 + id = agent.  The grid is
    indexed [grid[x][y]]. *)
Record Warehouse := mkWarehouse {
  width : Z;
  height : Z;
  num_boxes : Z;
  num_agents : Z;
  grid : list (list Z);
  agents : list Agent;
  boxes : gmap Z Box;
  box_locations : gmap Pos (list Z);
  processed_boxes : gset Z;
  total_movements : Z;
  steps : Z;
  agent_deliveries : gmap Z Z
}.

(** Field assignments. *)
Definition set_pos (a : Agent) (nx ny : Z) : Agent :=
  mkAgent (ag_id a) nx ny (carrying_box a) (carried_box_id a) (movements a)
    (state a) (target a) (path a) (known_unassigned_boxes a) (sensor_range a)
    (communication_range a) (messages a) (claimed_targets a).
Definition set_carrying (a : Agent) (c : bool) (b : option Z) : Agent :=
  mkAgent (ag_id a) (ag_x a) (ag_y a) c b (movements a)
    (state a) (target a) (path a) (known_unassigned_boxes a) (sensor_range a)
    (communication_range a) (messages a) (claimed_targets a).
Definition set_movements (a : Agent) (m : Z) : Agent :=
  mkAgent (ag_id a) (ag_x a) (ag_y a) (carrying_box a) (carried_box_id a) m
    (state a) (target a) (path a) (known_unassigned_boxes a) (sensor_range a)
    (communication_range a) (messages a) (claimed_targets a).
Definition set_state (a : Agent) (s : AgentState) : Agent :=
  mkAgent (ag_id a) (ag_x a) (ag_y a) (carrying_box a) (carried_box_id a)
    (movements a) s (target a) (path a) (known_unassigned_boxes a)
    (sensor_range a) (communication_range a) (messages a) (claimed_targets a).
Definition set_target (a : Agent) (t : option Pos) : Agent :=
  mkAgent (ag_id a) (ag_x a) (ag_y a) (carrying_box a) (carried_box_id a)
    (movements a) (state a) t (path a) (known_unassigned_boxes a)
    (sensor_range a) (communication_range a) (messages a) (claimed_targets a).
Definition set_path (a : Agent) (p : list Pos) : Agent :=
  mkAgent (ag_id a) (ag_x a) (ag_y a) (carrying_box a) (carried_box_id a)
    (movements a) (state a) (target a) p (known_unassigned_boxes a)
    (sensor_range a) (communication_range a) (messages a) (claimed_targets a).
Definition set_known (a : Agent) (k : list Pos) : Agent :=
  mkAgent (ag_id a) (ag_x a) (ag_y a) (carrying_box a) (carried_box_id a)
    (movements a) (state a) (target a) (path a) k
    (sensor_range a) (communication_range a) (messages a) (claimed_targets a).
Definition set_messages (a : Agent) (m : list Message) : Agent :=
  mkAgent (ag_id a) (ag_x a) (ag_y a) (carrying_box a) (carried_box_id a)
    (movements a) (state a) (target a) (path a) (known_unassigned_boxes a)
    (sensor_range a) (communication_range a) m (claimed_targets a).
Definition set_claimed (a : Agent) (c : gmap Pos Z) : Agent :=
  mkAgent (ag_id a) (ag_x a) (ag_y a) (carrying_box a) (carried_box_id a)
    (movements a) (state a) (target a) (path a) (known_unassigned_boxes a)
    (sensor_range a) (communication_range a) (messages a) c.

Definition set_grid (w : Warehouse) (g : list (list Z)) : Warehouse :=
  mkWarehouse (width w) (height w) (num_boxes w) (num_agents w) g (agents w)
    (boxes w) (box_locations w) (processed_boxes w) (total_movements w)
    (steps w) (agent_deliveries w).
Definition set_agents (w : Warehouse) (l : list Agent) : Warehouse :=
  mkWarehouse (width w) (height w) (num_boxes w) (num_agents w) (grid w) l
    (boxes w) (box_locations w) (processed_boxes w) (total_movements w)
    (steps w) (agent_deliveries w).
Definition set_boxes (w : Warehouse) (b : gmap Z Box) : Warehouse :=
  mkWarehouse (width w) (height w) (num_boxes w) (num_agents w) (grid w)
    (agents w) b (box_locations w) (processed_boxes w) (total_movements w)
    (steps w) (agent_deliveries w).
Definition set_box_locations (w : Warehouse) (m : gmap Pos (list Z)) : Warehouse :=
  mkWarehouse (width w) (height w) (num_boxes w) (num_agents w) (grid w)
    (agents w) (boxes w) m (processed_boxes w) (total_movements w)
    (steps w) (agent_deliveries w).
Definition set_processed_boxes (w : Warehouse) (s : gset Z) : Warehouse :=
  mkWarehouse (width w) (height w) (num_boxes w) (num_agents w) (grid w)
    (agents w) (boxes w) (box_locations w) s (total_movements w)
    (steps w) (agent_deliveries w).
Definition set_counters (w : Warehouse) (tm st : Z) : Warehouse :=
  mkWarehouse (width w) (height w) (num_boxes w) (num_agents w) (grid w)
    (agents w) (boxes w) (box_locations w) (processed_boxes w) tm st
    (agent_deliveries w).
Definition set_agent_deliveries (w : Warehouse) (d : gmap Z Z) : Warehouse :=
  mkWarehouse (width w) (height w) (num_boxes w) (num_agents w) (grid w)
    (agents w) (boxes w) (box_locations w) (processed_boxes w)
    (total_movements w) (steps w) d.

(** ** The state-and-error monad over the warehouse *)

Definition M (A : Type) : Type := Warehouse -> option (A * Warehouse).

Definition ret {A} (a : A) : M A := fun w => Some (a, w).
Definition bind {A B} (m : M A) (k : A -> M B) : M B :=
  fun w => match m w with
           | Some (a, w') => k a w'
           | None => None
           end.
Definition raise {A} : M A := fun _ => None.
Definition get : M Warehouse := fun w => Some (w, w).
Definition modify (f : Warehouse -> Warehouse) : M unit := fun w => Some (tt, f w).
Definition lift {A} (o : option A) : M A :=
  fun w => match o with Some a => Some (a, w) | None => None end.

Notation "'let!' x ':=' m 'in' k" := (bind m (fun x => k))
  (at level 10, x pattern, m at level 100, k at level 200).
Notation "m ';;' k" := (bind m (fun _ => k))
  (at level 100, k at level 200, right associativity).

(** [for v in l: body v] *)
Fixpoint for_each {A} (l : list A) (body : A -> M unit) : M unit :=
  match l with
  | [] => ret tt
  | v :: l' => body v ;; for_each l' body
  end.

(** The agent object in slot [i] of [warehouse.agents], and assignments to
    its fields. *)
Definition self (i : nat) : M Agent := fun w => lift (agents w !! i) w.
Definition update_self (i : nat) (f : Agent -> Agent) : M unit :=
  let! a := self i in
  modify (fun w => set_agents w (<[i := f a]> (agents w))).

(** ** Warehouse methods *)

Definition grid_at (w : Warehouse) (x y : Z) : option Z :=
  match Py.index (grid w) x with
  | Some row => Py.index row y
  | None => None
  end.

Definition grid_assign (x y v : Z) : M unit :=
  fun w =>
    match Py.index (grid w) x with
    | Some row =>
        match Py.assign row y v with
        | Some row' =>
            match Py.assign (grid w) x row' with
            | Some g => Some (tt, set_grid w g)
            | None => None
            end
        | None => None
        end
    | None => None
    end.

Definition is_valid_position (w : Warehouse) (x y : Z) : bool :=
  bool_decide (0 ≤ x < width w) && bool_decide (0 ≤ y < height w).

Definition get_cell_type (w : Warehouse) (x y : Z) : option CellType :=
  if negb (is_valid_position w x y) then Some CWall
  else
    match grid_at w x y with
    | Some cell =>
        if cell =? 0 then Some CEmpty
        else if cell =? 1 then Some CWall
        else if cell =? 2 then Some CBox
        else if 3 <=? cell then Some CRobot
        else Some CUnknown
    | None => None
    end.

Definition can_move_to (w : Warehouse) (x y : Z) (agent_id : Z) : option bool :=
  if negb (is_valid_position w x y) then Some false
  else
    match grid_at w x y with
    | Some cell => Some ((cell =? 0) || (cell =? 2))
    | None => None
    end.

(** The outer option is the [KeyError] of [self.boxes[...]], the inner one
    is Python's [None]. *)
Definition get_box_at (w : Warehouse) (x y : Z) : option (option Box) :=
  match box_locations w !! (x, y) with
  | Some l =>
      match last l with
      | Some top =>
          match boxes w !! top with
          | Some b => Some (Some b)
          | None => None
          end
      | None => Some None
      end
  | None => Some None
  end.

Definition count_stack_size (w : Warehouse) (x y : Z) : Z :=
  match box_locations w !! (x, y) with
  | Some l => Z.of_nat (length l)
  | None => 0
  end.

Definition can_pick_up_box (w : Warehouse) (x y : Z) : bool :=
  count_stack_size w x y =? 1.

Definition can_place_box (w : Warehouse) (x y : Z) (agent_id : Z) : option bool :=
  match grid_at w x y with
  | Some cell =>
      if 5 <=? count_stack_size w x y then Some false
      else if 3 <=? cell then
        let agent_id_on_cell := cell - 3 in
        Some (agent_id_on_cell =? agent_id)
      else Some true
  | None => None
  end.

Definition update_box (box_id : Z) (f : Box -> Box) : M unit :=
  fun w =>
    match boxes w !! box_id with
    | Some b => Some (tt, set_boxes w (<[box_id := f b]> (boxes w)))
    | None => None
    end.

Definition remove_box_from_grid (x y : Z) : M unit :=
  let! w := get in
  match box_locations w !! (x, y) with
  | Some (b0 :: l0) =>
      let stack := b0 :: l0 in
      let box_id := List.last stack b0 in
      let stack' := removelast stack in
      modify (fun w => set_box_locations w (<[(x, y) := stack']> (box_locations w))) ;;
      modify (fun w => set_processed_boxes w ({[box_id]} ∪ processed_boxes w)) ;;
      update_box box_id (fun b => mkBox (bx_id b) (bx_x b) (bx_y b) false (stack_size b)) ;;
      update_box box_id (fun b => mkBox (bx_id b) (bx_x b) (bx_y b) (in_stack b) 1) ;;
      match stack' with
      | [] =>
          let! w := get in
          let! current_value := lift (grid_at w x y) in
          (if current_value =? 2 then grid_assign x y 0 else ret tt) ;;
          modify (fun w => set_box_locations w (delete (x, y) (box_locations w)))
      | _ => ret tt
      end
  | _ => ret tt
  end.

(** [agent_id] is optional in the source ([if agent_id is not None]). *)
Definition place_box (x y : Z) (box_id : Z) (agent_id : option Z) : M unit :=
  let! w := get in
  let stack := default [] (box_locations w !! (x, y)) in
  let stack' := stack ++ [box_id] in
  modify (fun w => set_box_locations w (<[(x, y) := stack']> (box_locations w))) ;;
  let! w := get in
  let! current_value := lift (grid_at w x y) in
  (if current_value <? 3 then grid_assign x y 2 else ret tt) ;;
  update_box box_id (fun b => mkBox (bx_id b) x (bx_y b) (in_stack b) (stack_size b)) ;;
  update_box box_id (fun b => mkBox (bx_id b) (bx_x b) y (in_stack b) (stack_size b)) ;;
  update_box box_id (fun b => mkBox (bx_id b) (bx_x b) (bx_y b) true (stack_size b)) ;;
  update_box box_id (fun b => mkBox (bx_id b) (bx_x b) (bx_y b) (in_stack b)
                                (Z.of_nat (length stack'))) ;;
  match agent_id with
  | Some aid =>
      let! w := get in
      match agent_deliveries w !! aid with
      | Some n => modify (fun w => set_agent_deliveries w (<[aid := n + 1]> (agent_deliveries w)))
      | None => raise
      end
  | None => ret tt
  end.

Definition count_organized_boxes (w : Warehouse) : Z :=
  map_fold (fun _ box_ids acc =>
              if 2 <=? Z.of_nat (length box_ids)
              then Z.of_nat (length box_ids) + acc else acc) 0 (box_locations w).

Definition all_boxes_organized (w : Warehouse) : bool :=
  if existsb carrying_box (agents w) then false
  else if bool_decide (map_Exists (fun _ box_ids => length box_ids = 1%nat) (box_locations w))
       then false
       else count_organized_boxes w =? num_boxes w.

(** ** Agent methods *)

Definition directions : list Pos := [(0, -1); (0, 1); (-1, 0); (1, 0)].

Definition receive_message (a : Agent) (message : Message) : Agent :=
  set_messages a (messages a ++ [message]).

Definition broadcast_message (i : nat) (message : Message) : M unit :=
  let! me := self i in
  modify (fun w =>
    set_agents w
      (map (fun agent =>
              if bool_decide (ag_id agent ≠ ag_id me) then
                let distance := Z.abs (ag_x agent - ag_x me) + Z.abs (ag_y agent - ag_y me) in
                if bool_decide (distance ≤ communication_range me)
                then receive_message agent message
                else agent
              else agent)
           (agents w))).

(** [any(agent.state == "DELIVERING" and agent.target == (nx, ny)
         for agent in self.warehouse.agents if agent.id != self.id)] *)
Definition is_shelf_target (w : Warehouse) (me : Agent) (p : Pos) : bool :=
  existsb (fun agent => bool_decide (state agent = DELIVERING)
                        && bool_decide (target agent = Some p))
          (filter (fun agent => ag_id agent ≠ ag_id me) (agents w)).

(** The inner loop of [sense_environment] along one direction; running out
    of the list and the two [break]s all end the ray. *)
Fixpoint sense_ray (i : nat) (dx dy : Z) (distances : list Z) : M unit :=
  match distances with
  | [] => ret tt
  | distance :: rest =>
      let! me := self i in
      let! w := get in
      let nx := ag_x me + dx * distance in
      let ny := ag_y me + dy * distance in
      if negb (is_valid_position w nx ny) then ret tt
      else
        let! cell_type := lift (get_cell_type w nx ny) in
        match cell_type with
        | CWall => ret tt
        | CBox =>
            let stack_size := count_stack_size w nx ny in
            (if stack_size =? 1 then
               if negb (is_shelf_target w me (nx, ny))
                  && negb (Py.contains (nx, ny) (known_unassigned_boxes me))
               then
                 update_self i (fun a =>
                   set_known a (known_unassigned_boxes a ++ [(nx, ny)])) ;;
                 if bool_decide (state me = SEARCHING)
                 then broadcast_message i (mkMessage BOX_DISCOVERED (nx, ny) (ag_id me))
                 else ret tt
               else ret tt
             else ret tt) ;;
            sense_ray i dx dy rest
        | _ => sense_ray i dx dy rest
        end
  end.

Definition sense_environment (i : nat) : M unit :=
  for_each directions (fun direction =>
    let '(dx, dy) := direction in
    let! me := self i in
    sense_ray i dx dy (Py.range 1 (sensor_range me + 1))).

Definition process_message (i : nat) (msg : Message) : M unit :=
  let pos := msg_position msg in
  let! me := self i in
  match msg_type msg with
  | BOX_DISCOVERED =>
      if negb (Py.contains pos (known_unassigned_boxes me))
      then update_self i (fun a => set_known a (known_unassigned_boxes a ++ [pos]))
      else ret tt
  | TARGET_CLAIMED =>
      update_self i (fun a =>
        set_claimed a (<[pos := msg_from_agent msg]> (claimed_targets a))) ;;
      if bool_decide (msg_from_agent msg ≠ ag_id me)
         && Py.contains pos (known_unassigned_boxes me)
      then update_self i (fun a => set_known a (Py.remove pos (known_unassigned_boxes a)))
      else ret tt
  | TARGET_RELEASED =>
      if bool_decide (is_Some (claimed_targets me !! pos))
      then update_self i (fun a => set_claimed a (delete pos (claimed_targets a)))
      else ret tt
  | BOX_PICKED =>
      if Py.contains pos (known_unassigned_boxes me)
      then update_self i (fun a => set_known a (Py.remove pos (known_unassigned_boxes a)))
      else ret tt
  end.

Definition process_messages (i : nat) : M unit :=
  let! me := self i in
  for_each (messages me) (process_message i) ;;
  update_self i (fun a => set_messages a []).

Definition claim_target (i : nat) (position : Pos) : M unit :=
  let! me := self i in
  update_self i (fun a => set_claimed a (<[position := ag_id a]> (claimed_targets a))) ;;
  broadcast_message i (mkMessage TARGET_CLAIMED position (ag_id me)).

Definition release_target (i : nat) (position : Pos) : M unit :=
  let! me := self i in
  if bool_decide (claimed_targets me !! position = Some (ag_id me)) then
    update_self i (fun a => set_claimed a (delete position (claimed_targets a))) ;;
    broadcast_message i (mkMessage TARGET_RELEASED position (ag_id me))
  else ret tt.

Definition is_target_available (me : Agent) (position : Pos) : bool :=
  match claimed_targets me !! position with
  | None => true
  | Some owner => bool_decide (owner = ag_id me)
  end.

(** Python compares the candidate tuples lexicographically. *)
Abbreviation Triple := (Z * Z * Z)%type (only parsing).

Definition triple_le (a b : Triple) : Prop :=
  let '(a1, a2, a3) := a in
  let '(b1, b2, b3) := b in
  a1 < b1 ∨ (a1 = b1 ∧ (a2 < b2 ∨ (a2 = b2 ∧ a3 ≤ b3))).

#[global] Instance triple_le_dec : RelDecision triple_le.
Proof. intros [[a1 a2] a3] [[b1 b2] b3]. unfold triple_le. apply _. Defined.

(** [candidates.sort()] and [candidates.sort(reverse=True)] *)
Definition sort (l : list Triple) : list Triple := merge_sort triple_le l.
Definition sort_reverse (l : list Triple) : list Triple := merge_sort (flip triple_le) l.

(** [candidates[0][1:]] of a list known to be non-empty *)
Definition first_position (l : list Triple) : option Pos :=
  match l with
  | (_, x, y) :: _ => Some (x, y)
  | [] => None
  end.

(** The score of the source is the float
    [-distance_to_center - distance_to_agent * 0.5]; the candidates carry
    twice that value as an integer.  The two order the candidates alike as
    long as the float is exact, that is while
    [2 * distance_to_center + distance_to_agent < 2^53]; past that the
    source rounds, and past the range of a float it raises [OverflowError],
    neither of which is modelled here. *)
Fixpoint empty_spot_candidates (w : Warehouse) (me : Agent) (center_x center_y : Z)
    (cells : list Pos) : option (list Triple) :=
  match cells with
  | [] => Some []
  | (x, y) :: rest =>
      match get_cell_type w x y with
      | Some cell_type =>
          match empty_spot_candidates w me center_x center_y rest with
          | Some candidates =>
              if bool_decide (cell_type = CEmpty) && is_target_available me (x, y) then
                let distance_to_center := Z.abs (x - center_x) + Z.abs (y - center_y) in
                let distance_to_agent := Z.abs (ag_x me - x) + Z.abs (ag_y me - y) in
                let score2 := - 2 * distance_to_center - distance_to_agent in
                Some ((score2, x, y) :: candidates)
              else Some candidates
          | None => None
          end
      | None => None
      end
  end.

Definition find_empty_spot_for_new_shelf (w : Warehouse) (me : Agent) : option (option Pos) :=
  let center_x := width w `div` 2 in
  let center_y := height w `div` 2 in
  let cells := x ← Py.range 1 (width w - 1); y ← Py.range 1 (height w - 1); [(x, y)] in
  match empty_spot_candidates w me center_x center_y cells with
  | Some candidates => Some (first_position (sort_reverse candidates))
  | None => None
  end.

Definition shelf_candidates (w : Warehouse) (me : Agent) : list Triple :=
  omap (fun entry : Pos * list Z =>
          let '((sx, sy), box_ids) := entry in
          let stack_size := Z.of_nat (length box_ids) in
          if bool_decide (1 ≤ stack_size < 5) then
            let distance := Z.abs (ag_x me - sx) + Z.abs (ag_y me - sy) in
            if is_target_available me (sx, sy) || bool_decide (target me = Some (sx, sy))
            then Some (- distance, sx, sy)
            else None
          else None)
       (map_to_list (box_locations w)).

Definition find_nearest_shelf (w : Warehouse) (me : Agent) : option (option Pos) :=
  match shelf_candidates w me with
  | [] => find_empty_spot_for_new_shelf w me
  | candidates => Some (first_position (sort_reverse candidates))
  end.

(** The loop of [find_nearest_known_box] over a copy of the known list; it
    removes stale entries from the agent's list while it runs. *)
Fixpoint known_box_candidates (i : nat) (known : list Pos) : M (list Triple) :=
  match known with
  | [] => ret []
  | (bx, by_) :: rest =>
      let! w := get in
      let! me := self i in
      if is_valid_position w bx by_ then
        let stack_size := count_stack_size w bx by_ in
        if (stack_size =? 0) || (1 <? stack_size) then
          (if Py.contains (bx, by_) (known_unassigned_boxes me)
           then update_self i (fun a =>
                  set_known a (Py.remove (bx, by_) (known_unassigned_boxes a)))
           else ret tt) ;;
          known_box_candidates i rest
        else if stack_size =? 1 then
          if negb (is_shelf_target w me (bx, by_)) && is_target_available me (bx, by_) then
            let distance := Z.abs (ag_x me - bx) + Z.abs (ag_y me - by_) in
            let! candidates := known_box_candidates i rest in
            ret ((distance, bx, by_) :: candidates)
          else known_box_candidates i rest
        else known_box_candidates i rest
      else known_box_candidates i rest
  end.

Definition find_nearest_known_box (i : nat) : M (option Pos) :=
  let! me := self i in
  match known_unassigned_boxes me with
  | [] => ret None
  | known =>
      let! candidates := known_box_candidates i known in
      ret (first_position (sort candidates))
  end.

(** ** Randomness

    The generator is a tape of raw draws; [random.randint(lo, hi)] maps a
    draw into the range and raises [ValueError] on an empty range, and
    [random.random() < 0.1] holds for one draw in ten. *)
Definition randint (lo hi : Z) (r : Z) : option Z :=
  if bool_decide (lo ≤ hi) then Some (lo + r `mod` (hi - lo + 1)) else None.

Definition random_below_tenth (r : Z) : bool := r `mod` 10 =? 0.

(** [while True] draws until a non-wall cell comes up; the tape running out
    stands for a loop that has not ended yet. *)
Fixpoint find_random_search_point (w : Warehouse) (tape : list Z) : option (Pos * list Z) :=
  match tape with
  | r1 :: r2 :: tape' =>
      match randint 1 (width w - 2) r1, randint 1 (height w - 2) r2 with
      | Some x, Some y =>
          match get_cell_type w x y with
          | Some cell_type =>
              if bool_decide (cell_type ≠ CWall) then Some ((x, y), tape')
              else find_random_search_point w tape'
          | None => None
          end
      | _, _ => None
      end
  | _ => None
  end.

(** ** Breadth-first search *)

(** What one pass of the [for dx, dy in directions] loop leaves behind:
    either the [return] of the finished route or the grown queue and
    visited set. *)
Inductive Expansion :=
| Found (route : list Pos)
| Continue (queue : list (Z * Z * list Pos)) (visited : gset Pos).

Fixpoint bfs_expand (w : Warehouse) (target_x target_y : Z) (x y : Z) (path : list Pos)
    (dirs : list Pos) (queue : list (Z * Z * list Pos)) (visited : gset Pos)
    : option Expansion :=
  match dirs with
  | [] => Some (Continue queue visited)
  | (dx, dy) :: dirs' =>
      let nx := x + dx in
      let ny := y + dy in
      if bool_decide ((nx, ny) ∈ visited) then
        bfs_expand w target_x target_y x y path dirs' queue visited
      else if negb (is_valid_position w nx ny) then
        bfs_expand w target_x target_y x y path dirs' queue visited
      else
        match grid_at w nx ny with
        | Some cell =>
            if (cell =? 0) || (cell =? 2) || bool_decide ((nx, ny) = (target_x, target_y)) then
              let new_path := path ++ [(dx, dy)] in
              if bool_decide ((nx, ny) = (target_x, target_y)) then Some (Found new_path)
              else bfs_expand w target_x target_y x y path dirs'
                     (queue ++ [(nx, ny, new_path)]) ({[(nx, ny)]} ∪ visited)
            else bfs_expand w target_x target_y x y path dirs' queue visited
        | None => None
        end
  end.

(** The [while queue] loop; [fuel] bounds the number of iterations. *)
Fixpoint bfs_loop (fuel : nat) (w : Warehouse) (target_x target_y : Z)
    (queue : list (Z * Z * list Pos)) (visited : gset Pos) : option (list Pos) :=
  match fuel with
  | O => None
  | S fuel' =>
      match queue with
      | [] => Some []
      | (x, y, path) :: queue' =>
          match bfs_expand w target_x target_y x y path directions queue' visited with
          | Some (Found route) => Some route
          | Some (Continue queue'' visited') =>
              bfs_loop fuel' w target_x target_y queue'' visited'
          | None => None
          end
      end
  end.

(** Every cell enters the queue at most once, so one iteration per cell of
    the grid, one for the start and one to see the queue empty are enough. *)
Definition bfs_fuel (w : Warehouse) : nat :=
  S (S (Z.to_nat (width w) * Z.to_nat (height w))).

Definition find_path_from (w : Warehouse) (x y : Z) (target_x target_y : Z)
    : option (list Pos) :=
  if bool_decide ((x, y) = (target_x, target_y)) then Some []
  else bfs_loop (bfs_fuel w) w target_x target_y [(x, y, [])] {[(x, y)]}.

Definition find_path_to (i : nat) (target_x target_y : Z) : M (list Pos) :=
  let! me := self i in
  let! w := get in
  lift (find_path_from w (ag_x me) (ag_y me) target_x target_y).

(** ** Actions *)

Definition pick_up_box (i : nat) (x y : Z) : M bool :=
  let! me := self i in
  if carrying_box me then ret false
  else
    let! w := get in
    let! top := lift (get_box_at w x y) in
    match top with
    | Some _ =>
        if can_pick_up_box w x y then
          let! top' := lift (get_box_at w x y) in
          match top' with
          | Some box =>
              update_self i (fun a => set_carrying a true (carried_box_id a)) ;;
              update_self i (fun a => set_carrying a (carrying_box a) (Some (bx_id box))) ;;
              remove_box_from_grid x y ;;
              let! me := self i in
              (if Py.contains (x, y) (known_unassigned_boxes me)
               then update_self i (fun a =>
                      set_known a (Py.remove (x, y) (known_unassigned_boxes a)))
               else ret tt) ;;
              broadcast_message i (mkMessage BOX_PICKED (x, y) (ag_id me)) ;;
              ret true
          | None => raise
          end
        else ret false
    | None => ret false
    end.

(** A carried id of [None] would make [place_box] fail on [self.boxes[None]]. *)
Definition drop_box (i : nat) : M bool :=
  let! me := self i in
  if negb (carrying_box me) then ret false
  else
    let! w := get in
    let! ok := lift (can_place_box w (ag_x me) (ag_y me) (ag_id me)) in
    if ok then
      match carried_box_id me with
      | Some box_id =>
          place_box (ag_x me) (ag_y me) box_id (Some (ag_id me)) ;;
          update_self i (fun a => set_carrying a false (carried_box_id a)) ;;
          update_self i (fun a => set_carrying a (carrying_box a) None) ;;
          ret true
      | None => raise
      end
    else ret false.

Definition move (i : nat) (direction : Pos) : M bool :=
  let '(dx, dy) := direction in
  let! me := self i in
  let nx := ag_x me + dx in
  let ny := ag_y me + dy in
  let! w := get in
  let! ok := lift (can_move_to w nx ny (ag_id me)) in
  if ok then
    let! old_value := lift (grid_at w (ag_x me) (ag_y me)) in
    (if 3 <=? old_value then
       if 0 <? count_stack_size w (ag_x me) (ag_y me)
       then grid_assign (ag_x me) (ag_y me) 2
       else grid_assign (ag_x me) (ag_y me) 0
     else ret tt) ;;
    update_self i (fun a => set_pos a nx ny) ;;
    grid_assign nx ny (3 + ag_id me) ;;
    update_self i (fun a => set_movements a (movements a + 1)) ;;
    sense_environment i ;;
    ret true
  else ret false.

(** [if self.target: self.release_target(self.target)] *)
Definition release_current_target (i : nat) : M unit :=
  let! me := self i in
  match target me with
  | Some t => release_target i t
  | None => ret tt
  end.

(** [self.target = p; self.claim_target(p); self.path = self.find_path_to(p)] *)
Definition retarget (i : nat) (p : Pos) : M unit :=
  update_self i (fun a => set_target a (Some p)) ;;
  claim_target i p ;;
  let! route := find_path_to i (fst p) (snd p) in
  update_self i (fun a => set_path a route).

(** The exploration branch of the SEARCHING state: a new random point is
    drawn when the route is empty, or else when [random.random() < 0.1]. *)
Definition explore (i : nat) (tape : list Z) : M (list Z) :=
  let! me := self i in
  let reroll (tape : list Z) : M (list Z) :=
    let! w := get in
    let! drawn := lift (find_random_search_point w tape) in
    let '(random_point, tape') := drawn in
    update_self i (fun a => set_target a (Some random_point)) ;;
    let! route := find_path_to i (fst random_point) (snd random_point) in
    update_self i (fun a => set_path a route) ;;
    ret tape' in
  match path me with
  | [] => reroll tape
  | _ =>
      match tape with
      | r :: tape' => if random_below_tenth r then reroll tape' else ret tape'
      | [] => raise
      end
  end.

Definition decide_action (i : nat) (tape : list Z) : M (list Z) :=
  process_messages i ;;
  sense_environment i ;;
  let! me := self i in
  match state me with
  | SEARCHING =>
      let! known_box := find_nearest_known_box i in
      match known_box with
      | Some known_box =>
          update_self i (fun a => set_state a PICKING_UP) ;;
          retarget i known_box ;;
          ret tape
      | None => explore i tape
      end
  | DELIVERING =>
      let! w := get in
      let! shelf := lift (find_nearest_shelf w me) in
      match shelf with
      | Some shelf =>
          if bool_decide (target me ≠ Some shelf) then
            release_current_target i ;;
            retarget i shelf ;;
            ret tape
          else
            match path me with
            | [] =>
                let! route := find_path_to i (fst shelf) (snd shelf) in
                update_self i (fun a => set_path a route) ;;
                ret tape
            | _ => ret tape
            end
      | None =>
          drop_box i ;;
          update_self i (fun a => set_state a SEARCHING) ;;
          ret tape
      end
  | PICKING_UP =>
      match target me with
      | Some t =>
          if is_target_available me t then
            match path me with
            | [] =>
                let! route := find_path_to i (fst t) (snd t) in
                update_self i (fun a => set_path a route)
            | _ => ret tt
            end ;;
            ret tape
          else
            release_target i t ;;
            let! known_box := find_nearest_known_box i in
            match known_box with
            | Some known_box => retarget i known_box
            | None =>
                update_self i (fun a => set_state a SEARCHING) ;;
                update_self i (fun a => set_target a None)
            end ;;
            ret tape
      | None =>
          let! known_box := find_nearest_known_box i in
          match known_box with
          | Some known_box => retarget i known_box
          | None =>
              update_self i (fun a => set_state a SEARCHING) ;;
              update_self i (fun a => set_target a None)
          end ;;
          ret tape
      end
  end.

Definition execute_action (i : nat) : M unit :=
  let! me := self i in
  match path me with
  | direction :: path' =>
      update_self i (fun a => set_path a path') ;;
      let! success := move i direction in
      (if negb success then update_self i (fun a => set_path a []) else ret tt) ;;
      let! me := self i in
      match path me, target me with
      | [], Some t =>
          if bool_decide ((ag_x me, ag_y me) = t) then
            match state me with
            | PICKING_UP =>
                let! success := pick_up_box i (ag_x me) (ag_y me) in
                release_current_target i ;;
                (if success then update_self i (fun a => set_state a DELIVERING)
                 else update_self i (fun a => set_state a SEARCHING)) ;;
                update_self i (fun a => set_target a None)
            | DELIVERING =>
                let! success := drop_box i in
                release_current_target i ;;
                update_self i (fun a => set_target a None) ;;
                let! known_box := find_nearest_known_box i in
                match known_box with
                | Some known_box =>
                    update_self i (fun a => set_state a PICKING_UP) ;;
                    retarget i known_box
                | None => update_self i (fun a => set_state a SEARCHING)
                end
            | SEARCHING => update_self i (fun a => set_target a None)
            end
          else ret tt
      | _, _ => ret tt
      end
  | [] => sense_environment i
  end.

(** ** Construction and the simulation loop *)

Definition new_agent (agent_id x y : Z) : Agent :=
  mkAgent agent_id x y false None 0 SEARCHING None [] [] 3 8 [] ∅.

(** [Warehouse.__init__] up to the call of [initialize_warehouse]. *)
Definition new_warehouse (width height num_boxes num_agents : Z) : Warehouse :=
  mkWarehouse width height num_boxes num_agents
    (replicate (Z.to_nat width) (replicate (Z.to_nat height) 0))
    [] ∅ ∅ ∅ 0 0
    (list_to_map ((fun i => (i, 0)) <$> Py.range 0 num_agents)).

(** [for v in l] with the random tape handed from one pass to the next. *)
Fixpoint for_each_tape {A} (l : list A) (body : A -> list Z -> M (list Z))
    (tape : list Z) : M (list Z) :=
  match l with
  | [] => ret tape
  | v :: l' => let! tape' := body v tape in for_each_tape l' body tape'
  end.

(** The [while not placed and attempts < 200] loop for one box. *)
Fixpoint place_initial_box (attempts : nat) (box_id : Z) (tape : list Z) : M (list Z) :=
  match attempts with
  | O => ret tape
  | S attempts' =>
      match tape with
      | r1 :: r2 :: tape' =>
          let! w := get in
          let! x := lift (randint 1 (width w - 2) r1) in
          let! y := lift (randint 1 (height w - 2) r2) in
          let! cell := lift (grid_at w x y) in
          if cell =? 0 then
            modify (fun w => set_boxes w (<[box_id := mkBox box_id x y false 1]> (boxes w))) ;;
            grid_assign x y 2 ;;
            modify (fun w => set_box_locations w (<[(x, y) := [box_id]]> (box_locations w))) ;;
            ret tape'
          else place_initial_box attempts' box_id tape'
      | _ => raise
      end
  end.

(** The same loop for one agent; [agent_positions] is the local list of the
    source. *)
Fixpoint place_initial_agent (attempts : nat) (agent_id : Z)
    (agent_positions : list Pos) (tape : list Z) : M (list Pos * list Z) :=
  match attempts with
  | O => ret (agent_positions, tape)
  | S attempts' =>
      match tape with
      | r1 :: r2 :: tape' =>
          let! w := get in
          let! x := lift (randint 1 (width w - 2) r1) in
          let! y := lift (randint 1 (height w - 2) r2) in
          let too_close :=
            existsb (fun '(ax, ay) => Z.abs (x - ax) + Z.abs (y - ay) <? 3) agent_positions in
          let! cell := lift (grid_at w x y) in
          if (cell =? 0) && negb too_close then
            modify (fun w => set_agents w (agents w ++ [new_agent agent_id x y])) ;;
            grid_assign x y (3 + agent_id) ;;
            modify (fun w =>
              match agent_deliveries w !! agent_id with
              | Some _ => w
              | None => set_agent_deliveries w (<[agent_id := 0]> (agent_deliveries w))
              end) ;;
            ret (agent_positions ++ [(x, y)], tape')
          else place_initial_agent attempts' agent_id agent_positions tape'
      | _ => raise
      end
  end.

Fixpoint place_initial_agents (ids : list Z) (agent_positions : list Pos)
    (tape : list Z) : M (list Z) :=
  match ids with
  | [] => ret tape
  | agent_id :: ids' =>
      let! placed := place_initial_agent 200 agent_id agent_positions tape in
      place_initial_agents ids' (fst placed) (snd placed)
  end.

Definition initialize_warehouse (tape : list Z) : M (list Z) :=
  let! w := get in
  for_each (Py.range 0 (width w)) (fun x =>
    grid_assign x 0 1 ;; grid_assign x (height w - 1) 1) ;;
  for_each (Py.range 0 (height w)) (fun y =>
    grid_assign 0 y 1 ;; grid_assign (width w - 1) y 1) ;;
  let! tape := for_each_tape (Py.range 0 (num_boxes w)) (place_initial_box 200) tape in
  place_initial_agents (Py.range 0 (num_agents w)) [] tape.

(** [Warehouse(width, height, num_boxes, num_agents)] *)
Definition Warehouse_init (width height num_boxes num_agents : Z) (tape : list Z)
    : option (list Z * Warehouse) :=
  initialize_warehouse tape (new_warehouse width height num_boxes num_agents).

(** [random.shuffle]: for [i] from the last slot down to 1, swap slot [i]
    with a slot drawn from [0..i]. *)
Fixpoint shuffle_slots {A} (slots : list nat) (l : list A) (tape : list Z)
    : option (list A * list Z) :=
  match slots with
  | [] => Some (l, tape)
  | i :: slots' =>
      match tape with
      | r :: tape' =>
          let j := Z.to_nat (r `mod` Z.of_nat (S i)) in
          match l !! i, l !! j with
          | Some a, Some b => shuffle_slots slots' (<[i := b]> (<[j := a]> l)) tape'
          | _, _ => None
          end
      | [] => None
      end
  end.

Definition shuffle {A} (l : list A) (tape : list Z) : option (list A * list Z) :=
  shuffle_slots (reverse (seq 1 (length l - 1))) l tape.

Definition agent_turn (i : nat) (tape : list Z) : M (list Z) :=
  let! tape' := decide_action i tape in
  execute_action i ;;
  ret tape'.

Definition sum_movements (l : list Agent) : Z :=
  foldr (fun agent acc => movements agent + acc) 0 l.

(** One pass of the body of the [for step in range(max_steps)] loop, up to
    the completion test. *)
Definition simulation_step (step : Z) (tape : list Z) : M (list Z) :=
  modify (fun w => set_counters w (total_movements w) (step + 1)) ;;
  let! w := get in
  let! shuffled := lift (shuffle (agents w) tape) in
  modify (fun w => set_agents w (fst shuffled)) ;;
  let! tape' := for_each_tape (seq 0 (length (agents w))) agent_turn (snd shuffled) in
  modify (fun w => set_counters w (sum_movements (agents w)) (steps w)) ;;
  ret tape'.

(** [run_simulation]; the reports it prints are left out. *)
Fixpoint run_steps (remaining : nat) (step : Z) (tape : list Z) : M (list Z) :=
  match remaining with
  | O => ret tape
  | S remaining' =>
      let! tape' := simulation_step step tape in
      let! w := get in
      if all_boxes_organized w then ret tape'
      else run_steps remaining' (step + 1) tape'
  end.

Definition run_simulation (max_steps : nat) (tape : list Z) : M bool :=
  run_steps max_steps 0 tape ;;
  let! w := get in
  ret (all_boxes_organized w).

(** * Specification vocabulary *)

(** ** Relations preserved by monadic code *)

(** Every terminating run of [m] relates the state before to the state
    after. *)
Definition preserves {A} (R : relation Warehouse) (m : M A) : Prop :=
  ∀ w r w', m w = Some (r, w') → R w w'.

(** The relation of an invariant: it holds after if it held before. *)
Definition keeps (P : Warehouse → Prop) : relation Warehouse :=
  fun w w' => P w → P w'.

(** ** The physical core of the state

    What an agent knows, plans and has in its inbox is soft state; the rest
    of an agent is its core. *)
Definition agent_core (a : Agent) : Z * Z * Z * bool * option Z * Z * AgentState * Z * Z :=
  (ag_id a, ag_x a, ag_y a, carrying_box a, carried_box_id a, movements a,
   state a, sensor_range a, communication_range a).

Definition same_core (w w' : Warehouse) : Prop :=
  width w' = width w ∧ height w' = height w ∧
  num_boxes w' = num_boxes w ∧ num_agents w' = num_agents w ∧
  grid w' = grid w ∧ boxes w' = boxes w ∧
  box_locations w' = box_locations w ∧
  processed_boxes w' = processed_boxes w ∧
  total_movements w' = total_movements w ∧ steps w' = steps w ∧
  agent_deliveries w' = agent_deliveries w ∧
  agent_core <$> agents w' = agent_core <$> agents w.

(** ** Geometry: the grid and the agents on it *)

Definition agent_place (a : Agent) : Z * Z * Z := (ag_id a, ag_x a, ag_y a).

Definition same_geo (w w' : Warehouse) : Prop :=
  width w' = width w ∧ height w' = height w ∧ grid w' = grid w ∧
  agent_place <$> agents w' = agent_place <$> agents w.

(** The grid is a [width] by [height] rectangle. *)
Definition grid_wf (w : Warehouse) : Prop :=
  length (grid w) = Z.to_nat (width w) ∧
  Forall (fun row => length row = Z.to_nat (height w)) (grid w).

Definition on_perimeter (w : Warehouse) (x y : Z) : Prop :=
  x = 0 ∨ x = width w - 1 ∨ y = 0 ∨ y = height w - 1.

(** The perimeter cells are walls. *)
Definition walls_ok (w : Warehouse) : Prop :=
  ∀ x y, is_valid_position w x y = true → on_perimeter w x y → grid_at w x y = Some 1.

(** An agent stands on a cell of the grid that carries its own marker. *)
Definition agent_placed (w : Warehouse) (a : Agent) : Prop :=
  0 ≤ ag_id a ∧ is_valid_position w (ag_x a) (ag_y a) = true ∧
  grid_at w (ag_x a) (ag_y a) = Some (3 + ag_id a).

Definition geometry_ok (w : Warehouse) : Prop :=
  grid_wf w ∧ walls_ok w ∧ NoDup (ag_id <$> agents w) ∧ Forall (agent_placed w) (agents w).

(** ** Stacks and carried boxes *)


Definition carried (a : Agent) : nat := if carrying_box a then 1%nat else 0%nat.

Definition items_carried (w : Warehouse) : nat := sum_list_with carried (agents w).

Definition stacked (m : gmap Pos (list Z)) : nat :=
  map_fold (fun _ box_ids n => (length box_ids + n)%nat) 0%nat m.

Definition items_in_stacks (w : Warehouse) : nat := stacked (box_locations w).

Definition carrying_at (i : nat) (w : Warehouse) : bool :=
  default false (carrying_box <$> agents w !! i).

Definition stack_at (m : gmap Pos (list Z)) (p : Pos) : list Z := default [] (m !! p).

(** The two ways the stacks and the carrying flag of the acting agent can
    change: the only box of a stack is taken, or the carried box is put on a
    stack of fewer than five. *)
Inductive stack_step : gmap Pos (list Z) * bool → gmap Pos (list Z) * bool → Prop :=
| step_remove m p b :
    m !! p = Some [b] →
    stack_step (m, false) (delete p m, true)
| step_place m p b :
    (length (stack_at m p) < 5)%nat →
    stack_step (m, true) (<[p := stack_at m p ++ [b]]> m, false).

(** The boxes in a pair of stacks and carrying flag. *)
Definition weight (s : gmap Pos (list Z) * bool) : nat :=
  (stacked s.1 + if s.2 then 1 else 0)%nat.

Definition stacks_ok (w : Warehouse) : Prop :=
  ∀ p l, box_locations w !! p = Some l → (length l ≤ 5)%nat.

(** The stacks alone: a change is the removal of the only box of a stack or
    a placement on a stack of fewer than five. *)
Definition stack_change (m m' : gmap Pos (list Z)) : Prop :=
  (∃ p b, m !! p = Some [b] ∧ m' = delete p m) ∨
  (∃ p b, (length (stack_at m p) < 5)%nat ∧ m' = <[p := stack_at m p ++ [b]]> m).

Definition delivering_carries (w : Warehouse) : Prop :=
  Forall (fun a => state a = DELIVERING → carrying_box a = true) (agents w).

(** ** Reachable states *)

(** The states the simulation passes through between the turns of the
    agents, from the warehouse [w0] that the constructor returned. *)
Inductive reachable (w0 : Warehouse) : Warehouse → Prop :=
| reach_start : reachable w0 w0
| reach_shuffle w tape l tape' :
    reachable w0 w →
    shuffle (agents w) tape = Some (l, tape') →
    reachable w0 (set_agents w l)
| reach_turn w i tape tape' w' :
    reachable w0 w →
    agent_turn i tape w = Some (tape', w') →
    reachable w0 w'
| reach_counters w tm st :
    reachable w0 w →
    reachable w0 (set_counters w tm st).

Definition constructed (w0 : Warehouse) : Prop :=
  ∃ width height num_boxes num_agents tape tape',
    Warehouse_init width height num_boxes num_agents tape = Some (tape', w0).

(** A projection of the state that a run leaves unchanged. *)
Definition fixes {X} (f : Warehouse → X) : relation Warehouse :=
  fun w w' => f w' = f w.

(** A property that holds after every terminating run. *)
Definition ensures {A} (Q : Warehouse → Prop) (m : M A) : Prop :=
  ∀ w r w', m w = Some (r, w') → Q w'.

(** The agent in slot [i], if it is delivering, carries a box. *)
Definition self_ok (i : nat) (w : Warehouse) : Prop :=
  ∀ a, agents w !! i = Some a → state a = DELIVERING → carrying_box a = true.

Definition not_delivering (i : nat) (w : Warehouse) : Prop :=
  ∀ a, agents w !! i = Some a → state a ≠ DELIVERING.

Definition carryings (w : Warehouse) : list bool := carrying_box <$> agents w.
Definition states (w : Warehouse) : list AgentState := state <$> agents w.
Definition dims (w : Warehouse) : Z * Z * Z * Z :=
  (width w, height w, num_boxes w, num_agents w).

(** What the agent in slot [i] never does: change the dimensions, the
    number of agents, the core of another agent or its own id. *)
Definition frame (i : nat) (w w' : Warehouse) : Prop :=
  dims w' = dims w ∧
  length (agents w') = length (agents w) ∧
  (∀ j, j ≠ i → agent_core <$> agents w' !! j = agent_core <$> agents w !! j) ∧
  ag_id <$> agents w' !! i = ag_id <$> agents w !! i.

Definition stacks_and_carryings (w : Warehouse) : gmap Pos (list Z) * list bool :=
  (box_locations w, carryings w).

(** The stacks and the carrying flag of slot [i] change by removals and
    placements only. *)
Definition stacks_rel (i : nat) (w w' : Warehouse) : Prop :=
  rtc stack_step (box_locations w, carrying_at i w) (box_locations w', carrying_at i w').

Definition flags (w : Warehouse) : list (AgentState * bool) :=
  (fun a => (state a, carrying_box a)) <$> agents w.

(** ** What the constructor establishes *)

Definition single_stacks (w : Warehouse) : Prop :=
  ∀ x y l, box_locations w !! (x, y) = Some l → grid_at w x y = Some 2 ∧ ∃ b, l = [b].

(** While the boxes are placed; [placed] are the ids tried so far. *)
Definition boxes_phase (placed : list Z) (w : Warehouse) : Prop :=
  grid_wf w ∧ walls_ok w ∧ agents w = [] ∧ single_stacks w ∧
  stacked (box_locations w) = size (boxes w) ∧
  (∀ b, is_Some (boxes w !! b) → b ∈ placed).

Definition fresh_agent (a : Agent) : Prop :=
  carrying_box a = false ∧ state a = SEARCHING.

(** While the agents are placed. *)
Definition agents_phase (placed : list Z) (w : Warehouse) : Prop :=
  geometry_ok w ∧ Forall fresh_agent (agents w) ∧
  Forall (fun a => ag_id a ∈ placed) (agents w) ∧
  (∀ p l, box_locations w !! p = Some l → ∃ b, l = [b]) ∧
  stacked (box_locations w) = size (boxes w).

(** The invariant of the simulation. *)
Record sim_inv (total : nat) (w : Warehouse) : Prop := {
  inv_geometry : geometry_ok w;
  inv_stacks : stacks_ok w;
  inv_delivering : delivering_carries w;
  inv_items : (items_in_stacks w + items_carried w = total)%nat
}.

(** ** A small warehouse to run

    Nine by seven cells, three boxes and two agents; after five steps of
    the simulation one agent has picked a box up and is delivering it. *)
Definition example_tape : list Z :=
  [0; 0; 1; 0; 2; 0; 3; 1; 5; 1; 6; 3] ++ replicate 200 7.

Definition example_init : option (list Z * Warehouse) :=
  Warehouse_init 9 7 3 2 example_tape.

Definition example_w0 : Warehouse :=
  match example_init with
  | Some (_, w) => w
  | None => new_warehouse 0 0 0 0
  end.

Definition example_tape1 : list Z :=
  match example_init with
  | Some (tape, _) => tape
  | None => []
  end.

Definition example_run : option (list Z * Warehouse) :=
  run_steps 5 0 example_tape1 example_w0.

Definition example_w1 : Warehouse :=
  match example_run with
  | Some (_, w) => w
  | None => example_w0
  end.

Definition example_tape2 : list Z :=
  match example_run with
  | Some (tape, _) => tape
  | None => []
  end.

(** The agent of [example_w1] that is delivering. *)
Definition example_agent : Agent :=
  default (new_agent 0 0 0) (head (agents example_w1)).

(** The cell carries the marker of an agent other than [agent_id]. *)
Definition occupied_by_other (w : Warehouse) (x y agent_id : Z) : Prop :=
  ∃ cell, grid_at w x y = Some cell ∧ 3 ≤ cell ∧ cell - 3 ≠ agent_id.

(** ** A delivering agent on a full stack

    Five by three cells, so three cells inside the walls.  Agent 0 stands on
    a stack of five at (1, 1), carries a sixth box and is DELIVERING; agent
    1 stands at (3, 1); the one empty cell (2, 1) is claimed by agent 1 in
    the claim table of agent 0.  The state is built by hand: the constructor
    cannot give it, and no run that leads to a state like it is known. *)
Definition fallback_w : Warehouse :=
  mkWarehouse 5 3 6 2
    [[1; 1; 1]; [1; 3; 1]; [1; 0; 1]; [1; 4; 1]; [1; 1; 1]]
    [mkAgent 0 1 1 true (Some 5) 0 DELIVERING None [] [] 3 8 [] {[(2, 1) := 1]};
     new_agent 1 3 1]
    (list_to_map ((fun b => (b, mkBox b 1 1 true 5)) <$> [0; 1; 2; 3; 4; 5]))
    {[(1, 1) := [0; 1; 2; 3; 4]]}
    ∅ 0 0
    (list_to_map [(0, 5); (1, 0)]).

Definition fallback_me : Agent :=
  mkAgent 0 1 1 true (Some 5) 0 DELIVERING None [] [] 3 8 [] {[(2, 1) := 1]}.

(** ** Sensing *)

(** The cell at distance [k] along a direction. *)
Definition ray_cell (me : Agent) (dx dy k : Z) : Z * Z :=
  (ag_x me + dx * k, ag_y me + dy * k).

(** The ray is not stopped at distance [k]: the cell is on the grid and
    is not a wall. *)
Definition ray_open (w : Warehouse) (me : Agent) (dx dy k : Z) : Prop :=
  is_valid_position w (ray_cell me dx dy k).1 (ray_cell me dx dy k).2 = true ∧
  ∃ cell_type, get_cell_type w (ray_cell me dx dy k).1 (ray_cell me dx dy k).2
               = Some cell_type ∧ cell_type ≠ CWall.

(** The agent sees the cell [p]: it lies on one of its four rays, within
    the sensor range, and the ray is open up to it. *)
Definition in_sight (w : Warehouse) (me : Agent) (p : Z * Z) : Prop :=
  ∃ dx dy k, (dx, dy) ∈ directions ∧ 1 ≤ k ≤ sensor_range me ∧
             p = ray_cell me dx dy k ∧
             ∀ j, 1 ≤ j ≤ k → ray_open w me dx dy j.

(** A new single box: a box cell in sight with a stack of one that no other
    delivering agent is heading for and that the agent does not know yet. *)
Definition new_single_box (w : Warehouse) (me : Agent) (p : Z * Z) : Prop :=
  in_sight w me p ∧
  get_cell_type w p.1 p.2 = Some CBox ∧
  count_stack_size w p.1 p.2 = 1 ∧
  is_shelf_target w me p = false ∧
  p ∉ known_unassigned_boxes me.

Definition discovery (me : Agent) (p : Z * Z) : Message :=
  mkMessage BOX_DISCOVERED p (ag_id me).

(** [agent] is another agent within the communication range of [me]. *)
Definition hears (me agent : Agent) : Prop :=
  ag_id agent ≠ ag_id me ∧
  Z.abs (ag_x agent - ag_x me) + Z.abs (ag_y agent - ag_y me) ≤ communication_range me.

#[global] Instance hears_dec me agent : Decision (hears me agent).
Proof. unfold hears. apply _. Defined.

Definition announce (me : Agent) (msgs : list Message) (agent : Agent) : Agent :=
  if bool_decide (hears me agent) then set_messages agent (messages agent ++ msgs)
  else agent.

(** The warehouse after the agent in slot [i] has found the cells [found]. *)
Definition sensed (w : Warehouse) (i : nat) (me : Agent) (found : list (Z * Z)) : Warehouse :=
  set_agents w
    (<[i := set_known me (known_unassigned_boxes me ++ found)]>
       (if bool_decide (state me = SEARCHING)
        then announce me (discovery me <$> found) <$> agents w
        else agents w)).

(** The cells one ray adds to the known list. *)
Fixpoint scan_ray (w : Warehouse) (me : Agent) (known : list (Z * Z)) (dx dy : Z)
    (distances : list Z) : list (Z * Z) :=
  match distances with
  | [] => []
  | distance :: rest =>
      let p := ray_cell me dx dy distance in
      if negb (is_valid_position w p.1 p.2) then []
      else
        match get_cell_type w p.1 p.2 with
        | Some CBox =>
            if (count_stack_size w p.1 p.2 =? 1)
               && negb (is_shelf_target w me p) && negb (Py.contains p known)
            then p :: scan_ray w me (known ++ [p]) dx dy rest
            else scan_ray w me known dx dy rest
        | Some CWall | None => []
        | Some _ => scan_ray w me known dx dy rest
        end
  end.

Fixpoint scan_rays (w : Warehouse) (me : Agent) (known : list (Z * Z))
    (dirs : list (Z * Z)) : list (Z * Z) :=
  match dirs with
  | [] => []
  | (dx, dy) :: dirs' =>
      let found := scan_ray w me known dx dy (Py.range 1 (sensor_range me + 1)) in
      found ++ scan_rays w me (known ++ found) dirs'
  end.

Definition agent_key (a : Agent) : Z * AgentState * option (Z * Z) :=
  (ag_id a, state a, target a).

(** What makes the cell at distance [k] of a ray a find, apart from being
    unknown. *)
Definition single_box_at (w : Warehouse) (me : Agent) (dx dy k : Z) : Prop :=
  get_cell_type w (ray_cell me dx dy k).1 (ray_cell me dx dy k).2 = Some CBox ∧
  count_stack_size w (ray_cell me dx dy k).1 (ray_cell me dx dy k).2 = 1 ∧
  is_shelf_target w me (ray_cell me dx dy k) = false.

(** A warehouse where a searching agent has three boxes in sight. *)
Definition sensing_tape : list Z := [0; 0; 1; 0; 2; 0; 3; 0; 6; 0].

Definition sensing_w : Warehouse :=
  match Warehouse_init 9 7 3 2 sensing_tape with
  | Some (_, w) => w
  | None => new_warehouse 0 0 0 0
  end.

Definition sensing_w' : Warehouse :=
  match sense_environment 0 sensing_w with
  | Some (_, w) => w
  | None => sensing_w
  end.

(** ** Routes *)

Definition step_to (p d : Z * Z) : Z * Z := (p.1 + d.1, p.2 + d.2).

(** A cell a route may enter: on the grid, and empty, a box, or the target. *)
Definition passable (w : Warehouse) (tgt p : Z * Z) : Prop :=
  is_valid_position w p.1 p.2 = true ∧
  (grid_at w p.1 p.2 = Some 0 ∨ grid_at w p.1 p.2 = Some 2 ∨ p = tgt).

(** [walk w tgt p ds q]: the unit steps [ds] lead from [p] to [q] through
    passable cells. *)
Inductive walk (w : Warehouse) (tgt : Z * Z) : Z * Z → list (Z * Z) → Z * Z → Prop :=
| walk_nil p : walk w tgt p [] p
| walk_cons p d ds q :
    d ∈ directions → passable w tgt (step_to p d) →
    walk w tgt (step_to p d) ds q →
    walk w tgt p (d :: ds) q.

(** The place of a direction in the enumeration up, down, left, right. *)
Fixpoint rank_in (l : list (Z * Z)) (d : Z * Z) : nat :=
  match l with
  | [] => 0
  | d' :: l' => if decide (d' = d) then 0 else S (rank_in l' d)
  end.

Definition dir_rank (d : Z * Z) : nat := rank_in directions d.

(** Routes of the same length, compared step by step in that order. *)
Inductive route_lt : list (Z * Z) → list (Z * Z) → Prop :=
| route_lt_head d1 d2 r1 r2 :
    (dir_rank d1 < dir_rank d2)%nat → length r1 = length r2 →
    route_lt (d1 :: r1) (d2 :: r2)
| route_lt_tail d r1 r2 :
    route_lt r1 r2 → route_lt (d :: r1) (d :: r2).

Definition route_le (r1 r2 : list (Z * Z)) : Prop := r1 = r2 ∨ route_lt r1 r2.

(** Shorter first, then by [route_lt]: the order of the queue. *)
Definition before (r1 r2 : list (Z * Z)) : Prop :=
  (length r1 < length r2)%nat ∨ route_lt r1 r2.

(** [path] is a shortest route from [s] to [node], and the first of the
    shortest ones. *)
Definition best_route (w : Warehouse) (s tgt node : Z * Z) (path : list (Z * Z)) : Prop :=
  walk w tgt s path node ∧
  ∀ ds, walk w tgt s ds node →
        (length path ≤ length ds)%nat ∧ (length ds = length path → route_le path ds).

Definition closed (w : Warehouse) (tgt : Z * Z) (visited : gset (Z * Z)) (v : Z * Z) : Prop :=
  ∀ d, d ∈ directions → passable w tgt (step_to v d) → step_to v d ∈ visited.

Definition entry_path (e : Z * Z * list (Z * Z)) : list (Z * Z) := e.2.

Definition queued (queue : list (Z * Z * list (Z * Z))) (v : Z * Z) : Prop :=
  ∃ path, (v.1, v.2, path) ∈ queue.

(** The invariant of the [while queue] loop. *)
Record loop_inv (w : Warehouse) (s tgt : Z * Z)
    (queue : list (Z * Z * list (Z * Z))) (visited : gset (Z * Z)) : Prop := {
  li_start : s ∈ visited;
  li_target : tgt ∉ visited;
  li_best : ∀ x y path, (x, y, path) ∈ queue →
              (x, y) ∈ visited ∧ best_route w s tgt (x, y) path;
  li_closed : ∀ v, v ∈ visited → queued queue v ∨ closed w tgt visited v;
  li_sorted : StronglySorted before (entry_path <$> queue);
  li_level : ∀ e e', e ∈ queue → e' ∈ queue → (length e'.2 ≤ S (length e.2))%nat;
  li_origin : ∀ e e', e ∈ queue → e' ∈ queue → length e'.2 = S (length e.2) →
                ∃ p0 d0, e'.2 = p0 ++ [d0] ∧ route_lt p0 e.2
}.

(** The invariant of the [for dx, dy in directions] loop while the node [u]
    with the route [pu] is expanded; [pre] are the directions done. *)
Record expand_inv (w : Warehouse) (s tgt u : Z * Z) (pu pre : list (Z * Z))
    (queue : list (Z * Z * list (Z * Z))) (visited : gset (Z * Z)) : Prop := {
  ei_start : s ∈ visited;
  ei_target : tgt ∉ visited;
  ei_u_visited : u ∈ visited;
  ei_u_best : best_route w s tgt u pu;
  ei_u_pre : ∀ d, d ∈ pre → passable w tgt (step_to u d) → step_to u d ∈ visited;
  ei_best : ∀ x y path, (x, y, path) ∈ queue →
              (x, y) ∈ visited ∧ best_route w s tgt (x, y) path;
  ei_closed : ∀ v, v ∈ visited → v = u ∨ queued queue v ∨ closed w tgt visited v;
  ei_sorted : StronglySorted before (entry_path <$> queue);
  ei_after_u : ∀ e, e ∈ queue → before pu e.2;
  ei_level : ∀ e, e ∈ queue → (length e.2 ≤ S (length pu))%nat;
  ei_origin : ∀ e, e ∈ queue → length e.2 = S (length pu) →
                ∃ p0 d0, e.2 = p0 ++ [d0] ∧ (route_lt p0 pu ∨ (p0 = pu ∧ d0 ∈ pre))
}.

(** What [find_path_to] owes for the route it returns. *)
Definition route_post (w : Warehouse) (s tgt : Z * Z) (route : list (Z * Z)) : Prop :=
  best_route w s tgt tgt route ∨ (route = [] ∧ ¬ ∃ ds, walk w tgt s ds tgt).

Definition all_cells (w : Warehouse) : list (Z * Z) :=
  x ← seqZ 0 (width w); y ← seqZ 0 (height w); [(x, y)].

(** The cells of the grid the search has not visited yet. *)
Definition unvisited (w : Warehouse) (visited : gset (Z * Z)) : nat :=
  length (filter (fun p => p ∉ visited) (all_cells w)).

(** * The grid, the stacks and the box table together *)

(** What of an agent the grid, the stacks and the box table depend on. *)
Definition agent_view (a : Agent) : Z * Z * Z * bool * option Z :=
  (ag_id a, ag_x a, ag_y a, carrying_box a, carried_box_id a).

(** The part of the warehouse that planning, sensing and messaging leave
    alone. *)
Definition same_store (w w' : Warehouse) : Prop :=
  width w' = width w ∧ height w' = height w ∧
  grid w' = grid w ∧ boxes w' = boxes w ∧
  box_locations w' = box_locations w ∧
  processed_boxes w' = processed_boxes w ∧
  agent_deliveries w' = agent_deliveries w ∧
  agent_view <$> agents w' = agent_view <$> agents w.

(** What the value [cell] of the cell [(x, y)] says about it: 0 for a cell
    with no stack, 1 for a wall of the perimeter, 2 for a cell with a stack,
    and [3 + id] for the cell the agent [id] stands on. *)
Definition cell_ok (w : Warehouse) (x y cell : Z) : Prop :=
  (cell = 0 ∧ box_locations w !! (x, y) = None) ∨
  (cell = 1 ∧ on_perimeter w x y ∧ box_locations w !! (x, y) = None) ∨
  (cell = 2 ∧ is_Some (box_locations w !! (x, y))) ∨
  (∃ a, a ∈ agents w ∧ cell = 3 + ag_id a ∧ (ag_x a, ag_y a) = (x, y)).

(** Where a box is: at a depth of a stack, or with an agent. *)
Definition stacked_at (w : Warehouse) (b : Z) (p : Z * Z) (k : nat) : Prop :=
  ∃ l, box_locations w !! p = Some l ∧ l !! k = Some b.

Definition carried_by (w : Warehouse) (b : Z) (a : Agent) : Prop :=
  a ∈ agents w ∧ carried_box_id a = Some b.

(** The grid shows what the stacks and the agents say, and every stack is
    a non-empty list on a cell of the grid. *)
Record layout_ok (w : Warehouse) : Prop := {
  lo_cells : ∀ x y cell,
    is_valid_position w x y = true → grid_at w x y = Some cell → cell_ok w x y cell;
  lo_stacks : ∀ p l,
    box_locations w !! p = Some l → l ≠ [] ∧ is_valid_position w p.1 p.2 = true
}.

(** The books on the boxes: every box of the table is at one depth of one
    stack or with one agent, its record says where, and every agent has a
    delivery counter. *)
Record ledger_ok (w : Warehouse) : Prop := {
  lg_flag : Forall (fun a => carrying_box a = true ↔ is_Some (carried_box_id a)) (agents w);
  lg_keys : ∀ k box, boxes w !! k = Some box → bx_id box = k;
  lg_once : ∀ b p k q j, stacked_at w b p k → stacked_at w b q j → p = q ∧ k = j;
  lg_carried_once : NoDup (omap carried_box_id (agents w));
  lg_apart : ∀ b p k a, stacked_at w b p k → carried_by w b a → False;
  lg_boxes : ∀ b, is_Some (boxes w !! b) ↔
                  (∃ p k, stacked_at w b p k) ∨ (∃ a, carried_by w b a);
  lg_records : ∀ b p k, stacked_at w b p k →
    ∃ box, boxes w !! b = Some box ∧ (bx_x box, bx_y box) = p ∧
           stack_size box = Z.of_nat (S k) ∧
           (in_stack box = true ↔ b ∈ processed_boxes w);
  lg_carried_record : ∀ b a, carried_by w b a →
    ∃ box, boxes w !! b = Some box ∧ in_stack box = false ∧ stack_size box = 1 ∧
           b ∈ processed_boxes w;
  lg_deliveries : Forall (fun a => is_Some (agent_deliveries w !! ag_id a)) (agents w)
}.

(** What of an agent the books depend on. *)
Definition agent_hold (a : Agent) : Z * bool * option Z :=
  (ag_id a, carrying_box a, carried_box_id a).

(** The books are as they were. *)
Definition same_ledger (w w' : Warehouse) : Prop :=
  boxes w' = boxes w ∧ box_locations w' = box_locations w ∧
  processed_boxes w' = processed_boxes w ∧
  agent_deliveries w' = agent_deliveries w ∧
  agent_hold <$> agents w' = agent_hold <$> agents w.

(** The grid, the places of the agents and the stacks are as they were. *)
Definition same_layout (w w' : Warehouse) : Prop :=
  same_geo w w' ∧ box_locations w' = box_locations w.

(** The whole invariant of a warehouse between the operations of the
    agents. *)
Definition world_ok (w : Warehouse) : Prop :=
  geometry_ok w ∧ stacks_ok w ∧ layout_ok w ∧ ledger_ok w.

(** The slot [i] holds an agent. *)
Definition slot (i : nat) (w : Warehouse) : Prop := (i < length (agents w))%nat.

(** ** Runs that return

    [total P m Q]: from every state with [P] the run of [m] returns, in a
    state and with a result that satisfy [Q]. *)
Definition total {A} (P : Warehouse → Prop) (m : M A) (Q : A → Warehouse → Prop) : Prop :=
  ∀ w, P w → ∃ r w', m w = Some (r, w') ∧ Q r w'.

(** A run that returns and keeps [J], with a result that satisfies [Φ]. *)
Definition steady {A} (J : Warehouse → Prop) (m : M A) (Φ : A → Prop) : Prop :=
  total J m (fun r w' => J w' ∧ Φ r).

(** What the searches over the grid need: a rectangular grid with room
    inside the walls and no wall inside. *)
Definition searchable (w : Warehouse) : Prop :=
  grid_wf w ∧ 3 ≤ width w ∧ 3 ≤ height w ∧
  ∀ x y, 1 ≤ x ≤ width w - 2 → 1 ≤ y ≤ height w - 2 → grid_at w x y ≠ Some 1.

(** What sensing, messaging and planning by the agent in slot [i] need. *)
Definition soft_ok (i : nat) (w : Warehouse) : Prop := searchable w ∧ slot i w.

(** The invariant while the agent in slot [i] acts. *)
Definition acting (i : nat) (w : Warehouse) : Prop := world_ok w ∧ slot i w.

(** ** The books of a new warehouse

    Nothing has been picked up yet: every box of the table lies alone on
    the cell its record names, and no agent carries anything. *)
Definition nursery (w : Warehouse) : Prop :=
  processed_boxes w = ∅ ∧
  Forall (fun a => carrying_box a = false ∧ carried_box_id a = None ∧
                   is_Some (agent_deliveries w !! ag_id a)) (agents w) ∧
  (∀ b box, boxes w !! b = Some box →
     box = mkBox b (bx_x box) (bx_y box) false 1 ∧
     box_locations w !! (bx_x box, bx_y box) = Some [b]) ∧
  (∀ p l, box_locations w !! p = Some l →
     ∃ b box, l = [b] ∧ boxes w !! b = Some box ∧ (bx_x box, bx_y box) = p).

(** The cells of a grid with walls only: walls on the perimeter, nothing
    else anywhere. *)
Definition bare (w : Warehouse) : Prop :=
  ∀ x y cell, is_valid_position w x y = true → grid_at w x y = Some cell →
              cell = 0 ∨ (cell = 1 ∧ on_perimeter w x y).

Definition position (a : Agent) : Z * Z := (ag_x a, ag_y a).

Definition manhattan (p q : Z * Z) : Z := Z.abs (p.1 - q.1) + Z.abs (p.2 - q.2).

(** No two of the agents are closer than three steps. *)
Definition far_apart (l : list Agent) : Prop :=
  ∀ i j a b, l !! i = Some a → l !! j = Some b → i ≠ j →
             3 ≤ manhattan (position a) (position b).

(** The ids of the boxes in the table. *)
Definition box_table_ids (w : Warehouse) : gset Z := dom (boxes w).

(** [count_single_boxes]: the stacks of exactly one box. *)
Definition count_single_boxes (w : Warehouse) : Z :=
  map_fold (fun _ box_ids acc =>
              if Z.of_nat (length box_ids) =? 1 then 1 + acc else acc) 0 (box_locations w).

(** [sum(1 for a in self.agents if a.carrying_box)], the carried boxes of
    the reports. *)
Definition boxes_being_carried (w : Warehouse) : Z :=
  foldr (fun agent acc => if carrying_box agent then 1 + acc else acc) 0 (agents w).

(** ** Shelves and spots

    A stack that a delivering agent may take as its shelf: one to four
    boxes, and either no claim of another agent that the agent knows of, or
    the agent's target already. *)
Definition open_shelf (w : Warehouse) (me : Agent) (p : Z * Z) : Prop :=
  ∃ box_ids, box_locations w !! p = Some box_ids ∧
             (1 ≤ length box_ids < 5)%nat ∧
             (is_target_available me p = true ∨ target me = Some p).

(** A cell inside the walls where a new shelf may start. *)
Definition free_spot (w : Warehouse) (me : Agent) (p : Z * Z) : Prop :=
  1 ≤ p.1 ≤ width w - 2 ∧ 1 ≤ p.2 ≤ height w - 2 ∧
  get_cell_type w p.1 p.2 = Some CEmpty ∧ is_target_available me p = true.

(** Twice the distance to the centre plus the distance to the agent: minus
    twice the score of the source. *)
Definition spot_cost (w : Warehouse) (me : Agent) (p : Z * Z) : Z :=
  2 * manhattan p (width w `div` 2, height w `div` 2) + manhattan (position me) p.

(** Coordinates in the order of Python's tuples. *)
Definition pos_le (p q : Z * Z) : Prop := p.1 < q.1 ∨ (p.1 = q.1 ∧ p.2 ≤ q.2).

(** * Reasoning about the monad *)

Lemma bind_Some {A B} (m : M A) (k : A → M B) w r :
  bind m k w = Some r ↔ ∃ a w1, m w = Some (a, w1) ∧ k a w1 = Some r.
Proof.
  unfold bind. split.
  - destruct (m w) as [[a w1]|]; [eauto | discriminate].
  - intros (a & w1 & -> & Hk). exact Hk.
Qed.

Lemma ret_Some {A} (a : A) w r : ret a w = Some r ↔ r = (a, w).
Proof. unfold ret. split; [by intros [= <-] | by intros ->]. Qed.

Lemma get_Some w r : get w = Some r ↔ r = (w, w).
Proof. unfold get. split; [by intros [= <-] | by intros ->]. Qed.

Lemma modify_Some f w r : modify f w = Some r ↔ r = (tt, f w).
Proof. unfold modify. split; [by intros [= <-] | by intros ->]. Qed.

Lemma lift_Some {A} (o : option A) w r :
  lift o w = Some r ↔ ∃ a, o = Some a ∧ r = (a, w).
Proof.
  unfold lift. destruct o as [a|]; split.
  - intros [= <-]. eauto.
  - by intros (a' & [= <-] & ->).
  - discriminate.
  - by intros (a' & [=] & _).
Qed.

Lemma raise_Some {A} w (r : A * Warehouse) : raise w = Some r ↔ False.
Proof. unfold raise. split; [discriminate | tauto]. Qed.

Lemma self_Some i w r : self i w = Some r ↔ ∃ a, agents w !! i = Some a ∧ r = (a, w).
Proof. unfold self. apply lift_Some. Qed.

Lemma update_self_Some i f w r :
  update_self i f w = Some r ↔
  ∃ a, agents w !! i = Some a ∧ r = (tt, set_agents w (<[i := f a]> (agents w))).
Proof.
  unfold update_self. rewrite bind_Some. split.
  - intros (a & w1 & Hs & Hm). apply self_Some in Hs as (a' & Ha & [= -> ->]).
    apply modify_Some in Hm. eauto.
  - intros (a & Ha & ->). exists a, w. split; [apply self_Some; eauto | by apply modify_Some].
Qed.

(** Decompose a successful run into its steps. *)
Ltac run_inv H :=
  lazymatch type of H with
  | bind _ _ _ = Some _ =>
      let a := fresh "r" in
      let w1 := fresh "w" in
      let H1 := fresh "Hrun" in
      apply bind_Some in H as (a & w1 & H1 & H); run_inv H1; run_inv H
  | ret _ _ = Some _ => apply ret_Some in H; simplify_eq
  | get _ = Some _ => apply get_Some in H; simplify_eq
  | modify _ _ = Some _ => apply modify_Some in H; simplify_eq
  | raise _ = Some _ => apply raise_Some in H; destruct H
  | lift _ _ = Some _ =>
      let a := fresh "v" in
      let Ha := fresh "Hv" in
      apply lift_Some in H as (a & Ha & H); simplify_eq
  | self _ _ = Some _ =>
      let a := fresh "me" in
      let Ha := fresh "Hme" in
      apply self_Some in H as (a & Ha & H); simplify_eq
  | update_self _ _ _ = Some _ =>
      let a := fresh "me" in
      let Ha := fresh "Hme" in
      apply update_self_Some in H as (a & Ha & H); simplify_eq
  | _ => idtac
  end.

(** ** Rules for [preserves] *)

Section preserves_rules.
Context (R : relation Warehouse) `{!PreOrder R}.

Lemma preserves_ret {A} (a : A) : preserves R (ret a).
Proof. intros w r w' [= _ <-]. reflexivity. Qed.

Lemma preserves_get : preserves R get.
Proof. intros w r w' [= _ <-]. reflexivity. Qed.

Lemma preserves_raise {A} : preserves R (@raise A).
Proof. intros w r w' [=]. Qed.

Lemma preserves_lift {A} (o : option A) : preserves R (lift o).
Proof. intros w r w' H. apply lift_Some in H as (a & _ & [= _ <-]). reflexivity. Qed.

Lemma preserves_self i : preserves R (self i).
Proof. intros w r w' H. apply self_Some in H as (a & _ & [= _ <-]). reflexivity. Qed.

Lemma preserves_bind {A B} (m : M A) (k : A → M B) :
  preserves R m → (∀ a, preserves R (k a)) → preserves R (bind m k).
Proof.
  intros Hm Hk w r w' H. apply bind_Some in H as (a & w1 & H1 & H2).
  etrans; [eapply Hm | eapply Hk]; eauto.
Qed.

Lemma preserves_for_each {A} (l : list A) (body : A → M unit) :
  (∀ v, preserves R (body v)) → preserves R (for_each l body).
Proof.
  intros Hb. induction l as [|v l IH]; simpl.
  - apply preserves_ret.
  - apply preserves_bind; auto.
Qed.

Lemma preserves_for_each_tape {A} (l : list A) body tape :
  (∀ v t, preserves R (body v t)) → preserves R (for_each_tape l body tape).
Proof.
  intros Hb. revert tape. induction l as [|v l IH]; intros tape; simpl.
  - apply preserves_ret.
  - apply preserves_bind; auto.
Qed.
End preserves_rules.

Lemma preserves_weaken {A} (R R' : relation Warehouse) (m : M A) :
  (∀ w w', R w w' → R' w w') → preserves R m → preserves R' m.
Proof. intros HR Hm w r w' H. eauto. Qed.

#[global] Instance keeps_preorder P : PreOrder (keeps P).
Proof. split; unfold keeps; [intros w; tauto | intros w1 w2 w3; tauto]. Qed.

#[global] Instance same_core_preorder : PreOrder same_core.
Proof.
  split.
  - intros w. by repeat split.
  - intros w1 w2 w3 H12 H23. unfold same_core in *.
    destruct_and!. repeat split; congruence.
Qed.

Create HintDb pres discriminated.

(** Walk the syntax of a monadic program, leaving the calls that are not
    control flow to the hint database. *)
Ltac pres_step :=
  lazymatch goal with
  | |- preserves _ (bind _ _) => apply preserves_bind; [typeclasses eauto | | intros ?]
  | |- preserves _ (ret _) => apply preserves_ret; typeclasses eauto
  | |- preserves _ get => apply preserves_get; typeclasses eauto
  | |- preserves _ raise => apply preserves_raise
  | |- preserves _ (lift _) => apply preserves_lift; typeclasses eauto
  | |- preserves _ (self _) => apply preserves_self; typeclasses eauto
  | |- preserves _ (for_each _ _) => apply preserves_for_each; [typeclasses eauto | intros ?]
  | |- preserves _ (for_each_tape _ _ _) =>
      apply preserves_for_each_tape; [typeclasses eauto | intros ? ?]
  | |- preserves _ (if ?b then _ else _) => destruct b
  | |- preserves _ (match ?x with _ => _ end) => destruct x
  | |- preserves _ (let '(_, _) := ?x in _) => destruct x
  end.

Ltac pres := repeat (first [ solve [eauto with pres] | pres_step ]).

(** * Soft operations leave the core alone *)

Lemma same_core_update_agents w l :
  agent_core <$> l = agent_core <$> agents w → same_core w (set_agents w l).
Proof. intros H. by repeat split. Qed.

Lemma preserves_core_update_self i f :
  (∀ a, agent_core (f a) = agent_core a) → preserves same_core (update_self i f).
Proof.
  intros Hf w r w' H. run_inv H.
  apply same_core_update_agents.
  rewrite list_fmap_insert, Hf. apply list_insert_id. by rewrite list_lookup_fmap, Hme.
Qed.

#[global] Hint Extern 1 (preserves same_core (update_self _ _)) =>
  (apply preserves_core_update_self; intros ?; reflexivity) : pres.

Lemma preserves_core_broadcast_message i message :
  preserves same_core (broadcast_message i message).
Proof.
  intros w r w' H. unfold broadcast_message in H. run_inv H.
  apply same_core_update_agents. rewrite <- list_fmap_compose.
  apply list_fmap_ext. intros j a _. simpl.
  repeat case_bool_decide; reflexivity.
Qed.
#[global] Hint Resolve preserves_core_broadcast_message : pres.

Lemma preserves_core_sense_ray i dx dy distances :
  preserves same_core (sense_ray i dx dy distances).
Proof. induction distances as [|d rest IH]; simpl; pres. Qed.
#[global] Hint Resolve preserves_core_sense_ray : pres.

Lemma preserves_core_sense_environment i : preserves same_core (sense_environment i).
Proof. unfold sense_environment. pres. Qed.
#[global] Hint Resolve preserves_core_sense_environment : pres.

Lemma preserves_core_process_message i msg : preserves same_core (process_message i msg).
Proof. unfold process_message. pres. Qed.
#[global] Hint Resolve preserves_core_process_message : pres.

Lemma preserves_core_process_messages i : preserves same_core (process_messages i).
Proof. unfold process_messages. pres. Qed.
#[global] Hint Resolve preserves_core_process_messages : pres.

Lemma preserves_core_claim_target i position : preserves same_core (claim_target i position).
Proof. unfold claim_target. pres. Qed.
#[global] Hint Resolve preserves_core_claim_target : pres.

Lemma preserves_core_release_target i position :
  preserves same_core (release_target i position).
Proof. unfold release_target. pres. Qed.
#[global] Hint Resolve preserves_core_release_target : pres.

Lemma preserves_core_release_current_target i :
  preserves same_core (release_current_target i).
Proof. unfold release_current_target. pres. Qed.
#[global] Hint Resolve preserves_core_release_current_target : pres.

Lemma preserves_core_known_box_candidates i known :
  preserves same_core (known_box_candidates i known).
Proof. induction known as [|[bx by_] rest IH]; simpl; pres. Qed.
#[global] Hint Resolve preserves_core_known_box_candidates : pres.

Lemma preserves_core_find_nearest_known_box i :
  preserves same_core (find_nearest_known_box i).
Proof. unfold find_nearest_known_box. pres. Qed.
#[global] Hint Resolve preserves_core_find_nearest_known_box : pres.

Lemma preserves_core_find_path_to i tx ty : preserves same_core (find_path_to i tx ty).
Proof. unfold find_path_to. pres. Qed.
#[global] Hint Resolve preserves_core_find_path_to : pres.

Lemma preserves_core_retarget i p : preserves same_core (retarget i p).
Proof. unfold retarget. pres. Qed.
#[global] Hint Resolve preserves_core_retarget : pres.

Lemma preserves_core_explore i tape : preserves same_core (explore i tape).
Proof. unfold explore. pres. Qed.
#[global] Hint Resolve preserves_core_explore : pres.

(** * Python lists and the grid *)

Lemma norm_index_lt {A} (l : list A) i n : Py.norm_index l i = Some n → (n < length l)%nat.
Proof. unfold Py.norm_index. repeat case_bool_decide; intros [=]; lia. Qed.

Lemma norm_index_nonneg {A} (l : list A) i :
  0 ≤ i < Z.of_nat (length l) → Py.norm_index l i = Some (Z.to_nat i).
Proof. intros H. unfold Py.norm_index. by rewrite bool_decide_eq_true_2. Qed.

Lemma norm_index_length {A B} (l : list A) (l' : list B) i :
  length l' = length l → Py.norm_index l' i = Py.norm_index l i.
Proof. intros H. unfold Py.norm_index. by rewrite H. Qed.

Lemma index_is_Some {A} (l : list A) i n : Py.norm_index l i = Some n → is_Some (Py.index l i).
Proof.
  intros H. unfold Py.index. rewrite H. apply lookup_lt_is_Some. by eapply norm_index_lt.
Qed.

Lemma assign_Some {A} (l : list A) i v l' :
  Py.assign l i v = Some l' →
  ∃ n, Py.norm_index l i = Some n ∧ (n < length l)%nat ∧ l' = <[n := v]> l.
Proof.
  unfold Py.assign. destruct (Py.norm_index l i) as [n|] eqn:Hn; [|discriminate].
  intros [= <-]. exists n. split_and!; [done | by eapply norm_index_lt | done].
Qed.

(** Reading the grid after an assignment: the assigned cell holds the new
    value, and a cell whose value changed held the value of the assigned
    cell before. *)
Lemma grid_assign_spec x y v w r w' :
  grid_assign x y v w = Some (r, w') →
  ∃ c g, w' = set_grid w g ∧
       grid_at w x y = Some c ∧ grid_at w' x y = Some v ∧
       length (grid w') = length (grid w) ∧
       (∀ h, Forall (fun row => length row = h) (grid w) →
             Forall (fun row => length row = h) (grid w')) ∧
       ∀ x' y', grid_at w' x' y' = grid_at w x' y' ∨
                (grid_at w x' y' = Some c ∧ grid_at w' x' y' = Some v).
Proof.
  unfold grid_assign, grid_at, Py.index.
  destruct (Py.norm_index (grid w) x) as [n|] eqn:Hn; [|discriminate].
  destruct (grid w !! n) as [row|] eqn:Hrow; [|discriminate].
  destruct (Py.assign row y v) as [row'|] eqn:Hrow'; [|discriminate].
  apply assign_Some in Hrow' as (k & Hk & Hklt & ->).
  unfold Py.assign. rewrite Hn. intros [= <- <-]. simpl.
  pose proof (norm_index_lt _ _ _ Hn) as Hnlt.
  destruct (row !! k) as [c|] eqn:Hc; [|apply lookup_ge_None in Hc; lia].
  exists c, (<[n:=<[k:=v]> row]> (grid w)). split_and!.
  - reflexivity.
  - by rewrite Hk.
  - rewrite (norm_index_length (grid w)), Hn by apply length_insert.
    rewrite list_lookup_insert_eq by done.
    rewrite (norm_index_length row), Hk by apply length_insert.
    by rewrite list_lookup_insert_eq.
  - apply length_insert.
  - intros h Hall. apply Forall_insert; [done|].
    rewrite length_insert. by eapply Forall_lookup_1 in Hall.
  - intros x' y'.
    rewrite (norm_index_length (grid w)) by apply length_insert.
    destruct (Py.norm_index (grid w) x') as [n'|] eqn:Hn'; [|by left].
    destruct (decide (n' = n)) as [->|Hne].
    + rewrite list_lookup_insert_eq, Hrow by done.
      rewrite (norm_index_length row) by apply length_insert.
      destruct (Py.norm_index row y') as [k'|] eqn:Hk'; [|by left].
      destruct (decide (k' = k)) as [->|Hne].
      * right. by rewrite list_lookup_insert_eq.
      * left. by rewrite list_lookup_insert_ne.
    + left. by rewrite list_lookup_insert_ne.
Qed.

Lemma grid_at_valid w x y :
  grid_wf w → is_valid_position w x y = true → is_Some (grid_at w x y).
Proof.
  intros [Hlen Hrows] Hv. unfold is_valid_position in Hv.
  apply andb_true_iff in Hv as [Hx Hy].
  apply bool_decide_eq_true in Hx. apply bool_decide_eq_true in Hy.
  unfold grid_at, Py.index.
  rewrite norm_index_nonneg by lia.
  destruct (grid w !! Z.to_nat x) as [row|] eqn:Hrow.
  - eapply Forall_lookup_1 in Hrows; [|done]. simpl in Hrows.
    rewrite norm_index_nonneg by lia. apply lookup_lt_is_Some. lia.
  - apply lookup_ge_None in Hrow. lia.
Qed.

Lemma grid_assign_set_grid x y v w r w' :
  grid_assign x y v w = Some (r, w') → ∃ g, w' = set_grid w g.
Proof. intros H. apply grid_assign_spec in H as (c & g & -> & _). eauto. Qed.

(** * Frame rules *)

#[global] Instance fixes_preorder {X} (f : Warehouse → X) : PreOrder (fixes f).
Proof. split; unfold fixes; [by intros w | intros w1 w2 w3; congruence]. Qed.

#[global] Instance same_geo_preorder : PreOrder same_geo.
Proof.
  split.
  - intros w. by repeat split.
  - intros w1 w2 w3 H12 H23. unfold same_geo in *. destruct_and!. repeat split; congruence.
Qed.

Lemma preserves_modify (R : relation Warehouse) g :
  (∀ w, R w (g w)) → preserves R (modify g).
Proof. intros Hg w r w' H. run_inv H. apply Hg. Qed.

Lemma preserves_update_box (R : relation Warehouse) box_id f :
  (∀ w b, R w (set_boxes w b)) → preserves R (update_box box_id f).
Proof.
  intros HR w r w' H. unfold update_box in H.
  destruct (boxes w !! box_id); simplify_eq. apply HR.
Qed.

Lemma preserves_grid_assign (R : relation Warehouse) x y v :
  (∀ w g, R w (set_grid w g)) → preserves R (grid_assign x y v).
Proof.
  intros HR w r w' H. apply grid_assign_spec in H as (c & g & -> & _). apply HR.
Qed.

Lemma preserves_update_self (R : relation Warehouse) i f :
  (∀ w a, agents w !! i = Some a → R w (set_agents w (<[i := f a]> (agents w)))) →
  preserves R (update_self i f).
Proof. intros HR w r w' H. run_inv H. by apply HR. Qed.

(** ** Geometry *)

Lemma same_core_geo w w' : same_core w w' → same_geo w w'.
Proof.
  unfold same_core, same_geo. intros H. destruct_and!. split_and!; try done.
  assert (Hc : ∀ l : list Agent,
             agent_place <$> l = (fun c => (c.1.1.1.1.1.1.1.1, c.1.1.1.1.1.1.1.2, c.1.1.1.1.1.1.2))
                                   <$> (agent_core <$> l)).
  { intros l. rewrite <- list_fmap_compose. by apply list_fmap_ext. }
  rewrite !Hc. congruence.
Qed.

Lemma same_geo_grid_at w w' x y : same_geo w w' → grid_at w' x y = grid_at w x y.
Proof. intros (_ & _ & Hg & _). unfold grid_at. by rewrite Hg. Qed.

Lemma same_geo_valid w w' x y :
  same_geo w w' → is_valid_position w' x y = is_valid_position w x y.
Proof. intros (Hw & Hh & _). unfold is_valid_position. by rewrite Hw, Hh. Qed.

Lemma same_geo_keeps w w' : same_geo w w' → keeps geometry_ok w w'.
Proof.
  intros Hgeo (Hwf & Hwalls & Hnd & Hag).
  pose proof Hgeo as (Hw & Hh & Hg & Hpl).
  split_and!.
  - unfold grid_wf in *. by rewrite Hw, Hh, Hg.
  - intros x y Hv Hp. rewrite (same_geo_grid_at w) by done.
    rewrite (same_geo_valid w) in Hv by done.
    apply Hwalls; [done|]. unfold on_perimeter in *. by rewrite <- Hw, <- Hh.
  - assert (Hid : ∀ l : list Agent, ag_id <$> l = (fun c => c.1.1) <$> (agent_place <$> l)).
    { intros l. rewrite <- list_fmap_compose. by apply list_fmap_ext. }
    rewrite Hid, Hpl, <- Hid. done.
  - assert (Hpl' : ∀ (P : Z * Z * Z → Prop) (l : list Agent),
               Forall (fun a => P (agent_place a)) l ↔ Forall P (agent_place <$> l)).
    { intros P l. by rewrite Forall_fmap. }
    pose (P := fun c : Z * Z * Z =>
                 0 ≤ c.1.1 ∧ is_valid_position w c.1.2 c.2 = true ∧
                 grid_at w c.1.2 c.2 = Some (3 + c.1.1)).
    assert (Forall P (agent_place <$> agents w)) as HP.
    { apply Hpl'. eapply Forall_impl; [exact Hag|]. intros a Ha. exact Ha. }
    rewrite <- Hpl in HP. apply Hpl' in HP.
    eapply Forall_impl; [exact HP|]. intros a (H1 & H2 & H3). unfold P in *. simpl in *.
    split_and!; [done | by rewrite (same_geo_valid w) | by rewrite (same_geo_grid_at w)].
Qed.

Lemma same_geo_set_agents w i a f :
  agents w !! i = Some a → agent_place (f a) = agent_place a →
  same_geo w (set_agents w (<[i := f a]> (agents w))).
Proof.
  intros Ha Hf. split_and!; try done. simpl.
  rewrite list_fmap_insert, Hf. apply list_insert_id. by rewrite list_lookup_fmap, Ha.
Qed.

Lemma preserves_geo_update_self i f :
  (∀ a, agent_place (f a) = agent_place a) → preserves same_geo (update_self i f).
Proof. intros Hf. apply preserves_update_self. intros w a Ha. by apply same_geo_set_agents. Qed.

#[global] Hint Extern 1 (preserves same_geo (update_self _ _)) =>
  (apply preserves_geo_update_self; intros ?; reflexivity) : pres.
#[global] Hint Extern 1 (preserves same_geo (modify _)) =>
  (apply preserves_modify; intros ?; repeat split; reflexivity) : pres.
#[global] Hint Extern 1 (preserves same_geo (update_box _ _)) =>
  (apply preserves_update_box; intros ? ?; repeat split; reflexivity) : pres.

(** Whatever keeps the core keeps the geometry. *)
#[global] Hint Extern 5 (preserves same_geo _) =>
  (eapply preserves_weaken; [exact same_core_geo | solve [eauto with pres]]) : pres.
#[global] Hint Extern 6 (preserves (keeps geometry_ok) _) =>
  (eapply preserves_weaken; [exact same_geo_keeps | solve [eauto with pres]]) : pres.

(** * The geometry is kept by every action *)

Lemma can_move_to_true w x y agent_id :
  can_move_to w x y agent_id = Some true →
  is_valid_position w x y = true ∧ (grid_at w x y = Some 0 ∨ grid_at w x y = Some 2).
Proof.
  unfold can_move_to. destruct (is_valid_position w x y); simpl; [|discriminate].
  destruct (grid_at w x y) as [cell|]; [|discriminate].
  intros [= H]. split; [done|]. apply orb_true_iff in H as [H|H]; apply Z.eqb_eq in H; subst; auto.
Qed.

(** Overwriting a cell that is not a wall: the walls stay, and so does every
    agent whose marker differs from the old value of the cell. *)
Lemma grid_assign_geometry x y v w r w' c :
  grid_assign x y v w = Some (r, w') →
  grid_at w x y = Some c → c ≠ 1 →
  grid_wf w → walls_ok w →
  grid_wf w' ∧ walls_ok w' ∧ agents w' = agents w ∧
  width w' = width w ∧ height w' = height w ∧
  grid_at w' x y = Some v ∧
  (∀ x' y' c', grid_at w x' y' = Some c' → c' ≠ c → grid_at w' x' y' = Some c') ∧
  (∀ a, agent_placed w a → 3 + ag_id a ≠ c → agent_placed w' a).
Proof.
  intros H Hc Hc1 [Hlen Hrows] Hwalls.
  apply grid_assign_spec in H as (c0 & g & -> & Hc0 & Hv & Hlen' & Hrows' & Hother).
  assert (c0 = c) as -> by congruence.
  assert (Hkeep : ∀ x' y' c',
             grid_at w x' y' = Some c' → c' ≠ c → grid_at (set_grid w g) x' y' = Some c').
  { intros x' y' c' Hc' Hne. destruct (Hother x' y') as [->|[Heq _]]; [done | congruence]. }
  split_and!; try done.
  - split; [simpl in *; congruence | by apply Hrows'].
  - intros x' y' Hvalid Hper. apply Hkeep; [by apply Hwalls | congruence].
  - intros a (Hid & Hvalid & Hcell) Hne. split_and!; [done | done |]. by apply Hkeep.
Qed.

Lemma geometry_lookup w i a : geometry_ok w → agents w !! i = Some a → agent_placed w a.
Proof. intros (_ & _ & _ & Hag) Ha. by eapply Forall_lookup_1 in Hag. Qed.

Lemma geometry_distinct_ids w i j a b :
  geometry_ok w → agents w !! i = Some a → agents w !! j = Some b → i ≠ j →
  ag_id a ≠ ag_id b.
Proof.
  intros (_ & _ & Hnd & _) Ha Hb Hij Heq. apply Hij.
  eapply NoDup_lookup; [exact Hnd | |]; rewrite list_lookup_fmap.
  - by rewrite Ha.
  - by rewrite Hb, Heq.
Qed.

Lemma keeps_geometry_move i direction : preserves (keeps geometry_ok) (move i direction).
Proof.
  intros w r w' H Hgeo. destruct direction as [dx dy]. unfold move in H.
  run_inv H. destruct v; [|by run_inv H].
  apply can_move_to_true in Hv as [Hvalid Hfree].
  pose proof (geometry_lookup _ _ _ Hgeo Hme) as (Hid & Hmevalid & Hmecell).
  run_inv H.
  assert (∃ v1, grid_assign (ag_x me) (ag_y me) v1 w = Some (r0, w0)) as [v1 Hassign1].
  { rewrite (proj2 (Z.leb_le _ _)) in Hrun by lia.
    destruct (0 <? count_stack_size w (ag_x me) (ag_y me)); eauto. }
  clear Hrun.
  pose proof Hgeo as (Hwf & Hwalls & Hnd & Hag).
  eapply grid_assign_geometry in Hassign1 as
    (Hwf1 & Hwalls1 & Hag1 & Hw1 & Hh1 & _ & Hkeep1 & Hplaced1); [|done|lia|done|done].
  rewrite Hag1 in Hme0. assert (me0 = me) as -> by congruence.
  set (wa := set_agents w0 _) in Hrun0.
  assert (∃ c2, grid_at wa (ag_x me + dx) (ag_y me + dy) = Some c2 ∧ (c2 = 0 ∨ c2 = 2))
    as (c2 & Hc2 & Hc2free).
  { destruct Hfree as [Hf|Hf]; [exists 0 | exists 2]; (split; [|auto]);
      (change (grid_at wa ?a ?b) with (grid_at w0 a b)); eapply Hkeep1; eauto; lia. }
  eapply grid_assign_geometry in Hrun0 as
    (Hwf3 & Hwalls3 & Hag3 & Hw3 & Hh3 & Hnew & _ & Hplaced3);
    [|exact Hc2|lia|exact Hwf1|exact Hwalls1].
  assert (geometry_ok w1) as Hgeo3.
  { split_and!; [done | done | |].
    - rewrite Hag3. simpl. rewrite list_fmap_insert. simpl.
      rewrite list_insert_id; [by rewrite Hag1|]. by rewrite Hag1, list_lookup_fmap, Hme.
    - rewrite Hag3. simpl. apply Forall_lookup_2. intros j a Hj.
      rewrite Hag1 in Hj.
      destruct (decide (j = i)) as [->|Hji].
      + rewrite list_lookup_insert_eq in Hj by (by eapply lookup_lt_Some). simplify_eq.
        split_and!; simpl; [exact Hid | | exact Hnew].
        unfold is_valid_position in *. rewrite Hw3, Hh3. unfold wa. simpl.
        by rewrite Hw1, Hh1.
      + rewrite list_lookup_insert_ne in Hj by done.
        pose proof (geometry_lookup _ _ _ Hgeo Hj) as Hpl.
        pose proof (geometry_distinct_ids _ _ _ _ _ Hgeo Hj Hme Hji).
        destruct Hpl as (? & ? & ?).
        apply Hplaced3; [apply Hplaced1|]; [done | lia | lia]. }
  clear - Hgeo3 Hrun1 Hme1.
  assert (preserves (keeps geometry_ok)
            (update_self i (λ a : Agent, set_movements a (movements a + 1));;
             sense_environment i)) as Hrest by pres.
  eapply Hrest; [|done].
  apply bind_Some. eexists tt, _. split; [|exact Hrun1].
  apply update_self_Some. eauto.
Qed.
#[global] Hint Resolve keeps_geometry_move : pres.

Lemma geometry_assign_free x y v c w r w' :
  grid_assign x y v w = Some (r, w') →
  grid_at w x y = Some c → c = 0 ∨ c = 2 →
  geometry_ok w → geometry_ok w'.
Proof.
  intros H Hc Hfree (Hwf & Hwalls & Hnd & Hag).
  eapply grid_assign_geometry in H as
    (Hwf1 & Hwalls1 & Hag1 & Hw1 & Hh1 & _ & Hkeep1 & Hplaced1); [|done|lia|done|done].
  split_and!; [done | done | by rewrite Hag1 |].
  rewrite Hag1. eapply Forall_impl; [exact Hag|].
  intros a Ha. apply Hplaced1; [done|]. destruct Ha as (? & _). lia.
Qed.

Lemma keeps_geometry_remove_box_from_grid x y :
  preserves (keeps geometry_ok) (remove_box_from_grid x y).
Proof.
  unfold remove_box_from_grid.
  apply preserves_bind; [apply _ | apply preserves_get, _ | intros w0].
  destruct (box_locations w0 !! (x, y)) as [[|b0 l0]|]; [pres | | pres].
  repeat (apply preserves_bind; [apply _ | solve [pres] | intros ?]).
  destruct (removelast (b0 :: l0)); [|pres].
  intros w r w' H Hgeo. run_inv H.
  destruct (v =? 2) eqn:Hv2.
  - apply Z.eqb_eq in Hv2 as ->.
    eapply geometry_assign_free in Hrun; [|done|by right|done].
    revert Hrun. by apply same_geo_keeps.
  - run_inv Hrun. revert Hgeo. by apply same_geo_keeps.
Qed.
#[global] Hint Resolve keeps_geometry_remove_box_from_grid : pres.

Lemma keeps_geometry_pick_up_box i x y : preserves (keeps geometry_ok) (pick_up_box i x y).
Proof. unfold pick_up_box. pres. Qed.
#[global] Hint Resolve keeps_geometry_pick_up_box : pres.

Lemma can_place_box_true w x y agent_id :
  can_place_box w x y agent_id = Some true →
  count_stack_size w x y < 5 ∧
  ∃ cell, grid_at w x y = Some cell ∧ (cell < 3 ∨ cell = 3 + agent_id).
Proof.
  unfold can_place_box. destruct (grid_at w x y) as [cell|]; [|discriminate].
  destruct (5 <=? count_stack_size w x y) eqn:H5; [discriminate|].
  apply Z.leb_gt in H5. split; [done|]. exists cell. split; [done|].
  destruct (3 <=? cell) eqn:H3.
  - injection H as H. apply Z.eqb_eq in H. right. lia.
  - apply Z.leb_gt in H3. by left.
Qed.

Lemma place_box_same_geo x y box_id agent_id w r w' c :
  place_box x y box_id agent_id w = Some (r, w') →
  grid_at w x y = Some c → 3 ≤ c → same_geo w w'.
Proof.
  intros H Hc H3. unfold place_box in H. run_inv H.
  change (grid_at (set_box_locations w ?m) x y) with (grid_at w x y) in Hv.
  assert (v = c) as -> by congruence.
  rewrite (proj2 (Z.ltb_ge _ _)) in Hrun by lia. run_inv Hrun.
  assert (preserves same_geo
    (update_box box_id (λ b : Box, mkBox (bx_id b) x (bx_y b) (in_stack b) (stack_size b));;
     update_box box_id (λ b : Box, mkBox (bx_id b) (bx_x b) y (in_stack b) (stack_size b));;
     update_box box_id (λ b : Box, mkBox (bx_id b) (bx_x b) (bx_y b) true (stack_size b));;
     update_box box_id
       (λ b : Box, mkBox (bx_id b) (bx_x b) (bx_y b) (in_stack b)
          (Z.of_nat (length (default [] (box_locations w !! (x, y)) ++ [box_id]))));;
     match agent_id with
     | Some aid =>
         let! w := get in
         match agent_deliveries w !! aid with
         | Some n => modify (fun w => set_agent_deliveries w (<[aid := n + 1]> (agent_deliveries w)))
         | None => raise
         end
     | None => ret tt
     end)) as Hrest by pres.
  etrans; [|eapply Hrest].
  2:{ apply bind_Some. eexists _, _. split; [exact Hrun0|].
      apply bind_Some. eexists _, _. split; [exact Hrun1|].
      apply bind_Some. eexists _, _. split; [exact Hrun2|].
      apply bind_Some. eexists _, _. split; [exact Hrun3|]. exact H. }
  by repeat split.
Qed.

Lemma keeps_geometry_drop_box i : preserves (keeps geometry_ok) (drop_box i).
Proof.
  intros w r w' H Hgeo. unfold drop_box in H. run_inv H.
  destruct (negb (carrying_box me)); [by run_inv H|].
  run_inv H. destruct v; [|by run_inv H].
  destruct (carried_box_id me) as [box_id|]; [|by run_inv H].
  run_inv H.
  pose proof (geometry_lookup _ _ _ Hgeo Hme) as (Hid & _ & Hcell).
  eapply place_box_same_geo in Hrun; [|exact Hcell|lia].
  apply same_geo_keeps in Hrun. specialize (Hrun Hgeo).
  assert (preserves (keeps geometry_ok)
            (update_self i (fun a => set_carrying a false (carried_box_id a)) ;;
             update_self i (fun a => set_carrying a (carrying_box a) None))) as Hrest by pres.
  eapply Hrest; [|exact Hrun].
  apply bind_Some. eexists tt, _. split; [apply update_self_Some; eauto|].
  apply update_self_Some; eauto.
Qed.
#[global] Hint Resolve keeps_geometry_drop_box : pres.

Lemma keeps_geometry_decide_action i tape :
  preserves (keeps geometry_ok) (decide_action i tape).
Proof. unfold decide_action. pres. Qed.

Lemma keeps_geometry_execute_action i : preserves (keeps geometry_ok) (execute_action i).
Proof. unfold execute_action. pres. Qed.

Lemma keeps_geometry_agent_turn i tape : preserves (keeps geometry_ok) (agent_turn i tape).
Proof.
  unfold agent_turn. pres; [apply keeps_geometry_decide_action | apply keeps_geometry_execute_action].
Qed.

(** * The effect of a turn on the stacks *)

#[global] Instance frame_preorder i : PreOrder (frame i).
Proof.
  split.
  - intros w. by repeat split.
  - intros w1 w2 w3 (Hd & Hl & Ho & Hi) (Hd' & Hl' & Ho' & Hi'). split_and!.
    + congruence.
    + congruence.
    + intros j Hj. rewrite Ho', Ho; done.
    + congruence.
Qed.

Lemma same_core_frame i w w' : same_core w w' → frame i w w'.
Proof.
  intros H. unfold same_core in H. destruct_and!.
  assert (Hl : ∀ j, agent_core <$> agents w' !! j = agent_core <$> agents w !! j).
  { intros j. rewrite <- !list_lookup_fmap. congruence. }
  split_and!.
  - unfold dims. congruence.
  - rewrite <- (length_fmap agent_core (agents w')), <- (length_fmap agent_core (agents w)).
    congruence.
  - intros j _. apply Hl.
  - specialize (Hl i). destruct (agents w' !! i), (agents w !! i); simplify_eq/=; congruence.
Qed.

Lemma frame_same_agents i w w' : dims w' = dims w → agents w' = agents w → frame i w w'.
Proof. intros Hd Ha. split_and!; [done | by rewrite Ha | by intros; rewrite Ha | by rewrite Ha]. Qed.

Lemma frame_update_self i f w a :
  ag_id (f a) = ag_id a → agents w !! i = Some a →
  frame i w (set_agents w (<[i := f a]> (agents w))).
Proof.
  intros Hf Ha. split_and!; simpl.
  - done.
  - apply length_insert.
  - intros j Hj. by rewrite list_lookup_insert_ne.
  - rewrite list_lookup_insert_eq by (by eapply lookup_lt_Some). rewrite Ha. simpl. by rewrite Hf.
Qed.

Lemma preserves_frame_update_self i f :
  (∀ a, ag_id (f a) = ag_id a) → preserves (frame i) (update_self i f).
Proof. intros Hf. apply preserves_update_self. intros w a Ha. by apply frame_update_self. Qed.

#[global] Hint Extern 1 (preserves (frame _) (update_self _ _)) =>
  (apply preserves_frame_update_self; intros ?; reflexivity) : pres.
#[global] Hint Extern 1 (preserves (frame _) (modify _)) =>
  (apply preserves_modify; intros ?; apply frame_same_agents; reflexivity) : pres.
#[global] Hint Extern 1 (preserves (frame _) (update_box _ _)) =>
  (apply preserves_update_box; intros ? ?; apply frame_same_agents; reflexivity) : pres.
#[global] Hint Extern 1 (preserves (frame _) (grid_assign _ _ _)) =>
  (apply preserves_grid_assign; intros ? ?; apply frame_same_agents; reflexivity) : pres.
#[global] Hint Extern 5 (preserves (frame _) _) =>
  (eapply preserves_weaken; [apply same_core_frame | solve [eauto with pres]]) : pres.

Lemma frame_remove_box_from_grid i x y : preserves (frame i) (remove_box_from_grid x y).
Proof. unfold remove_box_from_grid. pres. Qed.
#[global] Hint Resolve frame_remove_box_from_grid : pres.

Lemma frame_place_box i x y box_id agent_id :
  preserves (frame i) (place_box x y box_id agent_id).
Proof. unfold place_box. pres. Qed.
#[global] Hint Resolve frame_place_box : pres.

Lemma frame_pick_up_box i x y : preserves (frame i) (pick_up_box i x y).
Proof. unfold pick_up_box. pres. Qed.
#[global] Hint Resolve frame_pick_up_box : pres.

Lemma frame_drop_box i : preserves (frame i) (drop_box i).
Proof. unfold drop_box. pres. Qed.
#[global] Hint Resolve frame_drop_box : pres.

Lemma frame_move i direction : preserves (frame i) (move i direction).
Proof. unfold move. destruct direction. pres. Qed.
#[global] Hint Resolve frame_move : pres.

Lemma frame_decide_action i tape : preserves (frame i) (decide_action i tape).
Proof. unfold decide_action. pres. Qed.

Lemma frame_execute_action i : preserves (frame i) (execute_action i).
Proof. unfold execute_action. pres. Qed.

Lemma frame_agent_turn i tape : preserves (frame i) (agent_turn i tape).
Proof.
  unfold agent_turn. pres; [apply frame_decide_action | apply frame_execute_action].
Qed.

#[global] Instance stacks_rel_preorder i : PreOrder (stacks_rel i).
Proof.
  split.
  - intros w. apply rtc_refl.
  - intros w1 w2 w3 H12 H23. unfold stacks_rel in *. by etrans.
Qed.

Lemma carrying_at_carryings i w : carrying_at i w = default false (carryings w !! i).
Proof. unfold carrying_at, carryings. by rewrite list_lookup_fmap. Qed.

Lemma fixes_stacks_rel i w w' : fixes stacks_and_carryings w w' → stacks_rel i w w'.
Proof.
  unfold fixes, stacks_and_carryings, stacks_rel. intros [= Hb Hc].
  rewrite !carrying_at_carryings, Hb, Hc. apply rtc_refl.
Qed.

Lemma same_core_fixes_stacks w w' : same_core w w' → fixes stacks_and_carryings w w'.
Proof.
  intros H. unfold same_core in H. destruct_and!.
  unfold fixes, stacks_and_carryings, carryings. f_equal; [done|].
  assert (Hc : ∀ l : list Agent,
             carrying_box <$> l = (fun c => c.1.1.1.1.1.2) <$> (agent_core <$> l)).
  { intros l. rewrite <- list_fmap_compose. by apply list_fmap_ext. }
  rewrite !Hc. congruence.
Qed.

Lemma preserves_stacks_update_self i f :
  (∀ a, carrying_box (f a) = carrying_box a) →
  preserves (fixes stacks_and_carryings) (update_self i f).
Proof.
  intros Hf. apply preserves_update_self. intros w a Ha.
  unfold fixes, stacks_and_carryings, carryings. simpl. f_equal.
  rewrite list_fmap_insert, Hf. apply list_insert_id. by rewrite list_lookup_fmap, Ha.
Qed.

#[global] Hint Extern 1 (preserves (fixes stacks_and_carryings) (update_self _ _)) =>
  (apply preserves_stacks_update_self; intros ?; reflexivity) : pres.
#[global] Hint Extern 1 (preserves (fixes stacks_and_carryings) (modify _)) =>
  (apply preserves_modify; intros ?; reflexivity) : pres.
#[global] Hint Extern 1 (preserves (fixes stacks_and_carryings) (update_box _ _)) =>
  (apply preserves_update_box; intros ? ?; reflexivity) : pres.
#[global] Hint Extern 1 (preserves (fixes stacks_and_carryings) (grid_assign _ _ _)) =>
  (apply preserves_grid_assign; intros ? ?; reflexivity) : pres.
#[global] Hint Extern 5 (preserves (fixes stacks_and_carryings) _) =>
  (eapply preserves_weaken; [apply same_core_fixes_stacks | solve [eauto with pres]]) : pres.
#[global] Hint Extern 6 (preserves (stacks_rel _) _) =>
  (eapply preserves_weaken; [apply fixes_stacks_rel | solve [eauto with pres]]) : pres.

Lemma fixes_stacks_move i direction :
  preserves (fixes stacks_and_carryings) (move i direction).
Proof. unfold move. destruct direction. pres. Qed.
#[global] Hint Resolve fixes_stacks_move : pres.

Lemma count_stack_size_stack_at w x y :
  count_stack_size w x y = Z.of_nat (length (stack_at (box_locations w) (x, y))).
Proof. unfold count_stack_size, stack_at. by destruct (box_locations w !! (x, y)). Qed.

Lemma can_pick_up_box_true w x y :
  can_pick_up_box w x y = true → ∃ b, box_locations w !! (x, y) = Some [b].
Proof.
  unfold can_pick_up_box, count_stack_size. intros H. apply Z.eqb_eq in H.
  destruct (box_locations w !! (x, y)) as [[|b [|b' l]]|]; simpl in *; try lia. eauto.
Qed.

Lemma remove_box_singleton x y b w r w' :
  box_locations w !! (x, y) = Some [b] →
  remove_box_from_grid x y w = Some (r, w') →
  box_locations w' = delete (x, y) (box_locations w) ∧ carryings w' = carryings w.
Proof.
  intros Hb H. unfold remove_box_from_grid in H. run_inv H. rewrite Hb in H. simpl in H.
  run_inv H.
  assert (Hc : preserves (fixes stacks_and_carryings)
            (update_box b (λ b : Box, mkBox (bx_id b) (bx_x b) (bx_y b) false (stack_size b));;
             update_box b (λ b : Box, mkBox (bx_id b) (bx_x b) (bx_y b) (in_stack b) 1))) by pres.
  assert (Hg : preserves (fixes stacks_and_carryings)
            (if v =? 2 then grid_assign x y 0 else ret ())) by pres.
  eapply Hg in Hrun1. unfold fixes, stacks_and_carryings in Hrun1.
  injection Hrun1 as Hb1 Hc1.
  unfold carryings in *. simpl. rewrite Hb1, Hc1.
  assert (fixes stacks_and_carryings
            (set_processed_boxes (set_box_locations w (<[(x, y):=[]]> (box_locations w)))
               ({[b]} ∪ processed_boxes w)) w1) as Hfix.
  { eapply Hc. apply bind_Some. eexists _, _. split; [exact Hrun|exact Hrun0]. }
  unfold fixes, stacks_and_carryings, carryings in Hfix. simpl in Hfix.
  injection Hfix as Hb0 Hc0.
  rewrite Hb0, Hc0. split; [|done].
  apply delete_insert_eq.
Qed.

Lemma carrying_at_update i f w a :
  agents w !! i = Some a →
  carrying_at i (set_agents w (<[i := f a]> (agents w))) = carrying_box (f a).
Proof.
  intros Ha. unfold carrying_at. simpl.
  by rewrite list_lookup_insert_eq by (by eapply lookup_lt_Some).
Qed.

Lemma fixes_stacks_carrying_at i w w' :
  fixes stacks_and_carryings w w' → carrying_at i w' = carrying_at i w.
Proof. intros [= _ Hc]. by rewrite !carrying_at_carryings, Hc. Qed.

(** A successful [pick_up_box] takes the only box of a stack. *)
Lemma pick_up_box_spec i x y w r w' :
  pick_up_box i x y w = Some (r, w') →
  (r = false ∧ w' = w) ∨
  (r = true ∧ carrying_at i w = false ∧ carrying_at i w' = true ∧
   ∃ b, box_locations w !! (x, y) = Some [b] ∧
        box_locations w' = delete (x, y) (box_locations w)).
Proof.
  intros H. unfold pick_up_box in H. run_inv H.
  destruct (carrying_box me) eqn:Hcarry; [run_inv H; by left|].
  run_inv H. destruct v as [box0|]; [|run_inv H; by left].
  destruct (can_pick_up_box w x y) eqn:Hpick; [|run_inv H; by left].
  run_inv H. right.
  apply can_pick_up_box_true in Hpick as [b Hb].
  simpl in Hme0.
  rewrite list_lookup_insert_eq in Hme0 by (by eapply lookup_lt_Some). simplify_eq.
  eapply remove_box_singleton in Hrun as [Hloc Hcar]; [|exact Hb].
  assert (Htail : preserves (fixes stacks_and_carryings)
            ((if Py.contains (x, y) (known_unassigned_boxes me1)
              then update_self i (fun a =>
                     set_known a (Py.remove (x, y) (known_unassigned_boxes a)))
              else ret tt) ;;
             broadcast_message i (mkMessage BOX_PICKED (x, y) (ag_id me1)))) by pres.
  assert (fixes stacks_and_carryings w0 w2) as Hfix.
  { eapply Htail. apply bind_Some. eexists _, _. split; [exact Hrun0|exact Hrun1]. }
  injection Hfix as Hloc' Hcar'.
  split_and!; [done | | |].
  - unfold carrying_at. rewrite Hme. simpl. by rewrite Hcarry.
  - rewrite !carrying_at_carryings, Hcar', Hcar. unfold carryings. simpl.
    rewrite list_lookup_fmap, list_lookup_insert_eq; [done|].
    rewrite length_insert. by eapply lookup_lt_Some.
  - exists b. split; [done|]. by rewrite Hloc', Hloc.
Qed.

Lemma stacks_rel_pick_up_box i x y : preserves (stacks_rel i) (pick_up_box i x y).
Proof.
  intros w r w' H. apply pick_up_box_spec in H as [[_ ->]|(_ & Hc & Hc' & b & Hb & Hloc)].
  - reflexivity.
  - unfold stacks_rel. rewrite Hc, Hc', Hloc. apply rtc_once. by econstructor.
Qed.
#[global] Hint Resolve stacks_rel_pick_up_box : pres.

Lemma place_box_locations x y box_id agent_id w r w' :
  place_box x y box_id agent_id w = Some (r, w') →
  box_locations w' = <[(x, y) := stack_at (box_locations w) (x, y) ++ [box_id]]> (box_locations w)
  ∧ agents w' = agents w.
Proof.
  intros H.
  assert (Hag : preserves (fixes agents) (place_box x y box_id agent_id)).
  { unfold place_box. pres; first
      [ apply preserves_modify; by intros ?
      | apply preserves_grid_assign; by intros ? ?
      | apply preserves_update_box; by intros ? ? ]. }
  split; [|by eapply Hag].
  unfold place_box in H. run_inv H.
  assert (Hg : preserves (fixes box_locations) (if v <? 3 then grid_assign x y 2 else ret ())).
  { pres. apply preserves_grid_assign. by intros ? ?. }
  apply Hg in Hrun. unfold fixes in Hrun. simpl in Hrun.
  assert (Hrest : preserves (fixes box_locations)
    (update_box box_id (λ b : Box, mkBox (bx_id b) x (bx_y b) (in_stack b) (stack_size b));;
     update_box box_id (λ b : Box, mkBox (bx_id b) (bx_x b) y (in_stack b) (stack_size b));;
     update_box box_id (λ b : Box, mkBox (bx_id b) (bx_x b) (bx_y b) true (stack_size b));;
     update_box box_id
       (λ b : Box, mkBox (bx_id b) (bx_x b) (bx_y b) (in_stack b)
          (Z.of_nat (length (default [] (box_locations w !! (x, y)) ++ [box_id]))));;
     match agent_id with
     | Some aid =>
         let! w := get in
         match agent_deliveries w !! aid with
         | Some n => modify (fun w => set_agent_deliveries w (<[aid := n + 1]> (agent_deliveries w)))
         | None => raise
         end
     | None => ret tt
     end)).
  { pres; first
      [ apply preserves_modify; by intros ?
      | apply preserves_update_box; by intros ? ? ]. }
  assert (fixes box_locations w0 w') as Hfix.
  { eapply Hrest.
    apply bind_Some. eexists _, _. split; [exact Hrun0|].
    apply bind_Some. eexists _, _. split; [exact Hrun1|].
    apply bind_Some. eexists _, _. split; [exact Hrun2|].
    apply bind_Some. eexists _, _. split; [exact Hrun3|]. exact H. }
  unfold fixes in Hfix. by rewrite Hfix, Hrun.
Qed.

(** A successful [drop_box] puts the carried box on a stack of fewer than
    five at the place of the agent. *)
Lemma drop_box_spec i w r w' :
  drop_box i w = Some (r, w') →
  (r = false ∧ w' = w) ∨
  (r = true ∧ ∃ me box_id,
     agents w !! i = Some me ∧ carrying_box me = true ∧ carried_box_id me = Some box_id ∧
     (length (stack_at (box_locations w) (ag_x me, ag_y me)) < 5)%nat ∧
     box_locations w' = <[(ag_x me, ag_y me) :=
                            stack_at (box_locations w) (ag_x me, ag_y me) ++ [box_id]]>
                          (box_locations w) ∧
     agents w' = <[i := set_carrying me false None]> (agents w)).
Proof.
  intros H. unfold drop_box in H. run_inv H.
  destruct (carrying_box me) eqn:Hcarry; simpl in H; [|run_inv H; by left].
  run_inv H. destruct v; [|run_inv H; by left].
  destruct (carried_box_id me) as [box_id|] eqn:Hcid; [|by run_inv H].
  run_inv H. right. split; [done|]. exists me, box_id.
  apply can_place_box_true in Hv as [Hsize _].
  rewrite count_stack_size_stack_at in Hsize.
  apply place_box_locations in Hrun as [Hloc Hag].
  rewrite Hag in Hme0. simplify_eq.
  simpl in Hme1. rewrite Hag in Hme1.
  rewrite list_lookup_insert_eq in Hme1 by (by eapply lookup_lt_Some).
  simplify_eq. simpl.
  split_and!; [done | done | done | lia | done |].
  rewrite list_insert_insert_eq, Hag. by destruct me.
Qed.

Lemma stacks_rel_drop_box i : preserves (stacks_rel i) (drop_box i).
Proof.
  intros w r w' H.
  apply drop_box_spec in H as [[_ ->]|(_ & me & b & Hme & Hc & _ & Hlen & Hloc & Hag)].
  - reflexivity.
  - unfold stacks_rel. rewrite Hloc.
    replace (carrying_at i w) with true
      by (unfold carrying_at; rewrite Hme; simpl; by rewrite Hc).
    replace (carrying_at i w') with false.
    + apply rtc_once. by econstructor.
    + unfold carrying_at. rewrite Hag.
      by rewrite list_lookup_insert_eq by (by eapply lookup_lt_Some).
Qed.
#[global] Hint Resolve stacks_rel_drop_box : pres.

Lemma stacks_rel_decide_action i tape : preserves (stacks_rel i) (decide_action i tape).
Proof. unfold decide_action. pres. Qed.

Lemma stacks_rel_execute_action i : preserves (stacks_rel i) (execute_action i).
Proof. unfold execute_action. pres. Qed.

Lemma stacks_rel_agent_turn i tape : preserves (stacks_rel i) (agent_turn i tape).
Proof.
  unfold agent_turn.
  pres; [apply stacks_rel_decide_action | apply stacks_rel_execute_action].
Qed.

(** * A delivering agent carries a box *)

Lemma ensures_bind_r {A B} Q (m : M A) (k : A → M B) :
  (∀ a, ensures Q (k a)) → ensures Q (bind m k).
Proof. intros Hk w r w' H. apply bind_Some in H as (a & w1 & _ & H). by eapply Hk. Qed.

Lemma ensures_bind_l {A B} Q (m : M A) (k : A → M B) :
  ensures Q m → (∀ a, preserves (keeps Q) (k a)) → ensures Q (bind m k).
Proof.
  intros Hm Hk w r w' H. apply bind_Some in H as (a & w1 & H1 & H).
  eapply Hk; [exact H|]. by eapply Hm.
Qed.

Lemma same_core_fixes_flags w w' : same_core w w' → fixes flags w w'.
Proof.
  intros H. unfold same_core in H. destruct_and!.
  unfold fixes, flags.
  assert (Hs : ∀ l : list Agent,
             (fun a => (state a, carrying_box a)) <$> l
             = (fun c => (c.1.1.2, c.1.1.1.1.1.2)) <$> (agent_core <$> l)).
  { intros l. rewrite <- list_fmap_compose. by apply list_fmap_ext. }
  rewrite !Hs. congruence.
Qed.

Lemma preserves_flags_update_self i f :
  (∀ a, state (f a) = state a) → (∀ a, carrying_box (f a) = carrying_box a) →
  preserves (fixes flags) (update_self i f).
Proof.
  intros Hs Hc. apply preserves_update_self. intros w a Ha.
  unfold fixes, flags. simpl.
  rewrite !list_fmap_insert, Hs, Hc.
  apply list_insert_id; by rewrite list_lookup_fmap, Ha.
Qed.

#[global] Hint Extern 1 (preserves (fixes flags) (update_self _ _)) =>
  (apply preserves_flags_update_self; intros ?; reflexivity) : pres.
#[global] Hint Extern 1 (preserves (fixes flags) (grid_assign _ _ _)) =>
  (apply preserves_grid_assign; intros ? ?; reflexivity) : pres.
#[global] Hint Extern 5 (preserves (fixes flags) _) =>
  (eapply preserves_weaken; [apply same_core_fixes_flags | solve [eauto with pres]]) : pres.

Lemma fixes_flags_move i direction : preserves (fixes flags) (move i direction).
Proof. unfold move. destruct direction. pres. Qed.
#[global] Hint Resolve fixes_flags_move : pres.

Lemma flags_lookup w i a :
  agents w !! i = Some a → flags w !! i = Some (state a, carrying_box a).
Proof. intros Ha. unfold flags. by rewrite list_lookup_fmap, Ha. Qed.

Lemma flags_lookup_inv w i c :
  flags w !! i = Some c → ∃ a, agents w !! i = Some a ∧ c = (state a, carrying_box a).
Proof.
  unfold flags. rewrite list_lookup_fmap. destruct (agents w !! i) as [a|]; [|done].
  intros [= <-]. eauto.
Qed.

Lemma fixes_flags_self_ok i w w' : fixes flags w w' → keeps (self_ok i) w w'.
Proof.
  intros Hf Hok a Ha Hst. apply flags_lookup in Ha. rewrite Hf in Ha.
  apply flags_lookup_inv in Ha as (a0 & Ha0 & [= Hs Hc]).
  rewrite Hc. apply (Hok a0 Ha0). congruence.
Qed.

Lemma fixes_flags_not_delivering i w w' :
  fixes flags w w' → keeps (not_delivering i) w w'.
Proof.
  intros Hf Hok a Ha Hst. apply flags_lookup in Ha. rewrite Hf in Ha.
  apply flags_lookup_inv in Ha as (a0 & Ha0 & [= Hs Hc]).
  apply (Hok a0 Ha0). congruence.
Qed.

#[global] Hint Extern 6 (preserves (keeps (self_ok _)) _) =>
  (eapply preserves_weaken; [apply fixes_flags_self_ok | solve [eauto with pres]]) : pres.
#[global] Hint Extern 6 (preserves (keeps (not_delivering _)) _) =>
  (eapply preserves_weaken; [apply fixes_flags_not_delivering | solve [eauto with pres]]) : pres.

Lemma not_delivering_self_ok i w : not_delivering i w → self_ok i w.
Proof. intros H a Ha Hst. by destruct (H a Ha). Qed.

(** Setting the state to anything but DELIVERING. *)
Lemma ensures_set_state i s :
  s ≠ DELIVERING → ensures (not_delivering i) (update_self i (fun a => set_state a s)).
Proof.
  intros Hs w r w' H. run_inv H. intros a Ha. simpl in Ha.
  rewrite list_lookup_insert_eq in Ha by (by eapply lookup_lt_Some). by simplify_eq.
Qed.

Lemma keeps_not_delivering_set_state i s :
  s ≠ DELIVERING →
  preserves (keeps (not_delivering i)) (update_self i (fun a => set_state a s)).
Proof. intros Hs w r w' H _. by eapply ensures_set_state. Qed.

#[global] Hint Extern 1 (preserves (keeps (not_delivering _)) (update_self _ (fun a => set_state a _))) =>
  (apply keeps_not_delivering_set_state; discriminate) : pres.


#[global] Hint Extern 1 (preserves (fixes agents) (modify _)) =>
  (apply preserves_modify; intros ?; reflexivity) : pres.
#[global] Hint Extern 1 (preserves (fixes agents) (update_box _ _)) =>
  (apply preserves_update_box; intros ? ?; reflexivity) : pres.
#[global] Hint Extern 1 (preserves (fixes agents) (grid_assign _ _ _)) =>
  (apply preserves_grid_assign; intros ? ?; reflexivity) : pres.

Lemma fixes_agents_remove_box_from_grid x y : preserves (fixes agents) (remove_box_from_grid x y).
Proof. unfold remove_box_from_grid. pres. Qed.

Lemma fixes_agents_place_box x y box_id agent_id :
  preserves (fixes agents) (place_box x y box_id agent_id).
Proof. unfold place_box. pres. Qed.

Lemma fixes_agents_flags w w' : fixes agents w w' → fixes flags w w'.
Proof. unfold fixes, flags. by intros ->. Qed.

#[global] Hint Extern 2 (preserves (fixes flags) (remove_box_from_grid _ _)) =>
  (eapply preserves_weaken; [apply fixes_agents_flags | apply fixes_agents_remove_box_from_grid])
  : pres.
#[global] Hint Extern 2 (preserves (fixes flags) (place_box _ _ _ _)) =>
  (eapply preserves_weaken; [apply fixes_agents_flags | apply fixes_agents_place_box])
  : pres.

Lemma keeps_not_delivering_update_self i f :
  (∀ a, state (f a) = state a) →
  preserves (keeps (not_delivering i)) (update_self i f).
Proof.
  intros Hf w r w' H Hnd. run_inv H. intros a Ha. simpl in Ha.
  rewrite list_lookup_insert_eq in Ha by (by eapply lookup_lt_Some). simplify_eq.
  rewrite Hf. by apply Hnd.
Qed.

#[global] Hint Extern 2 (preserves (keeps (not_delivering _)) (update_self _ _)) =>
  (apply keeps_not_delivering_update_self; intros ?; reflexivity) : pres.

Lemma keeps_not_delivering_pick_up_box i x y :
  preserves (keeps (not_delivering i)) (pick_up_box i x y).
Proof. unfold pick_up_box. pres. Qed.
#[global] Hint Resolve keeps_not_delivering_pick_up_box : pres.

Lemma keeps_not_delivering_drop_box i :
  preserves (keeps (not_delivering i)) (drop_box i).
Proof. unfold drop_box. pres. Qed.
#[global] Hint Resolve keeps_not_delivering_drop_box : pres.

Lemma carrying_at_self_ok i w : carrying_at i w = true → self_ok i w.
Proof. unfold carrying_at. intros H a Ha _. by rewrite Ha in H. Qed.

Lemma keeps_self_ok_pick_up_box i x y : preserves (keeps (self_ok i)) (pick_up_box i x y).
Proof.
  intros w r w' H Hok. apply pick_up_box_spec in H as [[_ ->]|(_ & _ & Hc & _)]; [done|].
  by apply carrying_at_self_ok.
Qed.
#[global] Hint Resolve keeps_self_ok_pick_up_box : pres.

(** The current agent is read back after steps that fix the flags. *)
Lemma self_state_not_delivering i w me :
  agents w !! i = Some me → state me ≠ DELIVERING → not_delivering i w.
Proof. intros Hme Hst a Ha. by simplify_eq. Qed.

Lemma keeps_self_ok_decide_action i tape :
  preserves (keeps (self_ok i)) (decide_action i tape).
Proof.
  intros w r w' H Hok. unfold decide_action in H.
  apply bind_Some in H as (u1 & w1 & H1 & H).
  apply bind_Some in H as (u2 & w2 & H2 & H).
  apply bind_Some in H as (me0 & w3 & Hme & H).
  apply self_Some in Hme as (me & Hme & Heq). injection Heq as -> ->.
  assert (self_ok i w2) as Hok2.
  { assert (preserves (keeps (self_ok i)) (process_messages i)) as Hp by pres.
    assert (preserves (keeps (self_ok i)) (sense_environment i)) as Hs by pres.
    eapply Hs; [exact H2|]. eapply Hp; [exact H1|done]. }
  clear H1 H2 Hok.
  destruct (state me) eqn:Hst.
  - (* SEARCHING *)
    apply not_delivering_self_ok. revert w2 r w' H Hme Hok2.
    assert (preserves (keeps (not_delivering i))
      (let! known_box := find_nearest_known_box i in
       match known_box with
       | Some known_box =>
           update_self i (fun a => set_state a PICKING_UP) ;;
           retarget i known_box ;;
           ret tape
       | None => explore i tape
       end)) as Hbody by pres.
    intros w2 r w' H Hme _. eapply Hbody; [exact H|].
    eapply self_state_not_delivering; [exact Hme|congruence].
  - (* DELIVERING *)
    run_inv H. destruct v as [shelf|].
    + revert H Hok2.
      assert (preserves (keeps (self_ok i))
        (if bool_decide (target me ≠ Some shelf) then
            release_current_target i ;;
            retarget i shelf ;;
            ret tape
          else
            match path me with
            | [] =>
                let! route := find_path_to i (fst shelf) (snd shelf) in
                update_self i (fun a => set_path a route) ;;
                ret tape
            | _ => ret tape
            end)) as Hbody by pres.
      intros H Hok2. eapply Hbody; eauto.
    + apply not_delivering_self_ok. revert H.
      assert (ensures (not_delivering i)
        (drop_box i ;;
         update_self i (fun a => set_state a SEARCHING) ;;
         ret tape)) as Hbody.
      { apply ensures_bind_r. intros _. apply ensures_bind_l; [by apply ensures_set_state|].
        intros _. pres. }
      intros H. eapply Hbody; eauto.
  - (* PICKING_UP *)
    apply not_delivering_self_ok.
    assert (not_delivering i w2) as Hnd
      by (eapply self_state_not_delivering; [exact Hme|congruence]).
    revert H Hnd.
    assert (∀ (m : M unit), preserves (keeps (not_delivering i)) m →
              preserves (keeps (not_delivering i)) (m ;; ret tape)) as Hwrap
      by (intros m Hm; pres).
    assert (preserves (keeps (not_delivering i))
      (match target me with
       | Some t =>
           if is_target_available me t then
             match path me with
             | [] =>
                 let! route := find_path_to i (fst t) (snd t) in
                 update_self i (fun a => set_path a route)
             | _ => ret tt
             end ;;
             ret tape
           else
             release_target i t ;;
             let! known_box := find_nearest_known_box i in
             match known_box with
             | Some known_box => retarget i known_box
             | None =>
                 update_self i (fun a => set_state a SEARCHING) ;;
                 update_self i (fun a => set_target a None)
             end ;;
             ret tape
       | None =>
           let! known_box := find_nearest_known_box i in
           match known_box with
           | Some known_box => retarget i known_box
           | None =>
               update_self i (fun a => set_state a SEARCHING) ;;
               update_self i (fun a => set_target a None)
           end ;;
           ret tape
       end)) as Hbody by pres.
    intros H Hnd. eapply Hbody; eauto.
Qed.

Lemma carrying_at_fixes_flags i w w' :
  fixes flags w w' → carrying_at i w = true → carrying_at i w' = true.
Proof.
  intros Hf. unfold carrying_at. destruct (agents w !! i) as [a|] eqn:Ha; [|done].
  apply flags_lookup in Ha. rewrite <- Hf in Ha.
  apply flags_lookup_inv in Ha as (a' & -> & [= _ Hc]). simpl. congruence.
Qed.

Lemma keeps_self_ok_execute_action i : preserves (keeps (self_ok i)) (execute_action i).
Proof.
  intros w r w' H Hok. unfold execute_action in H.
  apply bind_Some in H as (me0 & w0 & Hme & H).
  apply self_Some in Hme as (me & Hme & Heq). injection Heq as -> ->.
  destruct (path me) as [|direction path'] eqn:Hpath.
  { revert H Hok. assert (preserves (keeps (self_ok i)) (sense_environment i)) as Hs by pres.
    intros H Hok. eapply Hs; eauto. }
  apply bind_Some in H as (u1 & w1 & H1 & H).
  apply bind_Some in H as (success & w2 & H2 & H).
  apply bind_Some in H as (u3 & w3 & H3 & H).
  assert (self_ok i w3) as Hok3.
  { assert (preserves (keeps (self_ok i)) (update_self i (fun a => set_path a path'))) as Ha by pres.
    assert (preserves (keeps (self_ok i)) (move i direction)) as Hb by pres.
    assert (preserves (keeps (self_ok i))
              (if negb success then update_self i (fun a => set_path a []) else ret tt))
      as Hc by pres.
    eapply Hc; [exact H3|]. eapply Hb; [exact H2|]. eapply Ha; [exact H1|done]. }
  clear H1 H2 H3 Hok Hme Hpath me.
  apply bind_Some in H as (me0 & w4 & Hme & H).
  apply self_Some in Hme as (me & Hme & Heq). injection Heq as -> ->.
  destruct (path me); [|by run_inv H].
  destruct (target me) as [t|]; [|by run_inv H].
  case_bool_decide; [|by run_inv H].
  destruct (state me) eqn:Hst.
  - (* SEARCHING *)
    revert H Hok3.
    assert (preserves (keeps (self_ok i)) (update_self i (fun a => set_target a None)))
      as Hbody by pres.
    intros H Hok3. eapply Hbody; eauto.
  - (* DELIVERING *)
    apply not_delivering_self_ok. revert H.
    assert (ensures (not_delivering i)
      (let! success := drop_box i in
       release_current_target i ;;
       update_self i (fun a => set_target a None) ;;
       let! known_box := find_nearest_known_box i in
       match known_box with
       | Some known_box =>
           update_self i (fun a => set_state a PICKING_UP) ;;
           retarget i known_box
       | None => update_self i (fun a => set_state a SEARCHING)
       end)) as Hbody.
    { do 4 (apply ensures_bind_r; intros ?).
      match goal with |- ensures _ (match ?x with _ => _ end) => destruct x end.
      - apply ensures_bind_l; [by apply ensures_set_state|]. intros _. pres.
      - by apply ensures_set_state. }
    intros H. eapply Hbody; eauto.
  - (* PICKING_UP *)
    apply bind_Some in H as (picked & w5 & Hpick & H).
    destruct picked.
    + apply carrying_at_self_ok.
      apply pick_up_box_spec in Hpick as [[? _]|(_ & _ & Hc & _)]; [done|].
      assert (preserves (fixes stacks_and_carryings)
        (release_current_target i ;;
         update_self i (fun a => set_state a DELIVERING) ;;
         update_self i (fun a => set_target a None))) as Hbody by pres.
      apply Hbody in H. apply (fixes_stacks_carrying_at i) in H. congruence.
    + apply not_delivering_self_ok. revert H.
      assert (ensures (not_delivering i)
        (release_current_target i ;;
         update_self i (fun a => set_state a SEARCHING) ;;
         update_self i (fun a => set_target a None))) as Hbody.
      { apply ensures_bind_r; intros _.
        apply ensures_bind_l; [by apply ensures_set_state|]. intros _. pres. }
      intros H. eapply Hbody; eauto.
Qed.

Lemma keeps_self_ok_agent_turn i tape : preserves (keeps (self_ok i)) (agent_turn i tape).
Proof.
  unfold agent_turn.
  pres; [apply keeps_self_ok_decide_action | apply keeps_self_ok_execute_action].
Qed.

(** * Conservation and capacity *)

Lemma stacked_delete m p l :
  m !! p = Some l → stacked m = (length l + stacked (delete p m))%nat.
Proof.
  intros H. unfold stacked.
  apply (map_fold_delete_L (fun _ box_ids n => (length box_ids + n)%nat) 0%nat p l m); [|done].
  intros. lia.
Qed.

Lemma stacked_insert_fresh m p l :
  m !! p = None → stacked (<[p := l]> m) = (length l + stacked m)%nat.
Proof.
  intros H. unfold stacked.
  apply (map_fold_insert_L (fun _ box_ids n => (length box_ids + n)%nat) 0%nat p l m); [|done].
  intros. lia.
Qed.

Lemma stacked_insert m p l :
  (stacked (<[p := l]> m) + length (stack_at m p) = length l + stacked m)%nat.
Proof.
  unfold stack_at. destruct (m !! p) as [l0|] eqn:Hp; simpl.
  - rewrite <- (insert_delete_eq m), stacked_insert_fresh by apply lookup_delete_eq.
    rewrite (stacked_delete m p l0) by done. lia.
  - rewrite stacked_insert_fresh by done. lia.
Qed.

Lemma stack_step_weight s s' : stack_step s s' → weight s' = weight s.
Proof.
  intros [m p b Hb|m p b Hlen]; unfold weight; simpl.
  - rewrite (stacked_delete m p [b]) by done. simpl. lia.
  - pose proof (stacked_insert m p (stack_at m p ++ [b])) as H.
    rewrite length_app in H. simpl in H. lia.
Qed.

Lemma stack_steps_weight s s' : rtc stack_step s s' → weight s' = weight s.
Proof.
  induction 1 as [|s1 s2 s3 H12 _ IH]; [done|].
  rewrite IH. by apply stack_step_weight.
Qed.

Lemma stack_step_change s s' : stack_step s s' → stack_change s.1 s'.1.
Proof. intros [m p b Hb|m p b Hlen]; simpl; [left | right]; eauto. Qed.

Lemma stack_steps_changes s s' : rtc stack_step s s' → rtc stack_change s.1 s'.1.
Proof.
  induction 1 as [|s1 s2 s3 H12 _ IH]; [done|].
  eapply rtc_l; [by apply stack_step_change | done].
Qed.

Lemma stack_change_capacity m m' :
  stack_change m m' →
  (∀ p l, m !! p = Some l → (length l ≤ 5)%nat) →
  (∀ p l, m' !! p = Some l → (length l ≤ 5)%nat).
Proof.
  intros [(p & b & Hb & ->)|(p & b & Hlen & ->)] Hcap q l Hq.
  - apply lookup_delete_Some in Hq as [_ Hq]. eauto.
  - apply lookup_insert_Some in Hq as [[_ <-]|[_ Hq]]; [|eauto].
    rewrite length_app. simpl. lia.
Qed.

Lemma stack_changes_capacity m m' :
  rtc stack_change m m' →
  (∀ p l, m !! p = Some l → (length l ≤ 5)%nat) →
  (∀ p l, m' !! p = Some l → (length l ≤ 5)%nat).
Proof. induction 1; eauto using stack_change_capacity. Qed.

(** Agents that carry: a list that differs in one slot. *)
Lemma sum_carried_one_slot (l l' : list Agent) i :
  length l' = length l →
  (∀ j, j ≠ i → carried <$> l' !! j = carried <$> l !! j) →
  (sum_list_with carried l' + default 0 (carried <$> l !! i)
   = sum_list_with carried l + default 0 (carried <$> l' !! i))%nat.
Proof.
  revert l' i. induction l as [|a l IH]; intros [|a' l'] i Hlen Hoth; simplify_eq/=.
  - done.
  - destruct i as [|i]; simpl.
    + assert (sum_list_with carried l' = sum_list_with carried l) as ->; [|lia].
      clear -Hlen Hoth. revert l' Hlen Hoth.
      induction l as [|b l IH]; intros [|b' l'] Hlen Hoth; simplify_eq/=; [done|].
      specialize (Hoth 1%nat ltac:(done)) as H1. simpl in H1. injection H1 as ->.
      f_equal. apply IH; [done|]. intros [|j] Hj; [done|].
      apply (Hoth (S (S j))). done.
    + specialize (Hoth 0%nat ltac:(done)) as H0. simpl in H0. injection H0 as ->.
      specialize (IH l' i Hlen). rewrite <- Nat.add_assoc, IH; [lia|].
      intros j Hj. apply (Hoth (S j)). congruence.
Qed.

Lemma frame_items_carried i w w' :
  frame i w w' →
  (items_carried w' + (if carrying_at i w then 1 else 0)
   = items_carried w + (if carrying_at i w' then 1 else 0))%nat.
Proof.
  intros (_ & Hlen & Hoth & _).
  pose proof (sum_carried_one_slot (agents w) (agents w') i Hlen) as H.
  unfold items_carried, carrying_at.
  assert (∀ w0, default 0%nat (carried <$> agents w0 !! i)
                = if default false (carrying_box <$> agents w0 !! i) then 1%nat else 0%nat) as Hc.
  { intros w0. destruct (agents w0 !! i) as [a|]; simpl; [|done]. done. }
  rewrite <- !Hc. apply H. intros j Hj. specialize (Hoth j Hj).
  destruct (agents w' !! j) as [a'|], (agents w !! j) as [a|]; simplify_eq/=; [|done].
  unfold carried. by rewrite H2.
Qed.

(** One turn conserves the items and keeps the stacks within capacity. *)
Lemma agent_turn_items i tape w tape' w' :
  agent_turn i tape w = Some (tape', w') →
  (items_in_stacks w' + items_carried w' = items_in_stacks w + items_carried w)%nat.
Proof.
  intros H.
  pose proof (frame_agent_turn _ _ _ _ _ H) as Hfr.
  pose proof (stacks_rel_agent_turn _ _ _ _ _ H) as Hst.
  apply stack_steps_weight in Hst. unfold weight in Hst. simpl in Hst.
  apply frame_items_carried in Hfr. unfold items_in_stacks. lia.
Qed.

Lemma agent_turn_stack_changes i tape w tape' w' :
  agent_turn i tape w = Some (tape', w') →
  rtc stack_change (box_locations w) (box_locations w').
Proof.
  intros H. pose proof (stacks_rel_agent_turn _ _ _ _ _ H) as Hst.
  by apply stack_steps_changes in Hst.
Qed.

Lemma agent_turn_stacks_ok i tape w tape' w' :
  agent_turn i tape w = Some (tape', w') → stacks_ok w → stacks_ok w'.
Proof.
  intros H Hok. unfold stacks_ok.
  eapply stack_changes_capacity; [by eapply agent_turn_stack_changes | exact Hok].
Qed.

Lemma agent_turn_delivering_carries i tape w tape' w' :
  agent_turn i tape w = Some (tape', w') → delivering_carries w → delivering_carries w'.
Proof.
  intros H Hdc.
  pose proof (frame_agent_turn _ _ _ _ _ H) as (_ & Hlen & Hoth & _).
  apply Forall_lookup_2. intros j a' Hj.
  destruct (decide (j = i)) as [->|Hne].
  - eapply (keeps_self_ok_agent_turn _ _ _ _ _ H); [|exact Hj].
    intros a Ha. by eapply Forall_lookup_1 in Hdc.
  - specialize (Hoth j Hne). rewrite Hj in Hoth.
    destruct (agents w !! j) as [a|] eqn:Ha; simplify_eq/=.
    eapply Forall_lookup_1 in Hdc; [|exact Ha].
    simpl in Hdc. intros Hst. rewrite H2. apply Hdc. by rewrite <- H5.
Qed.

(** * The constructor *)

Lemma randint_range lo hi r v : randint lo hi r = Some v → lo ≤ v ≤ hi.
Proof.
  unfold randint. case_bool_decide; [|discriminate]. intros [= <-].
  pose proof (Z.mod_pos_bound r (hi - lo + 1)). lia.
Qed.

Lemma interior_valid w x y :
  1 ≤ x ≤ width w - 2 → 1 ≤ y ≤ height w - 2 → is_valid_position w x y = true.
Proof.
  intros Hx Hy. unfold is_valid_position.
  rewrite !bool_decide_eq_true_2 by lia. done.
Qed.

Lemma grid_wf_new width height num_boxes num_agents :
  grid_wf (new_warehouse width height num_boxes num_agents).
Proof.
  split; simpl.
  - apply length_replicate.
  - apply Forall_replicate. apply length_replicate.
Qed.

(** Writing a wall keeps the walls that are there. *)
Lemma grid_assign_wall x y w r w' :
  grid_assign x y 1 w = Some (r, w') → grid_wf w →
  (∃ g, w' = set_grid w g) ∧ grid_wf w' ∧ grid_at w' x y = Some 1 ∧
  (∀ x' y', grid_at w x' y' = Some 1 → grid_at w' x' y' = Some 1).
Proof.
  intros H [Hlen Hrows].
  apply grid_assign_spec in H as (c & g & -> & Hc & Hv & Hlen' & Hrows' & Hother).
  split_and!; [eauto | | done |].
  - split; [simpl in *; congruence | by apply Hrows'].
  - intros x' y' H1. destruct (Hother x' y') as [->|[_ ->]]; done.
Qed.

Lemma wall_loop (l : list Z) (c1 c2 : Z → Z * Z) w r w' :
  for_each l (fun v => grid_assign (c1 v).1 (c1 v).2 1 ;; grid_assign (c2 v).1 (c2 v).2 1) w
    = Some (r, w') →
  grid_wf w →
  (∃ g, w' = set_grid w g) ∧ grid_wf w' ∧
  (∀ x y, grid_at w x y = Some 1 → grid_at w' x y = Some 1) ∧
  (∀ v, v ∈ l → grid_at w' (c1 v).1 (c1 v).2 = Some 1 ∧ grid_at w' (c2 v).1 (c2 v).2 = Some 1).
Proof.
  revert w. induction l as [|v l IH]; intros w H Hwf; simpl in H.
  - run_inv H. split_and!; [by exists (grid w); destruct w | done | done |].
    intros v Hv. by apply elem_of_nil in Hv.
  - run_inv H.
    apply grid_assign_wall in Hrun0 as ([g1 ->] & Hwf1 & H1 & Hk1); [|done].
    apply grid_assign_wall in Hrun as ([g2 ->] & Hwf2 & H2 & Hk2); [|done].
    apply IH in H as ([g3 ->] & Hwf3 & Hk3 & Hall); [|done].
    split_and!; [by eexists | done | by auto |].
    intros v' [->|Hv']%elem_of_cons; [|by apply Hall].
    split; [apply Hk3, Hk2, H1 | apply Hk3, H2].
Qed.

Lemma elem_of_range lo hi v : v ∈ Py.range lo hi ↔ lo ≤ v < hi.
Proof. unfold Py.range. rewrite elem_of_seqZ. lia. Qed.

Lemma NoDup_range lo hi : NoDup (Py.range lo hi).
Proof. apply NoDup_seqZ. Qed.

Lemma walls_after_loops w0 r1 w1 r2 w2 :
  for_each (Py.range 0 (width w0)) (fun x =>
    grid_assign x 0 1 ;; grid_assign x (height w0 - 1) 1) w0 = Some (r1, w1) →
  for_each (Py.range 0 (height w0)) (fun y =>
    grid_assign 0 y 1 ;; grid_assign (width w0 - 1) y 1) w1 = Some (r2, w2) →
  grid_wf w0 →
  (∃ g, w2 = set_grid w0 g) ∧ grid_wf w2 ∧ walls_ok w2.
Proof.
  intros H1 H2 Hwf.
  apply (wall_loop _ (fun x => (x, 0)) (fun x => (x, height w0 - 1))) in H1
    as ([g1 ->] & Hwf1 & Hk1 & Hall1); [|done].
  apply (wall_loop _ (fun y => (0, y)) (fun y => (width w0 - 1, y))) in H2
    as ([g2 ->] & Hwf2 & Hk2 & Hall2); [|done].
  split_and!; [by eexists | done |].
  intros x y Hvalid Hper. unfold is_valid_position in Hvalid. simpl in Hvalid.
  apply andb_true_iff in Hvalid as [Hx Hy].
  apply bool_decide_eq_true in Hx. apply bool_decide_eq_true in Hy.
  unfold on_perimeter in Hper. simpl in Hper.
  destruct Hper as [-> | [-> | [-> | ->]]].
  - apply (Hall2 y). by apply elem_of_range.
  - apply (Hall2 y). by apply elem_of_range.
  - apply Hk2. apply (Hall1 x). by apply elem_of_range.
  - apply Hk2. apply (Hall1 x). by apply elem_of_range.
Qed.

Lemma boxes_phase_mono placed placed' w :
  placed ⊆ placed' → boxes_phase placed w → boxes_phase placed' w.
Proof. intros Hsub (? & ? & ? & ? & ? & Hdom). split_and!; try done. intros b Hb. auto. Qed.

Lemma place_initial_box_phase attempts box_id tape w tape' w' placed :
  place_initial_box attempts box_id tape w = Some (tape', w') →
  box_id ∉ placed →
  boxes_phase placed w → boxes_phase (placed ++ [box_id]) w'.
Proof.
  revert tape w. induction attempts as [|n IH]; intros tape w H Hfresh Hph; simpl in H.
  - run_inv H. eapply boxes_phase_mono; [|done]. set_solver.
  - destruct tape as [|r1 [|r2 tape0]]; [by run_inv H | by run_inv H |].
    run_inv H. destruct (v1 =? 0) eqn:Hcell; [|by eapply IH].
    apply Z.eqb_eq in Hcell as ->. run_inv H.
    destruct Hph as (Hwf & Hwalls & Hag & Hsingle & Hcount & Hdom).
    pose proof (grid_assign_set_grid _ _ _ _ _ _ Hrun) as [g Hg].
    eapply grid_assign_geometry in Hrun as
      (Hwf1 & Hwalls1 & Hag1 & Hw1 & Hh1 & Hnew & Hkeep & _); [|exact Hv1|lia|done|done].
    assert (box_locations w !! (v, v0) = None) as Hnone.
    { destruct (box_locations w !! (v, v0)) as [l|] eqn:Hl; [|done].
      apply Hsingle in Hl as [Hl _]. congruence. }
    assert (boxes w !! box_id = None) as Hbnone.
    { destruct (boxes w !! box_id) as [b|] eqn:Hb; [|done].
      destruct Hfresh. apply Hdom. by rewrite Hb. }
    subst w0. split_and!; simpl in *.
    + done.
    + done.
    + done.
    + intros x y l Hl. simpl in Hl. apply lookup_insert_Some in Hl as [[[= <- <-] <-]|[Hne Hl]].
      * split; [exact Hnew | eauto].
      * apply Hsingle in Hl as [Hl ?]. split; [|done]. apply Hkeep; [done | lia].
    + rewrite stacked_insert_fresh by done. rewrite map_size_insert_None by done.
      simpl. lia.
    + intros b Hb. simpl in Hb. apply elem_of_app.
      destruct (decide (b = box_id)) as [->|Hne]; [right; set_solver|].
      left. apply Hdom. by rewrite lookup_insert_ne in Hb.
Qed.

Lemma place_initial_boxes_phase ids tape w tape' w' placed :
  for_each_tape ids (place_initial_box 200) tape w = Some (tape', w') →
  NoDup (placed ++ ids) →
  boxes_phase placed w → boxes_phase (placed ++ ids) w'.
Proof.
  revert tape w placed. induction ids as [|box_id ids IH]; intros tape w placed H Hnd Hph;
    cbn [for_each_tape] in H.
  - run_inv H. by rewrite app_nil_r.
  - run_inv H. rewrite cons_middle, app_assoc. eapply IH; [exact H | |].
    + by rewrite <- app_assoc.
    + eapply place_initial_box_phase; [exact Hrun | | done].
      apply NoDup_app in Hnd as (_ & Hdisj & _). intros Hin. apply (Hdisj _ Hin). set_solver.
Qed.

Lemma boxes_phase_agents_phase placed w : boxes_phase placed w → agents_phase [] w.
Proof.
  intros (Hwf & Hwalls & Hag & Hsingle & Hcount & Hdom).
  split_and!; try done.
  - split_and!; [done | done | |]; rewrite Hag; constructor.
  - rewrite Hag. constructor.
  - rewrite Hag. constructor.
  - intros [x y] l Hl. by apply Hsingle in Hl as [_ ?].
Qed.

Lemma agents_phase_mono placed placed' w :
  placed ⊆ placed' → agents_phase placed w → agents_phase placed' w.
Proof.
  intros Hsub (? & ? & Hids & ? & ?). split_and!; try done.
  eapply Forall_impl; [exact Hids|]. intros a Ha. auto.
Qed.

Lemma place_initial_agent_phase attempts agent_id positions tape w res w' placed :
  place_initial_agent attempts agent_id positions tape w = Some (res, w') →
  agent_id ∉ placed → 0 ≤ agent_id →
  agents_phase placed w → agents_phase (placed ++ [agent_id]) w'.
Proof.
  revert tape w. induction attempts as [|n IH]; intros tape w H Hfresh Hid Hph; simpl in H.
  - run_inv H. eapply agents_phase_mono; [|done]. set_solver.
  - destruct tape as [|r1 [|r2 tape0]]; [by run_inv H | by run_inv H |].
    run_inv H.
    match type of H with (if ?c then _ else _) _ = _ => destruct c eqn:Hcond end;
      [|by eapply IH].
    apply andb_true_iff in Hcond as [Hcell _]. apply Z.eqb_eq in Hcell as ->. run_inv H.
    destruct Hph as ((Hwf & Hwalls & Hnd & Hpl) & Hfr & Hids & Hsingle & Hcount).
    pose proof (grid_assign_set_grid _ _ _ _ _ _ Hrun) as [g Hg].
    eapply grid_assign_geometry in Hrun as
      (Hwf1 & Hwalls1 & Hag1 & Hw1 & Hh1 & Hnew & Hkeep & Hplaced); [|exact Hv1|lia|done|done].
    apply randint_range in Hv, Hv0.
    assert (agents_phase (placed ++ [agent_id]) w0) as Hph0.
    { subst w0. split; [unfold geometry_ok|]; split_and!; simpl in *.
      - done.
      - done.
      - rewrite fmap_app. simpl. apply NoDup_app. split_and!; [done | | apply NoDup_singleton].
        intros id Hin ->%list_elem_of_singleton. apply Hfresh.
        apply list_elem_of_fmap in Hin as (a & -> & Ha).
        by eapply Forall_forall in Hids.
      - apply Forall_app. split.
        + eapply Forall_impl; [exact Hpl|]. intros a Ha. apply Hplaced.
          * exact Ha.
          * destruct Ha as (? & _). lia.
        + constructor; [|constructor]. split_and!; simpl; [done | | done].
          unfold is_valid_position. simpl. rewrite !bool_decide_eq_true_2 by lia. done.
      - apply Forall_app. split; [done|]. by repeat constructor.
      - apply Forall_app. split.
        + eapply Forall_impl; [exact Hids|]. intros a Ha. apply elem_of_app. by left.
        + constructor; [|constructor]. simpl. apply elem_of_app. right.
          by apply list_elem_of_singleton.
      - done.
      - done. }
    destruct (agent_deliveries w0 !! agent_id); [done|].
    destruct Hph0 as ((? & ? & ? & ?) & ? & ? & ? & ?). by split_and!.
Qed.

Lemma place_initial_agents_phase ids positions tape w tape' w' placed :
  place_initial_agents ids positions tape w = Some (tape', w') →
  NoDup (placed ++ ids) → Forall (fun agent_id => 0 ≤ agent_id) ids →
  agents_phase placed w → agents_phase (placed ++ ids) w'.
Proof.
  revert positions tape w placed.
  induction ids as [|agent_id ids IH]; intros positions tape w placed H Hnd Hpos Hph;
    cbn [place_initial_agents] in H.
  - run_inv H. by rewrite app_nil_r.
  - run_inv H. rewrite cons_middle, app_assoc.
    apply Forall_cons in Hpos as [Hid Hpos].
    eapply IH; [exact H | | done |].
    + by rewrite <- app_assoc.
    + eapply place_initial_agent_phase; [exact Hrun | | done | done].
      apply NoDup_app in Hnd as (_ & Hdisj & _). intros Hin. apply (Hdisj _ Hin). set_solver.
Qed.

(** The constructor leaves a warehouse with a sound geometry, stacks of one
    box each and agents that search with empty hands. *)
Lemma Warehouse_init_phase wd ht nb na tape tape' w0 :
  Warehouse_init wd ht nb na tape = Some (tape', w0) →
  agents_phase (Py.range 0 na) w0.
Proof.
  unfold Warehouse_init, initialize_warehouse. intros H.
  set (w := new_warehouse wd ht nb na) in *.
  run_inv H.
  eapply walls_after_loops in Hrun0 as ([g Hg] & Hwf & Hwalls); [|exact Hrun|apply grid_wf_new].
  assert (boxes_phase [] w2) as Hb.
  { split_and!; try done; rewrite Hg; simpl; try done.
    intros b [? Hb]. by rewrite lookup_empty in Hb. }
  eapply (place_initial_boxes_phase _ _ _ _ _ []) in Hrun1; [|apply NoDup_range|exact Hb].
  apply boxes_phase_agents_phase in Hrun1.
  eapply (place_initial_agents_phase _ _ _ _ _ _ []) in H; [exact H | | | exact Hrun1].
  - apply NoDup_range.
  - apply Forall_forall. intros v Hv%elem_of_range. lia.
Qed.

(** * Invariants of the reachable states *)

Lemma shuffle_slots_Permutation {A} slots (l : list A) tape l' tape' :
  shuffle_slots slots l tape = Some (l', tape') → l' ≡ₚ l.
Proof.
  revert l tape. induction slots as [|i slots IH]; intros l tape H; simpl in H.
  - by injection H as <- _.
  - destruct tape as [|r tape0]; [done|].
    destruct (l !! i) as [a|] eqn:Ha; [|done].
    destruct (l !! Z.to_nat (r `mod` Z.of_nat (S i))) as [b|] eqn:Hb; [|done].
    apply IH in H. rewrite H. by apply Permutation_insert_swap.
Qed.

Lemma shuffle_Permutation {A} (l : list A) tape l' tape' :
  shuffle l tape = Some (l', tape') → l' ≡ₚ l.
Proof. apply shuffle_slots_Permutation. Qed.

Lemma geometry_ok_permute w l :
  l ≡ₚ agents w → geometry_ok w → geometry_ok (set_agents w l).
Proof.
  intros Hp (Hwf & Hwalls & Hnd & Hpl). split_and!; simpl.
  - done.
  - done.
  - by rewrite Hp.
  - apply (Forall_impl (agent_placed w)); [by rewrite Hp | intros a Ha; exact Ha].
Qed.

Lemma sim_inv_constructed w0 :
  constructed w0 → sim_inv (size (boxes w0)) w0.
Proof.
  intros (wd & ht & nb & na & tape & tape' & H).
  apply Warehouse_init_phase in H as (Hgeo & Hfresh & _ & Hsingle & Hcount).
  split.
  - done.
  - intros p l Hl. apply Hsingle in Hl as [b ->]. simpl. lia.
  - eapply Forall_impl; [exact Hfresh|]. intros a [_ Hs] Hd. congruence.
  - unfold items_in_stacks. rewrite Hcount.
    assert (items_carried w0 = 0%nat) as ->; [|lia].
    unfold items_carried. induction Hfresh as [|a l [Hc _] _ IH]; [done|].
    simpl. unfold carried at 1. by rewrite Hc, IH.
Qed.

Lemma sim_inv_reachable total w0 w : reachable w0 w → sim_inv total w0 → sim_inv total w.
Proof.
  intros Hreach Hinv0.
  induction Hreach as [|w tape l tape' _ IH Hsh|w i tape tape' w' _ IH Hturn|w tm st _ IH].
  - done.
  - apply shuffle_Permutation in Hsh. destruct IH as [Hgeo Hst Hdc Hit]. split.
    + by apply geometry_ok_permute.
    + done.
    + unfold delivering_carries. simpl. by rewrite Hsh.
    + unfold items_in_stacks, items_carried in *. simpl. by rewrite Hsh.
  - destruct IH as [Hgeo Hst Hdc Hit]. split.
    + by eapply keeps_geometry_agent_turn.
    + by eapply agent_turn_stacks_ok.
    + by eapply agent_turn_delivering_carries.
    + erewrite agent_turn_items; eauto.
  - destruct IH as [Hgeo Hst Hdc Hit]. by split.
Qed.

(** The simulation loop walks through reachable states. *)
Lemma reachable_trans w0 w1 w2 : reachable w0 w1 → reachable w1 w2 → reachable w0 w2.
Proof.
  intros H01 H12. induction H12; [done | | |].
  - by eapply reach_shuffle.
  - by eapply reach_turn.
  - by apply reach_counters.
Qed.

Lemma reachable_agent_turns w0 slots tape w tape' w' :
  for_each_tape slots agent_turn tape w = Some (tape', w') →
  reachable w0 w → reachable w0 w'.
Proof.
  revert tape w. induction slots as [|i slots IH]; intros tape w H Hr; simpl in H.
  - by run_inv H.
  - apply bind_Some in H as (tape1 & w1 & Hturn & H).
    eapply IH; [exact H|]. by eapply reach_turn.
Qed.

Lemma reachable_simulation_step w0 step tape w tape' w' :
  simulation_step step tape w = Some (tape', w') →
  reachable w0 w → reachable w0 w'.
Proof.
  intros H Hr. unfold simulation_step in H.
  apply bind_Some in H as (u & w1 & H1 & H). run_inv H1.
  apply bind_Some in H as (w1 & w2 & H1 & H). run_inv H1.
  apply bind_Some in H as (shuffled & w2 & H1 & H). run_inv H1.
  apply bind_Some in H as (u2 & w2 & H1 & H). run_inv H1.
  apply bind_Some in H as (tape1 & w2 & H1 & H).
  run_inv H. apply reach_counters.
  eapply reachable_agent_turns; [exact H1|].
  destruct v as [l tape0]. eapply (reach_shuffle _ (set_counters w _ _)); [|exact Hv].
  by apply reach_counters.
Qed.

Lemma reachable_run_steps w0 remaining step tape w tape' w' :
  run_steps remaining step tape w = Some (tape', w') →
  reachable w0 w → reachable w0 w'.
Proof.
  revert step tape w. induction remaining as [|n IH]; intros step tape w H Hr; simpl in H.
  - by run_inv H.
  - apply bind_Some in H as (tape1 & w1 & Hstep & H).
    apply reachable_simulation_step with (w0 := w0) in Hstep; [|done].
    run_inv H. destruct (all_boxes_organized w1); [by run_inv H|]. by eapply IH.
Qed.

Lemma reachable_run_simulation w0 max_steps tape r w' :
  run_simulation max_steps tape w0 = Some (r, w') → reachable w0 w'.
Proof.
  intros H. unfold run_simulation in H. run_inv H.
  eapply reachable_run_steps; [exact Hrun | constructor].
Qed.

(** * The claims about the reachable states *)

Lemma example_constructed : constructed example_w0.
Proof. exists 9, 7, 3, 2, example_tape, example_tape1. vm_compute. reflexivity. Defined.

Lemma example_reachable : reachable example_w0 example_w1.
Proof.
  apply (reachable_run_steps example_w0 5 0 example_tape1 example_w0 example_tape2 example_w1).
  - vm_compute. reflexivity.
  - apply reach_start.
Defined.

Lemma items_conserved i w w' :
  frame i w w' → stacks_rel i w w' →
  (items_in_stacks w' + items_carried w' = items_in_stacks w + items_carried w)%nat.
Proof.
  intros Hfr Hst.
  apply stack_steps_weight in Hst. unfold weight in Hst. simpl in Hst.
  apply frame_items_carried in Hfr. unfold items_in_stacks. lia.
Qed.

Lemma reachable_dims w0 w : reachable w0 w → dims w = dims w0.
Proof.
  induction 1 as [|w tape l tape' _ IH Hsh|w i tape tape' w' _ IH Hturn|w tm st _ IH].
  - done.
  - done.
  - apply frame_agent_turn in Hturn as (Hd & _). congruence.
  - done.
Qed.

Lemma count_stack_size_le w x y : stacks_ok w → count_stack_size w x y ≤ 5.
Proof.
  intros Hok. unfold count_stack_size.
  destruct (box_locations w !! (x, y)) as [l|] eqn:Hl; [|lia].
  apply Hok in Hl. lia.
Qed.

(** C1 (item conservation): in every state reachable from the warehouse the
    constructor returned, the boxes in the stacks of [box_locations] plus
    the agents with [carrying_box] set are as many as the boxes created at
    construction, which is [num_boxes] when all of them were placed; and
    [pick_up_box] and [drop_box] (the only caller of [place_box]) leave
    that sum as it is. *)
Theorem item_conservation (w0 w : Warehouse) :
  constructed w0 → reachable w0 w →
  (items_in_stacks w + items_carried w = size (boxes w0))%nat ∧
  (Z.of_nat (size (boxes w0)) = num_boxes w0 →
   Z.of_nat (items_in_stacks w + items_carried w) = num_boxes w) ∧
  (∀ i x y r w', pick_up_box i x y w = Some (r, w') →
     (items_in_stacks w' + items_carried w' = items_in_stacks w + items_carried w)%nat) ∧
  (∀ i r w', drop_box i w = Some (r, w') →
     (items_in_stacks w' + items_carried w' = items_in_stacks w + items_carried w)%nat).
Proof.
  intros Hc Hr.
  pose proof (sim_inv_reachable _ _ _ Hr (sim_inv_constructed _ Hc)) as [_ _ _ Hitems].
  split_and!.
  - exact Hitems.
  - intros Hall. rewrite Hitems, Hall.
    apply reachable_dims in Hr. unfold dims in Hr. congruence.
  - intros i x y r w' H. apply (items_conserved i).
    + by eapply frame_pick_up_box.
    + by eapply stacks_rel_pick_up_box.
  - intros i r w' H. apply (items_conserved i).
    + by eapply frame_drop_box.
    + by eapply stacks_rel_drop_box.
Qed.

Lemma item_conservation_witness :
  constructed example_w0 ∧ reachable example_w0 example_w1 ∧
  (items_in_stacks example_w1 = 2 ∧ items_carried example_w1 = 1 ∧
   items_in_stacks example_w1 + items_carried example_w1 = size (boxes example_w0))%nat.
Proof.
  split; [exact example_constructed|]. split; [exact example_reachable|].
  split; [vm_compute; reflexivity|]. split; [vm_compute; reflexivity|].
  exact (proj1 (item_conservation example_w0 example_w1 example_constructed example_reachable)).
Defined.

(** C1, counterexample to the claim as written ("after every [place_box]
    operation"): in the reachable state [example_w1], with all three boxes
    placed at construction, agent 0 at (2, 1) carries box 1.  The call
    [place_box(2, 1, 1, 0)] that [drop_box] makes puts the box on the stack
    while the agent still has [carrying_box] set: the stacks hold three
    boxes and one agent carries, four against the three boxes there are. *)
Lemma place_box_alone_counts_one_more :
  constructed example_w0 ∧ reachable example_w0 example_w1 ∧
  Z.of_nat (size (boxes example_w0)) = num_boxes example_w0 ∧
  agents example_w1 !! 0%nat = Some example_agent ∧
  (ag_x example_agent, ag_y example_agent, ag_id example_agent) = (2, 1, 0) ∧
  carrying_box example_agent = true ∧ carried_box_id example_agent = Some 1 ∧
  ∃ w', place_box 2 1 1 (Some 0) example_w1 = Some (tt, w') ∧
        items_in_stacks w' = 3%nat ∧ items_carried w' = 1%nat ∧
        (items_in_stacks w' + items_carried w')%nat ≠ size (boxes example_w0) ∧
        Z.of_nat (items_in_stacks w' + items_carried w') ≠ num_boxes w'.
Proof.
  split; [exact example_constructed|]. split; [exact example_reachable|].
  split_and!; try (vm_compute; reflexivity).
  destruct (place_box 2 1 1 (Some 0) example_w1) as [[[] w']|] eqn:Hrun;
    [|vm_compute in Hrun; discriminate].
  exists w'. split; [reflexivity|].
  assert (Some (tt, w') = place_box 2 1 1 (Some 0) example_w1) as Hw by (by rewrite Hrun).
  vm_compute in Hw. injection Hw as ->.
  split_and!; try (vm_compute; reflexivity); vm_compute; intros H; discriminate H.
Qed.

(** C2 (stack capacity): in every reachable state no coordinate holds more
    than five boxes; [drop_box], the only caller of [place_box], places
    only on a stack of fewer than five and otherwise changes nothing; and
    over a whole turn the stacks change by removals of single boxes and by
    placements on stacks of fewer than five. *)
Theorem stack_capacity (w0 w : Warehouse) :
  constructed w0 → reachable w0 w →
  (∀ x y, count_stack_size w x y ≤ 5) ∧
  (∀ i r w', drop_box i w = Some (r, w') →
     (r = true → ∃ me, agents w !! i = Some me ∧
                       count_stack_size w (ag_x me) (ag_y me) < 5 ∧
                       count_stack_size w' (ag_x me) (ag_y me)
                       = count_stack_size w (ag_x me) (ag_y me) + 1) ∧
     (r = false → w' = w)) ∧
  (∀ i tape tape' w', agent_turn i tape w = Some (tape', w') →
     rtc stack_change (box_locations w) (box_locations w')).
Proof.
  intros Hc Hr.
  pose proof (sim_inv_reachable _ _ _ Hr (sim_inv_constructed _ Hc)) as [_ Hst _ _].
  split_and!.
  - intros x y. by apply count_stack_size_le.
  - intros i r w' H.
    apply drop_box_spec in H as [[-> ->]|(-> & me & b & Hme & _ & _ & Hlen & Hloc & _)].
    + split; [discriminate | done].
    + split; [|discriminate]. intros _. exists me. split; [done|].
      rewrite !count_stack_size_stack_at. split; [lia|].
      rewrite Hloc. unfold stack_at at 1. rewrite lookup_insert_eq. simpl.
      rewrite length_app. simpl. lia.
  - intros i tape tape' w' H. by eapply agent_turn_stack_changes.
Qed.

Lemma stack_capacity_witness :
  constructed example_w0 ∧ reachable example_w0 example_w1 ∧
  ∀ x y, count_stack_size example_w1 x y ≤ 5.
Proof.
  split; [exact example_constructed|]. split; [exact example_reachable|].
  exact (proj1 (stack_capacity example_w0 example_w1 example_constructed example_reachable)).
Defined.

Lemma reachable_stack_changes w0 w :
  reachable w0 w → rtc stack_change (box_locations w0) (box_locations w).
Proof.
  induction 1 as [|w tape l tape' _ IH Hsh|w i tape tape' w' _ IH Hturn|w tm st _ IH].
  - done.
  - done.
  - etrans; [exact IH|]. by eapply agent_turn_stack_changes.
  - done.
Qed.

(** C4 (single-pickup legality): all the way from the start to a reachable
    state the stacks change only by [stack_change], whose only removal
    takes the single box of a stack of depth one; [pick_up_box], the only
    caller of [remove_box_from_grid], succeeds only on a stack of depth
    exactly one, which it removes, and otherwise changes nothing. *)
Theorem single_pickup_legality (w0 w : Warehouse) :
  reachable w0 w →
  rtc stack_change (box_locations w0) (box_locations w) ∧
  (∀ i tape tape' w', agent_turn i tape w = Some (tape', w') →
     rtc stack_step (box_locations w, carrying_at i w)
                    (box_locations w', carrying_at i w')) ∧
  (∀ i x y r w', pick_up_box i x y w = Some (r, w') →
     (r = true → count_stack_size w x y = 1 ∧
                 box_locations w' = delete (x, y) (box_locations w)) ∧
     (r = false → w' = w)).
Proof.
  intros Hr. split_and!.
  - by apply reachable_stack_changes.
  - intros i tape tape' w' H. by eapply stacks_rel_agent_turn.
  - intros i x y r w' H.
    apply pick_up_box_spec in H as [[-> ->]|(-> & _ & _ & b & Hb & Hloc)].
    + split; [discriminate | done].
    + split; [|discriminate]. intros _. split; [|done].
      unfold count_stack_size. by rewrite Hb.
Qed.

Lemma single_pickup_legality_witness :
  reachable example_w0 example_w1 ∧
  rtc stack_change (box_locations example_w0) (box_locations example_w1).
Proof.
  split; [exact example_reachable|].
  exact (proj1 (single_pickup_legality example_w0 example_w1 example_reachable)).
Defined.

(** C9 (delivering implies carrying): in every reachable state between the
    turns of the agents, an agent whose state is DELIVERING has
    [carrying_box] set. *)
Theorem delivering_implies_carrying (w0 w : Warehouse) (a : Agent) :
  constructed w0 → reachable w0 w →
  a ∈ agents w → state a = DELIVERING → carrying_box a = true.
Proof.
  intros Hc Hr Ha.
  pose proof (sim_inv_reachable _ _ _ Hr (sim_inv_constructed _ Hc)) as [_ _ Hdc _].
  unfold delivering_carries in Hdc. rewrite Forall_forall in Hdc. by apply Hdc.
Qed.

Lemma delivering_implies_carrying_witness :
  constructed example_w0 ∧ reachable example_w0 example_w1 ∧
  example_agent ∈ agents example_w1 ∧ state example_agent = DELIVERING ∧
  carrying_box example_agent = true.
Proof.
  assert (example_agent ∈ agents example_w1) as Hin
    by (vm_compute; apply list_elem_of_here).
  assert (state example_agent = DELIVERING) as Hst by (vm_compute; reflexivity).
  split; [exact example_constructed|]. split; [exact example_reachable|].
  split; [exact Hin|]. split; [exact Hst|].
  exact (delivering_implies_carrying example_w0 example_w1 example_agent
           example_constructed example_reachable Hin Hst).
Defined.

(** * The contracts of the warehouse methods *)

Lemma can_move_to_cell_type w x y agent_id :
  can_move_to w x y agent_id = Some true ↔
  get_cell_type w x y = Some CEmpty ∨ get_cell_type w x y = Some CBox.
Proof.
  unfold can_move_to, get_cell_type.
  destruct (is_valid_position w x y); simpl; [|split; [discriminate | intros [?|?]; discriminate]].
  destruct (grid_at w x y) as [cell|]; [|split; [discriminate | intros [?|?]; discriminate]].
  destruct (cell =? 0) eqn:H0; simpl; [split; auto|].
  destruct (cell =? 1) eqn:H1.
  { apply Z.eqb_eq in H1 as ->. simpl. split; [discriminate | intros [?|?]; discriminate]. }
  destruct (cell =? 2) eqn:H2; [split; auto|].
  destruct (3 <=? cell); split; try discriminate; intros [?|?]; discriminate.
Qed.

Lemma agent_placed_cell_type w a :
  agent_placed w a → get_cell_type w (ag_x a) (ag_y a) = Some CRobot.
Proof.
  intros (Hid & Hvalid & Hcell). unfold get_cell_type. rewrite Hvalid, Hcell. simpl.
  destruct (3 + ag_id a =? 0) eqn:H0; [apply Z.eqb_eq in H0; lia|].
  destruct (3 + ag_id a =? 1) eqn:H1; [apply Z.eqb_eq in H1; lia|].
  destruct (3 + ag_id a =? 2) eqn:H2; [apply Z.eqb_eq in H2; lia|].
  destruct (3 <=? 3 + ag_id a) eqn:H3; [done|]. apply Z.leb_gt in H3. lia.
Qed.

(** C5 (no illegal moves): [can_move_to] answers true exactly for an empty
    or a box cell, so never for a wall or a cell with an agent on it; and in
    every reachable state each agent stands on a cell that carries an agent
    marker and is not a wall of the perimeter, and two agents never share a
    coordinate. *)
Theorem no_illegal_moves (w0 w : Warehouse) :
  constructed w0 → reachable w0 w →
  (∀ x y agent_id,
     can_move_to w x y agent_id = Some true ↔
     get_cell_type w x y = Some CEmpty ∨ get_cell_type w x y = Some CBox) ∧
  (∀ a, a ∈ agents w →
     get_cell_type w (ag_x a) (ag_y a) = Some CRobot ∧
     grid_at w (ag_x a) (ag_y a) ≠ Some 1 ∧
     ¬ on_perimeter w (ag_x a) (ag_y a)) ∧
  (∀ i j a b, agents w !! i = Some a → agents w !! j = Some b → i ≠ j →
     (ag_x a, ag_y a) ≠ (ag_x b, ag_y b)).
Proof.
  intros Hc Hr.
  pose proof (sim_inv_reachable _ _ _ Hr (sim_inv_constructed _ Hc)) as [Hgeo _ _ _].
  split_and!.
  - intros x y agent_id. apply can_move_to_cell_type.
  - intros a Ha. destruct Hgeo as (_ & Hwalls & _ & Hpl).
    rewrite Forall_forall in Hpl. specialize (Hpl a Ha).
    split_and!.
    + by apply agent_placed_cell_type.
    + destruct Hpl as (Hid & _ & Hcell). rewrite Hcell. intros [= ?]. lia.
    + intros Hper. destruct Hpl as (Hid & Hvalid & Hcell).
      rewrite (Hwalls _ _ Hvalid Hper) in Hcell. injection Hcell as ?. lia.
  - intros i j a b Ha Hb Hij [= Hx Hy].
    pose proof (geometry_distinct_ids _ _ _ _ _ Hgeo Ha Hb Hij) as Hne.
    pose proof (geometry_lookup _ _ _ Hgeo Ha) as (_ & _ & Hca).
    pose proof (geometry_lookup _ _ _ Hgeo Hb) as (_ & _ & Hcb).
    rewrite Hx, Hy, Hcb in Hca. injection Hca as ?. lia.
Qed.

Lemma no_illegal_moves_witness :
  constructed example_w0 ∧ reachable example_w0 example_w1 ∧
  get_cell_type example_w1 (ag_x example_agent) (ag_y example_agent) = Some CRobot.
Proof.
  split; [exact example_constructed|]. split; [exact example_reachable|].
  apply (no_illegal_moves example_w0 example_w1 example_constructed example_reachable).
  vm_compute. apply list_elem_of_here.
Defined.

(** C8 (placement legality): [can_place_box] answers true exactly when the
    cell exists, its stack has fewer than five boxes and it does not carry
    the marker of another agent; on a well-formed grid it always answers for
    a position inside the bounds; and a cell that carries the marker of the
    placing agent itself is a legal place while its stack is below five. *)
Theorem placement_legality (w : Warehouse) (x y agent_id : Z) :
  (can_place_box w x y agent_id = Some true ↔
   is_Some (grid_at w x y) ∧ count_stack_size w x y < 5 ∧
   ¬ occupied_by_other w x y agent_id) ∧
  (grid_wf w → is_valid_position w x y = true →
   ∃ answer, can_place_box w x y agent_id = Some answer ∧
             (answer = true ↔ count_stack_size w x y < 5 ∧
                              ¬ occupied_by_other w x y agent_id)) ∧
  (grid_at w x y = Some (3 + agent_id) → count_stack_size w x y < 5 →
   can_place_box w x y agent_id = Some true).
Proof.
  assert (Hgen : ∀ cell, grid_at w x y = Some cell →
            ∃ answer, can_place_box w x y agent_id = Some answer ∧
              (answer = true ↔ count_stack_size w x y < 5 ∧
                               ¬ occupied_by_other w x y agent_id)).
  { intros cell Hcell. unfold can_place_box, occupied_by_other. rewrite Hcell.
    destruct (5 <=? count_stack_size w x y) eqn:H5.
    - apply Z.leb_le in H5. exists false. split; [done|]. split; [discriminate|]. lia.
    - apply Z.leb_gt in H5. destruct (3 <=? cell) eqn:H3.
      + apply Z.leb_le in H3. eexists. split; [done|]. rewrite Z.eqb_eq. split.
        * intros Heq. split; [done|]. intros (c & [= <-] & _ & Hne). lia.
        * intros [_ Hno]. destruct (decide (cell - 3 = agent_id)); [done|].
          destruct Hno. eauto.
      + apply Z.leb_gt in H3. exists true. split; [done|]. split; [|done].
        intros _. split; [done|]. intros (c & [= <-] & ? & _). lia. }
  split_and!.
  - split.
    + intros Htrue. destruct (grid_at w x y) as [cell|] eqn:Hcell.
      * destruct (Hgen cell eq_refl) as (answer & Hans & Hiff).
        rewrite Htrue in Hans. injection Hans as <-.
        split; [by eexists|]. by apply Hiff.
      * unfold can_place_box in Htrue. by rewrite Hcell in Htrue.
    + intros ([cell Hcell] & Hsize & Hno).
      destruct (Hgen cell Hcell) as (answer & Hans & Hiff).
      rewrite Hans. f_equal. by apply Hiff.
  - intros Hwf Hvalid. destruct (grid_at_valid w x y Hwf Hvalid) as [cell Hcell]. eauto.
  - intros Hcell Hsize. destruct (Hgen _ Hcell) as (answer & Hans & Hiff).
    rewrite Hans. f_equal. apply Hiff. split; [done|].
    intros (c & Hc & _ & Hne). rewrite Hcell in Hc. injection Hc as <-. lia.
Qed.

Lemma placement_legality_witness :
  grid_at example_w1 (ag_x example_agent) (ag_y example_agent)
    = Some (3 + ag_id example_agent) ∧
  count_stack_size example_w1 (ag_x example_agent) (ag_y example_agent) < 5 ∧
  can_place_box example_w1 (ag_x example_agent) (ag_y example_agent) (ag_id example_agent)
    = Some true.
Proof.
  assert (grid_at example_w1 (ag_x example_agent) (ag_y example_agent)
          = Some (3 + ag_id example_agent)) as Hcell by (vm_compute; reflexivity).
  assert (count_stack_size example_w1 (ag_x example_agent) (ag_y example_agent) < 5)
    as Hsize by (vm_compute; reflexivity).
  split; [exact Hcell|]. split; [exact Hsize|].
  exact (proj2 (proj2 (placement_legality example_w1 (ag_x example_agent)
                         (ag_y example_agent) (ag_id example_agent))) Hcell Hsize).
Defined.

(** C10 (drop atomicity): [drop_box] returns False and leaves the whole
    warehouse (grid, stacks, box table, delivery counters, every agent) as
    it was when the agent carries nothing or when [can_place_box] fails at
    its coordinate; a run that returns False never changes anything; and
    when it returns True the carried box is on top of the stack at the
    coordinate of the agent and the agent carries nothing. *)
Theorem drop_atomicity (i : nat) (w : Warehouse) (me : Agent) :
  agents w !! i = Some me →
  (carrying_box me = false → drop_box i w = Some (false, w)) ∧
  (can_place_box w (ag_x me) (ag_y me) (ag_id me) = Some false →
   drop_box i w = Some (false, w)) ∧
  (∀ w', drop_box i w = Some (false, w') → w' = w) ∧
  (∀ w', drop_box i w = Some (true, w') →
     ∃ box_id, carried_box_id me = Some box_id ∧
       box_locations w' !! (ag_x me, ag_y me)
         = Some (stack_at (box_locations w) (ag_x me, ag_y me) ++ [box_id]) ∧
       (∀ p, p ≠ (ag_x me, ag_y me) → box_locations w' !! p = box_locations w !! p) ∧
       agents w' !! i = Some (set_carrying me false None)).
Proof.
  intros Hme. split_and!.
  - intros Hc. unfold drop_box, bind, self, lift. rewrite Hme, Hc. reflexivity.
  - intros Hp. unfold drop_box, bind, self, lift, get. rewrite Hme.
    destruct (carrying_box me); simpl; [|reflexivity]. rewrite Hp. reflexivity.
  - intros w' H. by apply drop_box_spec in H as [[_ ->]|([=] & _)].
  - intros w' H.
    apply drop_box_spec in H as [[[=] _]|(_ & me' & b & Hme' & _ & Hcid & _ & Hloc & Hag)].
    assert (me' = me) as -> by congruence.
    exists b. split_and!.
    + done.
    + rewrite Hloc. apply lookup_insert_eq.
    + intros p Hp. rewrite Hloc. by apply lookup_insert_ne.
    + rewrite Hag. apply list_lookup_insert_eq. by eapply lookup_lt_Some.
Qed.

Lemma drop_atomicity_witness :
  agents example_w1 !! 0%nat = Some example_agent ∧
  ∃ w', drop_box 0 example_w1 = Some (true, w') ∧
        agents w' !! 0%nat = Some (set_carrying example_agent false None).
Proof.
  assert (agents example_w1 !! 0%nat = Some example_agent) as Hme
    by (vm_compute; reflexivity).
  split; [exact Hme|].
  destruct (drop_box 0 example_w1) as [[[|] w']|] eqn:Hdrop;
    [|vm_compute in Hdrop; discriminate|vm_compute in Hdrop; discriminate].
  exists w'. split; [reflexivity|].
  destruct (proj2 (proj2 (proj2 (drop_atomicity 0 example_w1 example_agent Hme))) w' Hdrop)
    as (b & _ & _ & _ & Hag).
  exact Hag.
Defined.

(** * The fallback of a delivering agent *)

(** The hand-built state [fallback_w] has the shape of a state of the
    simulation: the grid, the stacks, the flags and the count of the boxes
    are as the invariants of the reachable states require. *)

Lemma fallback_w_well_formed :
  geometry_ok fallback_w ∧ stacks_ok fallback_w ∧ delivering_carries fallback_w ∧
  (items_in_stacks fallback_w + items_carried fallback_w = size (boxes fallback_w))%nat.
Proof.
  split_and!.
  - split_and!.
    + split; [reflexivity|]. repeat constructor.
    + intros x y Hv Hp. unfold is_valid_position in Hv. simpl in Hv.
      apply andb_true_iff in Hv as [Hx Hy].
      apply bool_decide_eq_true in Hx. apply bool_decide_eq_true in Hy.
      unfold on_perimeter in Hp. simpl in Hp.
      assert (x = 0 ∨ x = 1 ∨ x = 2 ∨ x = 3 ∨ x = 4) as Hxs by lia.
      assert (y = 0 ∨ y = 1 ∨ y = 2) as Hys by lia.
      destruct Hxs as [-> | [-> | [-> | [-> | ->]]]]; destruct Hys as [-> | [-> | ->]];
        first [reflexivity | lia].
    + simpl. apply NoDup_cons. split; [|apply NoDup_singleton].
      intros Hin%list_elem_of_singleton. discriminate.
    + simpl. repeat apply Forall_cons_2; [| |apply Forall_nil_2];
        (split_and!; [simpl; lia | reflexivity | reflexivity]).
  - intros p l Hl. simpl in Hl. apply lookup_singleton_Some in Hl as [_ <-]. simpl. lia.
  - unfold delivering_carries. simpl. repeat apply Forall_cons_2; [| |apply Forall_nil_2].
    + reflexivity.
    + discriminate.
  - vm_compute. reflexivity.
Qed.

Lemma drop_box_false i w w' me :
  drop_box i w = Some (false, w') → agents w !! i = Some me →
  carrying_box me = false ∨ can_place_box w (ag_x me) (ag_y me) (ag_id me) = Some false.
Proof.
  intros H Hme. unfold drop_box in H. run_inv H.
  destruct (carrying_box me0) eqn:Hc; [|by left]. simpl in H.
  run_inv H. destruct v; [|by right].
  destruct (carried_box_id me0); run_inv H.
Qed.

(** The fallback as far as it works: with no shelf candidate the agent ends
    the decision in SEARCHING, and when the stack under it has fewer than
    five boxes (and its cell carries its own marker) the carried box is put
    on that stack and the agent carries nothing. *)
Lemma delivering_fallback_below_capacity i tape w u w1 me tape' w' :
  (process_messages i ;; sense_environment i) w = Some (u, w1) →
  agents w1 !! i = Some me → state me = DELIVERING →
  find_nearest_shelf w1 me = Some None →
  decide_action i tape w = Some (tape', w') →
  ∃ a', agents w' !! i = Some a' ∧ state a' = SEARCHING ∧
    (carrying_box me = true →
     can_place_box w1 (ag_x me) (ag_y me) (ag_id me) = Some true →
     carrying_box a' = false ∧
     ∃ box_id, carried_box_id me = Some box_id ∧
       box_locations w' !! (ag_x me, ag_y me)
       = Some (stack_at (box_locations w1) (ag_x me, ag_y me) ++ [box_id])).
Proof.
  intros Hpre Hme Hst Hshelf H. unfold decide_action in H.
  apply bind_Some in Hpre as (u1 & w0 & Hp1 & Hp2).
  apply bind_Some in H as (u1' & w0' & Hq1 & H).
  rewrite Hp1 in Hq1. injection Hq1 as <- <-.
  apply bind_Some in H as (u2' & w1' & Hq2 & H).
  rewrite Hp2 in Hq2. injection Hq2 as <- <-.
  apply bind_Some in H as (me' & w1' & Hs & H).
  apply self_Some in Hs as (me'' & Hme'' & [= -> ->]).
  assert (me'' = me) as -> by congruence. rewrite Hst in H.
  apply bind_Some in H as (w1' & w1'' & Hg & H). apply get_Some in Hg as [= -> ->].
  apply bind_Some in H as (shelf & w1' & Hl & H).
  apply lift_Some in Hl as (shelf' & Hl & [= -> ->]).
  rewrite Hshelf in Hl. injection Hl as <-.
  apply bind_Some in H as (dropped & w2 & Hdrop & H).
  apply bind_Some in H as (u3 & w3 & Hset & H).
  apply ret_Some in H as [= -> ->].
  apply update_self_Some in Hset as (a2 & Ha2 & [= _ ->]).
  simpl. rewrite list_lookup_insert_eq by (by eapply lookup_lt_Some).
  eexists. split; [reflexivity|]. split; [reflexivity|].
  intros Hcarry Hplace. simpl.
  destruct dropped.
  - apply drop_box_spec in Hdrop as [[[=] _]|(_ & me' & b & Hme' & _ & Hcid & _ & Hloc & Hag)].
    assert (me' = me) as -> by congruence.
    rewrite Hag in Ha2.
    rewrite list_lookup_insert_eq in Ha2 by (by eapply lookup_lt_Some).
    injection Ha2 as <-. split; [reflexivity|].
    exists b. split; [done|]. rewrite Hloc. apply lookup_insert_eq.
  - eapply drop_box_false in Hdrop as [Hc|Hp]; [| |exact Hme]; congruence.
Qed.

(** * Sensing: what [sense_environment] finds and whom it tells *)

Lemma is_shelf_target_ext w1 w2 me1 me2 p :
  agent_key <$> agents w1 = agent_key <$> agents w2 → ag_id me1 = ag_id me2 →
  is_shelf_target w1 me1 p = is_shelf_target w2 me2 p.
Proof.
  unfold is_shelf_target. intros Hk Hid. rewrite Hid.
  generalize dependent (agents w2). induction (agents w1) as [|a l IH]; intros [|b l'] Hk;
    simplify_eq/=; [done|].
  unfold agent_key in *. simplify_eq/=.
  rewrite !filter_cons. rewrite H.
  destruct (decide (ag_id b ≠ ag_id me2)); simpl.
  - rewrite H1, H2. f_equal. by apply IH.
  - by apply IH.
Qed.

Lemma announce_key me msgs agent : agent_key (announce me msgs agent) = agent_key agent.
Proof. unfold announce. by case_bool_decide. Qed.

Lemma sensed_keys w i me found :
  agents w !! i = Some me →
  agent_key <$> agents (sensed w i me found) = agent_key <$> agents w.
Proof.
  intros Hme. unfold sensed. simpl. rewrite list_fmap_insert.
  assert (agent_key <$> (if bool_decide (state me = SEARCHING)
                         then announce me (discovery me <$> found) <$> agents w
                         else agents w) = agent_key <$> agents w) as ->.
  { case_bool_decide; [|done]. rewrite <- list_fmap_compose.
    apply list_fmap_ext. intros j a _. apply announce_key. }
  apply list_insert_id. by rewrite list_lookup_fmap, Hme.
Qed.

Lemma sensed_self w i me found :
  agents w !! i = Some me →
  agents (sensed w i me found) !! i
  = Some (set_known me (known_unassigned_boxes me ++ found)).
Proof.
  intros Hme. unfold sensed. simpl. apply list_lookup_insert_eq.
  case_bool_decide; [rewrite length_fmap|]; by eapply lookup_lt_Some.
Qed.

Lemma sensed_nil w i me : agents w !! i = Some me → sensed w i me [] = w.
Proof.
  intros Hme. unfold sensed. rewrite app_nil_r.
  assert ((if bool_decide (state me = SEARCHING)
           then announce me (discovery me <$> []) <$> agents w
           else agents w) = agents w) as ->.
  { case_bool_decide; [|done]. rewrite <- (list_fmap_id (agents w)) at 2.
    apply list_fmap_ext. intros j a _. unfold announce. simpl.
    case_bool_decide; [|done]. destruct a. unfold set_messages. simpl. by rewrite app_nil_r. }
  assert (set_known me (known_unassigned_boxes me) = me) as -> by (by destruct me).
  rewrite list_insert_id by done. by destruct w.
Qed.

(** One more cell found: the known list grows and, when searching, the
    cell is announced. *)
Lemma sensed_snoc w i me found p u w' :
  agents w !! i = Some me →
  (update_self i (fun a => set_known a (known_unassigned_boxes a ++ [p])) ;;
   if bool_decide (state me = SEARCHING)
   then broadcast_message i (mkMessage BOX_DISCOVERED p (ag_id me))
   else ret tt) (sensed w i me found) = Some (u, w') →
  w' = sensed w i me (found ++ [p]).
Proof.
  intros Hme H. run_inv H.
  rewrite sensed_self in Hme0 by done. injection Hme0 as <-.
  unfold sensed in *. simpl in *. rewrite list_insert_insert_eq in H.
  rewrite <- app_assoc in H.
  case_bool_decide as Hst.
  - unfold broadcast_message in H. run_inv H. simpl in *.
    rewrite list_lookup_insert_eq in Hme0
      by (rewrite length_fmap; by eapply lookup_lt_Some).
    injection Hme0 as <-. f_equal.
    rewrite list_fmap_insert. simpl.
    rewrite bool_decide_eq_false_2 by (intros Hne; by apply Hne).
    f_equal. rewrite <- list_fmap_compose. apply list_fmap_ext. intros j a _. simpl.
    unfold announce, hears. rewrite fmap_app. simpl.
    destruct (decide (ag_id a ≠ ag_id me)) as [Hid|Hid].
    + destruct (decide (Z.abs (ag_x a - ag_x me) + Z.abs (ag_y a - ag_y me)
                        ≤ communication_range me)) as [Hd|Hd].
      * rewrite !(bool_decide_eq_true_2 (_ ∧ _)) by done. simpl.
        rewrite !bool_decide_eq_true_2 by done.
        unfold receive_message, set_messages, discovery. simpl. by rewrite app_assoc.
      * rewrite !(bool_decide_eq_false_2 (_ ∧ _)) by tauto.
        rewrite bool_decide_eq_true_2 by done. by rewrite bool_decide_eq_false_2.
    + rewrite !(bool_decide_eq_false_2 (_ ∧ _)) by tauto.
      by rewrite bool_decide_eq_false_2.
  - by run_inv H.
Qed.

Lemma sense_ray_sensed i dx dy distances w me found u w' :
  agents w !! i = Some me →
  sense_ray i dx dy distances (sensed w i me found) = Some (u, w') →
  w' = sensed w i me
         (found ++ scan_ray w me (known_unassigned_boxes me ++ found) dx dy distances).
Proof.
  intros Hme. revert found.
  induction distances as [|d rest IH]; intros found H; simpl in H.
  - run_inv H. by rewrite app_nil_r.
  - apply bind_Some in H as (me' & w1 & Hs & H).
    apply self_Some in Hs as (me'' & Hs & [= -> ->]).
    rewrite sensed_self in Hs by done. injection Hs as <-.
    apply bind_Some in H as (w1 & w2 & Hg & H). apply get_Some in Hg as [= -> ->].
    simpl in H. cbn [scan_ray]. unfold ray_cell. simpl.
    change (is_valid_position (sensed w i me found)) with (is_valid_position w) in H.
    destruct (is_valid_position w (ag_x me + dx * d) (ag_y me + dy * d)); simpl in *;
      [|run_inv H; by rewrite app_nil_r].
    apply bind_Some in H as (ct & w2 & Hc & H).
    apply lift_Some in Hc as (ct' & Hc & [= -> ->]).
    change (get_cell_type (sensed w i me found)) with (get_cell_type w) in Hc.
    rewrite Hc.
    destruct ct'; try (by apply IH); [run_inv H; by rewrite app_nil_r|].
    change (count_stack_size (sensed w i me found)) with (count_stack_size w) in H.
    rewrite (is_shelf_target_ext _ w _ me) in H; [|by apply sensed_keys|done].
    apply bind_Some in H as (u1 & w2 & Hfound & H).
    destruct (count_stack_size w (ag_x me + dx * d) (ag_y me + dy * d) =? 1); simpl in *;
      [|run_inv Hfound; by apply IH].
    destruct (negb (is_shelf_target w me (ag_x me + dx * d, ag_y me + dy * d))); simpl in *;
      [|run_inv Hfound; by apply IH].
    destruct (negb (Py.contains (ag_x me + dx * d, ag_y me + dy * d)
                      (known_unassigned_boxes me ++ found))); simpl in *;
      [|run_inv Hfound; by apply IH].
    apply sensed_snoc in Hfound; [|done]. subst w2.
    apply IH in H. rewrite H. by rewrite <- !app_assoc.
Qed.

Lemma sense_rays_sensed i dirs w me found u w' :
  agents w !! i = Some me →
  for_each dirs (fun direction =>
    let '(dx, dy) := direction in
    let! me := self i in
    sense_ray i dx dy (Py.range 1 (sensor_range me + 1))) (sensed w i me found)
    = Some (u, w') →
  w' = sensed w i me (found ++ scan_rays w me (known_unassigned_boxes me ++ found) dirs).
Proof.
  intros Hme. revert found.
  induction dirs as [|[dx dy] dirs IH]; intros found H; simpl in H.
  - run_inv H. by rewrite app_nil_r.
  - apply bind_Some in H as (u1 & w1 & Hray & H).
    apply bind_Some in Hray as (me' & w2 & Hs & Hray).
    apply self_Some in Hs as (me'' & Hs & [= -> ->]).
    rewrite sensed_self in Hs by done. injection Hs as <-. simpl in Hray.
    apply sense_ray_sensed in Hray; [|done]. subst w1.
    apply IH in H. rewrite H. simpl. by rewrite <- !app_assoc.
Qed.

Lemma sense_environment_sensed i w me u w' :
  agents w !! i = Some me →
  sense_environment i w = Some (u, w') →
  w' = sensed w i me (scan_rays w me (known_unassigned_boxes me) directions).
Proof.
  intros Hme H. unfold sense_environment in H.
  rewrite <- (sensed_nil w i me Hme) in H at 1.
  apply sense_rays_sensed in H; [|done]. by rewrite app_nil_r in H.
Qed.

Lemma scan_ray_fresh w me dx dy distances known :
  NoDup (scan_ray w me known dx dy distances) ∧
  ∀ q, q ∈ scan_ray w me known dx dy distances → q ∉ known.
Proof.
  revert known. induction distances as [|d rest IH]; intros known; simpl.
  - split; [constructor | intros q Hq; by apply elem_of_nil in Hq].
  - destruct (is_valid_position w _ _); simpl;
      [|split; [constructor | intros q Hq; by apply elem_of_nil in Hq]].
    destruct (get_cell_type w _ _) as [[]|]; try apply IH;
      try (split; [constructor | intros q Hq; by apply elem_of_nil in Hq]).
    destruct (_ && _) eqn:Hfound; [|apply IH].
    apply andb_true_iff in Hfound as [_ Hnew]. apply negb_true_iff in Hnew.
    unfold Py.contains in Hnew. apply bool_decide_eq_false in Hnew.
    destruct (IH (known ++ [ray_cell me dx dy d])) as [Hnd Hfresh]. split.
    + constructor; [|done]. intros Hin. apply Hfresh in Hin. apply Hin.
      apply elem_of_app. right. by apply list_elem_of_singleton.
    + intros q [->|Hq]%elem_of_cons; [done|].
      apply Hfresh in Hq. intros Hk. apply Hq. apply elem_of_app. by left.
Qed.

Lemma scan_rays_fresh w me dirs known :
  NoDup (scan_rays w me known dirs) ∧
  ∀ q, q ∈ scan_rays w me known dirs → q ∉ known.
Proof.
  revert known. induction dirs as [|[dx dy] dirs IH]; intros known; simpl.
  - split; [constructor | intros q Hq; by apply elem_of_nil in Hq].
  - destruct (scan_ray_fresh w me dx dy (Py.range 1 (sensor_range me + 1)) known)
      as [Hnd1 Hf1].
    destruct (IH (known ++ scan_ray w me known dx dy (Py.range 1 (sensor_range me + 1))))
      as [Hnd2 Hf2].
    split.
    + apply NoDup_app. split_and!; [done | | done].
      intros q Hq1 Hq2. apply Hf2 in Hq2. apply Hq2. apply elem_of_app. by right.
    + intros q [Hq|Hq]%elem_of_app; [by apply Hf1|].
      apply Hf2 in Hq. intros Hk. apply Hq. apply elem_of_app. by left.
Qed.

Lemma ray_cell_inj me dx dy k1 k2 :
  (dx, dy) ∈ directions → ray_cell me dx dy k1 = ray_cell me dx dy k2 → k1 = k2.
Proof.
  unfold directions, ray_cell. rewrite !elem_of_cons, elem_of_nil.
  intros [[= -> ->]|[[= -> ->]|[[= -> ->]|[[= -> ->]|[]]]]] Heq;
    injection Heq; lia.
Qed.

Lemma ray_cell_direction me dx dy dx' dy' k k' :
  (dx, dy) ∈ directions → (dx', dy') ∈ directions → 1 ≤ k → 1 ≤ k' →
  ray_cell me dx dy k = ray_cell me dx' dy' k' → (dx, dy) = (dx', dy').
Proof.
  unfold directions, ray_cell. rewrite !elem_of_cons, !elem_of_nil.
  intros [[= -> ->]|[[= -> ->]|[[= -> ->]|[[= -> ->]|[]]]]]
         [[= -> ->]|[[= -> ->]|[[= -> ->]|[[= -> ->]|[]]]]] Hk Hk' Heq;
    first [reflexivity | injection Heq; lia].
Qed.

(** The finds of a ray that starts at distance [a] and has [n] cells. *)
Lemma scan_ray_elem w me dx dy known a (n : nat) p :
  (dx, dy) ∈ directions →
  p ∈ scan_ray w me known dx dy (seqZ a (Z.of_nat n)) ↔
  ∃ k, a ≤ k < a + Z.of_nat n ∧ (∀ j, a ≤ j ≤ k → ray_open w me dx dy j) ∧
       p = ray_cell me dx dy k ∧ single_box_at w me dx dy k ∧ p ∉ known.
Proof.
  intros Hdir. revert a known. induction n as [|n IH]; intros a known.
  - simpl. split; [intros Hp; by apply elem_of_nil in Hp | intros (k & ? & _); lia].
  - rewrite seqZ_cons by lia. replace (Z.pred (Z.of_nat (S n))) with (Z.of_nat n) by lia.
    cbn [scan_ray].
    set (pa := ray_cell me dx dy a).
    change (ag_x me + dx * a) with pa.1. change (ag_y me + dy * a) with pa.2.
    assert (Hlater : ∀ known',
              (∀ q, q ∈ known' → q ∈ known ∨ q = pa) → (∀ q, q ∈ known → q ∈ known') →
              ray_open w me dx dy a →
              p ∈ scan_ray w me known' dx dy (seqZ (Z.succ a) (Z.of_nat n)) ↔
              ∃ k, a < k < a + Z.of_nat (S n) ∧ (∀ j, a ≤ j ≤ k → ray_open w me dx dy j) ∧
                   p = ray_cell me dx dy k ∧ single_box_at w me dx dy k ∧ p ∉ known).
    { intros known' Hsub1 Hsub2 Hopen. rewrite IH. split.
      - intros (k & Hk & Hop & Hp & Hs & Hn). exists k. split_and!; [lia | lia | | done | done |].
        + intros j Hj. destruct (decide (j = a)) as [->|]; [done|]. apply Hop. lia.
        + intros Hin. apply Hn. by apply Hsub2.
      - intros (k & Hk & Hop & Hp & Hs & Hn). exists k. split_and!; [lia | lia | | done | done |].
        + intros j Hj. apply Hop. lia.
        + intros [Hin|Heq]%Hsub1; [done|]. rewrite Heq in Hp.
          apply ray_cell_inj in Hp; [lia|done]. }
    assert (Hstop : ¬ ray_open w me dx dy a →
              ¬ ∃ k, a ≤ k < a + Z.of_nat (S n) ∧ (∀ j, a ≤ j ≤ k → ray_open w me dx dy j) ∧
                     p = ray_cell me dx dy k ∧ single_box_at w me dx dy k ∧ p ∉ known).
    { intros Hno (k & Hk & Hop & _). apply Hno, Hop. lia. }
    assert (Hhere : ∀ k, a ≤ k < a + Z.of_nat (S n) → k = a ∨ a < k < a + Z.of_nat (S n))
      by (intros; lia).
    destruct (is_valid_position w pa.1 pa.2) eqn:Hvalid; cbn [negb].
    2:{ split; [intros Hp; by apply elem_of_nil in Hp|]. intros Hex. exfalso.
        revert Hex. apply Hstop. intros [Hv _]. fold pa in Hv. congruence. }
    destruct (get_cell_type w pa.1 pa.2) as [ct|] eqn:Hct.
    2:{ split; [intros Hp; by apply elem_of_nil in Hp|]. intros Hex. exfalso.
        revert Hex. apply Hstop. intros [_ (ct & Hc & _)]. fold pa in Hc. congruence. }
    assert (ct ≠ CWall → ray_open w me dx dy a) as Hopen.
    { intros Hne. split; [done|]. exists ct. by split. }
    assert (Hskip : ct ≠ CWall → ¬ (single_box_at w me dx dy a ∧ pa ∉ known) →
              p ∈ scan_ray w me known dx dy (seqZ (Z.succ a) (Z.of_nat n)) ↔
              ∃ k, a ≤ k < a + Z.of_nat (S n) ∧ (∀ j, a ≤ j ≤ k → ray_open w me dx dy j) ∧
                   p = ray_cell me dx dy k ∧ single_box_at w me dx dy k ∧ p ∉ known).
    { intros Hne Hnot. rewrite (Hlater known); [|by left|done|by apply Hopen]. split.
      - intros (k & Hk & Hrest). exists k. split; [lia|done].
      - intros (k & Hk & Hop & Hp & Hs & Hn).
        destruct (Hhere k Hk) as [->|Hk']; [|by exists k].
        destruct Hnot. split; [done|]. unfold pa. by rewrite <- Hp. }
    destruct ct.
    + apply Hskip; [done|]. intros [(Hc & _) _]. fold pa in Hc. congruence.
    + split; [intros Hp; by apply elem_of_nil in Hp|]. intros Hex. exfalso.
      revert Hex. apply Hstop. intros [_ (ct & Hc & Hne)]. fold pa in Hc. congruence.
    + destruct (count_stack_size w pa.1 pa.2 =? 1) eqn:Hsize; cbn [negb andb].
      2:{ apply Hskip; [done|]. intros [(_ & Hs & _) _]. fold pa in Hs.
          apply Z.eqb_neq in Hsize. done. }
      apply Z.eqb_eq in Hsize.
      destruct (is_shelf_target w me pa) eqn:Hshelf; cbn [negb andb].
      { apply Hskip; [done|]. intros [(_ & _ & Hs) _]. fold pa in Hs. congruence. }
      destruct (Py.contains pa known) eqn:Hknown; cbn [negb andb].
      { apply Hskip; [done|]. intros [_ Hn]. apply Hn.
        unfold Py.contains in Hknown. by apply bool_decide_eq_true in Hknown. }
      unfold Py.contains in Hknown. apply bool_decide_eq_false in Hknown.
      rewrite elem_of_cons, (Hlater (known ++ [pa])); [| | |by apply Hopen].
      * split.
        -- intros [->|(k & Hk & Hrest)].
           ++ exists a. split_and!; [lia | lia | | done | done | done].
              intros j Hj. assert (j = a) as -> by lia. by apply Hopen.
           ++ exists k. split; [lia|done].
        -- intros (k & Hk & Hop & Hp & Hs & Hn).
           destruct (Hhere k Hk) as [->|Hk']; [by left|]. right. by exists k.
      * intros q [Hq|Hq]%elem_of_app; [by left|]. right. by apply list_elem_of_singleton.
      * intros q Hq. apply elem_of_app. by left.
    + apply Hskip; [done|]. intros [(Hc & _) _]. fold pa in Hc. congruence.
    + apply Hskip; [done|]. intros [(Hc & _) _]. fold pa in Hc. congruence.
Qed.

Lemma scan_ray_range_elem w me dx dy known p :
  (dx, dy) ∈ directions →
  p ∈ scan_ray w me known dx dy (Py.range 1 (sensor_range me + 1)) ↔
  ∃ k, 1 ≤ k ≤ sensor_range me ∧ (∀ j, 1 ≤ j ≤ k → ray_open w me dx dy j) ∧
       p = ray_cell me dx dy k ∧ single_box_at w me dx dy k ∧ p ∉ known.
Proof.
  intros Hdir. unfold Py.range.
  assert (seqZ 1 (sensor_range me + 1 - 1)
          = seqZ 1 (Z.of_nat (Z.to_nat (sensor_range me)))) as ->.
  { unfold seqZ. rewrite Nat2Z.id. do 2 f_equal. lia. }
  rewrite scan_ray_elem by done. split.
  - intros (k & Hk & Hrest). exists k. split; [lia|done].
  - intros (k & Hk & Hrest). exists k. split; [lia|done].
Qed.

Lemma scan_rays_elem w me dirs known p :
  NoDup dirs → (∀ d, d ∈ dirs → d ∈ directions) →
  p ∈ scan_rays w me known dirs ↔
  ∃ dx dy k, (dx, dy) ∈ dirs ∧ 1 ≤ k ≤ sensor_range me ∧
             (∀ j, 1 ≤ j ≤ k → ray_open w me dx dy j) ∧
             p = ray_cell me dx dy k ∧ single_box_at w me dx dy k ∧ p ∉ known.
Proof.
  revert known. induction dirs as [|[dx dy] dirs IH]; intros known Hnd Hsub; simpl.
  - split; [intros Hp; by apply elem_of_nil in Hp|].
    intros (dx & dy & k & Hin & _). by apply elem_of_nil in Hin.
  - apply NoDup_cons in Hnd as [Hnotin Hnd].
    assert ((dx, dy) ∈ directions) as Hdir by (apply Hsub; apply list_elem_of_here).
    rewrite elem_of_app, scan_ray_range_elem, IH;
      [|done|intros d Hd; apply Hsub; by apply list_elem_of_further|done].
    split.
    + intros [(k & Hk & Hop & Hp & Hs & Hn)|(dx' & dy' & k & Hin & Hk & Hop & Hp & Hs & Hn)].
      * exists dx, dy, k. split_and!; try done; [apply list_elem_of_here|lia|lia].
      * exists dx', dy', k. split_and!; try done; [by apply list_elem_of_further|lia|lia|].
        intros Hin'. apply Hn. apply elem_of_app. by left.
    + intros (dx' & dy' & k & Hin & Hk & Hop & Hp & Hs & Hn).
      apply elem_of_cons in Hin as [[= -> ->]|Hin].
      * left. exists k. split_and!; try done; lia.
      * right. exists dx', dy', k. split_and!; try done; [lia|lia|].
        intros [Hin'|Hin']%elem_of_app; [done|].
        apply scan_ray_range_elem in Hin' as (k' & Hk' & _ & Hp' & _); [|done].
        rewrite Hp' in Hp. apply ray_cell_direction in Hp; [|done|by apply Hsub, list_elem_of_further|lia|lia].
        injection Hp as <- <-. done.
Qed.

Lemma NoDup_directions : NoDup directions.
Proof.
  unfold directions. repeat (apply NoDup_cons; split; [|]); [| | | |apply NoDup_nil_2];
    rewrite ?elem_of_cons, elem_of_nil; intros H; repeat destruct H as [H|H]; done.
Qed.

Lemma scan_rays_new_single_box w me p :
  p ∈ scan_rays w me (known_unassigned_boxes me) directions ↔ new_single_box w me p.
Proof.
  rewrite scan_rays_elem; [|apply NoDup_directions|done].
  unfold new_single_box, in_sight, single_box_at. split.
  - intros (dx & dy & k & Hin & Hk & Hop & -> & (Hc & Hs & Ht) & Hn).
    split_and!; try done. exists dx, dy, k. split_and!; try done; lia.
  - intros ((dx & dy & k & Hin & Hk & -> & Hop) & Hc & Hs & Ht & Hn).
    exists dx, dy, k. split_and!; try done; lia.
Qed.

(** C7 (message suppression): [sense_environment] adds to the known list of
    the agent exactly the new single boxes in its sight, each once.  An
    agent that is PICKING_UP or DELIVERING changes nothing else, so no other
    agent receives a message; an agent that is SEARCHING appends to the
    inbox of every other agent within its communication range exactly one
    BOX_DISCOVERED message for each of those cells, and to no other inbox. *)
Theorem message_suppression (i : nat) (w : Warehouse) (me : Agent) (w' : Warehouse) :
  agents w !! i = Some me →
  sense_environment i w = Some (tt, w') →
  ∃ found,
    NoDup found ∧ (∀ p, p ∈ found ↔ new_single_box w me p) ∧
    agents w' !! i = Some (set_known me (known_unassigned_boxes me ++ found)) ∧
    (state me ≠ SEARCHING →
       w' = set_agents w
              (<[i := set_known me (known_unassigned_boxes me ++ found)]> (agents w))) ∧
    (state me = SEARCHING →
       ∀ j agent, j ≠ i → agents w !! j = Some agent →
         agents w' !! j
         = Some (if bool_decide (hears me agent)
                 then set_messages agent (messages agent ++ (discovery me <$> found))
                 else agent)).
Proof.
  intros Hme H. apply (sense_environment_sensed i w me) in H; [|done]. subst w'.
  exists (scan_rays w me (known_unassigned_boxes me) directions).
  split_and!.
  - apply scan_rays_fresh.
  - intros p. apply scan_rays_new_single_box.
  - by apply sensed_self.
  - intros Hst. unfold sensed. by rewrite bool_decide_eq_false_2.
  - intros Hst j agent Hj Hagent. unfold sensed. simpl.
    rewrite bool_decide_eq_true_2 by done.
    rewrite list_lookup_insert_ne by done.
    rewrite list_lookup_fmap, Hagent. reflexivity.
Qed.

Lemma message_suppression_witness :
  agents sensing_w !! 0%nat = Some (new_agent 0 4 1) ∧
  sense_environment 0 sensing_w = Some (tt, sensing_w') ∧
  ∃ found, NoDup found ∧
    agents sensing_w' !! 0%nat
    = Some (set_known (new_agent 0 4 1)
              (known_unassigned_boxes (new_agent 0 4 1) ++ found)) ∧
    ∀ agent, agents sensing_w !! 1%nat = Some agent →
      agents sensing_w' !! 1%nat
      = Some (if bool_decide (hears (new_agent 0 4 1) agent)
              then set_messages agent
                     (messages agent ++ (discovery (new_agent 0 4 1) <$> found))
              else agent).
Proof.
  assert (agents sensing_w !! 0%nat = Some (new_agent 0 4 1)) as Hme
    by (vm_compute; reflexivity).
  assert (sense_environment 0 sensing_w = Some (tt, sensing_w')) as Hrun
    by (vm_compute; reflexivity).
  split; [exact Hme|]. split; [exact Hrun|].
  destruct (message_suppression 0 sensing_w (new_agent 0 4 1) sensing_w' Hme Hrun)
    as (found & Hnd & _ & Hknown & _ & Hsearch).
  exists found. split; [exact Hnd|]. split; [exact Hknown|].
  intros agent Hagent.
  exact (Hsearch eq_refl 1%nat agent (fun H : 1%nat = 0%nat => O_S 0 (eq_sym H)) Hagent).
Defined.

(** * Breadth-first search returns the first of the shortest routes *)

(** ** The order on routes *)

Lemma route_lt_length r1 r2 : route_lt r1 r2 → length r1 = length r2.
Proof. induction 1; simpl; congruence. Qed.

Lemma route_lt_trans r1 r2 r3 : route_lt r1 r2 → route_lt r2 r3 → route_lt r1 r3.
Proof.
  intros H12. revert r3. induction H12 as [d1 d2 r1 r2 Hd Hl|d r1 r2 H12 IH]; intros r3 H23.
  - inversion H23 as [? d3 ? r3' Hd' Hl'|? ? r3' H23']; subst.
    + apply route_lt_head; [lia | congruence].
    + apply route_lt_head; [done|]. apply route_lt_length in H23'. congruence.
  - inversion H23 as [? d3 ? r3' Hd' Hl'|? ? r3' H23']; subst.
    + apply route_lt_head; [done|]. apply route_lt_length in H12. congruence.
    + apply route_lt_tail. by apply IH.
Qed.

Lemma route_lt_le_trans r1 r2 r3 : route_lt r1 r2 → route_le r2 r3 → route_lt r1 r3.
Proof. intros H12 [<-|H23]; [done|]. by eapply route_lt_trans. Qed.

Lemma route_lt_app r1 r2 a b :
  route_lt r1 r2 → length a = length b → route_lt (r1 ++ a) (r2 ++ b).
Proof.
  intros H Hab. induction H as [d1 d2 r1 r2 Hd Hl|d r1 r2 H IH]; simpl.
  - apply route_lt_head; [done|]. rewrite !length_app. congruence.
  - by apply route_lt_tail.
Qed.

Lemma route_lt_snoc p d0 d :
  (dir_rank d0 < dir_rank d)%nat → route_lt (p ++ [d0]) (p ++ [d]).
Proof.
  intros Hd. induction p as [|d' p IH]; simpl.
  - by apply route_lt_head.
  - by apply route_lt_tail.
Qed.

Lemma route_le_snoc r1 r2 d : route_le r1 r2 → route_le (r1 ++ [d]) (r2 ++ [d]).
Proof. intros [->|H]; [by left|]. right. by apply route_lt_app. Qed.

Lemma before_length r1 r2 : before r1 r2 → (length r1 ≤ length r2)%nat.
Proof. intros [H|H]; [lia|]. apply route_lt_length in H. lia. Qed.

Lemma before_same_length r1 r2 : before r1 r2 → length r1 = length r2 → route_lt r1 r2.
Proof. intros [H|H] Hl; [lia|done]. Qed.

(** The enumeration of the directions is in the order of their ranks. *)
Lemma directions_ranked pre d post d0 :
  directions = pre ++ d :: post → d0 ∈ pre → (dir_rank d0 < dir_rank d)%nat.
Proof.
  unfold directions. intros Hsplit Hd0.
  destruct pre as [|a1 [|a2 [|a3 [|a4 pre]]]]; simplify_eq/=.
  - by apply elem_of_nil in Hd0.
  - apply list_elem_of_singleton in Hd0 as ->. vm_compute. lia.
  - rewrite !elem_of_cons, elem_of_nil in Hd0.
    destruct Hd0 as [->|[->|[]]]; vm_compute; lia.
  - rewrite !elem_of_cons, elem_of_nil in Hd0.
    destruct Hd0 as [->|[->|[->|[]]]]; vm_compute; lia.
  - destruct pre; simplify_eq/=.
Qed.

(** ** Walks *)

Lemma step_to_inj u d d' : step_to u d = step_to u d' → d = d'.
Proof. destruct d, d'. unfold step_to. simpl. intros [= ? ?]. f_equal; lia. Qed.

Lemma walk_snoc w tgt s ds u d :
  walk w tgt s ds u → d ∈ directions → passable w tgt (step_to u d) →
  walk w tgt s (ds ++ [d]) (step_to u d).
Proof.
  intros Hw Hd Hp. induction Hw as [p|p d' ds q Hd' Hp' Hw IH]; simpl.
  - apply walk_cons; [done | done | constructor].
  - apply walk_cons; [done | done | by apply IH].
Qed.

Lemma walk_snoc_inv w tgt s ds d v :
  walk w tgt s (ds ++ [d]) v →
  ∃ u, walk w tgt s ds u ∧ v = step_to u d ∧ d ∈ directions ∧ passable w tgt v.
Proof.
  revert s. induction ds as [|d' ds IH]; intros s Hw; simpl in Hw.
  - inversion Hw as [|? ? ? ? Hd Hp Hw']; subst. inversion Hw'; subst.
    exists s. split_and!; [constructor | done | done | done].
  - inversion Hw as [|? ? ? ? Hd Hp Hw']; subst.
    apply IH in Hw' as (u & Hu & -> & Hd' & Hp').
    exists u. split_and!; [by apply walk_cons | done | done | done].
Qed.

(** A walk that leaves the visited set has a first step that leaves it. *)
Lemma walk_cross (w : Warehouse) (tgt : Z * Z) (visited : gset (Z * Z)) (s : Z * Z) ds (v : Z * Z) :
  walk w tgt s ds v → s ∈ visited → v ∉ visited →
  ∃ ds1 d ds2 u, ds = ds1 ++ d :: ds2 ∧ walk w tgt s ds1 u ∧ u ∈ visited ∧
                 d ∈ directions ∧ passable w tgt (step_to u d) ∧ step_to u d ∉ visited.
Proof.
  intros Hw. revert visited.
  assert (∀ (visited : gset (Z * Z)) (s0 : Z * Z) pre, walk w tgt s0 pre s → s ∈ visited → v ∉ visited →
            ∃ ds1 d ds2 u, pre ++ ds = ds1 ++ d :: ds2 ∧ walk w tgt s0 ds1 u ∧ u ∈ visited ∧
              d ∈ directions ∧ passable w tgt (step_to u d) ∧ step_to u d ∉ visited) as Hgen.
  { induction Hw as [p|p d ds q Hd Hp Hw IH]; intros visited s0 pre Hpre Hs Hv.
    - done.
    - destruct (decide (step_to p d ∈ visited)) as [Hin|Hout].
      + destruct (IH visited s0 (pre ++ [d])) as (ds1 & d1 & ds2 & u & Heq & Hrest);
          [by apply walk_snoc | done | done |].
        exists ds1, d1, ds2, u. split; [|done]. by rewrite <- Heq, <- app_assoc.
      + exists pre, d, ds, p. by split_and!. }
  intros visited Hs Hv. apply (Hgen visited s []); [constructor | done | done].
Qed.

(** ** The node under expansion *)

Section expansion.
Context (w : Warehouse) (s tgt u : Z * Z) (pu pre : list (Z * Z)).
Context (queue : list (Z * Z * list (Z * Z))) (visited : gset (Z * Z)).
Context (Hinv : expand_inv w s tgt u pu pre queue visited).

(** A visited node with a passable neighbour outside the visited set is the
    node under expansion or waits in the queue; its route is no shorter
    than that of the node under expansion. *)
Lemma open_node v d :
  v ∈ visited → d ∈ directions → passable w tgt (step_to v d) → step_to v d ∉ visited →
  (v = u ∧ d ∉ pre) ∨ ∃ path, (v.1, v.2, path) ∈ queue ∧ before pu path.
Proof.
  intros Hv Hd Hp Hout.
  destruct (ei_closed _ _ _ _ _ _ _ _ Hinv v Hv) as [->|[[path Hq]|Hc]].
  - left. split; [done|]. intros Hpre. apply Hout. by apply (ei_u_pre _ _ _ _ _ _ _ _ Hinv).
  - right. exists path. split; [done|]. by apply (ei_after_u _ _ _ _ _ _ _ _ Hinv _ Hq).
  - exfalso. apply Hout. by apply Hc.
Qed.

(** Every route to a node outside the visited set is longer than the route
    of the node under expansion. *)
Lemma frontier ds v :
  walk w tgt s ds v → v ∉ visited → (length pu < length ds)%nat.
Proof.
  intros Hw Hv.
  destruct (walk_cross w tgt visited s ds v Hw (ei_start _ _ _ _ _ _ _ _ Hinv) Hv)
    as (ds1 & d & ds2 & u' & -> & Hw1 & Hu' & Hd & Hp & Hout).
  rewrite length_app. simpl.
  destruct (open_node u' d Hu' Hd Hp Hout) as [[-> _]|(path & Hq & Hbefore)].
  - destruct (ei_u_best _ _ _ _ _ _ _ _ Hinv) as [_ Hmin].
    destruct (Hmin ds1 Hw1) as [Hle _]. lia.
  - destruct u' as [x' y']. simpl in Hq.
    destruct (ei_best _ _ _ _ _ _ _ _ Hinv x' y' path Hq) as [_ [_ Hmin]].
    destruct (Hmin ds1 Hw1) as [Hle _]. apply before_length in Hbefore. lia.
Qed.

(** The route through the node under expansion is the best one to a
    neighbour that has not been visited. *)
Lemma best_route_neighbour d :
  d ∈ directions → passable w tgt (step_to u d) → step_to u d ∉ visited →
  best_route w s tgt (step_to u d) (pu ++ [d]).
Proof.
  intros Hd Hp Hout. destruct (ei_u_best _ _ _ _ _ _ _ _ Hinv) as [Hwu Hmin]. split.
  - by apply walk_snoc.
  - intros ds Hds. pose proof (frontier ds _ Hds Hout) as Hlen.
    rewrite length_app. simpl. split; [lia|]. intros Heq.
    destruct (exists_last (l := ds)) as (ds' & d' & ->); [intros ->; simpl in Hlen; lia |].
    rewrite length_app in Heq. simpl in Heq.
    apply walk_snoc_inv in Hds as (u' & Hw' & Hstep & Hd' & Hp').
    assert (u' ∈ visited) as Hu'.
    { destruct (decide (u' ∈ visited)) as [|Hn]; [done|].
      pose proof (frontier ds' u' Hw' Hn). lia. }
    rewrite Hstep in Hp, Hout.
    destruct (open_node u' d' Hu' Hd' Hp Hout) as [[-> _]|(path & Hq & Hbefore)].
    + apply step_to_inj in Hstep as ->.
      apply route_le_snoc. apply (Hmin ds' Hw'). lia.
    + destruct u' as [x' y']. simpl in Hq.
      destruct (ei_best _ _ _ _ _ _ _ _ Hinv x' y' path Hq) as [_ [_ Hmin']].
      destruct (Hmin' ds' Hw') as [Hle Hfirst].
      pose proof (before_length _ _ Hbefore) as Hle'.
      assert (length path = length pu) as Hsame by lia.
      right. apply route_lt_app; [|done].
      eapply route_lt_le_trans; [by apply before_same_length | apply Hfirst; lia].
Qed.

(** The new entry comes after every entry of the queue. *)
Lemma queue_before_new d post :
  directions = pre ++ d :: post →
  Forall (fun path => before path (pu ++ [d])) (entry_path <$> queue).
Proof.
  intros Hsplit. apply Forall_fmap, Forall_forall. intros e He. unfold entry_path. simpl.
  pose proof (ei_level _ _ _ _ _ _ _ _ Hinv e He) as Hlev.
  destruct (decide (length e.2 = S (length pu))) as [Heq|Hne].
  - right. destruct (ei_origin _ _ _ _ _ _ _ _ Hinv e He Heq) as (p0 & d0 & -> & [Hlt|[-> Hd0]]).
    + by apply route_lt_app.
    + apply route_lt_snoc. by eapply directions_ranked.
  - left. rewrite length_app. simpl. lia.
Qed.

(** Entering an unvisited passable neighbour keeps the invariant. *)
Lemma expand_inv_enqueue d post :
  directions = pre ++ d :: post →
  passable w tgt (step_to u d) → step_to u d ∉ visited → step_to u d ≠ tgt →
  expand_inv w s tgt u pu (pre ++ [d])
    (queue ++ [((step_to u d).1, (step_to u d).2, pu ++ [d])]) ({[step_to u d]} ∪ visited).
Proof.
  intros Hsplit Hp Hout Hne.
  assert (d ∈ directions) as Hd by (rewrite Hsplit; apply elem_of_app; right; left).
  pose proof (best_route_neighbour d Hd Hp Hout) as Hbest.
  destruct Hinv as [Hs Ht Hu Hub Hpre Hb Hc Hso Haft Hlev Hor].
  split.
  - apply elem_of_union_r, Hs.
  - intros Hin. apply elem_of_union in Hin as [Hin|Hin]; [|done].
    apply elem_of_singleton in Hin. done.
  - by apply elem_of_union_r.
  - done.
  - intros d' Hd' Hp'. apply elem_of_app in Hd' as [Hd'|Hd'].
    + apply elem_of_union_r. by apply Hpre.
    + apply list_elem_of_singleton in Hd' as ->. apply elem_of_union_l. by apply elem_of_singleton.
  - intros x y path Hin. apply elem_of_app in Hin as [Hin|Hin].
    + destruct (Hb x y path Hin) as [? ?]. split; [by apply elem_of_union_r | done].
    + apply list_elem_of_singleton in Hin. injection Hin as -> -> ->.
      split; [apply elem_of_union_l; by apply elem_of_singleton | exact Hbest].
  - intros v Hv. apply elem_of_union in Hv as [Hv|Hv].
    + apply elem_of_singleton in Hv as ->. right. left.
      exists (pu ++ [d]). apply elem_of_app. right. left.
    + destruct (Hc v Hv) as [->|[[path Hq]|Hcl]].
      * by left.
      * right. left. exists path. apply elem_of_app. by left.
      * right. right. intros d' Hd' Hp'. apply elem_of_union_r. by apply Hcl.
  - rewrite fmap_app. simpl. apply StronglySorted_app_2; [| done | repeat constructor].
    intros p1 p2 Hp1 Hp2. apply list_elem_of_singleton in Hp2 as ->.
    pose proof (queue_before_new d post Hsplit) as Hall.
    rewrite Forall_forall in Hall. by apply Hall.
  - intros e He. apply elem_of_app in He as [He|He]; [by apply Haft|].
    apply list_elem_of_singleton in He as ->. left. simpl. rewrite length_app. simpl. lia.
  - intros e He. apply elem_of_app in He as [He|He]; [by apply Hlev|].
    apply list_elem_of_singleton in He as ->. simpl. rewrite length_app. simpl. lia.
  - intros e He Hl. apply elem_of_app in He as [He|He].
    + destruct (Hor e He Hl) as (p0 & d0 & Heq & [Hlt|[-> Hd0]]).
      * exists p0, d0. split; [done|]. by left.
      * exists pu, d0. split; [done|]. right. split; [done|]. apply elem_of_app. by left.
    + apply list_elem_of_singleton in He as ->. exists pu, d. split; [done|].
      right. split; [done|]. apply elem_of_app. right. left.
Qed.

(** Passing over a neighbour that is visited or cannot be entered keeps
    the invariant. *)
Lemma expand_inv_skip d :
  (passable w tgt (step_to u d) → step_to u d ∈ visited) →
  expand_inv w s tgt u pu (pre ++ [d]) queue visited.
Proof.
  intros Hskip. destruct Hinv as [Hs Ht Hu Hub Hpre Hb Hc Hso Haft Hlev Hor].
  split; try done.
  - intros d' Hd' Hp'. apply elem_of_app in Hd' as [Hd'|Hd'].
    + by apply Hpre.
    + apply list_elem_of_singleton in Hd' as ->. by apply Hskip.
  - intros e He Hl. destruct (Hor e He Hl) as (p0 & d0 & Heq & [Hlt|[-> Hd0]]).
    + exists p0, d0. split; [done|]. by left.
    + exists pu, d0. split; [done|]. right. split; [done|]. apply elem_of_app. by left.
Qed.

End expansion.

(** ** The cells left to visit bound the number of iterations *)

Lemma all_cells_elem w (p : Z * Z) :
  is_valid_position w p.1 p.2 = true → p ∈ all_cells w.
Proof.
  unfold is_valid_position. intros Hv. apply andb_true_iff in Hv as [Hx Hy].
  apply bool_decide_eq_true in Hx, Hy. unfold all_cells.
  apply list_elem_of_bind. exists p.1. split; [|apply elem_of_seqZ; lia].
  apply list_elem_of_bind. exists p.2. split; [|apply elem_of_seqZ; lia].
  destruct p. apply list_elem_of_here.
Qed.

Lemma length_all_cells w :
  length (all_cells w) = (Z.to_nat (width w) * Z.to_nat (height w))%nat.
Proof.
  unfold all_cells. rewrite <- (length_seqZ 0 (width w)), <- (length_seqZ 0 (height w)).
  generalize (seqZ 0 (height w)). intros ys.
  induction (seqZ 0 (width w)) as [|x xs IH]; [done|].
  rewrite bind_cons, length_app, IH. simpl. f_equal.
  clear IH. induction ys as [|y ys IHy]; [done|]. rewrite bind_cons. simpl. by f_equal.
Qed.

Lemma unvisited_bound (w : Warehouse) (visited : gset (Z * Z)) :
  (unvisited w visited ≤ Z.to_nat (width w) * Z.to_nat (height w))%nat.
Proof. unfold unvisited. rewrite <- length_all_cells. apply length_filter. Qed.

Lemma filter_shrinks {A} (P Q : A → Prop) `{!∀ x, Decision (P x)} `{!∀ x, Decision (Q x)}
    (l : list A) (x : A) :
  (∀ y, Q y → P y) → x ∈ l → P x → ¬ Q x →
  (length (filter Q l) < length (filter P l))%nat.
Proof.
  intros Hsub Hx HP HQ.
  assert (∀ l', length (filter Q l') ≤ length (filter P l'))%nat as Hle.
  { induction l' as [|a l' IH]; [done|]. rewrite !filter_cons.
    destruct (decide (Q a)) as [Hq|Hq].
    - rewrite decide_True by auto. simpl. lia.
    - destruct (decide (P a)); simpl; lia. }
  induction Hx as [x l|x a l Hx IH]; rewrite !filter_cons.
  - destruct (decide (Q x)); [done|]. destruct (decide (P x)); [|done].
    simpl. specialize (Hle l). lia.
  - specialize (IH HP HQ). destruct (decide (Q a)) as [Hq|Hq].
    + rewrite decide_True by auto. simpl. lia.
    + destruct (decide (P a)); simpl; lia.
Qed.

Lemma unvisited_insert (w : Warehouse) (visited : gset (Z * Z)) (p : Z * Z) :
  is_valid_position w p.1 p.2 = true → p ∉ visited →
  (unvisited w ({[p]} ∪ visited) < unvisited w visited)%nat.
Proof.
  intros Hv Hout. unfold unvisited.
  apply (filter_shrinks _ _ _ p).
  - intros q Hq Hin. apply Hq. by apply elem_of_union_r.
  - by apply all_cells_elem.
  - done.
  - intros Hn. apply Hn. apply elem_of_union_l. by apply elem_of_singleton.
Qed.

(** ** One pass over the directions *)

Lemma passable_valid w tgt p : passable w tgt p → is_valid_position w p.1 p.2 = true.
Proof. by intros [? _]. Qed.

Lemma bfs_expand_spec w s tx ty x y pu dirs :
  grid_wf w →
  ∀ pre queue visited,
    directions = pre ++ dirs →
    expand_inv w s (tx, ty) (x, y) pu pre queue visited →
    ∃ r, bfs_expand w tx ty x y pu dirs queue visited = Some r ∧
      match r with
      | Found route => best_route w s (tx, ty) (tx, ty) route
      | Continue queue' visited' =>
          expand_inv w s (tx, ty) (x, y) pu directions queue' visited' ∧
          (length queue' + unvisited w visited' ≤ length queue + unvisited w visited)%nat
      end.
Proof.
  intros Hwf. induction dirs as [|[dx dy] dirs IH]; intros pre queue visited Hsplit Hinv.
  - rewrite app_nil_r in Hsplit. subst pre. eexists. split; [reflexivity|]. split; [done | lia].
  - assert (directions = (pre ++ [(dx, dy)]) ++ dirs) as Hsplit' by by rewrite <- app_assoc.
    assert ((dx, dy) ∈ directions) as Hd by (rewrite Hsplit; apply elem_of_app; right; left).
    change (x + dx, y + dy) with (step_to (x, y) (dx, dy)) in *.
    cbn [bfs_expand].
    change (x + dx, y + dy) with (step_to (x, y) (dx, dy)).
    set (v := step_to (x, y) (dx, dy)).
    change (x + dx) with v.1. change (y + dy) with v.2.
    destruct (bool_decide_reflect (v ∈ visited)) as [Hin|Hout].
    { apply (IH _ _ _ Hsplit'). by apply expand_inv_skip. }
    destruct (is_valid_position w v.1 v.2) eqn:Hvalid; simpl.
    2:{ apply (IH _ _ _ Hsplit'). apply expand_inv_skip; [done|].
        intros Hp. apply passable_valid in Hp. fold v in Hp. congruence. }
    destruct (grid_at_valid w v.1 v.2 Hwf Hvalid) as [cell Hcell].
    change (grid_at w (x + dx) (y + dy)) with (grid_at w v.1 v.2). rewrite Hcell.
    destruct ((cell =? 0) || (cell =? 2) || bool_decide (v = (tx, ty))) eqn:Hcond.
    2:{ apply (IH _ _ _ Hsplit'). apply expand_inv_skip; [done|].
        intros [_ Hp]. fold v in Hp. rewrite Hcell in Hp.
        apply orb_false_iff in Hcond as [Hcond Ht]. apply orb_false_iff in Hcond as [H0 H2].
        apply Z.eqb_neq in H0, H2. apply bool_decide_eq_false in Ht.
        destruct Hp as [[= ?]|[[= ?]|?]]; done. }
    assert (passable w (tx, ty) v) as Hp.
    { split; [done|]. rewrite Hcell.
      apply orb_true_iff in Hcond as [Hcond|Ht].
      - apply orb_true_iff in Hcond as [H0|H2].
        + apply Z.eqb_eq in H0 as ->. by left.
        + apply Z.eqb_eq in H2 as ->. right. by left.
      - apply bool_decide_eq_true in Ht. right. by right. }
    destruct (bool_decide_reflect (v = (tx, ty))) as [Ht|Ht].
    { eexists. split; [reflexivity|].
      pose proof (best_route_neighbour _ _ _ _ _ _ _ _ Hinv (dx, dy) Hd Hp Hout) as Hbest.
      fold v in Hbest. by rewrite Ht in Hbest. }
    destruct (IH _ _ _ Hsplit'
                (expand_inv_enqueue _ _ _ _ _ _ _ _ Hinv (dx, dy) dirs Hsplit Hp Hout Ht))
      as (r & Hr & Hpost).
    exists r. split; [exact Hr|]. destruct r as [route|queue' visited']; [done|].
    destruct Hpost as [Hinv' Hm]. split; [done|].
    pose proof (unvisited_insert w visited v Hvalid Hout) as Hlt.
    rewrite length_app in Hm. cbn [length] in Hm. fold v in Hm. lia.
Qed.

(** ** The loop over the queue *)

Lemma loop_inv_start w (s tgt : Z * Z) :
  s ≠ tgt → loop_inv w s tgt [(s.1, s.2, [])] {[s]}.
Proof.
  intros Hne. split.
  - by apply elem_of_singleton.
  - intros Hin. apply elem_of_singleton in Hin. done.
  - intros x y path Hin. apply list_elem_of_singleton in Hin. injection Hin as -> -> ->.
    split; [apply elem_of_singleton; by destruct s|].
    replace (s.1, s.2) with s by by destruct s. split; [constructor|].
    intros ds _. split; [simpl; lia|]. intros Hl. left. by destruct ds.
  - intros v Hv. apply elem_of_singleton in Hv as ->. left. exists []. left.
  - repeat constructor.
  - intros e e' He He'. apply list_elem_of_singleton in He as ->.
    apply list_elem_of_singleton in He' as ->. simpl. lia.
  - intros e e' He He'. apply list_elem_of_singleton in He as ->.
    apply list_elem_of_singleton in He' as ->. simpl. lia.
Qed.

(** Taking the head of the queue starts its expansion. *)
Lemma loop_inv_dequeue w s tgt x y path queue visited :
  loop_inv w s tgt ((x, y, path) :: queue) visited →
  expand_inv w s tgt (x, y) path [] queue visited.
Proof.
  intros [Hs Ht Hb Hc Hso Hlev Hor].
  assert ((x, y, path) ∈ (x, y, path) :: queue) as Hhead by left.
  rewrite fmap_cons in Hso. apply StronglySorted_inv in Hso as [Hso Hall].
  rewrite Forall_fmap, Forall_forall in Hall.
  split.
  - done.
  - done.
  - by apply (Hb x y path).
  - by apply (Hb x y path).
  - intros d Hd. by apply elem_of_nil in Hd.
  - intros x' y' path' Hin. apply Hb. by right.
  - intros v Hv. destruct (Hc v Hv) as [[p Hq]|Hcl]; [|by right; right].
    apply elem_of_cons in Hq as [Hq|Hq].
    + left. injection Hq as ? ? ?. destruct v. simpl in *. by subst.
    + right. left. by exists p.
  - done.
  - intros e He. by apply (Hall e).
  - intros e He. apply (Hlev (x, y, path) e); [done | by right].
  - intros e He Hl. destruct (Hor (x, y, path) e Hhead (list_elem_of_further _ _ _ He) Hl)
      as (p0 & d0 & Heq & Hlt).
    exists p0, d0. split; [done | by left].
Qed.

(** When every direction is done the expanded node is closed. *)
Lemma expand_inv_done w s tgt u pu queue visited :
  expand_inv w s tgt u pu directions queue visited → loop_inv w s tgt queue visited.
Proof.
  intros [Hs Ht Hu Hub Hpre Hb Hc Hso Haft Hlev Hor]. split.
  - done.
  - done.
  - done.
  - intros v Hv. destruct (Hc v Hv) as [->|[Hq|Hcl]].
    + right. intros d Hd Hp. by apply Hpre.
    + by left.
    + by right.
  - done.
  - intros e e' He He'. pose proof (before_length _ _ (Haft e He)).
    pose proof (Hlev e' He'). lia.
  - intros e e' He He' Hl. pose proof (before_length _ _ (Haft e He)) as H1.
    pose proof (Hlev e' He') as H2.
    assert (length e'.2 = S (length pu)) as Hl' by lia.
    destruct (Hor e' He' Hl') as (p0 & d0 & Heq & Hfrom).
    exists p0, d0. split; [done|].
    assert (route_lt pu e.2) as Hlt by (apply before_same_length; [by apply Haft | lia]).
    destruct Hfrom as [Hfrom|[-> _]]; [by eapply route_lt_trans | done].
Qed.

(** With an empty queue every visited cell is closed, and no route leaves
    the visited set. *)
Lemma loop_inv_exhausted w s tgt visited :
  loop_inv w s tgt [] visited → ¬ ∃ ds, walk w tgt s ds tgt.
Proof.
  intros [Hs Ht _ Hc _ _ _] [ds Hw].
  destruct (walk_cross w tgt visited s ds tgt Hw Hs Ht)
    as (ds1 & d & ds2 & u & _ & _ & Hu & Hd & Hp & Hout).
  destruct (Hc u Hu) as [[p Hq]|Hcl].
  - by apply elem_of_nil in Hq.
  - apply Hout. by apply Hcl.
Qed.

Lemma bfs_loop_spec w s tx ty (Hwf : grid_wf w) fuel :
  ∀ queue visited,
    loop_inv w s (tx, ty) queue visited →
    (length queue + unvisited w visited < fuel)%nat →
    ∃ route, bfs_loop fuel w tx ty queue visited = Some route ∧
             route_post w s (tx, ty) route.
Proof.
  induction fuel as [|fuel IH]; intros queue visited Hinv Hfuel; [lia|].
  destruct queue as [|[[x y] path] queue]; cbn [bfs_loop].
  - exists []. split; [done|]. right. split; [done|]. by eapply loop_inv_exhausted.
  - apply loop_inv_dequeue in Hinv.
    destruct (bfs_expand_spec w s tx ty x y path directions Hwf [] queue visited eq_refl Hinv)
      as (r & -> & Hpost).
    destruct r as [route|queue' visited'].
    + exists route. split; [done | by left].
    + destruct Hpost as [Hinv' Hm]. apply (IH queue' visited').
      * by eapply expand_inv_done.
      * simpl in Hfuel. lia.
Qed.

(** The search from [(x, y)] to [(target_x, target_y)] returns a route, and
    the route is the first of the shortest ones when there is one. *)
Lemma find_path_from_spec w x y tx ty :
  grid_wf w →
  ∃ route, find_path_from w x y tx ty = Some route ∧
    ((x, y) = (tx, ty) → route = []) ∧
    ((x, y) ≠ (tx, ty) → route_post w (x, y) (tx, ty) route).
Proof.
  intros Hwf. unfold find_path_from.
  destruct (bool_decide_reflect ((x, y) = (tx, ty))) as [Heq|Hne].
  - exists []. by split_and!.
  - destruct (bfs_loop_spec w (x, y) tx ty Hwf (bfs_fuel w) [(x, y, [])] {[(x, y)]})
      as (route & Hrun & Hpost).
    + by apply (loop_inv_start w (x, y) (tx, ty)).
    + unfold bfs_fuel. simpl. pose proof (unvisited_bound w {[(x, y)]}). lia.
    + exists route. by split_and!.
Qed.

(** The search at work: agent 0 of the example, two columns and two rows
    away from the target, goes down twice and then right twice. *)
Example find_path_to_example :
  find_path_to 0 4 3 example_w1 = Some ([(0, 1); (0, 1); (1, 0); (1, 0)], example_w1).
Proof. vm_compute. reflexivity. Qed.

(** C3 (BFS route correctness): on every well-formed grid [find_path_to]
    returns a route and leaves the warehouse as it was.  The route is empty
    when the agent stands on the target, and empty when no sequence of unit
    steps leads from the agent to the target through cells that are on the
    grid and empty, a box, or the target itself.  Otherwise the route is not
    empty, it is such a sequence of unit steps, no such sequence is shorter,
    and among those of the same length it is the first when the steps are
    compared in the enumeration order up, down, left, right. *)
Theorem bfs_route_correctness (w : Warehouse) (i : nat) (me : Agent) (tx ty : Z) :
  grid_wf w → agents w !! i = Some me →
  ∃ route, find_path_to i tx ty w = Some (route, w) ∧
    ((ag_x me, ag_y me) = (tx, ty) → route = []) ∧
    ((¬ ∃ ds, walk w (tx, ty) (ag_x me, ag_y me) ds (tx, ty)) → route = []) ∧
    ((ag_x me, ag_y me) ≠ (tx, ty) →
     (∃ ds, walk w (tx, ty) (ag_x me, ag_y me) ds (tx, ty)) →
     route ≠ [] ∧
     walk w (tx, ty) (ag_x me, ag_y me) route (tx, ty) ∧
     ∀ ds, walk w (tx, ty) (ag_x me, ag_y me) ds (tx, ty) →
           (length route ≤ length ds)%nat ∧
           (length ds = length route → route_le route ds)).
Proof.
  intros Hwf Hme.
  destruct (find_path_from_spec w (ag_x me) (ag_y me) tx ty Hwf)
    as (route & Hrun & Hsame & Hpost).
  exists route. split_and!.
  - unfold find_path_to. apply bind_Some. exists me, w. split; [by apply self_Some; eauto|].
    apply bind_Some. exists w, w. split; [by apply get_Some|].
    apply lift_Some. eauto.
  - done.
  - intros Hno. destruct (decide ((ag_x me, ag_y me) = (tx, ty))) as [Heq|Hne]; [auto|].
    destruct (Hpost Hne) as [[Hw _]|[-> _]]; [|done]. destruct Hno. eauto.
  - intros Hne Hsome. destruct (Hpost Hne) as [[Hw Hmin]|[_ Hno]]; [|done].
    split_and!; [|done|done].
    intros ->. apply Hne. inversion Hw. congruence.
Qed.

Lemma bfs_route_correctness_witness :
  grid_wf example_w1 ∧ agents example_w1 !! 0%nat = Some example_agent ∧
  ∃ route, find_path_to 0 4 3 example_w1 = Some (route, example_w1) ∧
    ((ag_x example_agent, ag_y example_agent) = (4, 3) → route = []) ∧
    ((¬ ∃ ds, walk example_w1 (4, 3) (ag_x example_agent, ag_y example_agent) ds (4, 3)) →
     route = []) ∧
    ((ag_x example_agent, ag_y example_agent) ≠ (4, 3) →
     (∃ ds, walk example_w1 (4, 3) (ag_x example_agent, ag_y example_agent) ds (4, 3)) →
     route ≠ [] ∧
     walk example_w1 (4, 3) (ag_x example_agent, ag_y example_agent) route (4, 3) ∧
     ∀ ds, walk example_w1 (4, 3) (ag_x example_agent, ag_y example_agent) ds (4, 3) →
           (length route ≤ length ds)%nat ∧
           (length ds = length route → route_le route ds)).
Proof.
  assert (grid_wf example_w1) as Hwf.
  { split; [vm_compute; reflexivity|]. vm_compute. repeat constructor. }
  assert (agents example_w1 !! 0%nat = Some example_agent) as Hme
    by (vm_compute; reflexivity).
  split; [exact Hwf|]. split; [exact Hme|].
  exact (bfs_route_correctness example_w1 0 example_agent 4 3 Hwf Hme).
Defined.

(** * The store: what planning and messaging leave alone *)

#[global] Instance same_store_preorder : PreOrder same_store.
Proof.
  split.
  - intros w. by repeat split.
  - intros w1 w2 w3 H12 H23. unfold same_store in *. destruct_and!. repeat split; congruence.
Qed.

#[global] Instance same_ledger_preorder : PreOrder same_ledger.
Proof.
  split.
  - intros w. by repeat split.
  - intros w1 w2 w3 H12 H23. unfold same_ledger in *. destruct_and!. repeat split; congruence.
Qed.

#[global] Instance same_layout_preorder : PreOrder same_layout.
Proof.
  split.
  - intros w. by split.
  - intros w1 w2 w3 [H12 H12'] [H23 H23']. split; [by etrans | congruence].
Qed.

Lemma agent_view_core (l l' : list Agent) :
  agent_core <$> l' = agent_core <$> l → agent_view <$> l' = agent_view <$> l.
Proof.
  intros H.
  assert (Hc : ∀ k : list Agent,
             agent_view <$> k
             = (fun c => (c.1.1.1.1.1.1.1.1, c.1.1.1.1.1.1.1.2, c.1.1.1.1.1.1.2,
                          c.1.1.1.1.1.2, c.1.1.1.1.2)) <$> (agent_core <$> k)).
  { intros k. rewrite <- list_fmap_compose. by apply list_fmap_ext. }
  rewrite !Hc. congruence.
Qed.

Lemma same_core_store w w' : same_core w w' → same_store w w'.
Proof.
  unfold same_core, same_store. intros H. destruct_and!.
  split_and!; try done. by apply agent_view_core.
Qed.

Lemma agent_place_view (l l' : list Agent) :
  agent_view <$> l' = agent_view <$> l → agent_place <$> l' = agent_place <$> l.
Proof.
  intros H.
  assert (Hc : ∀ k : list Agent,
             agent_place <$> k = (fun c => (c.1.1.1.1, c.1.1.1.2, c.1.1.2)) <$> (agent_view <$> k)).
  { intros k. rewrite <- list_fmap_compose. by apply list_fmap_ext. }
  rewrite !Hc. congruence.
Qed.

Lemma agent_hold_view (l l' : list Agent) :
  agent_view <$> l' = agent_view <$> l → agent_hold <$> l' = agent_hold <$> l.
Proof.
  intros H.
  assert (Hc : ∀ k : list Agent,
             agent_hold <$> k = (fun c => (c.1.1.1.1, c.1.2, c.2)) <$> (agent_view <$> k)).
  { intros k. rewrite <- list_fmap_compose. by apply list_fmap_ext. }
  rewrite !Hc. congruence.
Qed.

Lemma same_store_geo w w' : same_store w w' → same_geo w w'.
Proof.
  unfold same_store, same_geo. intros H. destruct_and!.
  split_and!; try done. by apply agent_place_view.
Qed.

Lemma same_store_layout w w' : same_store w w' → same_layout w w'.
Proof. intros H. split; [by apply same_store_geo | apply H]. Qed.

Lemma same_store_ledger w w' : same_store w w' → same_ledger w w'.
Proof.
  unfold same_store, same_ledger. intros H. destruct_and!.
  split_and!; try done. by apply agent_hold_view.
Qed.

Lemma preserves_store_update_self i f :
  (∀ a, agent_view (f a) = agent_view a) → preserves same_store (update_self i f).
Proof.
  intros Hf. apply preserves_update_self. intros w a Ha.
  split_and!; try done. simpl.
  rewrite list_fmap_insert, Hf. apply list_insert_id. by rewrite list_lookup_fmap, Ha.
Qed.

Lemma preserves_ledger_update_self i f :
  (∀ a, agent_hold (f a) = agent_hold a) → preserves same_ledger (update_self i f).
Proof.
  intros Hf. apply preserves_update_self. intros w a Ha.
  split_and!; try done. simpl.
  rewrite list_fmap_insert, Hf. apply list_insert_id. by rewrite list_lookup_fmap, Ha.
Qed.

#[global] Hint Extern 1 (preserves same_store (update_self _ _)) =>
  (apply preserves_store_update_self; intros ?; reflexivity) : pres.
#[global] Hint Extern 5 (preserves same_store _) =>
  (eapply preserves_weaken; [exact same_core_store | solve [eauto with pres]]) : pres.
#[global] Hint Extern 1 (preserves same_ledger (update_self _ _)) =>
  (apply preserves_ledger_update_self; intros ?; reflexivity) : pres.
#[global] Hint Extern 1 (preserves same_ledger (grid_assign _ _ _)) =>
  (apply preserves_grid_assign; intros ? ?; repeat split; reflexivity) : pres.
#[global] Hint Extern 5 (preserves same_ledger _) =>
  (eapply preserves_weaken; [exact same_store_ledger | solve [eauto with pres]]) : pres.

(** ** Agent lists with the same holdings *)

Lemma hold_elem (l l' : list Agent) a :
  agent_hold <$> l' = agent_hold <$> l → a ∈ l →
  ∃ a', a' ∈ l' ∧ agent_hold a' = agent_hold a.
Proof.
  intros Hv Ha. apply (list_elem_of_fmap_2 agent_hold) in Ha. rewrite <- Hv in Ha.
  apply list_elem_of_fmap in Ha as (a' & Heq & Ha'). eauto.
Qed.

Lemma place_elem (l l' : list Agent) a :
  agent_place <$> l' = agent_place <$> l → a ∈ l →
  ∃ a', a' ∈ l' ∧ agent_place a' = agent_place a.
Proof.
  intros Hv Ha. apply (list_elem_of_fmap_2 agent_place) in Ha. rewrite <- Hv in Ha.
  apply list_elem_of_fmap in Ha as (a' & Heq & Ha'). eauto.
Qed.

Lemma hold_omap_carried (l l' : list Agent) :
  agent_hold <$> l' = agent_hold <$> l →
  omap carried_box_id l' = omap carried_box_id l.
Proof.
  intros H.
  assert (Hc : ∀ k : list Agent,
             omap carried_box_id k = omap (fun c : Z * bool * option Z => c.2)
                                          (agent_hold <$> k)).
  { intros k. induction k as [|a k IH]; [done|]. rewrite fmap_cons. cbn [omap list_omap].
    change (agent_hold a).2 with (carried_box_id a).
    destruct (carried_box_id a); [f_equal|]; exact IH. }
  rewrite !Hc. congruence.
Qed.

Lemma Forall_hold (P : Z * bool * option Z → Prop) (l l' : list Agent) :
  agent_hold <$> l' = agent_hold <$> l →
  Forall (fun a => P (agent_hold a)) l → Forall (fun a => P (agent_hold a)) l'.
Proof.
  intros Hv H. apply (Forall_fmap agent_hold P). rewrite Hv. by apply Forall_fmap.
Qed.

Lemma same_ledger_sym w w' : same_ledger w w' → same_ledger w' w.
Proof. unfold same_ledger. intros H. destruct_and!. by split_and!. Qed.

Lemma same_ledger_stacked_at w w' b p k :
  same_ledger w w' → stacked_at w' b p k ↔ stacked_at w b p k.
Proof. intros (_ & Hl & _). unfold stacked_at. by rewrite Hl. Qed.

Lemma same_ledger_carried_by w w' b a :
  same_ledger w w' → carried_by w b a → ∃ a', carried_by w' b a'.
Proof.
  intros (_ & _ & _ & _ & Hv) [Ha Hb].
  destruct (hold_elem _ _ a Hv Ha) as (a' & Ha' & Heq).
  exists a'. split; [done|].
  unfold agent_hold in Heq. injection Heq as _ _ ->. done.
Qed.

Lemma same_ledger_keeps w w' : same_ledger w w' → keeps ledger_ok w w'.
Proof.
  intros Hs [Hflag Hkeys Honce Hcn Hapart Hboxes Hrec Hcrec Hdel].
  pose proof (same_ledger_sym _ _ Hs) as Hs'.
  pose proof Hs as (Hb & Hl & Hp & Hd & Hv).
  split.
  - exact (Forall_hold (fun c => c.1.2 = true ↔ is_Some c.2) _ _ Hv Hflag).
  - intros k box. rewrite Hb. apply Hkeys.
  - intros b p k q j. rewrite !(same_ledger_stacked_at w w') by done. apply Honce.
  - by rewrite (hold_omap_carried _ _ Hv).
  - intros b p k a Hsa Hca. rewrite (same_ledger_stacked_at w w') in Hsa by done.
    destruct (same_ledger_carried_by _ _ b a Hs' Hca) as (a0 & Hca0). eauto.
  - intros b. rewrite Hb, Hboxes. split.
    + intros [(p & k & Hsa)|(a & Hca)].
      * left. exists p, k. by rewrite (same_ledger_stacked_at w w').
      * right. destruct (same_ledger_carried_by _ _ b a Hs Hca) as (a' & ?). eauto.
    + intros [(p & k & Hsa)|(a & Hca)].
      * left. exists p, k. by rewrite <- (same_ledger_stacked_at w w').
      * right. destruct (same_ledger_carried_by _ _ b a Hs' Hca) as (a' & ?). eauto.
  - intros b p k Hsa. rewrite (same_ledger_stacked_at w w') in Hsa by done.
    rewrite Hb, Hp. by apply Hrec.
  - intros b a Hca. destruct (same_ledger_carried_by _ _ b a Hs' Hca) as (a0 & Hca0).
    rewrite Hb, Hp. by eapply Hcrec.
  - rewrite Hd.
    exact (Forall_hold (fun c => is_Some (agent_deliveries w !! c.1.1)) _ _ Hv Hdel).
Qed.

Lemma same_layout_keeps w w' : same_layout w w' → keeps layout_ok w w'.
Proof.
  intros [Hgeo Hl] [Hcells Hst]. pose proof Hgeo as (Hwd & Hht & Hg & Hpl). split.
  - intros x y cell Hvalid Hcell.
    rewrite (same_geo_valid w) in Hvalid by done.
    rewrite (same_geo_grid_at w) in Hcell by done.
    destruct (Hcells x y cell Hvalid Hcell) as [H0|[H1|[H2|(a & Ha & Hc & Hpos)]]].
    + left. by rewrite Hl.
    + right. left. unfold on_perimeter in *. by rewrite Hl, Hwd, Hht.
    + right. right. left. by rewrite Hl.
    + right. right. right. destruct (place_elem _ _ a Hpl Ha) as (a' & Ha' & Heq).
      exists a'. unfold agent_place in Heq. injection Heq as -> -> ->. done.
  - intros p l Hpl'. rewrite Hl in Hpl'. destruct (Hst p l Hpl') as [? ?].
    split; [done|]. by rewrite (same_geo_valid w).
Qed.

Lemma same_store_keeps_stacks w w' : same_store w w' → keeps stacks_ok w w'.
Proof. intros (_ & _ & _ & _ & Hl & _) H p l. rewrite Hl. apply H. Qed.

Lemma same_store_keeps_world w w' : same_store w w' → keeps world_ok w w'.
Proof.
  intros Hs (Hgeo & Hst & Hlo & Hlg). split_and!.
  - eapply same_geo_keeps; [|done]. by apply same_store_geo.
  - by eapply same_store_keeps_stacks.
  - eapply same_layout_keeps; [|done]. by apply same_store_layout.
  - eapply same_ledger_keeps; [|done]. by apply same_store_ledger.
Qed.

#[global] Hint Extern 6 (preserves (keeps world_ok) _) =>
  (eapply preserves_weaken; [exact same_store_keeps_world | solve [eauto with pres]]) : pres.
#[global] Hint Extern 6 (preserves (keeps ledger_ok) _) =>
  (eapply preserves_weaken; [exact same_ledger_keeps | solve [eauto with pres]]) : pres.

Lemma same_geo_slot i w w' : same_geo w w' → slot i w → slot i w'.
Proof.
  intros (_ & _ & _ & Hv) Hs. unfold slot in *.
  apply (f_equal length) in Hv. rewrite !length_fmap in Hv. lia.
Qed.

Lemma same_geo_searchable w w' : same_geo w w' → searchable w → searchable w'.
Proof.
  intros Hgeo (Hwf & Hw3 & Hh3 & Hin). pose proof Hgeo as (Hwd & Hht & Hg & _).
  split_and!.
  - unfold grid_wf in *. by rewrite Hwd, Hht, Hg.
  - lia.
  - lia.
  - intros x y Hx Hy. rewrite (same_geo_grid_at w) by done. apply Hin; lia.
Qed.

Lemma same_geo_soft_ok i w w' : same_geo w w' → soft_ok i w → soft_ok i w'.
Proof.
  intros Hgeo [? ?]. split; [by eapply same_geo_searchable | by eapply same_geo_slot].
Qed.

(** * Assignments to cells of the grid *)

Lemma valid_bounds w x y :
  is_valid_position w x y = true ↔ 0 ≤ x < width w ∧ 0 ≤ y < height w.
Proof.
  unfold is_valid_position. rewrite andb_true_iff, !bool_decide_eq_true. tauto.
Qed.

Lemma grid_at_lookup w x y :
  grid_wf w → is_valid_position w x y = true →
  grid_at w x y = grid w !! Z.to_nat x ≫= (.!! Z.to_nat y).
Proof.
  intros [Hlen Hrows] Hv. apply valid_bounds in Hv as [Hx Hy].
  unfold grid_at, Py.index. rewrite norm_index_nonneg by lia.
  destruct (grid w !! Z.to_nat x) as [row|] eqn:Hrow; [|done]. simpl.
  eapply Forall_lookup_1 in Hrows; [|done]. simpl in Hrows.
  by rewrite norm_index_nonneg by lia.
Qed.

(** On a rectangular grid an assignment to a cell inside the bounds
    succeeds and changes that cell only. *)
Lemma grid_assign_valid w x y v :
  grid_wf w → is_valid_position w x y = true →
  ∃ g, grid_assign x y v w = Some (tt, set_grid w g) ∧
       grid_wf (set_grid w g) ∧
       ∀ x' y', is_valid_position w x' y' = true →
                grid_at (set_grid w g) x' y'
                = if decide ((x', y') = (x, y)) then Some v else grid_at w x' y'.
Proof.
  intros Hwf Hv. pose proof Hwf as [Hlen Hrows].
  pose proof Hv as [Hx Hy]%valid_bounds.
  destruct (grid w !! Z.to_nat x) as [row|] eqn:Hrow;
    [|apply lookup_ge_None in Hrow; lia].
  pose proof (Forall_lookup_1 _ _ _ _ Hrows Hrow) as Hrowlen. simpl in Hrowlen.
  exists (<[Z.to_nat x := <[Z.to_nat y := v]> row]> (grid w)).
  assert (grid_wf (set_grid w (<[Z.to_nat x := <[Z.to_nat y := v]> row]> (grid w)))) as Hwf'.
  { split; simpl.
    - by rewrite length_insert.
    - apply Forall_insert; [done|]. by rewrite length_insert. }
  split_and!.
  - unfold grid_assign, Py.index, Py.assign.
    rewrite norm_index_nonneg by lia. rewrite Hrow.
    rewrite norm_index_nonneg by lia. done.
  - done.
  - intros x' y' Hv'. pose proof Hv' as [Hx' Hy']%valid_bounds.
    rewrite (grid_at_lookup _ x' y' Hwf') by done.
    rewrite (grid_at_lookup _ x' y' Hwf) by done. simpl.
    destruct (decide ((x', y') = (x, y))) as [[= -> ->]|Hne].
    + rewrite list_lookup_insert_eq by lia. simpl.
      rewrite list_lookup_insert_eq by lia. done.
    + destruct (decide (Z.to_nat x' = Z.to_nat x)) as [Hxe|Hxe].
      * rewrite Hxe, list_lookup_insert_eq by lia. rewrite Hrow. simpl.
        rewrite list_lookup_insert_ne; [done|]. intros Hye. apply Hne. f_equal; lia.
      * by rewrite list_lookup_insert_ne.
Qed.

(** * Runs that return *)

Lemma total_ret {A} (P : Warehouse → Prop) (a : A) (Q : A → Warehouse → Prop) :
  (∀ w, P w → Q a w) → total P (ret a) Q.
Proof. intros H w Hw. exists a, w. split; [done | by apply H]. Qed.

Lemma total_bind {A B} (P : Warehouse → Prop) (m : M A) (Q : A → Warehouse → Prop)
    (k : A → M B) (R : B → Warehouse → Prop) :
  total P m Q → (∀ a, total (Q a) (k a) R) → total P (bind m k) R.
Proof.
  intros Hm Hk w Hw. destruct (Hm w Hw) as (a & w1 & H1 & HQ).
  destruct (Hk a w1 HQ) as (b & w2 & H2 & HR).
  exists b, w2. split; [|done]. apply bind_Some. eauto.
Qed.

Lemma total_conseq {A} (P P' : Warehouse → Prop) (m : M A) (Q Q' : A → Warehouse → Prop) :
  total P' m Q' → (∀ w, P w → P' w) → (∀ a w, Q' a w → Q a w) → total P m Q.
Proof.
  intros Hm HP HQ w Hw. destruct (Hm w (HP w Hw)) as (a & w' & H & HQ').
  exists a, w'. split; [done | by apply HQ].
Qed.

Lemma total_get (P : Warehouse → Prop) : total P get (fun r w => r = w ∧ P w).
Proof. intros w Hw. exists w, w. by split. Qed.

Lemma total_modify (P : Warehouse → Prop) f (Q : unit → Warehouse → Prop) :
  (∀ w, P w → Q tt (f w)) → total P (modify f) Q.
Proof. intros H w Hw. exists tt, (f w). split; [done | by apply H]. Qed.

Lemma total_self (P : Warehouse → Prop) i :
  (∀ w, P w → slot i w) →
  total P (self i) (fun me w => agents w !! i = Some me ∧ P w).
Proof.
  intros Hs w Hw. destruct (lookup_lt_is_Some_2 (agents w) i (Hs w Hw)) as [me Hme].
  exists me, w. split; [|done]. apply self_Some. eauto.
Qed.

(** A run that returns, together with what every returning run keeps. *)
Lemma total_preserves {A} (P : Warehouse → Prop) (m : M A) (Q : A → Warehouse → Prop)
    (R : relation Warehouse) (Q' : A → Warehouse → Prop) :
  total P m Q → preserves R m → (∀ w a w', P w → R w w' → Q a w' → Q' a w') →
  total P m Q'.
Proof.
  intros Hm HR HQ w Hw. destruct (Hm w Hw) as (a & w' & H & HQa).
  exists a, w'. split; [done|]. eapply HQ; eauto.
Qed.

(** From a run that returns to what any returning run gives. *)
Lemma total_run {A} (P : Warehouse → Prop) (m : M A) (Q : A → Warehouse → Prop) w r w' :
  total P m Q → P w → m w = Some (r, w') → Q r w'.
Proof.
  intros Hm Hw H. destruct (Hm w Hw) as (a & w'' & H' & HQ).
  rewrite H in H'. by injection H' as <- <-.
Qed.

(** * Sensing, messaging and planning always return *)

Section steady_rules.
Context {J : Warehouse → Prop}.

Lemma steady_ret {A} (a : A) (Φ : A → Prop) : Φ a → steady J (ret a) Φ.
Proof. intros H. apply total_ret. auto. Qed.

Lemma steady_bind {A B} (m : M A) (Φ : A → Prop) (k : A → M B) (Ψ : B → Prop) :
  steady J m Φ → (∀ a, Φ a → steady J (k a) Ψ) → steady J (bind m k) Ψ.
Proof.
  intros Hm Hk w Hw. destruct (Hm w Hw) as (a & w1 & H1 & HJ & HΦ).
  destruct (Hk a HΦ w1 HJ) as (b & w2 & H2 & HR).
  exists b, w2. split; [|done]. apply bind_Some. eauto.
Qed.

Lemma steady_weaken {A} (m : M A) (Φ Ψ : A → Prop) :
  steady J m Φ → (∀ a, Φ a → Ψ a) → steady J m Ψ.
Proof.
  intros Hm H w Hw. destruct (Hm w Hw) as (a & w' & H1 & HJ & HΦ).
  exists a, w'. auto.
Qed.

Lemma steady_get : steady J get J.
Proof. intros w Hw. exists w, w. auto. Qed.

Lemma steady_lift {A} (o : option A) (a : A) : o = Some a → steady J (lift o) (fun r => r = a).
Proof. intros -> w Hw. exists a, w. auto. Qed.

Lemma steady_self i : (∀ w, J w → slot i w) → steady J (self i) (fun _ => True).
Proof.
  intros Hs w Hw. destruct (lookup_lt_is_Some_2 (agents w) i (Hs w Hw)) as [me Hme].
  exists me, w. split; [|done]. apply self_Some. eauto.
Qed.

Lemma steady_update_self i f :
  (∀ w, J w → slot i w) →
  (∀ w a, J w → agents w !! i = Some a → J (set_agents w (<[i := f a]> (agents w)))) →
  steady J (update_self i f) (fun _ => True).
Proof.
  intros Hs Hf w Hw. destruct (lookup_lt_is_Some_2 (agents w) i (Hs w Hw)) as [me Hme].
  exists tt, (set_agents w (<[i := f me]> (agents w))). split_and!; [|by apply Hf | done].
  apply update_self_Some. eauto.
Qed.

Lemma steady_modify f : (∀ w, J w → J (f w)) → steady J (modify f) (fun _ => True).
Proof. intros Hf w Hw. exists tt, (f w). auto. Qed.

Lemma steady_for_each {A} (l : list A) (body : A → M unit) :
  (∀ v, steady J (body v) (fun _ => True)) → steady J (for_each l body) (fun _ => True).
Proof.
  intros Hb. induction l as [|v l IH]; simpl.
  - by apply steady_ret.
  - eapply steady_bind; [apply Hb | intros _ _; apply IH].
Qed.

(** A run that returns and is known to keep a relation that keeps [J]. *)
Lemma steady_kept {A} (R : relation Warehouse) (m : M A) :
  (∀ w, J w → is_Some (m w)) → preserves R m → (∀ w w', R w w' → J w → J w') →
  steady J m (fun _ => True).
Proof.
  intros Hm HR HJ w Hw. destruct (Hm w Hw) as [[r w'] H].
  exists r, w'. split_and!; [done | | done]. eapply HJ; [|done]. by eapply HR.
Qed.
End steady_rules.

(** Walk the syntax of a monadic program for [steady]. *)
Ltac steady_step :=
  lazymatch goal with
  | |- steady _ (bind _ _) _ => eapply steady_bind; [ | intros ? ?]
  | |- steady _ (ret _) _ => apply steady_ret
  | |- steady _ get _ => apply steady_get
  | |- steady _ (if ?b then _ else _) _ => destruct b eqn:?
  | |- steady _ (match ?x with _ => _ end) _ => destruct x eqn:?
  | |- steady _ (let '(_, _) := ?x in _) _ => destruct x eqn:?
  end.

Create HintDb steady discriminated.

Ltac steady := repeat (first [ solve [eauto with steady] | steady_step ]).

Lemma soft_ok_slot i w : soft_ok i w → slot i w.
Proof. by intros [_ ?]. Qed.

Lemma steady_soft_self i : steady (soft_ok i) (self i) (fun _ => True).
Proof. apply steady_self, soft_ok_slot. Qed.
#[global] Hint Resolve steady_soft_self : steady.

Lemma steady_soft_update_self i f :
  (∀ a, agent_place (f a) = agent_place a) →
  steady (soft_ok i) (update_self i f) (fun _ => True).
Proof.
  intros Hf. apply steady_update_self; [apply soft_ok_slot|].
  intros w a Hw Ha. eapply same_geo_soft_ok; [|done]. by apply same_geo_set_agents.
Qed.
#[global] Hint Extern 1 (steady (soft_ok _) (update_self _ _) _) =>
  (apply steady_soft_update_self; intros ?; reflexivity) : steady.

Lemma steady_soft_broadcast_message i message :
  steady (soft_ok i) (broadcast_message i message) (fun _ => True).
Proof.
  apply (steady_kept same_geo).
  - intros w Hw. unfold broadcast_message.
    destruct (lookup_lt_is_Some_2 (agents w) i (soft_ok_slot _ _ Hw)) as [me Hme].
    unfold bind, self, lift. rewrite Hme. by eexists.
  - eapply preserves_weaken; [exact same_core_geo | apply preserves_core_broadcast_message].
  - intros w w'. apply same_geo_soft_ok.
Qed.
#[global] Hint Resolve steady_soft_broadcast_message : steady.

Lemma get_cell_type_valid w x y :
  grid_wf w → is_valid_position w x y = true → is_Some (get_cell_type w x y).
Proof.
  intros Hwf Hv. unfold get_cell_type. rewrite Hv. simpl.
  destruct (grid_at_valid w x y Hwf Hv) as [cell ->].
  repeat (match goal with |- context [if ?b then _ else _] => destruct b end); by eexists.
Qed.

Lemma get_cell_type_total w x y : grid_wf w → is_Some (get_cell_type w x y).
Proof.
  intros Hwf. destruct (is_valid_position w x y) eqn:Hv.
  - by apply get_cell_type_valid.
  - unfold get_cell_type. rewrite Hv. by eexists.
Qed.

Lemma steady_soft_sense_ray i dx dy distances :
  steady (soft_ok i) (sense_ray i dx dy distances) (fun _ => True).
Proof.
  induction distances as [|d rest IH]; simpl; [by apply steady_ret|].
  eapply steady_bind; [apply steady_soft_self | intros me _].
  eapply steady_bind; [apply steady_get | intros w [[Hwf _] _]].
  destruct (is_valid_position w (ag_x me + dx * d) (ag_y me + dy * d)) eqn:Hv; simpl;
    [|by apply steady_ret].
  destruct (get_cell_type_valid w _ _ Hwf Hv) as [ct Hct].
  eapply steady_bind; [by apply steady_lift | intros ? ->].
  destruct ct; steady.
Qed.
#[global] Hint Resolve steady_soft_sense_ray : steady.

Lemma steady_soft_sense_environment i :
  steady (soft_ok i) (sense_environment i) (fun _ => True).
Proof.
  unfold sense_environment. apply steady_for_each. intros [dx dy]. steady.
Qed.
#[global] Hint Resolve steady_soft_sense_environment : steady.

Lemma steady_soft_process_message i msg :
  steady (soft_ok i) (process_message i msg) (fun _ => True).
Proof. unfold process_message. steady. Qed.
#[global] Hint Resolve steady_soft_process_message : steady.

Lemma steady_soft_process_messages i :
  steady (soft_ok i) (process_messages i) (fun _ => True).
Proof.
  unfold process_messages. steady. apply steady_for_each. intros msg. steady.
Qed.
#[global] Hint Resolve steady_soft_process_messages : steady.

Lemma steady_soft_claim_target i position :
  steady (soft_ok i) (claim_target i position) (fun _ => True).
Proof. unfold claim_target. steady. Qed.
#[global] Hint Resolve steady_soft_claim_target : steady.

Lemma steady_soft_release_target i position :
  steady (soft_ok i) (release_target i position) (fun _ => True).
Proof. unfold release_target. steady. Qed.
#[global] Hint Resolve steady_soft_release_target : steady.

Lemma steady_soft_release_current_target i :
  steady (soft_ok i) (release_current_target i) (fun _ => True).
Proof. unfold release_current_target. steady. Qed.
#[global] Hint Resolve steady_soft_release_current_target : steady.

Lemma steady_soft_known_box_candidates i known :
  steady (soft_ok i) (known_box_candidates i known) (fun _ => True).
Proof. induction known as [|[bx by_] rest IH]; simpl; steady. Qed.
#[global] Hint Resolve steady_soft_known_box_candidates : steady.

Lemma steady_soft_find_nearest_known_box i :
  steady (soft_ok i) (find_nearest_known_box i) (fun _ => True).
Proof. unfold find_nearest_known_box. steady. Qed.
#[global] Hint Resolve steady_soft_find_nearest_known_box : steady.

Lemma steady_soft_find_path_to i tx ty :
  steady (soft_ok i) (find_path_to i tx ty) (fun _ => True).
Proof.
  unfold find_path_to.
  eapply steady_bind; [apply steady_soft_self | intros me _].
  eapply steady_bind; [apply steady_get | intros w [[Hwf _] _]].
  destruct (find_path_from_spec w (ag_x me) (ag_y me) tx ty Hwf) as (route & Hroute & _).
  eapply steady_weaken; [by apply steady_lift | done].
Qed.
#[global] Hint Resolve steady_soft_find_path_to : steady.

Lemma steady_soft_retarget i p : steady (soft_ok i) (retarget i p) (fun _ => True).
Proof. unfold retarget. steady. Qed.
#[global] Hint Resolve steady_soft_retarget : steady.

(** ** Random search points *)

Lemma randint_Some lo hi r : lo ≤ hi → ∃ v, randint lo hi r = Some v ∧ lo ≤ v ≤ hi.
Proof.
  intros H. unfold randint. rewrite bool_decide_eq_true_2 by done.
  eexists. split; [done|]. pose proof (Z.mod_pos_bound r (hi - lo + 1)). lia.
Qed.

Lemma get_cell_type_wall w x y :
  get_cell_type w x y = Some CWall →
  is_valid_position w x y = false ∨ grid_at w x y = Some 1.
Proof.
  unfold get_cell_type. destruct (is_valid_position w x y); [|by left]. simpl.
  destruct (grid_at w x y) as [cell|]; [|done].
  destruct (cell =? 0) eqn:H0; [done|].
  destruct (cell =? 1) eqn:H1; [apply Z.eqb_eq in H1 as ->; by right|].
  destruct (cell =? 2); [done|]. by destruct (3 <=? cell).
Qed.

(** Inside the walls no cell is a wall, so the first pair of draws gives the
    search point. *)
Lemma find_random_search_point_first w r1 r2 tape :
  searchable w →
  ∃ x y, find_random_search_point w (r1 :: r2 :: tape) = Some ((x, y), tape) ∧
         randint 1 (width w - 2) r1 = Some x ∧ randint 1 (height w - 2) r2 = Some y ∧
         1 ≤ x ≤ width w - 2 ∧ 1 ≤ y ≤ height w - 2 ∧
         ∃ cell_type, get_cell_type w x y = Some cell_type ∧ cell_type ≠ CWall.
Proof.
  intros (Hwf & Hw3 & Hh3 & Hin).
  destruct (randint_Some 1 (width w - 2) r1) as (x & Hx & Hxr); [lia|].
  destruct (randint_Some 1 (height w - 2) r2) as (y & Hy & Hyr); [lia|].
  pose proof (interior_valid w x y Hxr Hyr) as Hv.
  destruct (get_cell_type_valid w x y Hwf Hv) as [ct Hct].
  assert (ct ≠ CWall) as Hne.
  { intros ->. apply get_cell_type_wall in Hct as [Hct|Hct]; [congruence|].
    by apply (Hin x y Hxr Hyr). }
  exists x, y. split; [|split_and!; eauto; lia].
  cbn [find_random_search_point]. rewrite Hx, Hy, Hct.
  by rewrite bool_decide_eq_true_2.
Qed.

Lemma steady_soft_explore i tape :
  (3 ≤ length tape)%nat →
  steady (soft_ok i) (explore i tape) (fun tape' => (length tape ≤ length tape' + 3)%nat).
Proof.
  intros Hlen. unfold explore.
  eapply steady_bind; [apply steady_soft_self | intros me _].
  assert (∀ t, (2 ≤ length t)%nat →
            steady (soft_ok i)
              (let! w := get in
               let! drawn := lift (find_random_search_point w t) in
               let '(random_point, tape') := drawn in
               update_self i (fun a => set_target a (Some random_point)) ;;
               let! route := find_path_to i (fst random_point) (snd random_point) in
               update_self i (fun a => set_path a route) ;;
               ret tape') (fun tape' => (length t ≤ length tape' + 2)%nat)) as Hreroll.
  { intros t Ht. destruct t as [|r1 [|r2 t]]; simpl in Ht; try lia.
    eapply steady_bind; [apply steady_get | intros w [Hs _]].
    destruct (find_random_search_point_first w r1 r2 t Hs) as (x & y & Hfind & _).
    eapply steady_bind; [by apply steady_lift | intros ? ->].
    eapply steady_bind; [eauto with steady | intros _ _].
    eapply steady_bind; [eauto with steady | intros route _].
    eapply steady_bind; [eauto with steady | intros _ _].
    apply steady_ret. simpl. lia. }
  destruct (path me).
  - eapply steady_weaken; [apply Hreroll; lia | intros t Ht; simpl in Ht; lia].
  - destruct tape as [|r tape]; simpl in Hlen; [lia|].
    destruct (random_below_tenth r).
    + eapply steady_weaken; [apply Hreroll; lia | intros t Ht; simpl in *; lia].
    + apply steady_ret. simpl. lia.
Qed.

(** ** Shelf search *)

Lemma empty_spot_candidates_total w me cx cy cells :
  grid_wf w → is_Some (empty_spot_candidates w me cx cy cells).
Proof.
  intros Hwf. induction cells as [|[x y] rest [candidates IH]]; simpl; [by eexists|].
  destruct (get_cell_type_total w x y Hwf) as [ct ->]. rewrite IH.
  destruct (bool_decide (ct = CEmpty) && is_target_available me (x, y)); by eexists.
Qed.

Lemma find_nearest_shelf_total w me : grid_wf w → is_Some (find_nearest_shelf w me).
Proof.
  intros Hwf. unfold find_nearest_shelf.
  destruct (shelf_candidates w me); [|by eexists].
  unfold find_empty_spot_for_new_shelf.
  destruct (empty_spot_candidates_total w me (width w `div` 2) (height w `div` 2)
              (x ← Py.range 1 (width w - 1); y ← Py.range 1 (height w - 1); [(x, y)]) Hwf)
    as [candidates ->].
  by eexists.
Qed.

(** ** From the soft invariant to the whole one *)

Lemma world_searchable i w : acting i w → searchable w.
Proof.
  intros [(Hgeo & _ & Hlo & _) Hslot]. pose proof Hgeo as (Hwf & Hwalls & _ & Hpl).
  destruct (lookup_lt_is_Some_2 (agents w) i Hslot) as [me Hme].
  eapply Forall_lookup_1 in Hpl; [|exact Hme]. destruct Hpl as (Hid & Hvalid & Hcell).
  pose proof Hvalid as [Hx Hy]%valid_bounds.
  assert (¬ on_perimeter w (ag_x me) (ag_y me)) as Hin.
  { intros Hper. rewrite (Hwalls _ _ Hvalid Hper) in Hcell. injection Hcell as ?. lia. }
  unfold on_perimeter in Hin.
  split_and!; [done | lia | lia |].
  intros x y Hx' Hy' Hcell'.
  destruct (lo_cells _ Hlo x y 1 (interior_valid w x y Hx' Hy') Hcell')
    as [[? _]|[(_ & Hper & _)|[[? _]|(a & Ha & Hc & _)]]]; try lia.
  - unfold on_perimeter in Hper. lia.
  - apply list_elem_of_lookup in Ha as [j Ha].
    eapply Forall_lookup_1 in Ha; [|apply Hgeo]. destruct Ha as (Hid' & _). lia.
Qed.

Lemma acting_soft_ok i w : acting i w → soft_ok i w.
Proof. intros H. split; [by eapply world_searchable | apply H]. Qed.

Lemma same_store_acting i w w' : same_store w w' → acting i w → acting i w'.
Proof.
  intros Hs [Hw Hslot]. split; [by eapply same_store_keeps_world|].
  eapply same_geo_slot; [|done]. by apply same_store_geo.
Qed.

(** A soft operation returns in the whole invariant too. *)
Lemma steady_acting {A} i (m : M A) (Φ : A → Prop) :
  steady (soft_ok i) m Φ → preserves same_store m → steady (acting i) m Φ.
Proof.
  intros Hm Hs w Hw. destruct (Hm w (acting_soft_ok _ _ Hw)) as (a & w' & H & _ & HΦ).
  exists a, w'. split_and!; [done | | done]. eapply same_store_acting; [|done]. by eapply Hs.
Qed.

(** * The actions on the world: they return and keep the invariant *)

(** ** Running a program step by step *)

Lemma bind_run {A B} (m : M A) (k : A → M B) w a w1 :
  m w = Some (a, w1) → bind m k w = k a w1.
Proof. intros H. unfold bind. by rewrite H. Qed.

Lemma self_run i w me : agents w !! i = Some me → self i w = Some (me, w).
Proof. intros H. unfold self, lift. by rewrite H. Qed.

Lemma update_self_run i f w me :
  agents w !! i = Some me →
  update_self i f w = Some (tt, set_agents w (<[i := f me]> (agents w))).
Proof. intros H. apply update_self_Some. eauto. Qed.

Lemma can_move_to_total w x y agent_id :
  grid_wf w → is_Some (can_move_to w x y agent_id).
Proof.
  intros Hwf. unfold can_move_to. destruct (is_valid_position w x y) eqn:Hv; simpl;
    [|by eexists].
  destruct (grid_at_valid w x y Hwf Hv) as [cell ->]. by eexists.
Qed.

(** ** [move] *)

(** The warehouse after the agent has stepped, before it senses again. *)
Lemma move_run i dx dy w me :
  geometry_ok w → agents w !! i = Some me →
  (can_move_to w (ag_x me + dx) (ag_y me + dy) (ag_id me) = Some false ∧
   move i (dx, dy) w = Some (false, w)) ∨
  (can_move_to w (ag_x me + dx) (ag_y me + dy) (ag_id me) = Some true ∧
   ∃ g, let w4 := set_agents (set_grid w g)
                    (<[i := set_movements (set_pos me (ag_x me + dx) (ag_y me + dy))
                                          (movements me + 1)]> (agents w)) in
        grid_wf w4 ∧
        (∀ x' y', is_valid_position w x' y' = true →
           grid_at w4 x' y'
           = if decide ((x', y') = (ag_x me + dx, ag_y me + dy)) then Some (3 + ag_id me)
             else if decide ((x', y') = (ag_x me, ag_y me))
                  then Some (if 0 <? count_stack_size w (ag_x me) (ag_y me) then 2 else 0)
                  else grid_at w x' y') ∧
        move i (dx, dy) w = (sense_environment i ;; ret true) w4).
Proof.
  intros Hgeo Hme. pose proof Hgeo as (Hwf & _).
  pose proof (geometry_lookup _ _ _ Hgeo Hme) as (Hid & Hvalid & Hcell).
  destruct (can_move_to_total w (ag_x me + dx) (ag_y me + dy) (ag_id me) Hwf) as [ok Hok].
  unfold move. rewrite (bind_run _ _ _ _ _ (self_run _ _ _ Hme)).
  rewrite (bind_run get _ w w w eq_refl).
  rewrite (bind_run (lift _) _ w ok w) by (unfold lift; by rewrite Hok).
  destruct ok; [right | left; by split].
  split; [done|].
  apply can_move_to_true in Hok as [Hnvalid Hfree].
  rewrite (bind_run (lift _) _ w (3 + ag_id me) w) by (unfold lift; by rewrite Hcell).
  rewrite (proj2 (Z.leb_le 3 (3 + ag_id me))) by lia.
  set (v0 := if 0 <? count_stack_size w (ag_x me) (ag_y me) then 2 else 0).
  destruct (grid_assign_valid w (ag_x me) (ag_y me) v0 Hwf Hvalid) as (g1 & Hrun1 & Hwf1 & Hg1).
  assert ((if 0 <? count_stack_size w (ag_x me) (ag_y me)
           then grid_assign (ag_x me) (ag_y me) 2
           else grid_assign (ag_x me) (ag_y me) 0) w = Some (tt, set_grid w g1)) as Hrun1'.
  { unfold v0 in Hrun1. by destruct (0 <? count_stack_size w (ag_x me) (ag_y me)). }
  rewrite (bind_run _ _ _ _ _ Hrun1').
  rewrite (bind_run _ _ _ _ _ (update_self_run i _ (set_grid w g1) me Hme)).
  set (w2 := set_agents (set_grid w g1) _).
  assert (grid_wf w2) as Hwf2 by exact Hwf1.
  destruct (grid_assign_valid w2 (ag_x me + dx) (ag_y me + dy) (3 + ag_id me) Hwf2 Hnvalid)
    as (g2 & Hrun2 & Hwf3 & Hg2).
  rewrite (bind_run _ _ _ _ _ Hrun2).
  assert (agents (set_grid w2 g2) !! i
          = Some (set_pos me (ag_x me + dx) (ag_y me + dy))) as Hme3.
  { simpl. apply list_lookup_insert_eq. by eapply lookup_lt_Some. }
  rewrite (bind_run _ _ _ _ _ (update_self_run i _ _ _ Hme3)).
  exists g2. simpl. rewrite list_insert_insert_eq. split_and!.
  - exact Hwf3.
  - intros x' y' Hv'.
    change (grid_at (set_agents (set_grid w g2) ?l) x' y')
      with (grid_at (set_grid w2 g2) x' y').
    rewrite (Hg2 x' y' Hv').
    destruct (decide ((x', y') = (ag_x me + dx, ag_y me + dy))); [done|].
    change (grid_at w2 x' y') with (grid_at (set_grid w g1) x' y').
    by rewrite (Hg1 x' y' Hv').
  - reflexivity.
Qed.

Lemma preserves_ledger_move i direction : preserves same_ledger (move i direction).
Proof. destruct direction as [dx dy]. unfold move. pres. Qed.
#[global] Hint Resolve preserves_ledger_move : pres.

Lemma count_stack_size_pos w x y :
(0 <? count_stack_size w x y) = true → is_Some (box_locations w !! (x, y)).
Proof.
  unfold count_stack_size. destruct (box_locations w !! (x, y)); [by eexists|].
  intros H. apply Z.ltb_lt in H. lia.
Qed.

Lemma count_stack_size_zero w x y :
  layout_ok w → (0 <? count_stack_size w x y) = false → box_locations w !! (x, y) = None.
Proof.
  intros Hlo H. unfold count_stack_size in H.
  destruct (box_locations w !! (x, y)) as [l|] eqn:Hl; [|done].
  destruct (lo_stacks _ Hlo _ _ Hl) as [Hne _]. apply Z.ltb_ge in H.
  destruct l; [done | simpl in H; lia].
Qed.

(** The layout after a step of the agent in slot [i]. *)
Lemma layout_ok_step i w me g nx ny m :
  geometry_ok w → layout_ok w → agents w !! i = Some me →
  is_valid_position w nx ny = true →
  (grid_at w nx ny = Some 0 ∨ grid_at w nx ny = Some 2) →
  (∀ x' y', is_valid_position w x' y' = true →
     grid_at (set_grid w g) x' y'
     = if decide ((x', y') = (nx, ny)) then Some (3 + ag_id me)
       else if decide ((x', y') = (ag_x me, ag_y me))
            then Some (if 0 <? count_stack_size w (ag_x me) (ag_y me) then 2 else 0)
            else grid_at w x' y') →
  layout_ok (set_agents (set_grid w g) (<[i := set_movements (set_pos me nx ny) m]> (agents w))).
Proof.
  intros Hgeo Hlo Hme Hnvalid Hfree Hg.
  set (me' := set_movements (set_pos me nx ny) m).
  assert (me' ∈ <[i := me']> (agents w)) as Hin'.
  { apply list_elem_of_lookup. exists i. apply list_lookup_insert_eq. by eapply lookup_lt_Some. }
  split.
  - intros x y cell Hvalid Hcell.
    change (is_valid_position _ x y) with (is_valid_position w x y) in Hvalid.
    change (grid_at _ x y) with (grid_at (set_grid w g) x y) in Hcell.
    rewrite (Hg x y Hvalid) in Hcell.
    destruct (decide ((x, y) = (nx, ny))) as [Heq|Hne].
    { injection Heq as -> ->. injection Hcell as <-.
      right. right. right. exists me'. split; [done|]. by split. }
    destruct (decide ((x, y) = (ag_x me, ag_y me))) as [Heq|Hne'].
    { injection Heq as -> ->. injection Hcell as <-.
      destruct (0 <? count_stack_size w (ag_x me) (ag_y me)) eqn:Hc.
      - right. right. left. split; [done|]. exact (count_stack_size_pos w _ _ Hc).
      - left. split; [done|]. exact (count_stack_size_zero w _ _ Hlo Hc). }
    destruct (lo_cells _ Hlo x y cell Hvalid Hcell) as [H0|[H1|[H2|(a & Ha & Hc & Hpos)]]].
    + by left.
    + right. by left.
    + right. right. by left.
    + right. right. right. exists a. split; [|done].
      apply list_elem_of_lookup in Ha as [j Hj].
      apply list_elem_of_lookup. exists j.
      change (<[i := me']> (agents w) !! j = Some a).
      rewrite list_lookup_insert_ne; [done|]. intros <-.
      assert (a = me) as -> by congruence. done.
  - intros p l Hl. exact (lo_stacks _ Hlo p l Hl).
Qed.

Lemma acting_lookup i w : acting i w → ∃ me, agents w !! i = Some me.
Proof. intros [_ Hs]. by apply lookup_lt_is_Some_2. Qed.

Lemma stacks_rel_keeps_stacks_ok i w w' : stacks_rel i w w' → keeps stacks_ok w w'.
Proof.
  intros Hst Hok. unfold stacks_ok.
  eapply stack_changes_capacity; [|exact Hok].
  apply stack_steps_changes in Hst. exact Hst.
Qed.

Lemma frame_slot i w w' : frame i w w' → slot i w → slot i w'.
Proof. intros (_ & Hlen & _) Hs. unfold slot in *. lia. Qed.

Lemma move_layout i direction w r w' :
  move i direction w = Some (r, w') → geometry_ok w → layout_ok w → layout_ok w'.
Proof.
  intros H Hgeo Hlo. destruct direction as [dx dy].
  assert (∃ me, agents w !! i = Some me) as [me Hme].
  { unfold move in H. apply bind_Some in H as (me & w1 & Hs & _).
    apply self_Some in Hs as (a & Ha & _). eauto. }
  destruct (move_run i dx dy w me Hgeo Hme) as [[_ Hrun]|(Hok & g & Hwf4 & Hg & Hrun)].
  - rewrite Hrun in H. by injection H as _ <-.
  - rewrite Hrun in H. apply bind_Some in H as (u & w5 & Hsense & Hret).
    apply ret_Some in Hret. injection Hret as _ <-.
    apply preserves_core_sense_environment in Hsense.
    eapply same_layout_keeps; [apply same_store_layout, same_core_store, Hsense|].
    apply can_move_to_true in Hok as [Hnvalid Hfree].
    by eapply layout_ok_step.
Qed.

Lemma steady_acting_move i direction :
  steady (acting i) (move i direction) (fun _ => True).
Proof.
  intros w Hact. destruct (acting_lookup _ _ Hact) as [me Hme].
  pose proof (world_searchable _ _ Hact) as (Hwf & Hw3 & Hh3 & Hin).
  destruct Hact as [(Hgeo & Hst & Hlo & Hlg) Hslot]. destruct direction as [dx dy].
  assert (is_Some (move i (dx, dy) w)) as [[r w'] Hrun].
  { destruct (move_run i dx dy w me Hgeo Hme) as [[_ ->]|(Hok & g & Hwf4 & Hg & ->)];
      [by eexists|].
    apply can_move_to_true in Hok as [Hnvalid Hfree].
    set (w4 := set_agents _ _) in *.
    assert (soft_ok i w4) as Hsoft.
    { split; [|unfold slot, w4; simpl; by rewrite length_insert].
      split_and!; [done | done | done |].
      intros x y Hx Hy. change (width w4) with (width w) in Hx.
      change (height w4) with (height w) in Hy.
      rewrite (Hg x y (interior_valid w x y Hx Hy)).
      pose proof (geometry_lookup _ _ _ Hgeo Hme) as (Hid & _).
      repeat case_decide; [intros [= ?]; lia | | by apply Hin].
      destruct (0 <? count_stack_size w (ag_x me) (ag_y me)); intros [= ?]. }
    destruct (steady_soft_sense_environment i w4 Hsoft) as (u & w5 & Hsense & _).
    rewrite (bind_run _ _ _ _ _ Hsense). by eexists. }
  exists r, w'. split; [done|]. split; [|done]. split; [split_and!|].
  - by eapply keeps_geometry_move.
  - apply fixes_stacks_move in Hrun. unfold fixes, stacks_and_carryings in Hrun.
    injection Hrun as Hl _. intros p l. rewrite Hl. apply Hst.
  - by eapply move_layout.
  - eapply same_ledger_keeps; [by eapply preserves_ledger_move | done].
  - eapply frame_slot; [by eapply frame_move | done].
Qed.

(** ** [remove_box_from_grid] and [pick_up_box] *)

(** Taking the only box of a stack. *)
Lemma remove_box_run x y w b box :
  grid_wf w → is_valid_position w x y = true →
  box_locations w !! (x, y) = Some [b] → boxes w !! b = Some box →
  ∃ g, remove_box_from_grid x y w
       = Some (tt, mkWarehouse (width w) (height w) (num_boxes w) (num_agents w) g
                     (agents w)
                     (<[b := mkBox (bx_id box) (bx_x box) (bx_y box) false 1]> (boxes w))
                     (delete (x, y) (box_locations w))
                     ({[b]} ∪ processed_boxes w)
                     (total_movements w) (steps w) (agent_deliveries w)) ∧
       grid_wf (set_grid w g) ∧
       ∀ x' y', is_valid_position w x' y' = true →
         grid_at (set_grid w g) x' y'
         = if decide ((x', y') = (x, y) ∧ grid_at w x y = Some 2) then Some 0
           else grid_at w x' y'.
Proof.
  intros Hwf Hv Hb Hbox.
  destruct (grid_at_valid w x y Hwf Hv) as [c Hc].
  unfold remove_box_from_grid. rewrite (bind_run get _ w w w eq_refl). rewrite Hb.
  cbn [List.last removelast].
  unfold bind at 1. unfold modify at 1.
  unfold bind at 1. unfold modify at 1.
  unfold bind at 1. unfold update_box at 1. cbn [boxes set_processed_boxes set_box_locations].
  rewrite Hbox.
  unfold bind at 1. unfold update_box at 1. cbn [boxes set_boxes].
  rewrite lookup_insert_eq. rewrite insert_insert_eq. cbn [bx_id bx_x bx_y in_stack stack_size].
  rewrite (bind_run get _ _ _ _ eq_refl).
  match goal with
  | |- context [lift (grid_at ?w1 x y)] => change (grid_at w1 x y) with (grid_at w x y)
  end.
  rewrite Hc. rewrite (bind_run (lift (Some c)) _ _ c _ eq_refl).
  destruct (c =? 2) eqn:Hc2.
  - apply Z.eqb_eq in Hc2 as ->.
    set (w1 := set_boxes _ _).
    assert (grid_wf w1) as Hwf1 by exact Hwf.
    destruct (grid_assign_valid w1 x y 0 Hwf1 Hv) as (g & Hrun & Hwfg & Hg).
    rewrite (bind_run _ _ _ _ _ Hrun). exists g. split_and!.
    + unfold modify. simpl. by rewrite delete_insert_eq.
    + exact Hwfg.
    + intros x' y' Hv'. change (grid_at (set_grid w g) x' y') with (grid_at (set_grid w1 g) x' y').
      rewrite (Hg x' y' Hv'). change (grid_at w1 x' y') with (grid_at w x' y').
      destruct (decide ((x', y') = (x, y))) as [Heq|Hne].
      * by rewrite decide_True.
      * rewrite decide_False; [done|]. by intros [? _].
  - apply Z.eqb_neq in Hc2. exists (grid w). split_and!.
    + unfold bind, ret, modify. simpl. by rewrite delete_insert_eq.
    + by destruct w.
    + intros x' y' Hv'. rewrite decide_False; [by destruct w|].
      intros [_ Heq]. congruence.
Qed.

Lemma get_box_at_single w x y b box :
  box_locations w !! (x, y) = Some [b] → boxes w !! b = Some box →
  get_box_at w x y = Some (Some box).
Proof. intros Hb Hbox. unfold get_box_at. rewrite Hb. simpl. by rewrite Hbox. Qed.

Lemma stacked_at_boxes w b p k :
  ledger_ok w → stacked_at w b p k → ∃ box, boxes w !! b = Some box ∧ bx_id box = b.
Proof.
  intros Hlg Hs. destruct (proj2 (lg_boxes _ Hlg b)) as [box Hbox]; [left; eauto|].
  exists box. split; [done|]. by eapply lg_keys.
Qed.

Lemma get_box_at_total w x y : ledger_ok w → is_Some (get_box_at w x y).
Proof.
  intros Hlg. unfold get_box_at.
  destruct (box_locations w !! (x, y)) as [l|] eqn:Hl; [|by eexists].
  destruct (last l) as [top|] eqn:Htop; [|by eexists].
  rewrite last_lookup in Htop.
  destruct (stacked_at_boxes w top (x, y) (pred (length l)) Hlg) as (box & -> & _);
    [by exists l | by eexists].
Qed.

(** The warehouse after a pickup, before the agent tells the others. *)
Lemma pick_up_box_run i x y w me :
  geometry_ok w → layout_ok w → ledger_ok w → agents w !! i = Some me →
  pick_up_box i x y w = Some (false, w) ∨
  ∃ b box g,
    carrying_box me = false ∧ box_locations w !! (x, y) = Some [b] ∧
    boxes w !! b = Some box ∧ bx_id box = b ∧
    let w3 := mkWarehouse (width w) (height w) (num_boxes w) (num_agents w) g
                (<[i := set_carrying me true (Some b)]> (agents w))
                (<[b := mkBox b (bx_x box) (bx_y box) false 1]> (boxes w))
                (delete (x, y) (box_locations w)) ({[b]} ∪ processed_boxes w)
                (total_movements w) (steps w) (agent_deliveries w) in
    grid_wf w3 ∧
    (∀ x' y', is_valid_position w x' y' = true →
       grid_at w3 x' y'
       = if decide ((x', y') = (x, y) ∧ grid_at w x y = Some 2) then Some 0
         else grid_at w x' y') ∧
    pick_up_box i x y w
    = (let! me := self i in
       (if Py.contains (x, y) (known_unassigned_boxes me)
        then update_self i (fun a =>
               set_known a (Py.remove (x, y) (known_unassigned_boxes a)))
        else ret tt) ;;
       broadcast_message i (mkMessage BOX_PICKED (x, y) (ag_id me)) ;;
       ret true) w3.
Proof.
  intros Hgeo Hlo Hlg Hme. pose proof Hgeo as (Hwf & _).
  unfold pick_up_box. rewrite (bind_run _ _ _ _ _ (self_run _ _ _ Hme)).
  destruct (carrying_box me) eqn:Hcarry; [by left|].
  rewrite (bind_run get _ w w w eq_refl).
  destruct (get_box_at_total w x y Hlg) as [top Htop].
  rewrite (bind_run (lift _) _ w top w) by (unfold lift; by rewrite Htop).
  destruct top as [box0|]; [|by left].
  destruct (can_pick_up_box w x y) eqn:Hpick; [|by left].
  right. apply can_pick_up_box_true in Hpick as [b Hb].
  destruct (stacked_at_boxes w b (x, y) 0 Hlg) as (box & Hbox & Hid); [by exists [b]|].
  rewrite (get_box_at_single w x y b box Hb Hbox).
  rewrite (bind_run (lift (Some (Some box))) _ w (Some box) w eq_refl).
  rewrite (bind_run _ _ _ _ _ (update_self_run i _ w me Hme)).
  set (w1 := set_agents w _).
  assert (agents w1 !! i = Some (set_carrying me true (carried_box_id me))) as Hme1.
  { unfold w1. simpl. apply list_lookup_insert_eq. by eapply lookup_lt_Some. }
  rewrite (bind_run _ _ _ _ _ (update_self_run i _ w1 _ Hme1)).
  set (w2 := set_agents w1 _).
  destruct (lo_stacks _ Hlo _ _ Hb) as [_ Hv]. simpl in Hv.
  destruct (remove_box_run x y w2 b box Hwf Hv Hb Hbox) as (g & Hrun & Hwfg & Hg).
  rewrite (bind_run _ _ _ _ _ Hrun).
  exists b, box, g. split_and!; try done.
  unfold w2, w1. simpl. rewrite list_insert_insert_eq. rewrite Hid. reflexivity.
Qed.

(** ** Lists of agents that differ in one slot *)

Lemma elem_of_insert_inv {A} (l : list A) i a a' :
  a ∈ <[i := a']> l → a = a' ∨ ∃ j, j ≠ i ∧ l !! j = Some a.
Proof.
  intros [j Hj]%list_elem_of_lookup. destruct (decide (j = i)) as [->|Hne].
  - left. apply list_lookup_insert_Some in Hj as [(_ & ? & _)|[? _]]; [done|done].
  - right. exists j. split; [done|]. by rewrite list_lookup_insert_ne in Hj.
Qed.

Lemma elem_of_insert_other {A} (l : list A) i j a a' :
  l !! j = Some a → j ≠ i → a ∈ <[i := a']> l.
Proof.
  intros Hj Hne. apply list_elem_of_lookup. exists j. by rewrite list_lookup_insert_ne.
Qed.

Lemma elem_of_insert_here {A} (l : list A) i a a' : l !! i = Some a → a' ∈ <[i := a']> l.
Proof.
  intros Hi. apply list_elem_of_lookup. exists i.
  apply list_lookup_insert_eq. by eapply lookup_lt_Some.
Qed.

Lemma NoDup_omap_lookup {A B} (f : A → option B) (l : list A) i j a a' b :
  NoDup (omap f l) → l !! i = Some a → l !! j = Some a' →
  f a = Some b → f a' = Some b → i = j.
Proof.
  revert i j. induction l as [|x l IH]; intros i j Hnd Hi Hj Ha Ha'; [done|].
  cbn [omap list_omap] in Hnd.
  assert (∀ k c, l !! k = Some c → f c = Some b → f x = Some b → False) as Hhead.
  { intros k c Hk Hc Hx. rewrite Hx in Hnd. apply NoDup_cons in Hnd as [Hnin _].
    apply Hnin. apply list_elem_of_omap. exists c. split; [|done].
    apply list_elem_of_lookup. eauto. }
  assert (NoDup (omap f l)) as Hnd'.
  { destruct (f x); [by apply NoDup_cons in Hnd as [_ ?] | done]. }
  destruct i as [|i], j as [|j]; simpl in *; simplify_eq.
  - done.
  - exfalso. eauto.
  - exfalso. eauto.
  - f_equal. eauto.
Qed.

Lemma NoDup_omap_insert_None {A B} (f : A → option B) (l : list A) i a' :
  NoDup (omap f l) → f a' = None → NoDup (omap f (<[i := a']> l)).
Proof.
  revert i. induction l as [|x l IH]; intros i Hnd Ha'; [done|].
  destruct i as [|i];
    [change (<[0%nat:=a']> (x :: l)) with (a' :: l)
    |change (<[S i:=a']> (x :: l)) with (x :: <[i:=a']> l)];
    cbn [omap list_omap] in *.
  - rewrite Ha'. destruct (f x); [by apply NoDup_cons in Hnd as [_ ?] | done].
  - destruct (f x) as [c|] eqn:Hx.
    + apply NoDup_cons in Hnd as [Hnin Hnd]. apply NoDup_cons. split; [|by apply IH].
      intros Hin. apply Hnin. apply list_elem_of_omap in Hin as (c' & Hc' & Hf).
      apply elem_of_insert_inv in Hc' as [->|(j & _ & Hj)]; [congruence|].
      apply list_elem_of_omap. exists c'. split; [|done]. apply list_elem_of_lookup. eauto.
    + by apply IH.
Qed.

Lemma NoDup_omap_insert_Some {A B} (f : A → option B) (l : list A) i a a' b :
  NoDup (omap f l) → l !! i = Some a → f a = None → f a' = Some b →
  b ∉ omap f l → NoDup (omap f (<[i := a']> l)).
Proof.
  revert i. induction l as [|x l IH]; intros i Hnd Hi Ha Ha' Hb; [done|].
  destruct i as [|i];
    [change (<[0%nat:=a']> (x :: l)) with (a' :: l)
    |change (<[S i:=a']> (x :: l)) with (x :: <[i:=a']> l)];
    cbn [omap list_omap] in *.
  - simpl in Hi. injection Hi as ->. rewrite Ha in Hnd, Hb. rewrite Ha'.
    apply NoDup_cons. by split.
  - simpl in Hi. destruct (f x) as [c|] eqn:Hx.
    + apply NoDup_cons in Hnd as [Hnin Hnd]. apply not_elem_of_cons in Hb as [Hbc Hb].
      apply NoDup_cons. split; [|by eapply IH].
      intros Hin. apply list_elem_of_omap in Hin as (c' & Hc' & Hf).
      apply elem_of_insert_inv in Hc' as [->|(j & _ & Hj)]; [congruence|].
      apply Hnin. apply list_elem_of_omap. exists c'. split; [|done].
      apply list_elem_of_lookup. eauto.
    + by eapply IH.
Qed.

Lemma carried_none w i me :
  ledger_ok w → agents w !! i = Some me → carrying_box me = false →
  carried_box_id me = None.
Proof.
  intros Hlg Hme Hc. pose proof (lg_flag _ Hlg) as Hflag.
  eapply Forall_lookup_1 in Hflag; [|exact Hme]. simpl in Hflag.
  destruct (carried_box_id me) as [b|]; [|done].
  destruct Hflag as [_ Hflag]. rewrite Hflag in Hc by by eexists. done.
Qed.

Lemma carried_some w i me :
  ledger_ok w → agents w !! i = Some me → carrying_box me = true →
  ∃ b, carried_box_id me = Some b.
Proof.
  intros Hlg Hme Hc. pose proof (lg_flag _ Hlg) as Hflag.
  eapply Forall_lookup_1 in Hflag; [|exact Hme]. simpl in Hflag.
  destruct Hflag as [Hflag _]. by apply Hflag.
Qed.

Lemma not_carried_omap w b :
  (∀ a, ¬ carried_by w b a) → b ∉ omap carried_box_id (agents w).
Proof.
  intros Hno Hin. apply list_elem_of_omap in Hin as (a & Ha & Hb).
  by apply (Hno a).
Qed.

(** ** The books after a pickup *)

Lemma ledger_ok_pick w i me b box g x y :
  ledger_ok w → agents w !! i = Some me → carrying_box me = false →
  box_locations w !! (x, y) = Some [b] → boxes w !! b = Some box →
  ledger_ok (mkWarehouse (width w) (height w) (num_boxes w) (num_agents w) g
               (<[i := set_carrying me true (Some b)]> (agents w))
               (<[b := mkBox b (bx_x box) (bx_y box) false 1]> (boxes w))
               (delete (x, y) (box_locations w)) ({[b]} ∪ processed_boxes w)
               (total_movements w) (steps w) (agent_deliveries w)).
Proof.
  intros Hlg Hme Hcarry Hb Hbox.
  pose proof (carried_none _ _ _ Hlg Hme Hcarry) as Hnone.
  set (me3 := set_carrying me true (Some b)).
  set (w3 := mkWarehouse _ _ _ _ _ _ _ _ _ _ _ _).
  assert (stacked_at w b (x, y) 0) as Hb0 by by exists [b].
  assert (Hst : ∀ b' p k, stacked_at w3 b' p k ↔ p ≠ (x, y) ∧ stacked_at w b' p k).
  { intros b' p k. unfold stacked_at, w3. simpl. split.
    - intros (l & Hl & Hk). apply lookup_delete_Some in Hl as [Hne Hl]. eauto.
    - intros (Hne & l & Hl & Hk). exists l. split; [|done]. by apply lookup_delete_Some. }
  assert (Hb_only : ∀ p k, stacked_at w b p k → p = (x, y)).
  { intros p k Hs. by destruct (lg_once _ Hlg b p k (x, y) 0%nat Hs Hb0). }
  assert (Hc3 : ∀ b' a, carried_by w3 b' a → (a = me3 ∧ b' = b) ∨ carried_by w b' a).
  { intros b' a [Ha Hcb]. unfold w3 in Ha. simpl in Ha.
    apply elem_of_insert_inv in Ha as [->|(j & Hj & Ha)].
    - left. split; [done|]. simpl in Hcb. congruence.
    - right. split; [|done]. apply list_elem_of_lookup. eauto. }
  assert (Hc : ∀ b' a, carried_by w b' a → carried_by w3 b' a).
  { intros b' a [Ha Hcb]. split; [|done]. apply list_elem_of_lookup in Ha as [j Hj].
    unfold w3. simpl. eapply elem_of_insert_other; [exact Hj|].
    intros ->. congruence. }
  assert (Hme3 : carried_by w3 b me3).
  { split; [|done]. unfold w3. simpl. by eapply elem_of_insert_here. }
  assert (Hb_free : ∀ a, ¬ carried_by w b a).
  { intros a Ha. by eapply (lg_apart _ Hlg b (x, y) 0%nat a). }
  split.
  - unfold w3. simpl. apply Forall_insert; [apply (lg_flag _ Hlg)|].
    simpl. split; [by eexists | done].
  - intros k box'. unfold w3. simpl. intros Hk.
    apply lookup_insert_Some in Hk as [[<- <-]|[_ Hk]]; [done|]. by eapply lg_keys.
  - intros b' p k q j [_ H1]%Hst [_ H2]%Hst. by eapply lg_once.
  - unfold w3. simpl. eapply NoDup_omap_insert_Some;
      [apply (lg_carried_once _ Hlg) | exact Hme | exact Hnone | done |].
    by apply not_carried_omap.
  - intros b' p k a [Hne Hs]%Hst [[-> ->]|Hca]%Hc3.
    + apply Hne. by eapply Hb_only.
    + by eapply lg_apart.
  - intros b'. unfold w3 at 1. simpl.
    assert (is_Some (<[b := mkBox b (bx_x box) (bx_y box) false 1]> (boxes w) !! b')
            ↔ is_Some (boxes w !! b')) as ->.
    { destruct (decide (b = b')) as [<-|Hne].
      - rewrite lookup_insert_eq, Hbox. split; by eexists.
      - by rewrite lookup_insert_ne. }
    rewrite (lg_boxes _ Hlg). split.
    + intros [(p & k & Hs)|(a & Hca)].
      * destruct (decide (p = (x, y))) as [->|Hne].
        -- right. exists me3. destruct Hs as (l & Hl & Hk). rewrite Hb in Hl.
           injection Hl as <-. destruct k; simpl in Hk; [|done]. by injection Hk as <-.
        -- left. exists p, k. by apply Hst.
      * right. exists a. by apply Hc.
    + intros [(p & k & [_ Hs]%Hst)|(a & [[-> ->]|Hca]%Hc3)]; eauto.
  - intros b' p k [Hne Hs]%Hst.
    destruct (lg_records _ Hlg b' p k Hs) as (box' & Hbox' & Hpos & Hsz & Hin).
    assert (b' ≠ b) as Hbb by (intros ->; apply Hne; by eapply Hb_only).
    exists box'. unfold w3. simpl. rewrite lookup_insert_ne by done.
    split_and!; try done. rewrite Hin, elem_of_union, elem_of_singleton.
    split; [by right | by intros [?|?]].
  - intros b' a [[-> ->]|Hca]%Hc3.
    + eexists. unfold w3. simpl. rewrite lookup_insert_eq.
      split_and!; [done | done | done |]. apply elem_of_union_l. by apply elem_of_singleton.
    + destruct (lg_carried_record _ Hlg b' a Hca) as (box' & Hbox' & Hin & Hsz & Hpr).
      assert (b' ≠ b) as Hbb by (intros ->; by eapply Hb_free).
      exists box'. unfold w3. simpl. rewrite lookup_insert_ne by done.
      split_and!; try done. by apply elem_of_union_r.
  - unfold w3. simpl. apply Forall_insert; [apply (lg_deliveries _ Hlg)|].
    simpl. pose proof (lg_deliveries _ Hlg) as Hd.
    by eapply Forall_lookup_1 in Hd.
Qed.

(** ** The layout after a pickup *)

Lemma layout_ok_pick w i me b g x y bs pr :
  grid_wf w → layout_ok w → agents w !! i = Some me →
  (∀ x' y', is_valid_position w x' y' = true →
     grid_at (set_grid w g) x' y'
     = if decide ((x', y') = (x, y) ∧ grid_at w x y = Some 2) then Some 0
       else grid_at w x' y') →
  layout_ok (mkWarehouse (width w) (height w) (num_boxes w) (num_agents w) g
               (<[i := set_carrying me true (Some b)]> (agents w))
               bs (delete (x, y) (box_locations w)) pr
               (total_movements w) (steps w) (agent_deliveries w)).
Proof.
  intros Hwf Hlo Hme Hg. set (w3 := mkWarehouse _ _ _ _ _ _ _ _ _ _ _ _). split.
  - intros x' y' cell Hv Hcell.
    change (is_valid_position w x' y' = true) in Hv.
    change (grid_at (set_grid w g) x' y' = Some cell) in Hcell.
    rewrite (Hg x' y' Hv) in Hcell.
    destruct (decide ((x', y') = (x, y) ∧ grid_at w x y = Some 2)) as [[Heq H2]|Hno].
    { injection Heq as -> ->. injection Hcell as <-. left. split; [done|].
      unfold w3. simpl. apply lookup_delete_eq. }
    destruct (lo_cells _ Hlo x' y' cell Hv Hcell) as [[-> Hn]|[(-> & Hp & Hn)|[[-> Hs]|(a & Ha & Hc & Hpos)]]].
    + left. split; [done|]. unfold w3. simpl. apply lookup_delete_None. by right.
    + right. left. split_and!; [done | done |]. unfold w3. simpl.
      apply lookup_delete_None. by right.
    + right. right. left. split; [done|]. unfold w3. simpl.
      destruct Hs as [l Hl]. exists l. apply lookup_delete_Some. split; [|done].
      intros [= <- <-]. apply Hno. by split.
    + right. right. right. apply list_elem_of_lookup in Ha as [j Hj].
      destruct (decide (j = i)) as [->|Hne].
      * assert (a = me) as -> by congruence.
        exists (set_carrying me true (Some b)). split; [|done].
        unfold w3. simpl. by eapply elem_of_insert_here.
      * exists a. split; [|done]. unfold w3. simpl. by eapply elem_of_insert_other.
  - intros p l Hl. unfold w3 in Hl. simpl in Hl.
    apply lookup_delete_Some in Hl as [_ Hl]. exact (lo_stacks _ Hlo p l Hl).
Qed.

Lemma steady_acting_pick_up_box i x y :
  steady (acting i) (pick_up_box i x y) (fun _ => True).
Proof.
  intros w Hact. destruct (acting_lookup _ _ Hact) as [me Hme].
  pose proof (world_searchable _ _ Hact) as (Hwf & Hw3 & Hh3 & Hin).
  pose proof Hact as [(Hgeo & Hst & Hlo & Hlg) Hslot].
  destruct (pick_up_box_run i x y w me Hgeo Hlo Hlg Hme)
    as [Hrun|(b & box & g & Hcarry & Hb & Hbox & Hid & Hwf3 & Hg & Hrun)].
  { exists false, w. by split_and!. }
  set (w3 := mkWarehouse _ _ _ _ _ _ _ _ _ _ _ _) in *.
  assert (soft_ok i w3) as Hsoft.
  { split; [|unfold slot, w3; simpl; by rewrite length_insert].
    split_and!; [done | done | done |].
    intros x' y' Hx Hy. rewrite (Hg x' y' (interior_valid w x' y' Hx Hy)).
    destruct (decide _); [discriminate | by apply Hin]. }
  assert (steady (soft_ok i)
            (let! me := self i in
             (if Py.contains (x, y) (known_unassigned_boxes me)
              then update_self i (fun a =>
                     set_known a (Py.remove (x, y) (known_unassigned_boxes a)))
              else ret tt) ;;
             broadcast_message i (mkMessage BOX_PICKED (x, y) (ag_id me)) ;;
             ret true) (fun _ => True)) as Htail by steady.
  assert (preserves same_store
            (let! me := self i in
             (if Py.contains (x, y) (known_unassigned_boxes me)
              then update_self i (fun a =>
                     set_known a (Py.remove (x, y) (known_unassigned_boxes a)))
              else ret tt) ;;
             broadcast_message i (mkMessage BOX_PICKED (x, y) (ag_id me)) ;;
             ret true)) as Hpres by pres.
  destruct (Htail w3 Hsoft) as (r & w' & Hrun' & _ & _).
  pose proof (Hpres _ _ _ Hrun') as Hsame.
  rewrite <- Hrun in Hrun'.
  exists r, w'. split; [done|]. split; [|done]. split; [split_and!|].
  - by eapply keeps_geometry_pick_up_box.
  - eapply stacks_rel_keeps_stacks_ok; [by eapply stacks_rel_pick_up_box | done].
  - eapply same_layout_keeps; [by apply same_store_layout|].
    by apply layout_ok_pick.
  - eapply same_ledger_keeps; [by apply same_store_ledger|].
    rewrite <- Hid in Hbox. rewrite Hid in Hbox. by apply ledger_ok_pick.
  - eapply frame_slot; [by eapply frame_pick_up_box | done].
Qed.

(** ** [place_box] and [drop_box] *)

(** Placing a box on the cell the agent stands on. *)
Lemma place_box_run x y b aid w box n cell :
  grid_at w x y = Some cell → 3 ≤ cell →
  boxes w !! b = Some box → agent_deliveries w !! aid = Some n →
  place_box x y b (Some aid) w
  = Some (tt, mkWarehouse (width w) (height w) (num_boxes w) (num_agents w) (grid w)
                (agents w)
                (<[b := mkBox (bx_id box) x y true
                          (Z.of_nat (length (stack_at (box_locations w) (x, y) ++ [b])))]>
                   (boxes w))
                (<[(x, y) := stack_at (box_locations w) (x, y) ++ [b]]> (box_locations w))
                (processed_boxes w) (total_movements w) (steps w)
                (<[aid := n + 1]> (agent_deliveries w))).
Proof.
  intros Hcell Hc Hbox Hn.
  unfold place_box. rewrite (bind_run get _ w w w eq_refl).
  unfold bind at 1. unfold modify at 1.
  rewrite (bind_run get _ _ _ _ eq_refl).
  match goal with
  | |- context [lift (grid_at ?w1 x y)] => change (grid_at w1 x y) with (grid_at w x y)
  end.
  rewrite Hcell. rewrite (bind_run (lift (Some cell)) _ _ cell _ eq_refl).
  rewrite (proj2 (Z.ltb_ge cell 3)) by lia.
  rewrite (bind_run (ret tt) _ _ tt _ eq_refl).
  unfold bind at 1. unfold update_box at 1. cbn [boxes set_box_locations]. rewrite Hbox.
  unfold bind at 1. unfold update_box at 1. cbn [boxes set_boxes]. rewrite lookup_insert_eq.
  rewrite insert_insert_eq.
  unfold bind at 1. unfold update_box at 1. cbn [boxes set_boxes]. rewrite lookup_insert_eq.
  rewrite insert_insert_eq.
  unfold bind at 1. unfold update_box at 1. cbn [boxes set_boxes]. rewrite lookup_insert_eq.
  rewrite insert_insert_eq.
  cbn [bx_id bx_x bx_y in_stack stack_size].
  rewrite (bind_run get _ _ _ _ eq_refl). cbn [agent_deliveries set_boxes set_box_locations].
  rewrite Hn. unfold modify. reflexivity.
Qed.

Lemma can_place_box_own w x y agent_id :
  grid_at w x y = Some (3 + agent_id) → 0 ≤ agent_id →
  can_place_box w x y agent_id = Some (negb (5 <=? count_stack_size w x y)).
Proof.
  intros Hcell Hid. unfold can_place_box. rewrite Hcell.
  destruct (5 <=? count_stack_size w x y); [done|].
  rewrite (proj2 (Z.leb_le 3 (3 + agent_id))) by lia.
  replace (3 + agent_id - 3) with agent_id by lia. by rewrite Z.eqb_refl.
Qed.

Lemma carried_by_boxes w b a :
  ledger_ok w → carried_by w b a → ∃ box, boxes w !! b = Some box ∧ bx_id box = b.
Proof.
  intros Hlg Hc. destruct (proj2 (lg_boxes _ Hlg b)) as [box Hbox]; [right; eauto|].
  exists box. split; [done|]. by eapply lg_keys.
Qed.

(** The warehouse after a drop. *)
Lemma drop_box_run i w me :
  geometry_ok w → ledger_ok w → agents w !! i = Some me →
  drop_box i w = Some (false, w) ∨
  ∃ b box n,
    carrying_box me = true ∧ carried_box_id me = Some b ∧
    boxes w !! b = Some box ∧ agent_deliveries w !! ag_id me = Some n ∧
    (length (stack_at (box_locations w) (ag_x me, ag_y me)) < 5)%nat ∧
    drop_box i w
    = Some (true,
            mkWarehouse (width w) (height w) (num_boxes w) (num_agents w) (grid w)
              (<[i := set_carrying me false None]> (agents w))
              (<[b := mkBox b (ag_x me) (ag_y me) true
                        (Z.of_nat (length (stack_at (box_locations w) (ag_x me, ag_y me)
                                           ++ [b])))]> (boxes w))
              (<[(ag_x me, ag_y me) := stack_at (box_locations w) (ag_x me, ag_y me) ++ [b]]>
                 (box_locations w))
              (processed_boxes w) (total_movements w) (steps w)
              (<[ag_id me := n + 1]> (agent_deliveries w))).
Proof.
  intros Hgeo Hlg Hme.
  pose proof (geometry_lookup _ _ _ Hgeo Hme) as (Hid & Hvalid & Hcell).
  unfold drop_box. rewrite (bind_run _ _ _ _ _ (self_run _ _ _ Hme)).
  destruct (carrying_box me) eqn:Hcarry; [|by left]. cbn [negb].
  rewrite (bind_run get _ w w w eq_refl).
  rewrite (can_place_box_own w _ _ _ Hcell Hid).
  rewrite (bind_run (lift (Some _)) _ w _ w eq_refl).
  destruct (5 <=? count_stack_size w (ag_x me) (ag_y me)) eqn:Hfull; [by left|].
  cbn [negb]. right.
  destruct (carried_some _ _ _ Hlg Hme Hcarry) as [b Hb]. rewrite Hb.
  assert (carried_by w b me) as Hcb.
  { split; [|done]. apply list_elem_of_lookup. eauto. }
  destruct (carried_by_boxes _ _ _ Hlg Hcb) as (box & Hbox & Hbid).
  pose proof (lg_deliveries _ Hlg) as Hdel.
  eapply Forall_lookup_1 in Hdel; [|exact Hme]. destruct Hdel as [n Hn].
  exists b, box, n. split_and!; try done.
  { apply Z.leb_gt in Hfull. rewrite count_stack_size_stack_at in Hfull. lia. }
  rewrite (bind_run _ _ _ _ _
             (place_box_run _ _ b (ag_id me) w box n (3 + ag_id me) Hcell ltac:(lia) Hbox Hn)).
  set (w1 := mkWarehouse _ _ _ _ _ _ _ _ _ _ _ _).
  assert (agents w1 !! i = Some me) as Hme1 by exact Hme.
  rewrite (bind_run _ _ _ _ _ (update_self_run i _ w1 me Hme1)).
  set (w2 := set_agents w1 _).
  assert (agents w2 !! i = Some (set_carrying me false (carried_box_id me))) as Hme2.
  { unfold w2. simpl. apply list_lookup_insert_eq. by eapply lookup_lt_Some. }
  rewrite (bind_run _ _ _ _ _ (update_self_run i _ w2 _ Hme2)).
  unfold ret, w2, w1. simpl. rewrite list_insert_insert_eq, Hbid. reflexivity.
Qed.

(** ** The books after a drop *)

Lemma lookup_snoc_Some {A} (l : list A) (x y : A) k :
  (l ++ [x]) !! k = Some y ↔ l !! k = Some y ∨ (k = length l ∧ y = x).
Proof.
  rewrite lookup_app_Some. split.
  - intros [?|[Hk Hx]]; [by left|]. right.
    destruct (k - length l)%nat as [|k'] eqn:Hkl; simpl in Hx; [|done].
    injection Hx as ->. split; [lia | done].
  - intros [?|[-> ->]]; [by left|]. right. split; [lia|].
    by rewrite Nat.sub_diag.
Qed.

Lemma ledger_ok_drop w i me b box n :
  ledger_ok w → agents w !! i = Some me → carried_box_id me = Some b →
  boxes w !! b = Some box → agent_deliveries w !! ag_id me = Some n →
  ledger_ok (mkWarehouse (width w) (height w) (num_boxes w) (num_agents w) (grid w)
               (<[i := set_carrying me false None]> (agents w))
               (<[b := mkBox b (ag_x me) (ag_y me) true
                         (Z.of_nat (length (stack_at (box_locations w) (ag_x me, ag_y me)
                                            ++ [b])))]> (boxes w))
               (<[(ag_x me, ag_y me) := stack_at (box_locations w) (ag_x me, ag_y me) ++ [b]]>
                  (box_locations w))
               (processed_boxes w) (total_movements w) (steps w)
               (<[ag_id me := n + 1]> (agent_deliveries w))).
Proof.
  intros Hlg Hme Hb Hbox Hn.
  set (p0 := (ag_x me, ag_y me)). set (stack := stack_at (box_locations w) p0).
  set (me' := set_carrying me false None).
  set (w' := mkWarehouse _ _ _ _ _ _ _ _ _ _ _ _).
  assert (carried_by w b me) as Hcb.
  { split; [|done]. apply list_elem_of_lookup. eauto. }
  assert (Hb_free : ∀ p k, ¬ stacked_at w b p k).
  { intros p k Hs. by eapply (lg_apart _ Hlg b p k me). }
  assert (Hst : ∀ b' p k, stacked_at w' b' p k ↔
                          stacked_at w b' p k ∨ (p = p0 ∧ k = length stack ∧ b' = b)).
  { intros b' p k. unfold stacked_at, w'. cbn [box_locations]. split.
    - intros (l & Hl & Hk). apply lookup_insert_Some in Hl as [[<- <-]|[Hne Hl]].
      + apply lookup_snoc_Some in Hk as [Hk|[-> ->]]; [|by right].
        left. exists stack. split; [|done]. unfold stack, stack_at in *.
        destruct (box_locations w !! p0); [done|]. by destruct k.
      + left. eauto.
    - intros [(l & Hl & Hk)|(-> & -> & ->)].
      + destruct (decide (p = p0)) as [->|Hne].
        * exists (stack ++ [b]). rewrite lookup_insert_eq. split; [done|].
          apply lookup_snoc_Some. left. unfold stack, stack_at. by rewrite Hl.
        * exists l. by rewrite lookup_insert_ne.
      + exists (stack ++ [b]). rewrite lookup_insert_eq. split; [done|].
        apply lookup_snoc_Some. by right. }
  assert (Hc' : ∀ b' a, carried_by w' b' a →
                        ∃ j, j ≠ i ∧ agents w !! j = Some a ∧ carried_by w b' a).
  { intros b' a [Ha Hcar]. unfold w' in Ha. cbn [agents] in Ha.
    apply elem_of_insert_inv in Ha as [->|(j & Hj & Ha)]; [done|].
    exists j. split_and!; [done | done |]. split; [|done]. apply list_elem_of_lookup. eauto. }
  assert (Hother : ∀ b' a, carried_by w' b' a → b' ≠ b).
  { intros b' a (j & Hj & Ha & [_ Hcar])%Hc' Heq. rewrite Heq in Hcar. apply Hj.
    eapply (NoDup_omap_lookup carried_box_id);
      [apply (lg_carried_once _ Hlg) | exact Ha | exact Hme | done | done]. }
  assert (Hc : ∀ b' a, carried_by w b' a → b' ≠ b → carried_by w' b' a).
  { intros b' a [Ha Hcar] Hne. split; [|done]. apply list_elem_of_lookup in Ha as [j Hj].
    unfold w'. cbn [agents]. eapply elem_of_insert_other; [exact Hj|].
    intros ->. congruence. }
  split.
  - unfold w'. cbn [agents]. apply Forall_insert; [apply (lg_flag _ Hlg)|].
    simpl. split; [done | by intros [? ?]].
  - intros k box'. unfold w'. cbn [boxes]. intros Hk.
    apply lookup_insert_Some in Hk as [[Hbk <-]|[_ Hk]]; [exact Hbk|]. by eapply lg_keys.
  - intros b' p k q j [H1|(Hp & Hk & Hb')]%Hst [H2|(Hq & Hj & Hb'')]%Hst.
    + by eapply lg_once.
    + rewrite Hb'' in H1. by destruct (Hb_free p k).
    + rewrite Hb' in H2. by destruct (Hb_free q j).
    + split; congruence.
  - unfold w'. cbn [agents]. by apply NoDup_omap_insert_None; [apply (lg_carried_once _ Hlg)|].
  - intros b' p k a [Hs|(_ & _ & Hb')]%Hst Hca.
    + apply Hc' in Hca as (j & _ & _ & Hca). by eapply lg_apart.
    + by eapply Hother.
  - intros b'. unfold w' at 1. cbn [boxes].
    assert (is_Some (<[b := mkBox b (ag_x me) (ag_y me) true
                             (Z.of_nat (length (stack ++ [b])))]> (boxes w) !! b')
            ↔ is_Some (boxes w !! b')) as ->.
    { destruct (decide (b = b')) as [<-|Hne].
      - rewrite lookup_insert_eq, Hbox. split; by eexists.
      - by rewrite lookup_insert_ne. }
    rewrite (lg_boxes _ Hlg). split.
    + intros [(p & k & Hs)|(a & Hca)].
      * left. exists p, k. apply Hst. by left.
      * destruct (decide (b' = b)) as [->|Hne].
        -- left. exists p0, (length stack). apply Hst. by right.
        -- right. exists a. by apply Hc.
    + intros [(p & k & [Hs|(_ & _ & Hb')]%Hst)|(a & (j & _ & _ & Hca)%Hc')];
        [eauto | rewrite Hb'; eauto | eauto].
  - intros b' p k [Hs|(Hp & Hk & Hb')]%Hst.
    + destruct (lg_records _ Hlg b' p k Hs) as (box' & Hbox' & Hpos & Hsz & Hin).
      assert (b' ≠ b) as Hbb by (intros Heq; rewrite Heq in Hs; by eapply Hb_free).
      exists box'. unfold w'. cbn [boxes processed_boxes]. by rewrite lookup_insert_ne.
    + rewrite Hp, Hk, Hb'. destruct (lg_carried_record _ Hlg b me Hcb) as (box' & _ & _ & _ & Hpr).
      eexists. unfold w'. cbn [boxes processed_boxes]. rewrite lookup_insert_eq.
      split_and!; [done | done | | done].
      cbn [stack_size]. rewrite length_app. simpl. f_equal. lia.
  - intros b' a Hca. pose proof (Hother _ _ Hca) as Hne.
    apply Hc' in Hca as (j & _ & _ & Hca).
    destruct (lg_carried_record _ Hlg b' a Hca) as (box' & Hbox' & Hrest).
    exists box'. unfold w'. cbn [boxes processed_boxes]. by rewrite lookup_insert_ne.
  - unfold w'. cbn [agents agent_deliveries].
    assert (Forall (fun a => is_Some (<[ag_id me := n + 1]> (agent_deliveries w) !! ag_id a))
                   (agents w)) as Hall.
    { eapply Forall_impl; [apply (lg_deliveries _ Hlg)|]. intros a Ha. simpl in *.
      destruct (decide (ag_id me = ag_id a)) as [->|Hne].
      - rewrite lookup_insert_eq. by eexists.
      - by rewrite lookup_insert_ne. }
    apply Forall_insert; [done|]. eapply Forall_lookup_1 in Hall; [|exact Hme]. done.
Qed.

(** ** The layout after a drop *)

Lemma layout_ok_drop w i me b bs d :
  geometry_ok w → layout_ok w → agents w !! i = Some me →
  layout_ok (mkWarehouse (width w) (height w) (num_boxes w) (num_agents w) (grid w)
               (<[i := set_carrying me false None]> (agents w)) bs
               (<[(ag_x me, ag_y me) := stack_at (box_locations w) (ag_x me, ag_y me) ++ [b]]>
                  (box_locations w))
               (processed_boxes w) (total_movements w) (steps w) d).
Proof.
  intros Hgeo Hlo Hme. set (w' := mkWarehouse _ _ _ _ _ _ _ _ _ _ _ _).
  pose proof (geometry_lookup _ _ _ Hgeo Hme) as (Hid & Hvalid & Hcell).
  split.
  - intros x y cell Hv Hc.
    change (is_valid_position w x y = true) in Hv. change (grid_at w x y = Some cell) in Hc.
    assert (cell < 3 → (x, y) ≠ (ag_x me, ag_y me)) as Hne.
    { intros Hlt [= -> ->]. rewrite Hcell in Hc. injection Hc as <-. lia. }
    destruct (lo_cells _ Hlo x y cell Hv Hc) as [[-> Hn]|[(-> & Hp & Hn)|[[-> Hs]|(a & Ha & Hca & Hpos)]]].
    + left. split; [done|]. unfold w'. cbn [box_locations].
      rewrite lookup_insert_ne; [done|]. intros Heq. symmetry in Heq. revert Heq. apply Hne. lia.
    + right. left. split_and!; [done | done |]. unfold w'. cbn [box_locations].
      rewrite lookup_insert_ne; [done|]. intros Heq. symmetry in Heq. revert Heq. apply Hne. lia.
    + right. right. left. split; [done|]. unfold w'. cbn [box_locations].
      rewrite lookup_insert_ne; [done|]. intros Heq. symmetry in Heq. revert Heq. apply Hne. lia.
    + right. right. right. apply list_elem_of_lookup in Ha as [j Hj].
      destruct (decide (j = i)) as [->|Hji].
      * assert (a = me) as -> by congruence.
        exists (set_carrying me false None). split; [|done].
        unfold w'. cbn [agents]. by eapply elem_of_insert_here.
      * exists a. split; [|done]. unfold w'. cbn [agents]. by eapply elem_of_insert_other.
  - intros p l Hl. unfold w' in Hl. cbn [box_locations] in Hl.
    apply lookup_insert_Some in Hl as [[<- <-]|[_ Hl]].
    + split; [by destruct (stack_at _ _) | exact Hvalid].
    + exact (lo_stacks _ Hlo p l Hl).
Qed.

Lemma steady_acting_drop_box i : steady (acting i) (drop_box i) (fun _ => True).
Proof.
  intros w Hact. destruct (acting_lookup _ _ Hact) as [me Hme].
  pose proof Hact as [(Hgeo & Hst & Hlo & Hlg) Hslot].
  destruct (drop_box_run i w me Hgeo Hlg Hme)
    as [Hrun|(b & box & n & Hcarry & Hb & Hbox & Hn & Hlen & Hrun)].
  { exists false, w. by split_and!. }
  eexists true, _. split; [exact Hrun|]. split; [|done]. split; [split_and!|].
  - by eapply keeps_geometry_drop_box.
  - eapply stacks_rel_keeps_stacks_ok; [by eapply stacks_rel_drop_box | done].
  - by apply layout_ok_drop.
  - by apply (ledger_ok_drop w i me b box n).
  - unfold slot. simpl. by rewrite length_insert.
Qed.

(** * A turn always returns *)

Lemma acting_slot i w : acting i w → slot i w.
Proof. by intros [_ ?]. Qed.

Lemma steady_acting_self i : steady (acting i) (self i) (fun _ => True).
Proof. apply steady_self, acting_slot. Qed.
#[global] Hint Resolve steady_acting_self : steady.
#[global] Hint Resolve steady_acting_move steady_acting_pick_up_box steady_acting_drop_box
  : steady.

(** Sensing, messaging and planning return in the whole invariant. *)
#[global] Hint Extern 4 (steady (acting _) _ _) =>
  (apply steady_acting; [solve [eauto with steady] | solve [pres]]) : steady.

Lemma steady_acting_explore i tape :
  (3 ≤ length tape)%nat →
  steady (acting i) (explore i tape) (fun tape' => (length tape ≤ length tape' + 3)%nat).
Proof.
  intros Hlen. apply steady_acting; [by apply steady_soft_explore|].
  eapply preserves_weaken; [exact same_core_store | apply preserves_core_explore].
Qed.

Lemma steady_acting_decide_action i tape :
  (3 ≤ length tape)%nat →
  steady (acting i) (decide_action i tape)
    (fun tape' => (length tape ≤ length tape' + 3)%nat).
Proof.
  intros Hlen. unfold decide_action.
  assert (∀ (m : M unit), steady (acting i) m (fun _ => True) →
            steady (acting i) (m ;; ret tape)
              (fun tape' => (length tape ≤ length tape' + 3)%nat)) as Hkeep.
  { intros m Hm. eapply steady_bind; [exact Hm | intros _ _]. apply steady_ret. lia. }
  eapply steady_bind; [eauto with steady | intros _ _].
  eapply steady_bind; [eauto with steady | intros _ _].
  eapply steady_bind; [eauto with steady | intros me _].
  destruct (state me).
  - eapply steady_bind; [eauto with steady | intros known_box _].
    destruct known_box as [known_box|]; [|by apply steady_acting_explore].
    eapply steady_bind; [eauto with steady | intros _ _]. apply Hkeep. eauto with steady.
  - eapply steady_bind; [apply steady_get | intros w [(Hgeo & _) _]].
    destruct (find_nearest_shelf_total w me (proj1 Hgeo)) as [shelf Hshelf].
    eapply steady_bind; [by apply steady_lift | intros ? ->].
    destruct shelf as [shelf|].
    + case_bool_decide.
      * eapply steady_bind; [eauto with steady | intros _ _]. apply Hkeep. eauto with steady.
      * destruct (path me); [|apply steady_ret; lia].
        eapply steady_bind; [eauto with steady | intros route _].
        apply Hkeep. eauto with steady.
    + eapply steady_bind; [eauto with steady | intros _ _]. apply Hkeep. eauto with steady.
  - assert (steady (acting i)
              (let! known_box := find_nearest_known_box i in
               match known_box with
               | Some known_box => retarget i known_box
               | None =>
                   update_self i (fun a => set_state a SEARCHING) ;;
                   update_self i (fun a => set_target a None)
               end ;;
               ret tape) (fun tape' => (length tape ≤ length tape' + 3)%nat)) as Hfind.
    { eapply steady_bind; [eauto with steady | intros known_box _].
      apply Hkeep. destruct known_box; steady. }
    destruct (target me) as [t|]; [|exact Hfind].
    destruct (is_target_available me t).
    + apply Hkeep. destruct (path me); steady.
    + eapply steady_bind; [eauto with steady | intros _ _]. exact Hfind.
Qed.

Lemma steady_acting_execute_action i :
  steady (acting i) (execute_action i) (fun _ => True).
Proof.
  unfold execute_action.
  eapply steady_bind; [eauto with steady | intros me _].
  destruct (path me) as [|direction path']; [eauto with steady|].
  eapply steady_bind; [eauto with steady | intros _ _].
  eapply steady_bind; [eauto with steady | intros success _].
  eapply (steady_bind _ (fun _ => True));
    [destruct success; simpl; [by apply steady_ret | eauto with steady] | intros _ _].
  eapply steady_bind; [eauto with steady | intros me' _].
  destruct (path me'), (target me') as [t|]; try (by apply steady_ret).
  case_bool_decide; [|by apply steady_ret].
  destruct (state me').
  - eauto with steady.
  - eapply steady_bind; [eauto with steady | intros success' _].
    eapply steady_bind; [eauto with steady | intros _ _].
    eapply steady_bind; [eauto with steady | intros _ _].
    eapply steady_bind; [eauto with steady | intros known_box _].
    destruct known_box; steady.
  - eapply steady_bind; [eauto with steady | intros success' _].
    eapply steady_bind; [eauto with steady | intros _ _].
    eapply (steady_bind _ (fun _ => True));
      [destruct success'; eauto with steady | intros _ _].
    eauto with steady.
Qed.

Lemma steady_acting_agent_turn i tape :
  (3 ≤ length tape)%nat →
  steady (acting i) (agent_turn i tape)
    (fun tape' => (length tape ≤ length tape' + 3)%nat).
Proof.
  intros Hlen. unfold agent_turn.
  eapply steady_bind; [by apply steady_acting_decide_action | intros tape' Htape'].
  eapply steady_bind; [apply steady_acting_execute_action | intros _ _].
  by apply steady_ret.
Qed.

(** * What any returning turn keeps *)

Lemma preserves_of_steady {A} (J : Warehouse → Prop) (m : M A) (Φ : A → Prop) :
  steady J m Φ → preserves (keeps J) m.
Proof.
  intros Hm w r w' H Hw. destruct (Hm w Hw) as (a & w'' & H' & HJ & _).
  rewrite H in H'. by injection H' as _ <-.
Qed.

Lemma keeps_acting_move i direction : preserves (keeps (acting i)) (move i direction).
Proof. eapply preserves_of_steady, steady_acting_move. Qed.
Lemma keeps_acting_pick_up_box i x y : preserves (keeps (acting i)) (pick_up_box i x y).
Proof. eapply preserves_of_steady, steady_acting_pick_up_box. Qed.
Lemma keeps_acting_drop_box i : preserves (keeps (acting i)) (drop_box i).
Proof. eapply preserves_of_steady, steady_acting_drop_box. Qed.
#[global] Hint Resolve keeps_acting_move keeps_acting_pick_up_box keeps_acting_drop_box : pres.

#[global] Hint Extern 6 (preserves (keeps (acting _)) _) =>
  (eapply preserves_weaken; [exact (same_store_acting _) | solve [eauto with pres]]) : pres.

Lemma keeps_acting_decide_action i tape :
  preserves (keeps (acting i)) (decide_action i tape).
Proof. unfold decide_action. pres. Qed.

Lemma keeps_acting_execute_action i : preserves (keeps (acting i)) (execute_action i).
Proof. unfold execute_action. pres. Qed.

Lemma keeps_acting_agent_turn i tape : preserves (keeps (acting i)) (agent_turn i tape).
Proof.
  unfold agent_turn. pres; [apply keeps_acting_decide_action | apply keeps_acting_execute_action].
Qed.

(** A turn that returns was the turn of an agent. *)
Lemma agent_turn_slot i tape w r : agent_turn i tape w = Some r → slot i w.
Proof.
  unfold agent_turn, decide_action, process_messages. intros H.
  apply bind_Some in H as (? & ? & H & _). apply bind_Some in H as (? & ? & H & _).
  apply bind_Some in H as (? & ? & H & _).
  apply self_Some in H as (a & Ha & _). by eapply lookup_lt_Some.
Qed.

Lemma agent_turn_world i tape w tape' w' :
  agent_turn i tape w = Some (tape', w') → world_ok w → world_ok w'.
Proof.
  intros H Hw. eapply (keeps_acting_agent_turn i tape w tape' w' H).
  split; [done | by eapply agent_turn_slot].
Qed.

(** * The constructor sets the books up *)

Lemma norm_index_nonneg_inv {A} (l : list A) i n :
  Py.norm_index l i = Some n → 0 ≤ i → i < Z.of_nat (length l).
Proof. unfold Py.norm_index. repeat case_bool_decide; intros [=]; lia. Qed.

Lemma index_Some_norm {A} (l : list A) i a :
  Py.index l i = Some a → ∃ n, Py.norm_index l i = Some n ∧ l !! n = Some a.
Proof. unfold Py.index. destruct (Py.norm_index l i); [eauto | done]. Qed.

(** An assignment with indices that are not negative hits a cell inside
    the bounds. *)
Lemma grid_assign_Some_valid x y v w r :
  grid_wf w → grid_assign x y v w = Some r → 0 ≤ x → 0 ≤ y →
  is_valid_position w x y = true.
Proof.
  intros [Hlen Hrows] H Hx Hy. unfold grid_assign in H.
  destruct (Py.index (grid w) x) as [row|] eqn:Hrow; [|done].
  apply index_Some_norm in Hrow as (n & Hn & Hrow).
  destruct (Py.assign row y v) as [row'|] eqn:Hrow'; [|done].
  apply assign_Some in Hrow' as (k & Hk & _).
  apply norm_index_nonneg_inv in Hn; [|done]. apply norm_index_nonneg_inv in Hk; [|done].
  eapply Forall_lookup_1 in Hrows; [|exact Hrow]. simpl in Hrows.
  apply valid_bounds. lia.
Qed.

Lemma grid_assign_exact x y v w r w' :
  grid_wf w → is_valid_position w x y = true → grid_assign x y v w = Some (r, w') →
  ∃ g, w' = set_grid w g ∧ grid_wf w' ∧
       ∀ x' y', is_valid_position w x' y' = true →
                grid_at w' x' y'
                = if decide ((x', y') = (x, y)) then Some v else grid_at w x' y'.
Proof.
  intros Hwf Hv H. destruct (grid_assign_valid w x y v Hwf Hv) as (g & Hrun & Hwf' & Hg).
  rewrite H in Hrun. injection Hrun as _ ->. eauto.
Qed.

Lemma bare_new wd ht nb na : bare (new_warehouse wd ht nb na).
Proof.
  intros x y cell Hv Hc. left.
  rewrite (grid_at_lookup _ x y (grid_wf_new wd ht nb na) Hv) in Hc. simpl in Hc.
  destruct (replicate (Z.to_nat wd) (replicate (Z.to_nat ht) 0) !! Z.to_nat x) as [row|] eqn:Hrow;
    [|done].
  apply lookup_replicate in Hrow as [-> _]. simpl in Hc.
  by apply lookup_replicate in Hc as [-> _].
Qed.

Lemma bare_wall x y w r w' :
  grid_assign x y 1 w = Some (r, w') → grid_wf w → 0 ≤ x → 0 ≤ y →
  on_perimeter w x y → bare w →
  is_valid_position w x y = true ∧ (∃ g, w' = set_grid w g) ∧ grid_wf w' ∧ bare w'.
Proof.
  intros H Hwf Hx Hy Hper Hbare.
  pose proof (grid_assign_Some_valid x y 1 w _ Hwf H Hx Hy) as Hv.
  destruct (grid_assign_exact x y 1 w r w' Hwf Hv H) as (g & -> & Hwf' & Hg).
  split_and!; [done | by eexists | done |].
  intros x' y' cell Hv' Hc. change (is_valid_position w x' y' = true) in Hv'.
  rewrite (Hg x' y' Hv') in Hc.
  destruct (decide ((x', y') = (x, y))) as [[= -> ->]|Hne].
  - injection Hc as <-. right. by split.
  - exact (Hbare x' y' cell Hv' Hc).
Qed.

Lemma wall_loop_bare (l : list Z) (c1 c2 : Z → Z * Z) w r w' :
  for_each l (fun v => grid_assign (c1 v).1 (c1 v).2 1 ;; grid_assign (c2 v).1 (c2 v).2 1) w
    = Some (r, w') →
  grid_wf w → bare w →
  (∀ v, v ∈ l → 0 ≤ (c1 v).1 ∧ 0 ≤ (c1 v).2 ∧ on_perimeter w (c1 v).1 (c1 v).2 ∧
                (is_valid_position w (c1 v).1 (c1 v).2 = true →
                 0 ≤ (c2 v).1 ∧ 0 ≤ (c2 v).2 ∧ on_perimeter w (c2 v).1 (c2 v).2)) →
  (∃ g, w' = set_grid w g) ∧ grid_wf w' ∧ bare w'.
Proof.
  revert w. induction l as [|v l IH]; intros w H Hwf Hbare Hc; simpl in H.
  - run_inv H. split_and!; [by exists (grid w); destruct w | done | done].
  - run_inv H.
    destruct (Hc v) as (H1x & H1y & H1p & H2); [left|].
    apply bare_wall in Hrun0 as (Hv1 & [g1 ->] & Hwf1 & Hbare1); try done.
    destruct (H2 Hv1) as (H2x & H2y & H2p).
    apply bare_wall in Hrun as (_ & [g2 ->] & Hwf2 & Hbare2); try done.
    apply IH in H as ([g3 ->] & Hwf3 & Hbare3); try done.
    + split_and!; [by eexists | done | done].
    + intros v' Hv'. apply (Hc v'). by right.
Qed.

Lemma walls_bare w0 r1 w1 r2 w2 :
  for_each (Py.range 0 (width w0)) (fun x =>
    grid_assign x 0 1 ;; grid_assign x (height w0 - 1) 1) w0 = Some (r1, w1) →
  for_each (Py.range 0 (height w0)) (fun y =>
    grid_assign 0 y 1 ;; grid_assign (width w0 - 1) y 1) w1 = Some (r2, w2) →
  grid_wf w0 → bare w0 → bare w2.
Proof.
  intros H1 H2 Hwf Hbare.
  apply (wall_loop_bare _ (fun x => (x, 0)) (fun x => (x, height w0 - 1))) in H1
    as ([g1 ->] & Hwf1 & Hbare1); [|done|done|].
  - apply (wall_loop_bare _ (fun y => (0, y)) (fun y => (width w0 - 1, y))) in H2
      as ([g2 ->] & Hwf2 & Hbare2); [done|done|done|].
    intros y Hy%elem_of_range. simpl. unfold on_perimeter. simpl.
    split_and!; [lia | lia | by left |].
    intros [? ?]%valid_bounds. simpl in *. split_and!; [lia | lia | right; by left].
  - intros x Hx%elem_of_range. simpl. unfold on_perimeter.
    split_and!; [lia | lia | right; right; by left |].
    intros [? ?]%valid_bounds. split_and!; [lia | lia | by repeat right].
Qed.

(** ** From the new books to the ledger *)

Lemma omap_all_None {A B} (f : A → option B) (l : list A) :
  Forall (fun a => f a = None) l → omap f l = [].
Proof. induction 1 as [|a l Ha _ IH]; [done|]. cbn [omap list_omap]. by rewrite Ha. Qed.

Lemma nursery_single w b p k :
  nursery w → stacked_at w b p k →
  k = 0%nat ∧ box_locations w !! p = Some [b] ∧
  ∃ box, boxes w !! b = Some box ∧ (bx_x box, bx_y box) = p ∧
         box = mkBox b (bx_x box) (bx_y box) false 1.
Proof.
  intros (_ & _ & Hrec & Hloc) (l & Hl & Hk).
  destruct (Hloc p l Hl) as (b0 & box & -> & Hbox & Hpos).
  destruct k; simpl in Hk; [|done]. injection Hk as ->.
  split_and!; [done | done |]. exists box. split_and!; [done | done |].
  by destruct (Hrec b box Hbox).
Qed.

Lemma nursery_ledger w : nursery w → ledger_ok w.
Proof.
  intros Hn. pose proof Hn as (Hproc & Hag & Hrec & Hloc).
  assert (Hnone : ∀ b a, ¬ carried_by w b a).
  { intros b a [Ha Hc]. eapply Forall_forall in Hag; [|exact Ha].
    destruct Hag as (_ & Hnone & _). congruence. }
  split.
  - eapply Forall_impl; [exact Hag|]. intros a (-> & -> & _). split; [done | by intros [? ?]].
  - intros k box Hbox. destruct (Hrec k box Hbox) as [-> _]. done.
  - intros b p k q j Hp Hq.
    destruct (nursery_single w b p k Hn Hp) as (-> & _ & box & Hbox & <- & _).
    destruct (nursery_single w b q j Hn Hq) as (-> & _ & box' & Hbox' & <- & _).
    split; [congruence | done].
  - rewrite omap_all_None; [constructor|].
    eapply Forall_impl; [exact Hag|]. by intros a (_ & ? & _).
  - intros b p k a _ Hc. by eapply Hnone.
  - intros b. split.
    + intros [box Hbox]. left. destruct (Hrec b box Hbox) as [_ Hl].
      exists (bx_x box, bx_y box), 0%nat. by exists [b].
    + intros [(p & k & Hs)|(a & Hc)]; [|by destruct (Hnone b a)].
      destruct (nursery_single w b p k Hn Hs) as (_ & _ & box & Hbox & _). by eexists.
  - intros b p k Hs.
    destruct (nursery_single w b p k Hn Hs) as (-> & _ & box & Hbox & Hpos & Heq).
    exists box. split_and!; [done | done | by rewrite Heq |].
    rewrite Heq, Hproc. simpl. split; [done | by intros ?%elem_of_empty].
  - intros b a Hc. by destruct (Hnone b a).
  - eapply Forall_impl; [exact Hag|]. by intros a (_ & _ & ?).
Qed.

(** ** Placing the boxes and the agents *)

Lemma bare_layout w :
  bare w → box_locations w = ∅ → layout_ok w.
Proof.
  intros Hbare Hl. split.
  - intros x y cell Hv Hc. destruct (Hbare x y cell Hv Hc) as [->|[-> Hp]].
    + left. by rewrite Hl, lookup_empty.
    + right. left. by rewrite Hl, lookup_empty.
  - intros p l. by rewrite Hl, lookup_empty.
Qed.

Lemma place_initial_box_books attempts box_id tape w tape' w' :
  place_initial_box attempts box_id tape w = Some (tape', w') →
  boxes w !! box_id = None → grid_wf w → agents w = [] → layout_ok w → nursery w →
  grid_wf w' ∧ layout_ok w' ∧ nursery w'.
Proof.
  revert tape w. induction attempts as [|n IH];
    intros tape w H Hfresh Hwf Hnobody Hlo Hn; simpl in H.
  - by run_inv H.
  - destruct tape as [|r1 [|r2 tape0]]; [by run_inv H | by run_inv H |].
    run_inv H. destruct (v1 =? 0) eqn:Hcell; [|by eapply IH].
    apply Z.eqb_eq in Hcell as ->. run_inv H.
    rename v into x, v0 into y.
    apply randint_range in Hv, Hv0.
    pose proof (interior_valid w x y Hv Hv0) as Hvalid.
    destruct (lo_cells _ Hlo x y 0 Hvalid Hv1) as [[_ Hnone]|[[? _]|[[? _]|(a & Ha & Hc & _)]]];
      try done; [|rewrite Hnobody in Ha; by apply elem_of_nil in Ha].
    set (w1 := set_boxes w _) in Hrun.
    destruct (grid_assign_exact x y 2 w1 r w0 Hwf Hvalid Hrun) as (g & -> & Hwf1 & Hg).
    pose proof Hn as (Hproc & Hag & Hrec & Hloc).
    split_and!; [exact Hwf1 | |].
    + split.
      * intros x' y' cell Hv' Hc'.
        change (is_valid_position w x' y' = true) in Hv'.
        change (grid_at (set_grid w1 g) x' y' = Some cell) in Hc'.
        rewrite (Hg x' y' Hv') in Hc'. simpl.
        destruct (decide ((x', y') = (x, y))) as [[= -> ->]|Hne].
        -- injection Hc' as <-. right. right. left. split; [done|].
           simpl. rewrite lookup_insert_eq. by eexists.
        -- destruct (lo_cells _ Hlo x' y' cell Hv' Hc')
             as [[-> Hn0]|[(-> & Hp & Hn1)|[[-> Hs]|(a & Ha & Hca & Hpos)]]].
           ++ left. split; [done|]. simpl. by rewrite lookup_insert_ne.
           ++ right. left. split_and!; [done | done |]. simpl. by rewrite lookup_insert_ne.
           ++ right. right. left. split; [done|]. simpl. by rewrite lookup_insert_ne.
           ++ right. right. right. by exists a.
      * intros p l Hl. simpl in Hl. apply lookup_insert_Some in Hl as [[<- <-]|[_ Hl]].
        -- by split.
        -- exact (lo_stacks _ Hlo p l Hl).
    + split_and!; simpl.
      * done.
      * done.
      * intros b box Hbox. apply lookup_insert_Some in Hbox as [[<- <-]|[Hne Hbox]].
        -- split; [done|]. simpl. by rewrite lookup_insert_eq.
        -- destruct (Hrec b box Hbox) as [Heq Hl]. split; [done|].
           rewrite lookup_insert_ne; [done|]. intros Hpos. rewrite <- Hpos in Hl. congruence.
      * intros p l Hl. apply lookup_insert_Some in Hl as [[<- <-]|[Hne Hl]].
        -- exists box_id, (mkBox box_id x y false 1). by rewrite lookup_insert_eq.
        -- destruct (Hloc p l Hl) as (b & box & -> & Hbox & Hpos).
           exists b, box. split_and!; [done | | done].
           rewrite lookup_insert_ne; [done|]. intros <-. congruence.
Qed.

Lemma place_initial_boxes_books ids tape w tape' w' placed :
  for_each_tape ids (place_initial_box 200) tape w = Some (tape', w') →
  NoDup (placed ++ ids) → boxes_phase placed w →
  layout_ok w → nursery w → layout_ok w' ∧ nursery w'.
Proof.
  revert tape w placed. induction ids as [|box_id ids IH];
    intros tape w placed H Hnd Hph Hlo Hn; cbn [for_each_tape] in H.
  - by run_inv H.
  - run_inv H.
    assert (box_id ∉ placed) as Hfresh.
    { apply NoDup_app in Hnd as (_ & Hdisj & _). intros Hin. apply (Hdisj _ Hin). left. }
    assert (boxes w !! box_id = None) as Hnone.
    { destruct (boxes w !! box_id) as [b|] eqn:Hb; [|done].
      destruct Hfresh. apply Hph. by rewrite Hb. }
    pose proof Hph as (Hwf & _ & Hnobody & _).
    destruct (place_initial_box_books _ _ _ _ _ _ Hrun Hnone Hwf Hnobody Hlo Hn)
      as (_ & Hlo1 & Hn1).
    eapply (IH _ _ (placed ++ [box_id])); [exact H | | | done | done].
    + by rewrite <- app_assoc.
    + by eapply place_initial_box_phase.
Qed.

Lemma far_apart_snoc (l : list Agent) a :
  far_apart l →
  existsb (fun '(ax, ay) => Z.abs (ag_x a - ax) + Z.abs (ag_y a - ay) <? 3) (position <$> l)
    = false →
  far_apart (l ++ [a]).
Proof.
  intros Hfar Hclose i j a1 a2 Hi Hj Hij.
  assert (∀ k c, l !! k = Some c → 3 ≤ manhattan (position a) (position c)) as Hnew.
  { intros k c Hk. destruct (decide (3 ≤ manhattan (position a) (position c))) as [|Hlt];
      [done|]. exfalso.
    assert (existsb (fun '(ax, ay) => Z.abs (ag_x a - ax) + Z.abs (ag_y a - ay) <? 3)
                    (position <$> l) = true) as Htrue; [|congruence].
    apply existsb_exists. exists (position c). split.
    - apply list_elem_of_In, list_elem_of_fmap. exists c. split; [done|].
      apply list_elem_of_lookup. eauto.
    - unfold position, manhattan in *. simpl in *. apply Z.ltb_lt. lia. }
  apply lookup_app_Some in Hi as [Hi|[Hil Hi]]; apply lookup_app_Some in Hj as [Hj|[Hjl Hj]].
  - by eapply Hfar.
  - apply list_lookup_singleton_Some in Hj as [_ <-].
    specialize (Hnew i a1 Hi). unfold manhattan in *. lia.
  - apply list_lookup_singleton_Some in Hi as [_ <-]. by eapply Hnew.
  - apply list_lookup_singleton_Some in Hi as [Hi _].
    apply list_lookup_singleton_Some in Hj as [Hj _]. lia.
Qed.

Lemma place_initial_agent_books attempts agent_id positions tape w res w' :
  place_initial_agent attempts agent_id positions tape w = Some (res, w') →
  grid_wf w → layout_ok w → nursery w →
  positions = position <$> agents w → far_apart (agents w) →
  layout_ok w' ∧ nursery w' ∧ res.1 = position <$> agents w' ∧ far_apart (agents w').
Proof.
  revert tape w. induction attempts as [|n IH];
    intros tape w H Hwf Hlo Hn Hpos Hfar; simpl in H.
  - by run_inv H.
  - destruct tape as [|r1 [|r2 tape0]]; [by run_inv H | by run_inv H |].
    run_inv H. rename v into x, v0 into y.
    match type of H with (if ?c then _ else _) _ = _ => destruct c eqn:Hcond end;
      [|by eapply IH].
    apply andb_true_iff in Hcond as [Hcell Hclose]. apply Z.eqb_eq in Hcell as ->.
    apply negb_true_iff in Hclose. run_inv H.
    apply randint_range in Hv, Hv0.
    pose proof (interior_valid w x y Hv Hv0) as Hvalid.
    set (w1 := set_agents w _) in Hrun.
    destruct (grid_assign_exact x y (3 + agent_id) w1 r w0 Hwf Hvalid Hrun) as (g & -> & Hwf1 & Hg).
    pose proof Hn as (Hproc & Hag & Hrec & Hloc).
    assert (layout_ok (set_grid w1 g)) as Hlo1.
    { split.
      - intros x' y' cell Hv' Hc'.
        change (is_valid_position w x' y' = true) in Hv'. rewrite (Hg x' y' Hv') in Hc'.
        destruct (decide ((x', y') = (x, y))) as [[= -> ->]|Hne].
        + injection Hc' as <-. right. right. right. exists (new_agent agent_id x y).
          split; [|done]. simpl. apply elem_of_app. right. left.
        + destruct (lo_cells _ Hlo x' y' cell Hv' Hc')
             as [[-> Hn0]|[(-> & Hp & Hn1)|[[-> Hs]|(a & Ha & Hca & Hpos')]]].
          * by left.
          * right. by left.
          * right. right. by left.
          * right. right. right. exists a. split; [|done]. simpl. apply elem_of_app. by left.
      - intros p l Hl. exact (lo_stacks _ Hlo p l Hl). }
    assert ((position <$> agents w) ++ [(x, y)] = position <$> agents (set_grid w1 g) ∧
            far_apart (agents (set_grid w1 g))) as [Hres Hfar1].
    { simpl. rewrite fmap_app. split; [done|]. by apply far_apart_snoc. }
    assert (∀ d, (∀ a, is_Some (agent_deliveries w !! ag_id a) → is_Some (d !! ag_id a)) →
                 is_Some (d !! agent_id) →
                 nursery (set_agent_deliveries (set_grid w1 g) d)) as Hnur.
    { intros d Hd Hnew. split_and!; simpl; [done | | done | done].
      apply Forall_app. split.
      - eapply Forall_impl; [exact Hag|]. intros a (? & ? & ?). split_and!; auto.
      - constructor; [|constructor]. simpl. by split_and!. }
    destruct (agent_deliveries (set_grid w1 g) !! agent_id) as [n0|] eqn:Hd; simpl in Hd.
    + split_and!; try done.
      replace (set_grid w1 g) with (set_agent_deliveries (set_grid w1 g) (agent_deliveries w))
        by by destruct w.
      apply Hnur; [done | by eexists].
    + split_and!; [by destruct Hlo1 | | done | done]. apply Hnur.
      * intros a [n0 Ha]. destruct (decide (agent_id = ag_id a)) as [->|Hne]; [congruence|].
        rewrite lookup_insert_ne by done. by eexists.
      * rewrite lookup_insert_eq. by eexists.
Qed.

Lemma place_initial_agents_books ids positions tape w tape' w' placed :
  place_initial_agents ids positions tape w = Some (tape', w') →
  NoDup (placed ++ ids) → Forall (fun agent_id => 0 ≤ agent_id) ids →
  agents_phase placed w → layout_ok w → nursery w →
  positions = position <$> agents w → far_apart (agents w) →
  layout_ok w' ∧ nursery w' ∧ far_apart (agents w').
Proof.
  revert positions tape w placed.
  induction ids as [|agent_id ids IH];
    intros positions tape w placed H Hnd Hids Hph Hlo Hn Hpos Hfar;
    cbn [place_initial_agents] in H.
  - by run_inv H.
  - run_inv H. apply Forall_cons in Hids as [Hid Hids].
    pose proof Hph as ((Hwf & _) & _).
    destruct (place_initial_agent_books _ _ _ _ _ _ _ Hrun Hwf Hlo Hn Hpos Hfar)
      as (Hlo1 & Hn1 & Hpos1 & Hfar1).
    eapply (IH _ _ _ (placed ++ [agent_id])); [exact H | | done | | done | done | done | done].
    + by rewrite <- app_assoc.
    + eapply place_initial_agent_phase; [exact Hrun | | done | done].
      apply NoDup_app in Hnd as (_ & Hdisj & _). intros Hin. apply (Hdisj _ Hin). left.
Qed.

(** The warehouse the constructor returns satisfies the whole invariant,
    nothing has been picked up, and the agents stand three steps apart. *)
Lemma Warehouse_init_books wd ht nb na tape tape' w0 :
  Warehouse_init wd ht nb na tape = Some (tape', w0) →
  layout_ok w0 ∧ nursery w0 ∧ far_apart (agents w0).
Proof.
  unfold Warehouse_init, initialize_warehouse. intros H.
  set (w := new_warehouse wd ht nb na) in *.
  run_inv H.
  pose proof (walls_bare _ _ _ _ _ Hrun Hrun0 (grid_wf_new wd ht nb na) (bare_new wd ht nb na))
    as Hbare.
  eapply walls_after_loops in Hrun0 as ([g Hg] & Hwf & Hwalls); [|exact Hrun|apply grid_wf_new].
  assert (boxes_phase [] w2) as Hb.
  { split_and!; try done; rewrite Hg; simpl; try done.
    intros b [? Hb]. by rewrite lookup_empty in Hb. }
  assert (layout_ok w2 ∧ nursery w2) as [Hlo2 Hn2].
  { split.
    - apply bare_layout; [done|]. by rewrite Hg.
    - rewrite Hg. split_and!; simpl; [done | constructor | |].
      + intros b box. by rewrite lookup_empty.
      + intros p l. by rewrite lookup_empty. }
  destruct (place_initial_boxes_books _ _ _ _ _ [] Hrun1 (NoDup_range _ _) Hb Hlo2 Hn2)
    as [Hlo3 Hn3].
  eapply (place_initial_boxes_phase _ _ _ _ _ []) in Hrun1; [|apply NoDup_range|exact Hb].
  pose proof Hrun1 as (_ & _ & Hag3 & _).
  apply boxes_phase_agents_phase in Hrun1.
  eapply (place_initial_agents_books _ _ _ _ _ _ []); [exact H | | | exact Hrun1 | done | done | |].
  - apply NoDup_range.
  - apply Forall_forall. intros v Hv%elem_of_range. lia.
  - by rewrite Hag3.
  - rewrite Hag3. intros i j a b Hi. done.
Qed.

Lemma world_ok_constructed w0 : constructed w0 → world_ok w0.
Proof.
  intros Hc. pose proof (sim_inv_constructed _ Hc) as [Hgeo Hst _ _].
  destruct Hc as (wd & ht & nb & na & tape & tape' & H).
  apply Warehouse_init_books in H as (Hlo & Hn & _).
  split_and!; [done | done | done | by apply nursery_ledger].
Qed.

(** * The invariant in every reachable state *)

Lemma layout_ok_permute w l : l ≡ₚ agents w → layout_ok w → layout_ok (set_agents w l).
Proof.
  intros Hp [Hc Hs]. split; [|exact Hs].
  intros x y cell Hv Hcell. destruct (Hc x y cell Hv Hcell) as [?|[?|[?|(a & Ha & ?)]]].
  - by left.
  - right. by left.
  - right. right. by left.
  - right. right. right. exists a. split; [|done]. simpl. by rewrite Hp.
Qed.

Lemma ledger_ok_permute w l : l ≡ₚ agents w → ledger_ok w → ledger_ok (set_agents w l).
Proof.
  intros Hp [Hflag Hkeys Honce Hcn Hapart Hboxes Hrec Hcrec Hdel].
  assert (Hc : ∀ b a, carried_by (set_agents w l) b a ↔ carried_by w b a).
  { intros b a. unfold carried_by. simpl. by rewrite Hp. }
  split; simpl.
  - by rewrite Hp.
  - exact Hkeys.
  - exact Honce.
  - by rewrite Hp.
  - intros b p k a Hs Hca%Hc. by eapply Hapart.
  - intros b. rewrite Hboxes. by setoid_rewrite Hc.
  - exact Hrec.
  - intros b a Hca%Hc. by eapply Hcrec.
  - by rewrite Hp.
Qed.

Lemma world_ok_permute w l : l ≡ₚ agents w → world_ok w → world_ok (set_agents w l).
Proof.
  intros Hp (Hgeo & Hst & Hlo & Hlg). split_and!.
  - by apply geometry_ok_permute.
  - exact Hst.
  - by apply layout_ok_permute.
  - by apply ledger_ok_permute.
Qed.

Lemma world_ok_counters w tm st : world_ok w → world_ok (set_counters w tm st).
Proof.
  intros (Hgeo & Hst & [Hc Hs] & Hlg). split_and!; [done | done | by split |].
  destruct Hlg. by split.
Qed.

Lemma world_ok_reachable w0 w : constructed w0 → reachable w0 w → world_ok w.
Proof.
  intros Hc Hr. induction Hr as [|w tape l tape' _ IH Hsh|w i tape tape' w' _ IH Hturn|w tm st _ IH].
  - by apply world_ok_constructed.
  - apply world_ok_permute; [|done]. by eapply shuffle_Permutation.
  - by eapply agent_turn_world.
  - by apply world_ok_counters.
Qed.

(** * Further properties of the reachable states *)

Lemma reachable_acting w0 w i :
  constructed w0 → reachable w0 w → (i < length (agents w))%nat → acting i w.
Proof. intros Hc Hr Hi. split; [by eapply world_ok_reachable | exact Hi]. Qed.

(** X1 (a turn never raises): in every reachable state the turn of every
    agent, [decide_action] followed by [execute_action], runs to its end
    without an [IndexError] or [KeyError], whatever the random draws are; it
    uses at most three of them. *)
Theorem turn_never_raises (w0 w : Warehouse) (i : nat) (tape : list Z) :
  constructed w0 → reachable w0 w →
  (i < length (agents w))%nat → (3 ≤ length tape)%nat →
  ∃ tape' w', agent_turn i tape w = Some (tape', w') ∧
              (length tape ≤ length tape' + 3)%nat.
Proof.
  intros Hc Hr Hi Htape.
  destruct (steady_acting_agent_turn i tape Htape w (reachable_acting _ _ _ Hc Hr Hi))
    as (tape' & w' & Hrun & _ & Hlen).
  eauto.
Qed.

Lemma turn_never_raises_witness :
  constructed example_w0 ∧ reachable example_w0 example_w1 ∧
  (0 < length (agents example_w1))%nat ∧ (3 ≤ length [7; 7; 7])%nat ∧
  ∃ tape' w', agent_turn 0 [7; 7; 7] example_w1 = Some (tape', w') ∧
              (length [7; 7; 7] ≤ length tape' + 3)%nat.
Proof.
  assert (0 < length (agents example_w1))%nat as Hslot by (vm_compute; lia).
  assert (3 ≤ length [7; 7; 7])%nat as Htape by (simpl; lia).
  split; [exact example_constructed|]. split; [exact example_reachable|].
  split; [exact Hslot|]. split; [exact Htape|].
  exact (turn_never_raises example_w0 example_w1 0 [7; 7; 7]
           example_constructed example_reachable Hslot Htape).
Defined.

(** ** The whole simulation returns *)

Lemma shuffle_slots_total {A} (slots : list nat) (l : list A) (tape : list Z) :
  Forall (fun i => (i < length l)%nat) slots → (length slots ≤ length tape)%nat →
  ∃ l' tape', shuffle_slots slots l tape = Some (l', tape') ∧
              length l' = length l ∧ length tape = (length tape' + length slots)%nat.
Proof.
  revert l tape. induction slots as [|i slots IH]; intros l tape Hall Hlen.
  - exists l, tape. simpl. split_and!; [done | done | lia].
  - apply Forall_cons in Hall as [Hi Hall]. destruct tape as [|r tape]; simpl in Hlen; [lia|].
    cbn [shuffle_slots].
    destruct (lookup_lt_is_Some_2 l i Hi) as [a Ha]. rewrite Ha.
    assert (Z.to_nat (r `mod` Z.of_nat (S i)) < length l)%nat as Hj.
    { pose proof (Z.mod_pos_bound r (Z.of_nat (S i))). lia. }
    destruct (lookup_lt_is_Some_2 l _ Hj) as [b Hb]. rewrite Hb.
    destruct (IH (<[i := b]> (<[Z.to_nat (r `mod` Z.of_nat (S i)) := a]> l)) tape)
      as (l' & tape' & Hrun & Hl' & Htape).
    + rewrite !length_insert. exact Hall.
    + lia.
    + exists l', tape'. rewrite !length_insert in Hl'. split_and!; [done | done |]. simpl. lia.
Qed.

Lemma shuffle_total {A} (l : list A) (tape : list Z) :
  (length l ≤ length tape)%nat →
  ∃ l' tape', shuffle l tape = Some (l', tape') ∧ length l' = length l ∧
              (length tape ≤ length tape' + length l)%nat.
Proof.
  intros Hlen. unfold shuffle.
  destruct (shuffle_slots_total (reverse (seq 1 (length l - 1))) l tape)
    as (l' & tape' & Hrun & Hl' & Htape).
  - apply Forall_forall. intros i Hi%elem_of_reverse%elem_of_seq. lia.
  - rewrite length_reverse, length_seq. lia.
  - rewrite length_reverse, length_seq in Htape. exists l', tape'. split_and!; [done|done|lia].
Qed.

Lemma agent_turns_total (slots : list nat) (tape : list Z) (w : Warehouse) :
  world_ok w → Forall (fun i => (i < length (agents w))%nat) slots →
  (3 * length slots ≤ length tape)%nat →
  ∃ tape' w', for_each_tape slots agent_turn tape w = Some (tape', w') ∧
              world_ok w' ∧ length (agents w') = length (agents w) ∧
              (length tape ≤ length tape' + 3 * length slots)%nat.
Proof.
  revert tape w. induction slots as [|i slots IH]; intros tape w Hw Hall Hlen.
  - exists tape, w. simpl. split_and!; [done | done | done | lia].
  - apply Forall_cons in Hall as [Hi Hall]. simpl in Hlen. cbn [for_each_tape].
    destruct (steady_acting_agent_turn i tape ltac:(lia) w (conj Hw Hi))
      as (tape1 & w1 & Hrun & [Hw1 _] & Htape1).
    pose proof (frame_agent_turn _ _ _ _ _ Hrun) as (_ & Hlen1 & _).
    destruct (IH tape1 w1 Hw1) as (tape' & w' & Hrun' & Hw' & Hlen' & Htape').
    + by rewrite Hlen1.
    + lia.
    + exists tape', w'. rewrite (bind_run _ _ _ _ _ Hrun).
      split_and!; [done | done | lia | simpl; lia].
Qed.

Lemma simulation_step_total (step : Z) (tape : list Z) (w : Warehouse) :
  world_ok w → (4 * length (agents w) ≤ length tape)%nat →
  ∃ tape' w', simulation_step step tape w = Some (tape', w') ∧
              world_ok w' ∧ length (agents w') = length (agents w) ∧
              (length tape ≤ length tape' + 4 * length (agents w))%nat.
Proof.
  intros Hw Hlen. unfold simulation_step.
  rewrite (bind_run (modify _) _ _ tt _ eq_refl).
  rewrite (bind_run get _ _ _ _ eq_refl).
  set (w1 := set_counters w (total_movements w) (step + 1)).
  destruct (shuffle_total (agents w1) tape ltac:(simpl; lia)) as (l & tape1 & Hsh & Hl & Htape1).
  rewrite (bind_run (lift _) _ w1 (l, tape1) w1) by (unfold lift; by rewrite Hsh).
  rewrite (bind_run (modify _) _ _ tt _ eq_refl).
  cbn [fst snd].
  assert (world_ok (set_agents w1 l)) as Hw2.
  { apply world_ok_permute; [by eapply shuffle_Permutation | by apply world_ok_counters]. }
  destruct (agent_turns_total (seq 0 (length (agents w1))) tape1 (set_agents w1 l) Hw2)
    as (tape' & w' & Hrun & Hw' & Hlen' & Htape').
  - apply Forall_forall. intros i Hi%elem_of_seq. simpl in *. lia.
  - rewrite length_seq. simpl in *. lia.
  - rewrite (bind_run _ _ _ _ _ Hrun).
    rewrite (bind_run (modify _) _ _ tt _ eq_refl).
    eexists tape', _. split; [reflexivity|]. rewrite length_seq in Htape'. simpl in *.
    split_and!; [by apply world_ok_counters | lia | lia].
Qed.

Lemma run_steps_total (remaining : nat) (step : Z) (tape : list Z) (w : Warehouse) :
  world_ok w → (remaining * (4 * length (agents w)) ≤ length tape)%nat →
  ∃ tape' w', run_steps remaining step tape w = Some (tape', w').
Proof.
  revert step tape w. induction remaining as [|n IH]; intros step tape w Hw Hlen.
  - by exists tape, w.
  - cbn [run_steps].
    destruct (simulation_step_total step tape w Hw ltac:(lia))
      as (tape1 & w1 & Hrun & Hw1 & Hlen1 & Htape1).
    rewrite (bind_run _ _ _ _ _ Hrun). rewrite (bind_run get _ _ _ _ eq_refl).
    destruct (all_boxes_organized w1); [by eexists _, _|].
    apply IH; [done|]. rewrite Hlen1. lia.
Qed.

(** X2 (the simulation never raises): on the warehouse the constructor
    returned, [run_simulation] runs to its end without an exception as long
    as the random generator delivers (four draws per agent and step are
    enough), and what it returns is [all_boxes_organized] of the state it
    stops in. *)
Theorem simulation_never_raises (w0 : Warehouse) (max_steps : nat) (tape : list Z) :
  constructed w0 →
  (max_steps * (4 * length (agents w0)) ≤ length tape)%nat →
  ∃ w', run_simulation max_steps tape w0 = Some (all_boxes_organized w', w') ∧
        reachable w0 w'.
Proof.
  intros Hc Hlen.
  destruct (run_steps_total max_steps 0 tape w0 (world_ok_constructed _ Hc) Hlen)
    as (tape' & w' & Hrun).
  exists w'. split.
  - unfold run_simulation. rewrite (bind_run _ _ _ _ _ Hrun). reflexivity.
  - eapply reachable_run_steps; [exact Hrun | constructor].
Qed.

Lemma simulation_never_raises_witness :
  constructed example_w0 ∧
  (3 * (4 * length (agents example_w0)) ≤ length (replicate 24 5))%nat ∧
  ∃ w', run_simulation 3 (replicate 24 5) example_w0 = Some (all_boxes_organized w', w') ∧
        reachable example_w0 w'.
Proof.
  assert (3 * (4 * length (agents example_w0)) ≤ length (replicate 24 5))%nat as Hlen
    by (vm_compute; lia).
  split; [exact example_constructed|]. split; [exact Hlen|].
  exact (simulation_never_raises example_w0 3 (replicate 24 5) example_constructed Hlen).
Defined.

(** ** The box table keeps its keys *)

Lemma same_core_table_ids w w' : same_core w w' → fixes box_table_ids w w'.
Proof. intros (_ & _ & _ & _ & _ & Hb & _). unfold fixes, box_table_ids. by rewrite Hb. Qed.

Lemma preserves_table_ids_update_box box_id f :
  preserves (fixes box_table_ids) (update_box box_id f).
Proof.
  intros w r w' H. unfold update_box in H.
  destruct (boxes w !! box_id) as [b|] eqn:Hb; [|done]. injection H as _ <-.
  unfold fixes, box_table_ids. simpl. apply dom_insert_lookup_L. by eexists.
Qed.

#[global] Hint Resolve preserves_table_ids_update_box : pres.
#[global] Hint Extern 1 (preserves (fixes box_table_ids) (update_self _ _)) =>
  (apply preserves_update_self; intros; reflexivity) : pres.
#[global] Hint Extern 1 (preserves (fixes box_table_ids) (modify _)) =>
  (apply preserves_modify; intros ?; reflexivity) : pres.
#[global] Hint Extern 1 (preserves (fixes box_table_ids) (grid_assign _ _ _)) =>
  (apply preserves_grid_assign; intros ? ?; reflexivity) : pres.
#[global] Hint Extern 5 (preserves (fixes box_table_ids) _) =>
  (eapply preserves_weaken; [exact same_core_table_ids | solve [eauto with pres]]) : pres.

Lemma table_ids_remove_box_from_grid x y :
  preserves (fixes box_table_ids) (remove_box_from_grid x y).
Proof. unfold remove_box_from_grid. pres. Qed.
#[global] Hint Resolve table_ids_remove_box_from_grid : pres.

Lemma table_ids_place_box x y box_id agent_id :
  preserves (fixes box_table_ids) (place_box x y box_id agent_id).
Proof. unfold place_box. pres. Qed.
#[global] Hint Resolve table_ids_place_box : pres.

Lemma table_ids_pick_up_box i x y : preserves (fixes box_table_ids) (pick_up_box i x y).
Proof. unfold pick_up_box. pres. Qed.
#[global] Hint Resolve table_ids_pick_up_box : pres.

Lemma table_ids_drop_box i : preserves (fixes box_table_ids) (drop_box i).
Proof. unfold drop_box. pres. Qed.
#[global] Hint Resolve table_ids_drop_box : pres.

Lemma table_ids_move i direction : preserves (fixes box_table_ids) (move i direction).
Proof. destruct direction. unfold move. pres. Qed.
#[global] Hint Resolve table_ids_move : pres.

Lemma table_ids_agent_turn i tape : preserves (fixes box_table_ids) (agent_turn i tape).
Proof. unfold agent_turn, decide_action, execute_action. pres. Qed.

Lemma table_ids_reachable w0 w : reachable w0 w → box_table_ids w = box_table_ids w0.
Proof.
  induction 1 as [|w tape l tape' _ IH Hsh|w i tape tape' w' _ IH Hturn|w tm st _ IH];
    [done | done | | done].
  apply table_ids_agent_turn in Hturn. unfold fixes in Hturn. congruence.
Qed.

(** X3 (the grid shows the stacks): in every reachable state a cell that
    the grid shows as empty or as a wall has no stack, walls are on the
    perimeter only, a cell shown as a box holds a stack of one to five boxes,
    a cell shown as a robot is where the agent with that marker stands, and
    no cell is of an unknown type; every stack of the table is non-empty and
    lies on a cell inside the bounds. *)
Theorem grid_shows_stacks (w0 w : Warehouse) :
  constructed w0 → reachable w0 w →
  (∀ x y, is_valid_position w x y = true →
     ∃ cell_type, get_cell_type w x y = Some cell_type ∧
       match cell_type with
       | CEmpty => count_stack_size w x y = 0
       | CWall => on_perimeter w x y ∧ count_stack_size w x y = 0
       | CBox => 1 ≤ count_stack_size w x y ≤ 5
       | CRobot => ∃ a, a ∈ agents w ∧ (ag_x a, ag_y a) = (x, y) ∧
                        grid_at w x y = Some (3 + ag_id a)
       | CUnknown => False
       end) ∧
  (∀ x y l, box_locations w !! (x, y) = Some l →
     l ≠ [] ∧ is_valid_position w x y = true ∧
     (get_cell_type w x y = Some CBox ∨ get_cell_type w x y = Some CRobot)).
Proof.
  intros Hc Hr. destruct (world_ok_reachable _ _ Hc Hr) as (Hgeo & Hst & Hlo & _).
  assert (Hcells : ∀ x y, is_valid_position w x y = true →
            ∃ cell, grid_at w x y = Some cell ∧ cell_ok w x y cell).
  { intros x y Hv. destruct (grid_at_valid w x y (proj1 Hgeo) Hv) as [cell Hcell].
    exists cell. split; [done|]. by apply (lo_cells _ Hlo). }
  assert (Hmarker : ∀ a, a ∈ agents w → 0 ≤ ag_id a).
  { intros a [j Hj]%list_elem_of_lookup. by destruct (geometry_lookup _ _ _ Hgeo Hj). }
  split.
  - intros x y Hv. destruct (Hcells x y Hv) as (cell & Hcell & Hok).
    unfold get_cell_type. rewrite Hv, Hcell. simpl.
    destruct Hok as [[-> Hn]|[(-> & Hp & Hn)|[[-> [l Hl]]|(a & Ha & -> & Hpos)]]].
    + eexists. split; [done|]. unfold count_stack_size. by rewrite Hn.
    + eexists. split; [done|]. split; [done|]. unfold count_stack_size. by rewrite Hn.
    + eexists. split; [done|]. unfold count_stack_size. rewrite Hl.
      destruct (lo_stacks _ Hlo _ _ Hl) as [Hne _]. pose proof (Hst _ _ Hl).
      destruct l; [done | simpl in *; lia].
    + pose proof (Hmarker a Ha).
      destruct (3 + ag_id a =? 0) eqn:H0; [apply Z.eqb_eq in H0; lia|].
      destruct (3 + ag_id a =? 1) eqn:H1; [apply Z.eqb_eq in H1; lia|].
      destruct (3 + ag_id a =? 2) eqn:H2; [apply Z.eqb_eq in H2; lia|].
      rewrite (proj2 (Z.leb_le 3 (3 + ag_id a))) by lia.
      eexists. split; [done|]. exists a. by split_and!.
  - intros x y l Hl. destruct (lo_stacks _ Hlo _ _ Hl) as [Hne Hv]. simpl in Hv.
    split_and!; [done | done |].
    destruct (Hcells x y Hv) as (cell & Hcell & Hok).
    unfold get_cell_type. rewrite Hv, Hcell. simpl.
    destruct Hok as [[_ Hn]|[(_ & _ & Hn)|[[-> _]|(a & Ha & -> & Hpos)]]]; try congruence.
    + by left.
    + right. pose proof (Hmarker a Ha).
      destruct (3 + ag_id a =? 0) eqn:H0; [apply Z.eqb_eq in H0; lia|].
      destruct (3 + ag_id a =? 1) eqn:H1; [apply Z.eqb_eq in H1; lia|].
      destruct (3 + ag_id a =? 2) eqn:H2; [apply Z.eqb_eq in H2; lia|].
      by rewrite (proj2 (Z.leb_le 3 (3 + ag_id a))) by lia.
Qed.

Lemma grid_shows_stacks_witness :
  constructed example_w0 ∧ reachable example_w0 example_w1 ∧
  ∀ x y l, box_locations example_w1 !! (x, y) = Some l →
           l ≠ [] ∧ is_valid_position example_w1 x y = true ∧
           (get_cell_type example_w1 x y = Some CBox ∨
            get_cell_type example_w1 x y = Some CRobot).
Proof.
  split; [exact example_constructed|]. split; [exact example_reachable|].
  exact (proj2 (grid_shows_stacks example_w0 example_w1 example_constructed example_reachable)).
Defined.

(** X4 (every box is in one place): in every reachable state the box table
    has the keys it had at construction, and every box of the table is
    either at exactly one depth of exactly one stack or carried by exactly
    one agent, never both; an agent has [carrying_box] set exactly when it
    holds a box id. *)
Theorem every_box_in_one_place (w0 w : Warehouse) :
  constructed w0 → reachable w0 w →
  dom (boxes w) = dom (boxes w0) ∧
  (∀ b, is_Some (boxes w !! b) ↔
        (∃ p k, stacked_at w b p k) ∨ (∃ a, carried_by w b a)) ∧
  (∀ b p k q j, stacked_at w b p k → stacked_at w b q j → p = q ∧ k = j) ∧
  (∀ b p k a, stacked_at w b p k → carried_by w b a → False) ∧
  (∀ b i j a a', agents w !! i = Some a → agents w !! j = Some a' →
                 carried_box_id a = Some b → carried_box_id a' = Some b → i = j) ∧
  (∀ a, a ∈ agents w → carrying_box a = true ↔ is_Some (carried_box_id a)).
Proof.
  intros Hc Hr. destruct (world_ok_reachable _ _ Hc Hr) as (_ & _ & _ & Hlg).
  split_and!.
  - exact (table_ids_reachable _ _ Hr).
  - exact (lg_boxes _ Hlg).
  - exact (lg_once _ Hlg).
  - exact (lg_apart _ Hlg).
  - intros b i j a a' Hi Hj Ha Ha'.
    exact (NoDup_omap_lookup carried_box_id _ i j a a' b (lg_carried_once _ Hlg) Hi Hj Ha Ha').
  - intros a Ha. pose proof (lg_flag _ Hlg) as Hflag.
    eapply Forall_forall in Hflag; [|exact Ha]. exact Hflag.
Qed.

Lemma every_box_in_one_place_witness :
  constructed example_w0 ∧ reachable example_w0 example_w1 ∧
  dom (boxes example_w1) = dom (boxes example_w0).
Proof.
  split; [exact example_constructed|]. split; [exact example_reachable|].
  exact (proj1 (every_box_in_one_place example_w0 example_w1
                  example_constructed example_reachable)).
Defined.

(** X5 (the box records follow the boxes): in every reachable state the
    record of a box at depth [k] (from 0) of the stack at [p] is stored under
    its own id, gives [p] as its coordinate and [k + 1] as its stack size, and
    has [in_stack] set exactly when the box has been picked up before (it is
    in [processed_boxes]); the record of a carried box has [in_stack] unset
    and stack size 1. *)
Theorem box_records_follow (w0 w : Warehouse) :
  constructed w0 → reachable w0 w →
  (∀ b p k, stacked_at w b p k →
     ∃ box, boxes w !! b = Some box ∧ bx_id box = b ∧ (bx_x box, bx_y box) = p ∧
            stack_size box = Z.of_nat k + 1 ∧
            (in_stack box = true ↔ b ∈ processed_boxes w)) ∧
  (∀ b a, carried_by w b a →
     ∃ box, boxes w !! b = Some box ∧ bx_id box = b ∧ in_stack box = false ∧
            stack_size box = 1 ∧ b ∈ processed_boxes w).
Proof.
  intros Hc Hr. destruct (world_ok_reachable _ _ Hc Hr) as (_ & _ & _ & Hlg).
  split.
  - intros b p k Hs. destruct (lg_records _ Hlg b p k Hs) as (box & Hbox & Hpos & Hsz & Hin).
    exists box. split_and!; [done | by eapply lg_keys | done | lia | done].
  - intros b a Hca. destruct (lg_carried_record _ Hlg b a Hca) as (box & Hbox & Hin & Hsz & Hp).
    exists box. split_and!; [done | by eapply lg_keys | done | done | done].
Qed.

Lemma box_records_follow_witness :
  constructed example_w0 ∧ reachable example_w0 example_w1 ∧
  ∀ b a, carried_by example_w1 b a →
    ∃ box, boxes example_w1 !! b = Some box ∧ bx_id box = b ∧ in_stack box = false ∧
           stack_size box = 1 ∧ b ∈ processed_boxes example_w1.
Proof.
  split; [exact example_constructed|]. split; [exact example_reachable|].
  exact (proj2 (box_records_follow example_w0 example_w1
                  example_constructed example_reachable)).
Defined.

(** ** The counts of the reports and the completion test *)

Lemma organized_insert_fresh (m : gmap (Z * Z) (list Z)) p l :
  m !! p = None →
  map_fold (fun _ box_ids acc =>
              if 2 <=? Z.of_nat (length box_ids)
              then Z.of_nat (length box_ids) + acc else acc) 0 (<[p := l]> m)
  = (if 2 <=? Z.of_nat (length l) then Z.of_nat (length l) else 0)
    + map_fold (fun _ box_ids acc =>
                  if 2 <=? Z.of_nat (length box_ids)
                  then Z.of_nat (length box_ids) + acc else acc) 0 m.
Proof.
  intros H. rewrite map_fold_insert_L; [by destruct (2 <=? _) | | done].
  intros. repeat destruct (2 <=? _); lia.
Qed.

Lemma single_insert_fresh (m : gmap (Z * Z) (list Z)) p l :
  m !! p = None →
  map_fold (fun _ box_ids acc =>
              if Z.of_nat (length box_ids) =? 1 then 1 + acc else acc) 0 (<[p := l]> m)
  = (if Z.of_nat (length l) =? 1 then 1 else 0)
    + map_fold (fun _ box_ids acc =>
                  if Z.of_nat (length box_ids) =? 1 then 1 + acc else acc) 0 m.
Proof.
  intros H. rewrite map_fold_insert_L; [by destruct (_ =? 1) | | done].
  intros. repeat destruct (_ =? 1); lia.
Qed.

(** Stacks of two or more and stacks of one make up all the stacked boxes
    when no stack is empty. *)
Lemma counts_split (m : gmap (Z * Z) (list Z)) :
  (∀ p l, m !! p = Some l → l ≠ []) →
  map_fold (fun _ box_ids acc =>
              if 2 <=? Z.of_nat (length box_ids)
              then Z.of_nat (length box_ids) + acc else acc) 0 m
  + map_fold (fun _ box_ids acc =>
                if Z.of_nat (length box_ids) =? 1 then 1 + acc else acc) 0 m
  = Z.of_nat (stacked m) ∧
  0 ≤ map_fold (fun _ box_ids acc =>
                  if Z.of_nat (length box_ids) =? 1 then 1 + acc else acc) 0 m ∧
  (map_fold (fun _ box_ids acc =>
               if Z.of_nat (length box_ids) =? 1 then 1 + acc else acc) 0 m = 0
   ↔ ∀ p l, m !! p = Some l → length l ≠ 1%nat).
Proof.
  induction m as [|p l m Hp IH] using map_ind; intros Hne.
  - unfold stacked. rewrite !map_fold_empty. split_and!; [done | done |].
    split; [|done]. intros _ p l. by rewrite lookup_empty.
  - rewrite organized_insert_fresh, single_insert_fresh, stacked_insert_fresh by done.
    destruct IH as (IH1 & IH2 & IH3).
    { intros q k Hq. apply (Hne q k). rewrite lookup_insert_ne; [done|]. intros ->. congruence. }
    assert (l ≠ []) as Hl by (apply (Hne p l); by rewrite lookup_insert_eq).
    split_and!.
    + destruct l as [|b [|b' l]]; [done | simpl; lia |].
      rewrite (proj2 (Z.leb_le 2 _)) by (simpl; lia).
      rewrite (proj2 (Z.eqb_neq _ 1)) by (simpl; lia). lia.
    + destruct (_ =? 1); lia.
    + split.
      * intros H0 q k Hq. apply lookup_insert_Some in Hq as [[<- <-]|[_ Hq]].
        -- destruct (Z.of_nat (length l) =? 1) eqn:H1; [lia|]. apply Z.eqb_neq in H1. lia.
        -- apply (proj1 IH3) with q; [|done]. destruct (_ =? 1); lia.
      * intros Hall.
        assert (length l ≠ 1%nat) as H1 by (apply (Hall p l); by rewrite lookup_insert_eq).
        rewrite (proj2 (Z.eqb_neq _ 1)) by lia.
        rewrite (proj2 IH3); [done|]. intros q k Hq. apply (Hall q k).
        rewrite lookup_insert_ne; [done|]. intros ->. congruence.
Qed.

Lemma existsb_carrying (l : list Agent) :
  existsb carrying_box l = false ↔ ∀ a, a ∈ l → carrying_box a = false.
Proof.
  induction l as [|a l IH]; simpl.
  - split; [intros _ a Ha; by apply elem_of_nil in Ha | done].
  - rewrite orb_false_iff, IH. split.
    + intros [Ha Hl] b [->|Hb]%elem_of_cons; auto.
    + intros H. split; [apply H; left | intros b Hb; apply H; by right].
Qed.

Lemma items_carried_zero (w : Warehouse) :
  items_carried w = 0%nat ↔ ∀ a, a ∈ agents w → carrying_box a = false.
Proof.
  unfold items_carried. induction (agents w) as [|a l IH]; simpl.
  - split; [intros _ a Ha; by apply elem_of_nil in Ha | done].
  - unfold carried at 1. split.
    + intros H b [->|Hb]%elem_of_cons.
      * destruct (carrying_box a); [lia | done].
      * apply IH; [|done]. destruct (carrying_box a); lia.
    + intros H. rewrite (H a) by left. simpl. apply IH. intros b Hb. apply H. by right.
Qed.

Lemma carried_count (w : Warehouse) : boxes_being_carried w = Z.of_nat (items_carried w).
Proof.
  unfold boxes_being_carried, items_carried. induction (agents w) as [|a l IH]; [done|].
  simpl. rewrite IH. unfold carried. destruct (carrying_box a); lia.
Qed.

Lemma reachable_counts w0 w :
  constructed w0 → reachable w0 w →
  count_organized_boxes w + count_single_boxes w + Z.of_nat (items_carried w)
  = Z.of_nat (size (boxes w0)) ∧
  0 ≤ count_single_boxes w ∧
  (count_single_boxes w = 0 ↔ ∀ p l, box_locations w !! p = Some l → length l ≠ 1%nat) ∧
  (∀ p l, box_locations w !! p = Some l → l ≠ []).
Proof.
  intros Hc Hr. destruct (world_ok_reachable _ _ Hc Hr) as (_ & _ & Hlo & _).
  pose proof (sim_inv_reachable _ _ _ Hr (sim_inv_constructed _ Hc)) as [_ _ _ Hitems].
  assert (∀ p l, box_locations w !! p = Some l → l ≠ []) as Hne.
  { intros p l Hl. by destruct (lo_stacks _ Hlo p l Hl). }
  destruct (counts_split (box_locations w) Hne) as (Hsplit & Hpos & Hzero).
  unfold count_organized_boxes, count_single_boxes, items_in_stacks in *.
  split_and!; [lia | done | done | done].
Qed.

(** X6 (the completion test): in every reachable state of a warehouse whose
    boxes were all placed, [all_boxes_organized] is true exactly when no
    agent carries a box and every stack holds at least two boxes; and when
    fewer boxes were placed than [num_boxes] asks for, it is never true. *)
Theorem completion_test (w0 w : Warehouse) :
  constructed w0 → reachable w0 w →
  (Z.of_nat (size (boxes w0)) = num_boxes w0 →
   (all_boxes_organized w = true ↔
    (∀ a, a ∈ agents w → carrying_box a = false) ∧
    (∀ p l, box_locations w !! p = Some l → (2 ≤ length l)%nat))) ∧
  (Z.of_nat (size (boxes w0)) < num_boxes w0 → all_boxes_organized w = false).
Proof.
  intros Hc Hr.
  destruct (reachable_counts _ _ Hc Hr) as (Hsum & Hpos & Hzero & Hne).
  pose proof (reachable_dims _ _ Hr) as Hdims. unfold dims in Hdims.
  assert (num_boxes w = num_boxes w0) as Hnb by congruence.
  assert (0 ≤ count_organized_boxes w) as Horg.
  { unfold count_organized_boxes.
    apply (map_fold_weak_ind (fun acc _ => 0 ≤ acc)); [done|].
    intros p l m acc _ Hacc. destruct (2 <=? _); lia. }
  unfold all_boxes_organized. split.
  - intros Hall. split.
    + destruct (existsb carrying_box (agents w)) eqn:Hcarry; [done|].
      case_bool_decide as Hsingle; [done|]. intros Heq%Z.eqb_eq.
      pose proof (proj1 (existsb_carrying _) Hcarry) as Hnone. split; [done|].
      intros p l Hl. pose proof (Hne p l Hl).
      assert (length l ≠ 1%nat); [|destruct l as [|? [|? ?]]; simpl in *; done || lia].
      intros H1. apply Hsingle. exists p, l. by split.
    + intros [Hcarry Hbig]. rewrite (proj2 (existsb_carrying _) Hcarry).
      rewrite bool_decide_eq_false_2.
      * apply Z.eqb_eq. rewrite (proj2 (items_carried_zero w) Hcarry) in Hsum.
        rewrite (proj2 Hzero) in Hsum; [lia|].
        intros p l Hl. specialize (Hbig p l Hl). lia.
      * intros (p & l & Hl & H1). specialize (Hbig p l Hl). lia.
  - intros Hfew. destruct (existsb carrying_box (agents w)); [done|].
    case_bool_decide; [done|]. apply Z.eqb_neq. lia.
Qed.

Lemma completion_test_witness :
  constructed example_w0 ∧ reachable example_w0 example_w1 ∧
  Z.of_nat (size (boxes example_w0)) = num_boxes example_w0 ∧
  (all_boxes_organized example_w1 = true ↔
   (∀ a, a ∈ agents example_w1 → carrying_box a = false) ∧
   (∀ p l, box_locations example_w1 !! p = Some l → (2 ≤ length l)%nat)).
Proof.
  assert (Z.of_nat (size (boxes example_w0)) = num_boxes example_w0) as Hall
    by (vm_compute; reflexivity).
  split; [exact example_constructed|]. split; [exact example_reachable|].
  split; [exact Hall|].
  exact (proj1 (completion_test example_w0 example_w1 example_constructed example_reachable)
           Hall).
Defined.

(** X7 (the counts of the reports add up): in every reachable state the
    boxes in stacks of two or more ([count_organized_boxes]), the stacks of
    one ([count_single_boxes]) and the boxes being carried together are the
    boxes the constructor placed. *)
Theorem report_counts_add_up (w0 w : Warehouse) :
  constructed w0 → reachable w0 w →
  count_organized_boxes w + count_single_boxes w + boxes_being_carried w
  = Z.of_nat (size (boxes w0)) ∧
  0 ≤ count_organized_boxes w ∧ 0 ≤ count_single_boxes w ∧ 0 ≤ boxes_being_carried w.
Proof.
  intros Hc Hr.
  destruct (reachable_counts _ _ Hc Hr) as (Hsum & Hpos & _ & _).
  rewrite carried_count. split_and!; [done | | done | lia].
  unfold count_organized_boxes.
  apply (map_fold_weak_ind (fun acc _ => 0 ≤ acc)); [done|].
  intros p l m acc _ Hacc. destruct (2 <=? _); lia.
Qed.

Lemma report_counts_add_up_witness :
  constructed example_w0 ∧ reachable example_w0 example_w1 ∧
  count_organized_boxes example_w1 + count_single_boxes example_w1
  + boxes_being_carried example_w1 = Z.of_nat (size (boxes example_w0)).
Proof.
  split; [exact example_constructed|]. split; [exact example_reachable|].
  exact (proj1 (report_counts_add_up example_w0 example_w1
                  example_constructed example_reachable)).
Defined.

(** ** The contract of [move] *)

(** X8 (what a move does): in every reachable state [move] returns, for any
    direction.  It returns [True] exactly when the cell at the agent's
    coordinate plus the direction is inside the grid and holds 0 (empty) or
    2 (a box).  When it returns [False] the warehouse is unchanged.  When it
    returns [True] the agent stands on the new cell with one more movement,
    the new cell holds the agent's marker, the cell it left holds 2 if a
    stack is there and 0 otherwise, every other cell, every other agent's
    core, the stacks and the box table are unchanged. *)
Theorem move_contract (w0 w : Warehouse) (i : nat) (me : Agent) (dx dy : Z) :
  constructed w0 → reachable w0 w → agents w !! i = Some me →
  ∃ ok w', move i (dx, dy) w = Some (ok, w') ∧
    (ok = true ↔
       is_valid_position w (ag_x me + dx) (ag_y me + dy) = true ∧
       (grid_at w (ag_x me + dx) (ag_y me + dy) = Some 0 ∨
        grid_at w (ag_x me + dx) (ag_y me + dy) = Some 2)) ∧
    (ok = false → w' = w) ∧
    (ok = true →
       agent_core <$> agents w'
       = agent_core <$> <[i := set_movements (set_pos me (ag_x me + dx) (ag_y me + dy))
                                              (movements me + 1)]> (agents w) ∧
       box_locations w' = box_locations w ∧ boxes w' = boxes w ∧
       ∀ x y, is_valid_position w x y = true →
         grid_at w' x y
         = if decide ((x, y) = (ag_x me + dx, ag_y me + dy)) then Some (3 + ag_id me)
           else if decide ((x, y) = (ag_x me, ag_y me))
                then Some (if 0 <? count_stack_size w (ag_x me) (ag_y me) then 2 else 0)
                else grid_at w x y).
Proof.
  intros Hc Hr Hme.
  assert (acting i w) as Hact.
  { apply (reachable_acting w0); [done | done |]. by eapply lookup_lt_Some. }
  destruct (steady_acting_move i (dx, dy) w Hact) as (ok & w' & Hrun & _).
  exists ok, w'. split; [done|].
  destruct Hact as [(Hgeo & _) _].
  destruct (move_run i dx dy w me Hgeo Hme) as [[Hno Hsame]|(Hyes & g & _ & Hg & Hmove)].
  - rewrite Hsame in Hrun. injection Hrun as <- <-. split_and!; [|done|done].
    split; [done|]. intros [Hv Hcell]. unfold can_move_to in Hno. rewrite Hv in Hno.
    simpl in Hno. destruct Hcell as [Hcell|Hcell]; rewrite Hcell in Hno; discriminate.
  - rewrite Hmove in Hrun. run_inv Hrun.
    apply preserves_core_sense_environment in Hrun0.
    destruct Hrun0 as (_ & _ & _ & _ & Hgrid & Hboxes & Hlocs & _ & _ & _ & _ & Hcore).
    split_and!; [|done|].
    + split; [intros _; by apply can_move_to_true in Hyes | done].
    + intros _. split_and!; [exact Hcore | exact Hlocs | exact Hboxes |].
      intros x y Hv. rewrite <- (Hg x y Hv). unfold grid_at. by rewrite Hgrid.
Qed.

Lemma move_contract_witness :
  constructed example_w0 ∧ reachable example_w0 example_w1 ∧
  agents example_w1 !! 0%nat = Some example_agent ∧
  ∃ ok w', move 0 (0, 1) example_w1 = Some (ok, w') ∧
    (ok = false → w' = example_w1).
Proof.
  assert (agents example_w1 !! 0%nat = Some example_agent) as Hme by (vm_compute; reflexivity).
  split; [exact example_constructed|]. split; [exact example_reachable|].
  split; [exact Hme|].
  destruct (move_contract example_w0 example_w1 0 example_agent 0 1
              example_constructed example_reachable Hme) as (ok & w' & Hrun & _ & Hno & _).
  exists ok, w'. split; [exact Hrun | exact Hno].
Defined.

(** ** The counters of the simulation loop *)

Lemma same_core_fixes_steps w w' : same_core w w' → fixes steps w w'.
Proof. intros H. unfold same_core in H. by destruct_and!. Qed.

#[global] Hint Extern 1 (preserves (fixes steps) (update_self _ _)) =>
  (apply preserves_update_self; intros; reflexivity) : pres.
#[global] Hint Extern 1 (preserves (fixes steps) (modify _)) =>
  (apply preserves_modify; intros ?; reflexivity) : pres.
#[global] Hint Extern 1 (preserves (fixes steps) (update_box _ _)) =>
  (apply preserves_update_box; intros ? ?; reflexivity) : pres.
#[global] Hint Extern 1 (preserves (fixes steps) (grid_assign _ _ _)) =>
  (apply preserves_grid_assign; intros ? ?; reflexivity) : pres.
#[global] Hint Extern 5 (preserves (fixes steps) _) =>
  (eapply preserves_weaken; [exact same_core_fixes_steps | solve [eauto with pres]]) : pres.

Lemma fixes_steps_remove_box_from_grid x y : preserves (fixes steps) (remove_box_from_grid x y).
Proof. unfold remove_box_from_grid. pres. Qed.
#[global] Hint Resolve fixes_steps_remove_box_from_grid : pres.

Lemma fixes_steps_place_box x y box_id agent_id :
  preserves (fixes steps) (place_box x y box_id agent_id).
Proof. unfold place_box. pres. Qed.
#[global] Hint Resolve fixes_steps_place_box : pres.

Lemma fixes_steps_pick_up_box i x y : preserves (fixes steps) (pick_up_box i x y).
Proof. unfold pick_up_box. pres. Qed.
#[global] Hint Resolve fixes_steps_pick_up_box : pres.

Lemma fixes_steps_drop_box i : preserves (fixes steps) (drop_box i).
Proof. unfold drop_box. pres. Qed.
#[global] Hint Resolve fixes_steps_drop_box : pres.

Lemma fixes_steps_move i direction : preserves (fixes steps) (move i direction).
Proof. destruct direction. unfold move. pres. Qed.
#[global] Hint Resolve fixes_steps_move : pres.

Lemma fixes_steps_agent_turn i tape : preserves (fixes steps) (agent_turn i tape).
Proof. unfold agent_turn, decide_action, execute_action. pres. Qed.

Lemma simulation_step_counters step tape w tape' w' :
  simulation_step step tape w = Some (tape', w') →
  steps w' = step + 1 ∧ total_movements w' = sum_movements (agents w').
Proof.
  intros H. unfold simulation_step in H. run_inv H.
  assert (preserves (fixes steps)
            (for_each_tape
               (seq 0 (length (agents (set_counters w (total_movements w) (step + 1)))))
               agent_turn v.2)) as Hturns.
  { apply preserves_for_each_tape; [apply _|]. intros. apply fixes_steps_agent_turn. }
  apply Hturns in Hrun. unfold fixes in Hrun. simpl in *. by rewrite Hrun.
Qed.

Lemma run_steps_counters remaining step tape w tape' w' :
  run_steps remaining step tape w = Some (tape', w') →
  (remaining = 0%nat ∧ w' = w) ∨
  ∃ k : nat, (1 ≤ k ≤ remaining)%nat ∧ steps w' = step + Z.of_nat k ∧
             total_movements w' = sum_movements (agents w') ∧
             (all_boxes_organized w' = false → k = remaining).
Proof.
  revert step tape w. induction remaining as [|n IH]; intros step tape w H; simpl in H.
  - run_inv H. by left.
  - right. apply bind_Some in H as (tape1 & w1 & Hrun & H).
    apply bind_Some in H as (w2 & w3 & Hget & H). run_inv Hget.
    destruct (simulation_step_counters _ _ _ _ _ Hrun) as [Hs Hm].
    destruct (all_boxes_organized w1) eqn:Hdone.
    + run_inv H. exists 1%nat. split_and!; [lia | lia | lia | done | congruence].
    + destruct (IH _ _ _ H) as [[-> ->]|(k & Hk & Hsteps & Hmov & Hlast)].
      * exists 1%nat. split_and!; [lia | lia | lia | done | done].
      * exists (S k). split_and!; [lia | lia | lia | done | intros ?; f_equal; auto].
Qed.

(** X9 (the counters of the loop): when [run_simulation] returns, its result
    is [all_boxes_organized] of the final warehouse.  With [max_steps] zero
    the warehouse is unchanged.  Otherwise [steps] is the number of passes
    made, between 1 and [max_steps], and [total_movements] is the sum of the
    agents' movement counters; a result of [False] means that all
    [max_steps] passes were made, so a run that stops early has succeeded. *)
Theorem simulation_counters (max_steps : nat) (tape : list Z) (w : Warehouse)
    (r : bool) (w' : Warehouse) :
  run_simulation max_steps tape w = Some (r, w') →
  r = all_boxes_organized w' ∧
  (max_steps = 0%nat → w' = w) ∧
  ((0 < max_steps)%nat →
     1 ≤ steps w' ≤ Z.of_nat max_steps ∧
     total_movements w' = sum_movements (agents w') ∧
     (r = false → steps w' = Z.of_nat max_steps)).
Proof.
  intros H. unfold run_simulation in H. run_inv H. split; [done|].
  destruct (run_steps_counters _ _ _ _ _ _ Hrun)
    as [[-> ->]|(k & Hk & Hsteps & Hmov & Hlast)].
  - split; [done | lia].
  - split; [lia|]. intros _. split_and!; [lia | lia | done |].
    intros Hr. rewrite (Hlast Hr) in Hsteps. lia.
Qed.

Lemma simulation_counters_witness :
  ∃ r w', run_simulation 3 (replicate 24 5) example_w0 = Some (r, w') ∧
          r = all_boxes_organized w' ∧ 1 ≤ steps w' ≤ 3 ∧
          total_movements w' = sum_movements (agents w').
Proof.
  destruct (run_simulation 3 (replicate 24 5) example_w0) as [[r w']|] eqn:Hrun;
    [|vm_compute in Hrun; discriminate].
  exists r, w'. split; [reflexivity|].
  destruct (simulation_counters 3 (replicate 24 5) example_w0 r w' Hrun) as (Hr & _ & Hpos).
  destruct (Hpos ltac:(lia)) as (Hsteps & Hmov & _).
  split; [exact Hr|]. split; [exact Hsteps | exact Hmov].
Defined.

(** ** Random search points *)

(** X10 (a search point needs one try): in every reachable state with an
    agent, [find_random_search_point] returns after its first two draws,
    whatever they are: a cell strictly inside the walls is never a wall, so
    the [while True] loop never repeats.  The point is inside the walls and
    its cell is empty, a box or a robot. *)
Theorem search_point_first_try (w0 w : Warehouse) (i : nat) (me : Agent)
    (r1 r2 : Z) (tape : list Z) :
  constructed w0 → reachable w0 w → agents w !! i = Some me →
  ∃ x y, find_random_search_point w (r1 :: r2 :: tape) = Some ((x, y), tape) ∧
         1 ≤ x ≤ width w - 2 ∧ 1 ≤ y ≤ height w - 2 ∧
         (get_cell_type w x y = Some CEmpty ∨ get_cell_type w x y = Some CBox ∨
          get_cell_type w x y = Some CRobot).
Proof.
  intros Hc Hr Hme.
  assert (acting i w) as Hact.
  { apply (reachable_acting w0); [done | done |]. by eapply lookup_lt_Some. }
  pose proof (world_searchable _ _ Hact) as Hs.
  destruct (find_random_search_point_first w r1 r2 tape Hs)
    as (x & y & Hfind & _ & _ & Hx & Hy & ct & Hct & Hne).
  exists x, y. split_and!; [done | lia | lia | lia | lia |].
  destruct Hact as [(Hgeo & _ & Hlo & _) _].
  pose proof (interior_valid w x y Hx Hy) as Hv.
  unfold get_cell_type in *. rewrite Hv in *. simpl in *.
  destruct (grid_at w x y) as [cell|] eqn:Hcell; [|done]. simpl in *.
  destruct (cell =? 0) eqn:H0; [by left|].
  destruct (cell =? 1) eqn:H1; [by injection Hct as <-|].
  destruct (cell =? 2) eqn:H2; [right; by left|].
  destruct (3 <=? cell) eqn:H3; [right; by right|].
  destruct (lo_cells _ Hlo x y cell Hv Hcell)
    as [[-> _]|[(-> & _)|[[-> _]|(a & Ha & -> & _)]]]; try done.
  apply list_elem_of_lookup in Ha as [j Ha].
  destruct (geometry_lookup _ _ _ Hgeo Ha) as (Hid & _).
  apply Z.leb_gt in H3. lia.
Qed.

Lemma search_point_first_try_witness :
  constructed example_w0 ∧ reachable example_w0 example_w1 ∧
  agents example_w1 !! 0%nat = Some example_agent ∧
  ∃ x y, find_random_search_point example_w1 [11; 4; 9] = Some ((x, y), [9]) ∧
         1 ≤ x ≤ width example_w1 - 2 ∧ 1 ≤ y ≤ height example_w1 - 2.
Proof.
  assert (agents example_w1 !! 0%nat = Some example_agent) as Hme by (vm_compute; reflexivity).
  split; [exact example_constructed|]. split; [exact example_reachable|].
  split; [exact Hme|].
  destruct (search_point_first_try example_w0 example_w1 0 example_agent 11 4 [9]
              example_constructed example_reachable Hme) as (x & y & Hfind & Hx & Hy & _).
  exists x, y. split; [exact Hfind|]. split; [exact Hx | exact Hy].
Defined.

(** ** Sorting the candidates *)

#[global] Instance triple_le_total : Total triple_le.
Proof. intros [[a1 a2] a3] [[b1 b2] b3]. unfold triple_le. lia. Qed.

#[global] Instance triple_le_trans : Transitive triple_le.
Proof. intros [[a1 a2] a3] [[b1 b2] b3] [[c1 c2] c3]. unfold triple_le. lia. Qed.

#[global] Instance flip_triple_le_total : Total (flip triple_le).
Proof. intros [[a1 a2] a3] [[b1 b2] b3]. unfold flip, triple_le. lia. Qed.

(** The head of the sorted candidates is one of them and no candidate is
    before it. *)
Lemma sort_head (l : list (Z * Z * Z)) :
  l ≠ [] → ∃ h rest, sort l = h :: rest ∧ h ∈ l ∧ ∀ t, t ∈ l → triple_le h t.
Proof.
  intros Hne. unfold sort.
  pose proof (merge_sort_Permutation triple_le l) as Hperm.
  pose proof (StronglySorted_merge_sort triple_le l) as Hsorted.
  destruct (merge_sort triple_le l) as [|h rest].
  - apply Permutation_nil_l in Hperm. congruence.
  - exists h, rest. split; [done|]. split; [rewrite <- Hperm; left|].
    intros t Ht. rewrite <- Hperm in Ht. apply StronglySorted_inv in Hsorted as [_ Hall].
    apply elem_of_cons in Ht as [->|Ht].
    + destruct h as [[h1 h2] h3]. unfold triple_le. lia.
    + by eapply Forall_forall in Hall.
Qed.

Lemma sort_reverse_head (l : list (Z * Z * Z)) :
  l ≠ [] → ∃ h rest, sort_reverse l = h :: rest ∧ h ∈ l ∧ ∀ t, t ∈ l → triple_le t h.
Proof.
  intros Hne. unfold sort_reverse.
  pose proof (merge_sort_Permutation (flip triple_le) l) as Hperm.
  pose proof (StronglySorted_merge_sort (flip triple_le) l) as Hsorted.
  destruct (merge_sort (flip triple_le) l) as [|h rest].
  - apply Permutation_nil_l in Hperm. congruence.
  - exists h, rest. split; [done|]. split; [rewrite <- Hperm; left|].
    intros t Ht. rewrite <- Hperm in Ht. apply StronglySorted_inv in Hsorted as [_ Hall].
    apply elem_of_cons in Ht as [->|Ht].
    + destruct h as [[h1 h2] h3]. unfold triple_le. lia.
    + eapply Forall_forall in Hall; [|exact Ht]. exact Hall.
Qed.

(** ** The shelf of a delivering agent *)

Lemma elem_of_shelf_candidates w me s x y :
  (s, x, y) ∈ shelf_candidates w me ↔
  open_shelf w me (x, y) ∧ s = - manhattan (position me) (x, y).
Proof.
  unfold shelf_candidates. rewrite list_elem_of_omap. split.
  - intros ([[sx sy] box_ids] & Hin & Hsome). apply elem_of_map_to_list in Hin.
    case_bool_decide as Hsize; [|done].
    destruct (is_target_available me (sx, sy) || bool_decide (target me = Some (sx, sy)))
      eqn:Hav; [|done].
    injection Hsome as <- <- <-. split; [|done].
    exists box_ids. split; [done|]. split; [lia|].
    apply orb_true_iff in Hav as [Hav|Hav]; [by left | right; by apply bool_decide_eq_true in Hav].
  - intros [(box_ids & Hl & Hsize & Hav) ->]. exists ((x, y), box_ids).
    split; [by apply elem_of_map_to_list|].
    rewrite bool_decide_eq_true_2 by lia.
    assert (is_target_available me (x, y) || bool_decide (target me = Some (x, y)) = true)
      as ->; [|done].
    apply orb_true_iff. destruct Hav as [Hav|Hav]; [by left | right; by apply bool_decide_eq_true].
Qed.

(** X11 (the nearest open shelf): when some stack of one to four boxes is
    open to the agent (not claimed by another agent as far as it knows, or
    its target already), [find_nearest_shelf] returns such a stack at the
    least Manhattan distance from the agent, and among those at that
    distance the last in the order of the coordinate pairs. *)
Theorem nearest_shelf_choice (w : Warehouse) (me : Agent) (p : Z * Z) :
  open_shelf w me p →
  ∃ best, find_nearest_shelf w me = Some (Some best) ∧ open_shelf w me best ∧
          ∀ q, open_shelf w me q →
               manhattan (position me) best ≤ manhattan (position me) q ∧
               (manhattan (position me) q = manhattan (position me) best → pos_le q best).
Proof.
  intros Hp. destruct p as [px py].
  assert ((- manhattan (position me) (px, py), px, py) ∈ shelf_candidates w me) as Hin
    by by apply elem_of_shelf_candidates.
  unfold find_nearest_shelf.
  destruct (shelf_candidates w me) as [|c cs] eqn:Hcs; [by apply elem_of_nil in Hin|].
  destruct (sort_reverse_head (c :: cs)) as ([[s bx] by_] & rest & Hsort & Hbest & Hmax); [done|].
  rewrite Hsort. simpl. exists (bx, by_). split; [done|].
  rewrite <- Hcs in Hbest, Hmax.
  apply elem_of_shelf_candidates in Hbest as [Hopen ->]. split; [done|].
  intros [qx qy] Hq.
  assert ((- manhattan (position me) (qx, qy), qx, qy) ∈ shelf_candidates w me) as Hqin
    by by apply elem_of_shelf_candidates.
  apply Hmax in Hqin. unfold triple_le in Hqin. unfold pos_le. simpl. lia.
Qed.

Lemma nearest_shelf_choice_witness :
  open_shelf example_w1 example_agent (1, 1) ∧
  ∃ best, find_nearest_shelf example_w1 example_agent = Some (Some best) ∧
          open_shelf example_w1 example_agent best.
Proof.
  assert (open_shelf example_w1 example_agent (1, 1)) as Hopen.
  { exists [0]. split; [vm_compute; reflexivity|]. split; [simpl; lia|].
    left. vm_compute; reflexivity. }
  split; [exact Hopen|].
  destruct (nearest_shelf_choice example_w1 example_agent (1, 1) Hopen)
    as (best & Hfind & Hbest & _).
  exists best. split; [exact Hfind | exact Hbest].
Defined.

(** ** A spot for a new shelf *)

Lemma elem_of_interior_cells (w : Warehouse) (x y : Z) :
  (x, y) ∈ (x ← Py.range 1 (width w - 1); y ← Py.range 1 (height w - 1); [(x, y)])
  ↔ 1 ≤ x ≤ width w - 2 ∧ 1 ≤ y ≤ height w - 2.
Proof.
  rewrite list_elem_of_bind. split.
  - intros (x' & Hin & Hx). apply list_elem_of_bind in Hin as (y' & Hin & Hy).
    apply list_elem_of_singleton in Hin as [= -> ->].
    apply elem_of_range in Hx, Hy. lia.
  - intros [Hx Hy]. exists x. split; [|apply elem_of_range; lia].
    apply list_elem_of_bind. exists y. split; [by apply list_elem_of_singleton|].
    apply elem_of_range; lia.
Qed.

Lemma elem_of_empty_spot_candidates w me cells candidates s x y :
  empty_spot_candidates w me (width w `div` 2) (height w `div` 2) cells = Some candidates →
  (s, x, y) ∈ candidates ↔
  (x, y) ∈ cells ∧ get_cell_type w x y = Some CEmpty ∧
  is_target_available me (x, y) = true ∧ s = - spot_cost w me (x, y).
Proof.
  revert candidates. induction cells as [|[cx cy] rest IH]; intros candidates H; simpl in H.
  - injection H as <-. split; [intros []%elem_of_nil | intros [[]%elem_of_nil _]].
  - destruct (get_cell_type w cx cy) as [ct|] eqn:Hct; [|done].
    destruct (empty_spot_candidates w me _ _ rest) as [cands|]; [|done].
    specialize (IH cands eq_refl).
    destruct (bool_decide (ct = CEmpty) && is_target_available me (cx, cy)) eqn:Hok;
      injection H as <-.
    + apply andb_true_iff in Hok as [->%bool_decide_eq_true Hav].
      rewrite elem_of_cons, IH, elem_of_cons. split.
      * intros [[= -> -> ->]|(Hin & ? & ? & ?)].
        -- split_and!; [by left | done | done |].
           unfold spot_cost, manhattan, position. simpl. lia.
        -- split_and!; [by right | done | done | done].
      * intros ([[= -> ->]|Hin] & ? & ? & ->).
        -- left. unfold spot_cost, manhattan, position. simpl. do 2 f_equal. lia.
        -- right. by split_and!.
    + rewrite IH, elem_of_cons. split; [intros (? & ? & ? & ?); by split_and!; [right|..]|].
      intros ([[= -> ->]|Hin] & Hty & Hav & ->); [|by split_and!].
      rewrite Hct in Hty. injection Hty as ->.
      rewrite bool_decide_eq_true_2, Hav in Hok by done. done.
Qed.

(** Inside the walls of a grid that an agent stands on, the doubled score
    of a cell is far below [2^53], so the float score of the source is
    exact. *)
Lemma spot_cost_bound (w : Warehouse) (me : Agent) (p : Z * Z) :
  is_valid_position w (ag_x me) (ag_y me) = true →
  1 ≤ p.1 ≤ width w - 2 → 1 ≤ p.2 ≤ height w - 2 →
  0 ≤ spot_cost w me p ≤ 3 * (width w + height w).
Proof.
  intros [Hx Hy]%valid_bounds Hp1 Hp2. unfold spot_cost, manhattan, position. simpl.
  pose proof (Z.div_pos (width w) 2). pose proof (Z.div_pos (height w) 2).
  pose proof (Z.div_le_upper_bound (width w) 2 (width w)).
  pose proof (Z.div_le_upper_bound (height w) 2 (height w)). lia.
Qed.

(** X12 (the spot for a new shelf): on a well-formed grid of which the
    width and the height add up to at most [2^50], for an agent that stands
    inside the grid, [find_empty_spot_for_new_shelf] returns.  When some
    empty cell inside the walls is not claimed by another agent as far as
    the agent knows, it returns such a cell for which twice the Manhattan
    distance to the centre ([width // 2], [height // 2]) plus the distance
    to the agent is least, the last in the order of the coordinate pairs
    among those; when there is none it returns [None].
    [find_nearest_shelf] is this search when no stack is open to the agent.
    Under the bound the doubled score of every such cell is below [2^53],
    where the float score of the source is exact and orders the cells as
    the integers here do. *)
Theorem empty_spot_choice (w : Warehouse) (me : Agent) :
  grid_wf w →
  is_valid_position w (ag_x me) (ag_y me) = true →
  width w + height w ≤ 2 ^ 50 →
  (∀ p, free_spot w me p → 0 ≤ spot_cost w me p < 2 ^ 53) ∧
  (∀ p, free_spot w me p →
     ∃ best, find_empty_spot_for_new_shelf w me = Some (Some best) ∧ free_spot w me best ∧
             ∀ q, free_spot w me q →
                  spot_cost w me best ≤ spot_cost w me q ∧
                  (spot_cost w me q = spot_cost w me best → pos_le q best)) ∧
  ((∀ p, ¬ free_spot w me p) → find_empty_spot_for_new_shelf w me = Some None) ∧
  ((∀ p, ¬ open_shelf w me p) →
     find_nearest_shelf w me = find_empty_spot_for_new_shelf w me).
Proof.
  intros Hwf Hme Hsmall.
  destruct (empty_spot_candidates_total w me (width w `div` 2) (height w `div` 2)
              (x ← Py.range 1 (width w - 1); y ← Py.range 1 (height w - 1); [(x, y)]) Hwf)
    as [candidates Hcands].
  assert (Hspec : ∀ s x y, (s, x, y) ∈ candidates ↔
                           free_spot w me (x, y) ∧ s = - spot_cost w me (x, y)).
  { intros s x y. rewrite (elem_of_empty_spot_candidates _ _ _ _ s x y Hcands).
    rewrite elem_of_interior_cells. unfold free_spot. simpl. tauto. }
  unfold find_empty_spot_for_new_shelf. rewrite Hcands. split_and!.
  - intros p (Hp1 & Hp2 & _). pose proof (spot_cost_bound w me p Hme Hp1 Hp2).
    assert (3 * 2 ^ 50 < 2 ^ 53) by (vm_compute; reflexivity). lia.
  - intros [px py] Hp.
    assert ((- spot_cost w me (px, py), px, py) ∈ candidates) as Hin by by apply Hspec.
    destruct (sort_reverse_head candidates) as ([[s bx] by_] & rest & Hsort & Hbest & Hmax).
    { intros ->. by apply elem_of_nil in Hin. }
    rewrite Hsort. simpl. exists (bx, by_). split; [done|].
    apply Hspec in Hbest as [Hfree ->]. split; [done|].
    intros [qx qy] Hq.
    assert ((- spot_cost w me (qx, qy), qx, qy) ∈ candidates) as Hqin by by apply Hspec.
    apply Hmax in Hqin. unfold triple_le in Hqin. unfold pos_le. simpl. lia.
  - intros Hnone. destruct candidates as [|[[s x] y] rest]; [done|].
    exfalso. apply (Hnone (x, y)). apply (Hspec s x y). left.
  - intros Hnone. unfold find_nearest_shelf.
    destruct (shelf_candidates w me) as [|[[s x] y] cs] eqn:Hcs.
    + unfold find_empty_spot_for_new_shelf. by rewrite Hcands.
    + exfalso. apply (Hnone (x, y)).
      apply (elem_of_shelf_candidates w me s x y). rewrite Hcs. left.
Qed.

Lemma empty_spot_choice_witness :
  grid_wf example_w1 ∧
  is_valid_position example_w1 (ag_x example_agent) (ag_y example_agent) = true ∧
  width example_w1 + height example_w1 ≤ 2 ^ 50 ∧
  free_spot example_w1 example_agent (4, 3) ∧
  ∃ best, find_empty_spot_for_new_shelf example_w1 example_agent = Some (Some best) ∧
          free_spot example_w1 example_agent best.
Proof.
  assert (grid_wf example_w1) as Hwf.
  { exact (proj1 (proj1 (world_ok_reachable example_w0 example_w1
                           example_constructed example_reachable))). }
  assert (is_valid_position example_w1 (ag_x example_agent) (ag_y example_agent) = true)
    as Hme by (vm_compute; reflexivity).
  assert (width example_w1 + height example_w1 ≤ 2 ^ 50) as Hsmall
    by (vm_compute; intros H; discriminate H).
  assert (free_spot example_w1 example_agent (4, 3)) as Hfree.
  { unfold free_spot. repeat split; vm_compute; first [reflexivity | intros H; discriminate H]. }
  split; [exact Hwf|]. split; [exact Hme|]. split; [exact Hsmall|]. split; [exact Hfree|].
  destruct (proj1 (proj2 (empty_spot_choice example_w1 example_agent Hwf Hme Hsmall))
              (4, 3) Hfree) as (best & Hfind & Hbest & _).
  exists best. split; [exact Hfind | exact Hbest].
Defined.

(** ** The fallback of a delivering agent, both ways *)

(** A drop that [can_place_box] refuses returns [False] and changes
    nothing. *)
Lemma drop_box_refused i w me :
  agents w !! i = Some me →
  can_place_box w (ag_x me) (ag_y me) (ag_id me) = Some false →
  drop_box i w = Some (false, w).
Proof.
  intros Hme Hno. unfold drop_box. rewrite (bind_run _ _ _ _ _ (self_run _ _ _ Hme)).
  destruct (carrying_box me); simpl; [|done].
  rewrite (bind_run get _ w w w eq_refl).
  by rewrite (bind_run (lift _) _ w false w) by (unfold lift; by rewrite Hno).
Qed.

(** X13 (the fallback of a delivering agent): when a DELIVERING agent that
    carries a box finds no shelf candidate in [decide_action] (after its
    messages and its sensing), it draws nothing from the random tape and its
    state becomes SEARCHING.  If [can_place_box] allows its own cell (fewer
    than five boxes under it), the carried box goes on top of the stack there
    and the agent carries nothing; if [can_place_box] refuses (a stack of
    five under it), nothing is dropped: the agent keeps the box and only its
    state changes. *)
Theorem delivering_fallback_behaviour (i : nat) (tape : list Z) (w : Warehouse) (u : unit)
    (w1 : Warehouse) (me : Agent) (tape' : list Z) (w' : Warehouse) :
  (process_messages i ;; sense_environment i) w = Some (u, w1) →
  agents w1 !! i = Some me → state me = DELIVERING → carrying_box me = true →
  find_nearest_shelf w1 me = Some None →
  decide_action i tape w = Some (tape', w') →
  tape' = tape ∧
  (can_place_box w1 (ag_x me) (ag_y me) (ag_id me) = Some true →
     ∃ box_id, carried_box_id me = Some box_id ∧
       agents w' = <[i := set_state (set_carrying me false None) SEARCHING]> (agents w1) ∧
       box_locations w'
       = <[(ag_x me, ag_y me) := stack_at (box_locations w1) (ag_x me, ag_y me) ++ [box_id]]>
           (box_locations w1)) ∧
  (can_place_box w1 (ag_x me) (ag_y me) (ag_id me) = Some false →
     w' = set_agents w1 (<[i := set_state me SEARCHING]> (agents w1))).
Proof.
  intros Hpre Hme Hst Hcarry Hshelf H. unfold decide_action in H.
  apply bind_Some in Hpre as (u1 & w0 & Hp1 & Hp2).
  apply bind_Some in H as (u1' & w0' & Hq1 & H).
  rewrite Hp1 in Hq1. injection Hq1 as <- <-.
  apply bind_Some in H as (u2' & w1' & Hq2 & H).
  rewrite Hp2 in Hq2. injection Hq2 as <- <-.
  apply bind_Some in H as (me' & w1' & Hs & H).
  apply self_Some in Hs as (me'' & Hme'' & [= -> ->]).
  assert (me'' = me) as -> by congruence. rewrite Hst in H.
  apply bind_Some in H as (w1' & w1'' & Hg & H). apply get_Some in Hg as [= -> ->].
  apply bind_Some in H as (shelf & w1' & Hl & H).
  apply lift_Some in Hl as (shelf' & Hl & [= -> ->]).
  rewrite Hshelf in Hl. injection Hl as <-.
  apply bind_Some in H as (dropped & w2 & Hdrop & H).
  apply bind_Some in H as (u3 & w3 & Hset & H).
  apply ret_Some in H as [= -> ->].
  apply update_self_Some in Hset as (a2 & Ha2 & [= _ ->]).
  split; [done|]. split.
  - intros Hyes.
    destruct (drop_box_spec _ _ _ _ Hdrop)
      as [[-> ->]|(_ & me' & b & Hme' & _ & Hcid & _ & Hloc & Hag)].
    + exfalso. eapply drop_box_false in Hdrop as [Hc|Hp]; [| |exact Hme]; congruence.
    + assert (me' = me) as -> by congruence. exists b. split; [done|].
      simpl. rewrite Hag in Ha2.
      rewrite list_lookup_insert_eq in Ha2 by (by eapply lookup_lt_Some).
      injection Ha2 as <-. rewrite Hag, list_insert_insert_eq. by split.
  - intros Hno. rewrite (drop_box_refused i w1 me Hme Hno) in Hdrop.
    injection Hdrop as <- <-. assert (a2 = me) as -> by congruence. done.
Qed.

Lemma delivering_fallback_behaviour_witness :
  (process_messages 0 ;; sense_environment 0) fallback_w = Some (tt, fallback_w) ∧
  agents fallback_w !! 0%nat = Some fallback_me ∧
  state fallback_me = DELIVERING ∧ carrying_box fallback_me = true ∧
  find_nearest_shelf fallback_w fallback_me = Some None ∧
  can_place_box fallback_w (ag_x fallback_me) (ag_y fallback_me) (ag_id fallback_me)
  = Some false ∧
  ∃ w', decide_action 0 [] fallback_w = Some ([], w') ∧
        w' = set_agents fallback_w
               (<[0%nat := set_state fallback_me SEARCHING]> (agents fallback_w)).
Proof.
  assert ((process_messages 0 ;; sense_environment 0) fallback_w = Some (tt, fallback_w))
    as Hpre by (vm_compute; reflexivity).
  assert (agents fallback_w !! 0%nat = Some fallback_me) as Hme by reflexivity.
  assert (find_nearest_shelf fallback_w fallback_me = Some None) as Hshelf
    by (vm_compute; reflexivity).
  assert (can_place_box fallback_w (ag_x fallback_me) (ag_y fallback_me) (ag_id fallback_me)
          = Some false) as Hno by (vm_compute; reflexivity).
  destruct (decide_action 0 [] fallback_w) as [[tape' w']|] eqn:Hrun;
    [|vm_compute in Hrun; discriminate].
  destruct (delivering_fallback_behaviour 0 [] fallback_w tt fallback_w fallback_me tape' w'
              Hpre Hme eq_refl eq_refl Hshelf Hrun) as (-> & _ & Hfull).
  split_and!; [exact Hpre | exact Hme | reflexivity | reflexivity | exact Hshelf | exact Hno |].
  exists w'. split; [reflexivity | exact (Hfull Hno)].
Defined.
